(* ===== verification/_CoqProject ===== *)
-Q . S2P
Prelude.v
Types.v
CxxString.v
Logger.v
Protocol.v
Socket.v
SocketOwnership.v
FilePath.v
FileManager.v
ClientSession.v
SessionRace.v
Server.v
ServerMain.v
ClientMain.v
EndToEnd.v
