(* ===== verification/Prelude.v ===== *)
(** * Multi-client media streaming server: verification library

    ** The programs

    The repository builds two programs on one core library (C++17, POSIX
    sockets). The server [media_server] accepts TCP connections, runs one
    [ClientSession] per connection in a thread of its own, and answers a line
    protocol: [LIST] sends the catalogue of the media directory, [GET name] a
    header line with the file's size followed by the file in chunks, [QUIT] ends
    the session. The client [media_client] asks for the catalogue or saves one
    file. [Socket] wraps a descriptor and the send and receive loops,
    [FileManager] confines requests to the media directory, [Protocol] parses
    requests and builds responses, [Server] owns the listening socket and the
    registry of workers and handles shutdown, [Logger] writes the log.

    ** Files of this development, and the source each one models

    - [Prelude]: bytes, machine integers, the outcome monad [M] (normal return,
      uncaught exception, blocked system call, no fuel), loops, the program
      logic [wp] with its invariant-and-variant rule, lists.
    - [Types]: include/streamer/Types.hpp; [errno] and log arguments.
    - [CxxString]: the standard library's text operations the sources call.
    - [Logger]: include/streamer/Logger.hpp, src/Logger.cpp.
    - [Protocol]: include/streamer/Protocol.hpp, src/Protocol.cpp.
    - [Socket]: include/streamer/Socket.hpp, src/Socket.cpp, over the world [io]
      of kernel answers. A system call takes its next answer from a list of the
      world; the lists are arbitrary, so a theorem about every world is a
      theorem about every behaviour of the kernel and the peer.
    - [SocketOwnership]: the constructors, moves, [close] and destructor of
      [Socket], over a heap of objects and the set of open descriptors.
    - [FilePath]: [std::filesystem::path] and [weakly_canonical] over a
      parameter [OS], the operating system's answers.
    - [FileManager]: include/streamer/FileManager.hpp, src/FileManager.cpp; the
      class [MediaStore] with its laws [MediaStoreLaws] is the interface the
      session is proved against, and [FileManager] an instance of it. The
      interface is the development's own; the sources have one class.
    - [ClientSession]: include/streamer/ClientSession.hpp,
      src/ClientSession.cpp: the object and its world; [stop()] called by other
      threads is an arbitrary list of interruptions, each taken as a whole
      between two accesses of the session's thread.
    - [SessionRace]: [ClientSession::stop] against the end of
      [ClientSession::run], one step per access to the shared members.
    - [Server], module [Startup]: [Server::start] and one turn of the accept
      loop; module [Threads]: accept loop, sweep, [stop()], signal handler and
      worker threads as a step relation, one step per lock, atomic access or
      blocking call. [own_step] are the steps the server makes unaided; [step]
      adds what clients and the kernel may do.
    - [ServerMain]: the command line of src/server_main.cpp.
    - [ClientMain]: src/client_main.cpp: [do_list], [do_get], command line.
    - [EndToEnd]: a session and a client composed.

    Definitions carry the sources' names: [ClientSession.handle_get] is
    [ClientSession::handle_get], [Socket.recv_line] is [Socket::recv_line]. A
    member function takes its object as an argument and returns what it changes.
    [X_body] is one iteration of the loop of [X]. [FileManager]'s queries have
    the prefix [fm_], since the interface has the plain names.

    ** What the theorems show

    - End to end: what a session sends in answer to [GET f] is saved by the
      client as exactly the file's content, through any segmentation of the
      stream ([download_end_to_end]); a catalogue of single-word names survives
      the trip ([list_round_trip]).
    - Sessions: the whole thread function implements a conversation, line by
      line ([session_conversation]); for every kernel behaviour and every
      [stop()], only beginnings of the right responses are sent, in order
      ([session_sends_only_responses]); the output does not depend on chunk size,
      segmentation or partial sends ([session_output_deterministic]); a session
      that no other thread stops closes its descriptor exactly once
      ([session_closes_once]), one that is stopped at least once and at most
      twice ([stop_races_with_run]).
    - Sockets: [send_all] and the receive functions against the byte stream;
      what [recv_line] returns and leaves is described by the bytes alone
      ([recv_line_refines]; [line_spec] is the same as a function, used by the
      session and the client); descriptors have one owner
      ([sockets_owned_once]).
    - Files: the name the sandbox lets through has the canonical root in front
      ([resolve_safe_path_confined]); for which existing targets it does
      ([resolve_safe_path_exact]); for which requests the object served really
      lies inside, and that for the others it need not
      ([store_reads_inside_root]); [FileManager] meets the interface
      ([file_manager_implements_store]).
    - Start-up: [start] and one [accept] against every answer of the kernel
      ([start_listens], [accept_one_session]).
    - Threads: invariants of the registry in every interleaving
      ([registry_sound], [worker_erased_finished]), what holds when [stop()]
      returns ([stop_finishes_sessions], [quiet_shutdown_clean]), that it does
      return, and the accept loop with it, however silent the clients are
      ([stop_completes]), and two schedules that go wrong
      ([late_session_orphaned], [signal_in_sweep_deadlocks]).
    - Command lines: the server's completely ([parse_args_applies_options]),
      bounds of the options of both programs. The log against a description of
      its own ([log_file_complete_ordered]).
    - Defects of the sources are theorems too: [short_file_keeps_session],
      [error_response_failure_ignored], [oversized_chunk_throws],
      [stop_races_with_run], [bare_ok_throws], [full_disk_reports_success], [spaced_name_misread],
      [list_mode_takes_file_for_host], [port_truncated],
      [list_files_truncated_by_error].

    ** Fuel and termination

    Loops over the world run with fuel computed from it: the bytes and events
    left to receive, the answers of [send] left plus the bytes left to send, the
    bytes left of a file. [wp] excludes running out of fuel, so every theorem
    stated with [wp] also says that the code returns, throws or waits in a system
    call. Other recursions are structural. The own steps of [Threads] decrease
    the measure [work].

    ** Assumptions

    The operating system, [inet_pton] and its relatives, memory allocation and
    the clock are parameters. [OSLaws] states what [canonical] documents (its
    result is absolute and has no dot, dot-dot or empty element), [OSSizes] that
    sizes are 64-bit, [OSResolution] what POSIX path resolution says of one state
    of the file system (a canonical path leads to its object directly and has the
    same entries as the path it was made from, an object has its leading
    directories); only [store_reads_inside_root] needs the last. The file system is a snapshot during one call, but a file's
    size and content are independent answers, so a file that changes between the
    two calls is covered. Sizes of buffers and files are unbounded integers where
    the code uses 64-bit ones without reaching the bound; conversions the code
    makes ([int], [uint16_t], [uint64_t]) are written out.

    ** Not modelled

    The usage texts, the floating-point statistics and the layout of console
    output; the installation of signal handlers beyond its effect; [StreamStats],
    which the programs do not use; the C++ memory model below the level of locks
    and atomic accesses; tests and scripts. In [Threads] the test, the system
    call and the store of [Socket::close] on the listening socket are one step,
    so a descriptor number reused between them, and the [accept] that would then
    wait on it, are not represented; nor is a signal that interrupts a thread
    inside the logger's own lock.

    ** Plan

    Open: a refinement from [Threads] worker steps to [ClientSession.run]; the
    logger under concurrent callers; the positional form of the client's command
    line against a specification. *)

From stdpp Require Export base tactics decidable list numbers gmap strings sorting relations.
From Stdlib Require Export Ascii.

#[export] Set Warnings "-clear-no-such-hyp".
#[global] Open Scope Z_scope.

(** ** Bytes

    A [std::string] and a [char] buffer are lists of 8-bit characters. *)
Abbreviation bytes := (list ascii).

(** A string literal of the source. *)
Definition lit (s : string) : bytes := String.list_ascii_of_string s.

Definition LF : ascii := "010"%char.
Definition CR : ascii := "013"%char.
Definition NUL : ascii := "000"%char.
(** The value of a character read as [unsigned char]. *)
Definition code (c : ascii) : Z := Z.of_N (N_of_ascii c).

(** ** Machine integers, with their wrap-around written out *)
Definition u16 (z : Z) : Z := z `mod` 2 ^ 16.
Definition u64 (z : Z) : Z := z `mod` 2 ^ 64.
Definition i32 (z : Z) : Z := (z + 2 ^ 31) `mod` 2 ^ 32 - 2 ^ 31.

(** ** Lengths and slices indexed by [size_t] values *)
Definition zlen {A} (l : list A) : Z := Z.of_nat (length l).
Definition ztake {A} (n : Z) (l : list A) : list A := take (Z.to_nat n) l.
Definition zdrop {A} (n : Z) (l : list A) : list A := drop (Z.to_nat n) l.

(** Longest prefix whose elements satisfy a test, and what follows it. *)
Fixpoint takewhile {A} (p : A → bool) (l : list A) : list A :=
  match l with
  | [] => []
  | x :: l => if p x then x :: takewhile p l else []
  end.

Fixpoint dropwhile {A} (p : A → bool) (l : list A) : list A :=
  match l with
  | [] => []
  | x :: l' => if p x then dropwhile p l' else l
  end.

(** ** Outcomes of effectful code

    [Ret] is a normal return, [Throw] an uncaught C++ exception, [Blocked] a
    thread that waits in a system call the kernel has not answered, and
    [NoFuel] a loop whose fuel ran out; the termination theorems show that
    [NoFuel] never occurs. *)
Inductive outcome (S A : Type) : Type :=
| Ret (a : A) (s : S)
| Throw (s : S)
| Blocked (s : S)
| NoFuel.
Arguments Ret {S A} a s.
Arguments Throw {S A} s.
Arguments Blocked {S A} s.
Arguments NoFuel {S A}.

Definition M (S A : Type) : Type := S → outcome S A.

Definition outcome_bind {S A B} (k : A → M S B) (o : outcome S A) : outcome S B :=
  match o with
  | Ret a s => k a s
  | Throw s => Throw s
  | Blocked s => Blocked s
  | NoFuel => NoFuel
  end.

#[export] Instance M_ret S : MRet (M S) := λ A (a : A) s, Ret a s.
#[export] Instance M_bind S : MBind (M S) := λ A B (k : A → M S B) (m : M S A) s, outcome_bind k (m s).

Definition get {S} : M S S := λ s, Ret s s.
Definition modify {S} (f : S → S) : M S () := λ s, Ret () (f s).
Definition throw {S A} : M S A := λ s, Throw s.
Definition block {S A} : M S A := λ s, Blocked s.

(** A [while] loop: [inl] carries the loop variables into the next iteration
    ([continue] or the end of the body), [inr] leaves the loop ([break] or
    [return]). *)
Fixpoint iter {S A B} (fuel : nat) (f : A → M S (A + B)) (a : A) : M S B :=
  match fuel with
  | O => λ _, NoFuel
  | Datatypes.S n =>
      r ← f a;
      match r with
      | inl a' => iter n f a'
      | inr b => mret b
      end
  end.

(** A loop whose fuel is computed from the state it starts in. *)
Definition loop {S A B} (fuel : A → S → nat) (f : A → M S (A + B)) (a : A) : M S B :=
  λ s, iter (Datatypes.S (fuel a s)) f a s.

(** ** Program logic

    [wp m Q X B s]: run from [s], [m] does not run out of fuel, a normal return
    satisfies [Q], the state at an uncaught exception [X] and the state at a
    blocked system call [B]. *)
Definition wp {S A} (m : M S A) (Q : A → S → Prop) (X B : S → Prop) (s : S) : Prop :=
  match m s with
  | Ret a s' => Q a s'
  | Throw s' => X s'
  | Blocked s' => B s'
  | NoFuel => False
  end.

(** The reflexive transitive closure used for reachability is stdpp's [rtc];
    an invariant is a predicate every step preserves. *)
Definition preserved {A} (R : relation A) (I : A → Prop) : Prop := ∀ x y, R x y → I x → I y.

(** ** Lemmas on the program logic *)
Section wp.
Context {S : Type}.
Implicit Types s : S.

Lemma wp_ret {A} (a : A) Q X B s : Q a s → wp (mret a) Q X B s.
Proof. done. Qed.

Lemma wp_bind {A C} (m : M S A) (k : A → M S C) Q X B s :
  wp m (λ a, wp (k a) Q X B) X B s → wp (m ≫= k) Q X B s.
Proof. unfold wp, mbind, M_bind. by destruct (m s). Qed.

Lemma wp_mono {A} (m : M S A) (Q Q' : A → S → Prop) (X X' B B' : S → Prop) s :
  wp m Q X B s →
  (∀ a s', Q a s' → Q' a s') → (∀ s', X s' → X' s') → (∀ s', B s' → B' s') →
  wp m Q' X' B' s.
Proof. unfold wp. destruct (m s); naive_solver. Qed.

Lemma wp_and {A} (m : M S A) (Q1 Q2 : A → S → Prop) (X1 X2 B1 B2 : S → Prop) s :
  wp m Q1 X1 B1 s → wp m Q2 X2 B2 s →
  wp m (λ a s', Q1 a s' ∧ Q2 a s') (λ s', X1 s' ∧ X2 s') (λ s', B1 s' ∧ B2 s') s.
Proof. unfold wp. destruct (m s); naive_solver. Qed.

Lemma wp_get Q X B s : Q s s → wp get Q X B s.
Proof. done. Qed.

Lemma wp_modify (f : S → S) Q X B s : Q () (f s) → wp (modify f) Q X B s.
Proof. done. Qed.

Lemma wp_throw {A} (Q : A → S → Prop) (X B : S → Prop) s : X s → wp throw Q X B s.
Proof. done. Qed.

Lemma wp_block {A} (Q : A → S → Prop) (X B : S → Prop) s : B s → wp block Q X B s.
Proof. done. Qed.

(** Loops: an invariant [I] and a variant [m] that every iteration
    decreases give the postcondition and the termination at once. *)
Lemma wp_iter {A C} (I : A → S → Prop) (m : A → S → nat)
    (f : A → M S (A + C)) (Q : C → S → Prop) (X B : S → Prop) :
  (∀ a s, I a s →
     wp (f a) (λ r s', match r with
                       | inl a' => I a' s' ∧ (m a' s' < m a s)%nat
                       | inr c => Q c s'
                       end) X B s) →
  ∀ fuel a s, (m a s < fuel)%nat → I a s → wp (iter fuel f a) Q X B s.
Proof.
  intros Hstep fuel. induction fuel as [|fuel IH]; intros a s Hm HI; [lia|].
  simpl. apply wp_bind. eapply wp_mono; [by apply Hstep|..]; [|done|done].
  intros [a'|c] s' H; [|by apply wp_ret].
  destruct H as [HI' Hlt]. apply IH; [lia|done].
Qed.

Lemma wp_loop {A C} (I : A → S → Prop) (m : A → S → nat)
    (f : A → M S (A + C)) (Q : C → S → Prop) (X B : S → Prop) a s :
  (∀ a s, I a s →
     wp (f a) (λ r s', match r with
                       | inl a' => I a' s' ∧ (m a' s' < m a s)%nat
                       | inr c => Q c s'
                       end) X B s) →
  I a s → wp (loop m f a) Q X B s.
Proof. intros Hstep HI. unfold loop, wp. eapply (wp_iter I m f Q X B Hstep); [lia|done]. Qed.

(** A run on a concrete state that is seen to return. *)
Definition returns {A} (o : outcome S A) : bool := match o with Ret _ _ => true | _ => false end.

Lemma wp_returns {A} (m : M S A) (Q : A → S → Prop) (X B : S → Prop) s :
  returns (m s) = true → wp m Q X B s → ∃ a s', m s = Ret a s' ∧ Q a s'.
Proof. unfold wp. destruct (m s); naive_solver. Qed.

Lemma wp_Ret {A} (m : M S A) (Q : A → S → Prop) (X B : S → Prop) s a s' :
  m s = Ret a s' → wp m Q X B s → Q a s'.
Proof. unfold wp. by intros ->. Qed.
End wp.

(** One iteration of a loop with enough fuel; more fuel does not change a
    finished run. *)
Lemma iter_more {S A B} (f : A → M S (A + B)) n k a s :
  iter n f a s ≠ NoFuel → iter (n + k) f a s = iter n f a s.
Proof.
  revert a s. induction n as [|n IH]; intros a s H; [done|].
  simpl in *. unfold mbind, M_bind in *.
  destruct (f a s) as [[a'|b] s'|s'|s'|]; simpl in *; auto.
Qed.

Create HintDb wp discriminated.
#[export] Hint Resolve wp_ret wp_get wp_modify wp_throw wp_block : wp.

(** Symbolic execution of straight-line code under [wp]. *)
Ltac wp_step :=
  match goal with
  | |- wp (_ ≫= _) _ _ _ _ => apply wp_bind
  | |- wp (mret _) _ _ _ _ => apply wp_ret
  | |- wp get _ _ _ _ => apply wp_get
  | |- wp (modify _) _ _ _ _ => apply wp_modify
  | |- wp throw _ _ _ _ => apply wp_throw
  | |- wp block _ _ _ _ => apply wp_block
  end.
Ltac wp_steps := repeat (wp_step; simpl).

(** ** Lemmas on lists and slices *)
Section lists.
Context {A : Type}.
Implicit Types l : list A.

Lemma zlen_nonneg l : 0 ≤ zlen l.
Proof. unfold zlen. lia. Qed.

Lemma zlen_app l k : zlen (l ++ k) = zlen l + zlen k.
Proof. unfold zlen. rewrite length_app. lia. Qed.

Lemma zlen_cons x l : zlen (x :: l) = 1 + zlen l.
Proof. unfold zlen. simpl. lia. Qed.

Lemma zlen_nil : zlen (@nil A) = 0.
Proof. done. Qed.

Lemma zlen_ztake n l : 0 ≤ n → zlen (ztake n l) = n `min` zlen l.
Proof. intros. unfold zlen, ztake. rewrite length_take. lia. Qed.

Lemma zlen_zdrop n l : 0 ≤ n → zlen (zdrop n l) = 0 `max` (zlen l - n).
Proof. intros. unfold zlen, zdrop. rewrite length_drop. lia. Qed.

Lemma ztake_all n l : zlen l ≤ n → ztake n l = l.
Proof. intros. unfold ztake, zlen in *. apply take_ge. lia. Qed.

Lemma ztake_zdrop n l : ztake n l ++ zdrop n l = l.
Proof. apply take_drop. Qed.

Lemma ztake_0 l : ztake 0 l = [].
Proof. done. Qed.

Lemma zdrop_0 l : zdrop 0 l = l.
Proof. done. Qed.

Lemma zdrop_zdrop n m l : 0 ≤ n → 0 ≤ m → zdrop n (zdrop m l) = zdrop (m + n) l.
Proof. intros. unfold zdrop. rewrite drop_drop. f_equal. lia. Qed.

(** Reading [n] elements and then [m] more reads [n + m]. *)
Lemma ztake_add n m l : 0 ≤ n → 0 ≤ m → ztake (n + m) l = ztake n l ++ ztake m (zdrop n l).
Proof. intros. unfold ztake, zdrop. rewrite Z2Nat.inj_add by done. by rewrite take_take_drop. Qed.

Lemma ztake_app_ge n l k : zlen l ≤ n → ztake n (l ++ k) = l ++ ztake (n - zlen l) k.
Proof. unfold ztake, zlen. intros. rewrite take_app_ge by lia. f_equal. f_equal. lia. Qed.

Lemma ztake_prefix n l : ztake n l `prefix_of` l.
Proof. exists (zdrop n l). by rewrite ztake_zdrop. Qed.

(** The prefix that [takewhile] keeps, and the rest. *)
Lemma takewhile_dropwhile (p : A → bool) l : takewhile p l ++ dropwhile p l = l.
Proof. induction l as [|x l IH]; simpl; [done|]. destruct (p x); simpl; by f_equal. Qed.

Lemma takewhile_Forall (p : A → bool) l : Forall (λ x, p x = true) (takewhile p l).
Proof. induction l as [|x l IH]; simpl; [done|]. destruct (p x) eqn:E; by constructor. Qed.

Lemma dropwhile_head (p : A → bool) l x : head (dropwhile p l) = Some x → p x = false.
Proof. induction l as [|y l IH]; simpl; [done|]. destruct (p y) eqn:E; naive_solver. Qed.

Lemma takewhile_app (p : A → bool) l k :
  Forall (λ x, p x = true) l → takewhile p (l ++ k) = l ++ takewhile p k.
Proof. induction 1 as [|x l Hx Hl IH]; simpl; [done|]. by rewrite Hx, IH. Qed.

Lemma dropwhile_app (p : A → bool) l k :
  Forall (λ x, p x = true) l → dropwhile p (l ++ k) = dropwhile p k.
Proof. induction 1 as [|x l Hx Hl IH]; simpl; [done|]. by rewrite Hx, IH. Qed.

Lemma takewhile_all (p : A → bool) l : Forall (λ x, p x = true) l → takewhile p l = l.
Proof. induction 1 as [|x l Hx Hl IH]; simpl; [done|]. by rewrite Hx, IH. Qed.

Lemma dropwhile_all (p : A → bool) l : Forall (λ x, p x = true) l → dropwhile p l = [].
Proof. induction 1 as [|x l Hx Hl IH]; simpl; [done|]. by rewrite Hx. Qed.

(** A list whose head fails the test is left as it is. *)
Lemma takewhile_stop (p : A → bool) l :
  (∀ x, head l = Some x → p x = false) → takewhile p l = [].
Proof. destruct l as [|x l]; simpl; intros H; [done|]. by rewrite H. Qed.

Lemma dropwhile_stop (p : A → bool) l :
  (∀ x, head l = Some x → p x = false) → dropwhile p l = l.
Proof. destruct l as [|x l]; simpl; intros H; [done|]. by rewrite H. Qed.

End lists.

#[export] Hint Resolve zlen_nonneg : core.
