(* ===== verification/Types.v ===== *)
(** * Types.hpp and the data the components share

    The constants, enumerations and structures of
    include/streamer/Types.hpp, the [errno] values the sources tell apart, and
    the arguments of the variadic [LOG_*] macros of Logger.hpp, which every
    component calls. *)

From S2P Require Import Prelude.

(** ** Defaults (Types.hpp) *)
Definition DEFAULT_PORT : Z := 8080.
Definition DEFAULT_CHUNK_SIZE : Z := 64 * 1024.
Definition DEFAULT_MEDIA_DIR : bytes := lit "media".
Definition DEFAULT_LOG_FILE : bytes := lit "logs/server.log".
Definition DEFAULT_BACKLOG : Z := 128.
Definition DEFAULT_SOCKET_TIMEOUT_SEC : Z := 30.

Inductive LogLevel := DEBUG | INFO | WARN | ERROR.

Record ServerConfig := mkConfig {
  host : bytes;
  port : Z;               (* uint16_t *)
  media_dir : bytes;
  chunk_size : Z;         (* size_t *)
  backlog : Z;            (* int *)
  socket_timeout_sec : Z; (* int *)
  log_file : bytes }.

(** The member initialisers of [ServerConfig]. *)
Definition default_config : ServerConfig :=
  {| host := lit "0.0.0.0"; port := DEFAULT_PORT; media_dir := DEFAULT_MEDIA_DIR;
     chunk_size := DEFAULT_CHUNK_SIZE; backlog := DEFAULT_BACKLOG;
     socket_timeout_sec := DEFAULT_SOCKET_TIMEOUT_SEC; log_file := DEFAULT_LOG_FILE |}.

Record MediaFileInfo := mkInfo {
  filename : bytes;
  size_bytes : Z          (* uint64_t *) }.

(** ** [errno] values

    The sources compare [errno] with these; [EOTHER] stands for the rest.
    On Linux [EWOULDBLOCK] is the same value as [EAGAIN]. *)
Inductive errno := EINTR | EPIPE | ECONNRESET | EAGAIN | EBADF | EINVAL | EOTHER (n : Z).

(** ** Log calls

    The arguments a [LOG_*] macro streams into its message. [AErr] is a
    [std::strerror(errno)] argument, [AErrCode] an [ec.message()], and
    [AStat] one of the floating-point statistics of a finished transfer
    (elapsed seconds, throughput), whose value is not modelled. *)
Inductive log_arg :=
| AStr (s : bytes)
| ANum (n : Z)
| AErr (e : errno)
| AErrCode
| AStat.

Record log_entry := mkLog { log_level : LogLevel; log_args : list log_arg }.

(** A string literal streamed into a message. *)
Abbreviation Str s := (AStr (lit s)).

#[export] Instance LogLevel_eq_dec : EqDecision LogLevel.
Proof. solve_decision. Defined.
#[export] Instance errno_eq_dec : EqDecision errno.
Proof. solve_decision. Defined.
#[export] Instance MediaFileInfo_eq_dec : EqDecision MediaFileInfo.
Proof. solve_decision. Defined.
#[export] Instance log_arg_eq_dec : EqDecision log_arg.
Proof. solve_decision. Defined.
#[export] Instance log_entry_eq_dec : EqDecision log_entry.
Proof. solve_decision. Defined.
#[export] Instance ServerConfig_eq_dec : EqDecision ServerConfig.
Proof. solve_decision. Defined.
