(* ===== verification/CxxString.v ===== *)
(** * The parts of the C++ standard library the sources call on text

    [std::isspace], [std::toupper] (locale "C"), formatted insertion and
    extraction of unsigned integers, [operator>>] into a string, [std::ws],
    [std::getline], [std::string::substr], the prefix test [rfind(p, 0) == 0],
    [operator<] on strings, and the C conversions [strtoul] and [atoi]
    (LP64: [unsigned long] has 64 bits). *)

From S2P Require Import Prelude.

(** ** Character classes (locale "C") *)
Definition isspace (c : ascii) : bool := (code c =? 32) || ((9 <=? code c) && (code c <=? 13)).
Definition isdigit (c : ascii) : bool := (48 <=? code c) && (code c <=? 57).
Definition islower (c : ascii) : bool := (97 <=? code c) && (code c <=? 122).
Definition char_of (z : Z) : ascii := ascii_of_N (Z.to_N z).
Definition toupper (c : ascii) : ascii := if islower c then char_of (code c - 32) else c.

Definition nonspace (c : ascii) : bool := negb (isspace c).

(** ** Strings *)
Definition starts_with (p s : bytes) : bool := bool_decide (take (length p) s = p).

(** [s.substr(pos)]: [None] is [std::out_of_range], thrown when [pos > size()]. *)
Definition substr (pos : Z) (s : bytes) : option bytes :=
  if zlen s <? pos then None else Some (zdrop pos s).

(** [a < b] compares characters as [unsigned char]. *)
Fixpoint string_ltb (a b : bytes) : bool :=
  match a, b with
  | _, [] => false
  | [], _ :: _ => true
  | x :: a, y :: b => (code x <? code y) || ((code x =? code y) && string_ltb a b)
  end.

(** ** Unsigned decimal output ([operator<<] and [std::to_string]) *)
Definition digit (d : Z) : ascii := char_of (48 + d).

Fixpoint dec_go (fuel : nat) (n : Z) : bytes :=
  match fuel with
  | O => []
  | S fuel => if n <? 10 then [digit n] else dec_go fuel (n / 10) ++ [digit (n `mod` 10)]
  end.
Definition dec (n : Z) : bytes := dec_go (S (Z.to_nat (Z.log2 n))) n.

(** ** Input *)
Definition skip_ws (s : bytes) : bytes := dropwhile isspace s.

(** [is >> str]: the next word, and the rest of the stream. *)
Definition extract_word (s : bytes) : bytes * bytes :=
  let s := skip_ws s in (takewhile nonspace s, dropwhile nonspace s).

(** [std::getline]: the characters before the first newline. *)
Definition not_lf (c : ascii) : bool := bool_decide (c ≠ LF).
Definition getline (s : bytes) : bytes := takewhile not_lf s.

Definition digits_value (s : bytes) : Z := foldl (λ acc c, acc * 10 + (code c - 48)) 0 s.

(** An optional sign in front of a number. *)
Definition sign (s : bytes) : bool * bytes :=
  match s with
  | c :: s' => if code c =? 45 then (true, s') else if code c =? 43 then (false, s') else (false, s)
  | [] => (false, s)
  end.

(** [is >> n] for a 64-bit unsigned [n]: the value stored, whether the
    extraction succeeded, and the rest. No digits: 0 and failure; overflow: the
    maximum and failure; a minus sign negates modulo 2^64. *)
Definition extract_u64 (s : bytes) : Z * bool * bytes :=
  let '(neg, s) := sign (skip_ws s) in
  let ds := takewhile isdigit s in
  let rest := dropwhile isdigit s in
  match ds with
  | [] => (0, false, rest)
  | _ =>
      let v := digits_value ds in
      if 2 ^ 64 <=? v then (2 ^ 64 - 1, false, rest)
      else ((if neg : bool then u64 (- v) else v), true, rest)
  end.

(** [strtoul(s, nullptr, 10)] and [strtoull(s, nullptr, 10)]. *)
Definition strtoul (s : bytes) : Z :=
  let '(neg, s) := sign (skip_ws s) in
  let v := digits_value (takewhile isdigit s) in
  if 2 ^ 64 <=? v then 2 ^ 64 - 1 else if neg : bool then u64 (- v) else v.

(** [atoi(s)], which is [(int) strtol(s, nullptr, 10)] in glibc. *)
Definition atoi (s : bytes) : Z :=
  let '(neg, s) := sign (skip_ws s) in
  let v := digits_value (takewhile isdigit s) in
  i32 (if neg : bool then - (v `min` 2 ^ 63) else v `min` (2 ^ 63 - 1)).

(** ** Characters *)
Lemma code_bounds c : 0 ≤ code c < 256.
Proof.
  unfold code. destruct c as [[] [] [] [] [] [] [] []]; vm_compute; split; congruence.
Qed.

Lemma code_char_of z : 0 ≤ z < 256 → code (char_of z) = z.
Proof.
  intros. unfold code, char_of. rewrite N_ascii_embedding by lia. lia.
Qed.

Lemma code_inj a b : code a = code b → a = b.
Proof.
  unfold code. intros H. rewrite <-(ascii_N_embedding a), <-(ascii_N_embedding b). f_equal. lia.
Qed.

Lemma isdigit_not_space c : isdigit c = true → isspace c = false.
Proof. unfold isdigit, isspace. intros. lia. Qed.

Lemma nonspace_ne_lf c : nonspace c = true → c ≠ LF.
Proof. by intros H ->. Qed.

Lemma code_digit d : 0 ≤ d < 10 → code (digit d) = 48 + d.
Proof. intros. unfold digit. apply code_char_of. lia. Qed.

Lemma isdigit_digit d : 0 ≤ d < 10 → isdigit (digit d) = true.
Proof. intros. unfold isdigit. rewrite code_digit by done. lia. Qed.

(** ** Decimal numbers *)
Lemma dec_go_digits fuel n : 0 ≤ n → Forall (λ c, isdigit c = true) (dec_go fuel n).
Proof.
  revert n. induction fuel as [|fuel IH]; intros n Hn; simpl; [done|].
  destruct (Z.ltb_spec n 10).
  - constructor; [apply isdigit_digit; lia|done].
  - apply Forall_app; split; [apply IH; apply Z.div_pos; lia|].
    constructor; [apply isdigit_digit; apply Z.mod_pos_bound; lia|done].
Qed.

Lemma dec_digits n : 0 ≤ n → Forall (λ c, isdigit c = true) (dec n).
Proof. apply dec_go_digits. Qed.

Lemma dec_nonempty n : dec n ≠ [].
Proof. unfold dec. simpl. case_match; [done|]. by destruct (dec_go _ _). Qed.

Lemma digits_value_snoc s c : digits_value (s ++ [c]) = digits_value s * 10 + (code c - 48).
Proof. unfold digits_value. by rewrite foldl_snoc. Qed.

Lemma dec_go_value fuel n : 0 ≤ n < 2 ^ Z.of_nat fuel → digits_value (dec_go fuel n) = n.
Proof.
  revert n. induction fuel as [|fuel IH]; intros n Hn.
  { simpl in *. unfold digits_value. simpl. lia. }
  simpl. destruct (Z.ltb_spec n 10).
  - unfold digits_value. simpl. rewrite code_digit; lia.
  - rewrite digits_value_snoc, IH.
    + rewrite code_digit by (apply Z.mod_pos_bound; lia).
      pose proof (Z.div_mod n 10). lia.
    + split; [apply Z.div_pos; lia|].
      rewrite Nat2Z.inj_succ, Z.pow_succ_r in Hn by lia.
      apply Z.div_lt_upper_bound; lia.
Qed.

Lemma digits_value_dec n : 0 ≤ n → digits_value (dec n) = n.
Proof.
  intros Hn. unfold dec. apply dec_go_value. split; [done|].
  rewrite Nat2Z.inj_succ, Z2Nat.id by apply Z.log2_nonneg.
  destruct (decide (n = 0)) as [->|]; [done|]. apply Z.log2_spec. lia.
Qed.

Lemma dec_nonspace n : 0 ≤ n → Forall (λ c, nonspace c = true) (dec n).
Proof.
  intros Hn. eapply Forall_impl; [by apply dec_digits|].
  intros c Hc. unfold nonspace. by rewrite isdigit_not_space.
Qed.

Lemma dec_not_lf n : 0 ≤ n → Forall (λ c, c ≠ LF) (dec n).
Proof. intros Hn. eapply Forall_impl; [by apply dec_nonspace|]. apply nonspace_ne_lf. Qed.

Lemma dec_no_sign n k : 0 ≤ n → sign (dec n ++ k) = (false, dec n ++ k).
Proof.
  intros Hn. pose proof (dec_digits n Hn) as Hd. pose proof (dec_nonempty n).
  destruct (dec n) as [|c s]; [done|]. inversion Hd as [|?? Hc]; subst. simpl.
  unfold isdigit in Hc.
  destruct (Z.eqb_spec (code c) 45); [lia|]. destruct (Z.eqb_spec (code c) 43); [lia|done].
Qed.

(** Reading back a printed number that is followed by a non-digit. *)
Lemma extract_u64_dec n rest :
  0 ≤ n < 2 ^ 64 → (∀ c, head rest = Some c → isdigit c = false) →
  extract_u64 (dec n ++ rest) = (n, true, rest).
Proof.
  intros Hn Hrest. unfold extract_u64, skip_ws.
  pose proof (dec_digits n ltac:(lia)) as Hd. pose proof (dec_nonempty n) as Hne.
  rewrite dropwhile_stop.
  2:{ intros c Hc. destruct (dec n) as [|d s]; [done|]. simplify_eq/=.
      inversion Hd; subst. by apply isdigit_not_space. }
  rewrite dec_no_sign by lia.
  rewrite takewhile_app, dropwhile_app by done.
  rewrite (takewhile_stop isdigit rest), (dropwhile_stop isdigit rest), app_nil_r by done.
  destruct (dec n) as [|d s] eqn:E; [done|]. rewrite <-E, digits_value_dec by lia.
  destruct (Z.leb_spec (2 ^ 64) n); [lia|done].
Qed.

Lemma extract_word_app w rest :
  Forall (λ c, nonspace c = true) w → w ≠ [] →
  (∀ c, head rest = Some c → isspace c = true) →
  extract_word (w ++ rest) = (w, rest).
Proof.
  intros Hw Hne Hrest. unfold extract_word, skip_ws.
  rewrite (dropwhile_stop isspace).
  2:{ intros c Hc. destruct w; [done|]. simplify_eq/=. inversion Hw; subst.
      unfold nonspace in *. by destruct (isspace _). }
  rewrite takewhile_app, dropwhile_app by done.
  rewrite (takewhile_stop nonspace rest), (dropwhile_stop nonspace rest), app_nil_r; [done|..];
    intros c Hc; unfold nonspace; by rewrite Hrest.
Qed.

Lemma getline_no_lf s : Forall (λ c, c ≠ LF) s → getline s = s.
Proof.
  intros H. apply takewhile_all. eapply Forall_impl; [exact H|].
  intros c Hc. unfold not_lf. by apply bool_decide_eq_true.
Qed.

Lemma getline_is_no_lf s : Forall (λ c, c ≠ LF) (getline s).
Proof.
  eapply Forall_impl; [apply takewhile_Forall|]. intros c Hc. simpl in *.
  unfold not_lf in Hc. by apply bool_decide_eq_true in Hc.
Qed.

Lemma starts_with_app p s : starts_with p (p ++ s) = true.
Proof. unfold starts_with. apply bool_decide_eq_true. by rewrite take_app_length. Qed.

(** ** The order on strings *)
Lemma string_ltb_irrefl a : string_ltb a a = false.
Proof. induction a as [|x a IH]; simpl; [done|]. rewrite IH. lia. Qed.

Lemma string_ltb_trans a b c : string_ltb a b = true → string_ltb b c = true → string_ltb a c = true.
Proof.
  revert b c. induction a as [|x a IH]; intros [|y b] [|z c]; simpl; try done.
  specialize (IH b c). intros. destruct (string_ltb a b), (string_ltb b c); try lia.
  rewrite IH by done. lia.
Qed.

Lemma string_ltb_total a b : string_ltb a b = false → string_ltb b a = false → a = b.
Proof.
  revert b. induction a as [|x a IH]; intros [|y b]; simpl; try done.
  intros H1 H2. assert (code x = code y) as E by lia.
  f_equal; [by apply code_inj|]. apply IH; [destruct (string_ltb a b)|destruct (string_ltb b a)]; lia.
Qed.
