(* ===== verification/Logger.v ===== *)
(** * Logger.cpp: the mutex-guarded logger

    [Logger] is the object's state, [sinks] what it writes to: the files by
    path, standard output and standard error. Every method runs under the
    mutex, so a run of the program is a sequence of whole calls, in the order
    in which the threads took the mutex; [log_all] folds such a sequence. The
    clock's local date, the thread id and the texts of [strerror] and of the
    floating-point statistics come from outside the sources and are
    parameters. *)

From S2P Require Import Prelude Types CxxString.

Record Logger := mkLogger {
  min_level : LogLevel;
  enable_console : bool;
  file_stream : option bytes;   (* the path the open stream appends to *)
  is_tty : bool }.

Record sinks := mkSinks {
  files : gmap bytes bytes;
  stdout : bytes;
  stderr : bytes }.

Definition ESC : ascii := "027"%char.

(** [static_cast<int>(level)] *)
Definition level_value (l : LogLevel) : Z :=
  match l with DEBUG => 0 | INFO => 1 | WARN => 2 | ERROR => 3 end.

Definition level_to_string (l : LogLevel) : bytes :=
  match l with
  | DEBUG => lit "DEBUG"
  | INFO => lit "INFO "
  | WARN => lit "WARN "
  | ERROR => lit "ERROR"
  end.

Definition level_to_color (l : LogLevel) : bytes :=
  ESC :: match l with
         | DEBUG => lit "[36m"
         | INFO => lit "[32m"
         | WARN => lit "[33m"
         | ERROR => lit "[31m"
         end.

(** [std::setfill('0') << std::setw(3) << n] *)
Definition setw3 (n : Z) : bytes := replicate (3 - length (dec n)) "0"%char ++ dec n.

(** [date] is what [std::put_time] prints for the local time, [since_epoch_ms]
    the system clock. *)
Definition format_time_now (date : bytes) (since_epoch_ms : Z) : bytes :=
  date ++ lit "." ++ setw3 (Z.rem since_epoch_ms 1000).

Definition initial_logger : Logger := mkLogger INFO true None false.

(** [can_open path] tells whether the stream on [path] opens, [tty] is
    [isatty(fileno(stdout))]. A file opened for appending exists afterwards. *)
Definition init (can_open : bytes → bool) (tty : bool)
    (log_file_path : bytes) (level : LogLevel) (console : bool)
    (lg : Logger) (out : sinks) : Logger * sinks :=
  let lg := mkLogger level console (file_stream lg) tty in
  match log_file_path with
  | [] => (lg, out)
  | _ =>
      if can_open log_file_path then
        (mkLogger level console (Some log_file_path) tty,
         mkSinks (<[log_file_path := default [] (files out !! log_file_path)]> (files out))
           (stdout out) (stderr out))
      else
        (mkLogger level console None tty,
         mkSinks (files out) (stdout out)
           (stderr out ++ lit "[Logger] Failed to open log file: " ++ log_file_path ++ [LF]))
  end.

Definition set_level (level : LogLevel) (lg : Logger) : Logger :=
  mkLogger level (enable_console lg) (file_stream lg) (is_tty lg).

Definition get_level (lg : Logger) : LogLevel := min_level lg.

(** The destructor flushes and closes the file. *)
Definition destroy (lg : Logger) : Logger :=
  mkLogger (min_level lg) (enable_console lg) None (is_tty lg).

Definition plain_line (timestamp thread_id : bytes) (level : LogLevel) (message : bytes) : bytes :=
  lit "[" ++ timestamp ++ lit "] [" ++ level_to_string level ++ lit "] [T:" ++ thread_id ++ lit "] " ++ message.

Definition tty_line (timestamp thread_id : bytes) (level : LogLevel) (message : bytes) : bytes :=
  ESC :: lit "[90m[" ++ timestamp ++ lit "]" ++ ESC :: lit "[0m "
    ++ level_to_color level ++ lit "[" ++ level_to_string level ++ lit "]" ++ ESC :: lit "[0m" ++ lit " "
    ++ ESC :: lit "[35m[T:" ++ thread_id ++ lit "]" ++ ESC :: lit "[0m " ++ message ++ [LF].

(** The early return of [log_string]. *)
Definition enabled (lg : Logger) (level : LogLevel) : bool :=
  negb (level_value level <? level_value (min_level lg)).

Definition log_string (timestamp thread_id : bytes) (level : LogLevel) (message : bytes)
    (lg : Logger) (out : sinks) : sinks :=
  if negb (enabled lg level) then out
  else
    let plain := plain_line timestamp thread_id level message in
    let out :=
      match file_stream lg with
      | Some path =>
          mkSinks (<[path := default [] (files out !! path) ++ plain ++ [LF]]> (files out))
            (stdout out) (stderr out)
      | None => out
      end in
    if enable_console lg then
      mkSinks (files out)
        (stdout out ++ (if is_tty lg then tty_line timestamp thread_id level message else plain ++ [LF]))
        (stderr out)
    else out.

(** ** The variadic [log] template: every argument is streamed in turn *)
Section render.
Context (strerror : errno → bytes) (ec_message stat : bytes).

Definition render_arg (a : log_arg) : bytes :=
  match a with
  | AStr s => s
  | ANum n => if n <? 0 then lit "-" ++ dec (- n) else dec n
  | AErr e => strerror e
  | AErrCode => ec_message
  | AStat => stat
  end.

Definition render (args : list log_arg) : bytes := concat (map render_arg args).
End render.

(** ** A sequence of calls

    One call: its time stamp, the calling thread, level and message. *)
Record call := mkCall { stamp : bytes; tid : bytes; lvl : LogLevel; msg : bytes }.

Definition log_call (lg : Logger) (out : sinks) (c : call) : sinks :=
  log_string (stamp c) (tid c) (lvl c) (msg c) lg out.

(** The threads log, and one may change the threshold in between. *)
Inductive request := Log (c : call) | SetLevel (level : LogLevel).

Definition handle (st : Logger * sinks) (r : request) : Logger * sinks :=
  match r with
  | Log c => (st.1, log_call st.1 st.2 c)
  | SetLevel level => (set_level level st.1, st.2)
  end.

Definition log_all (lg : Logger) (rs : list request) (out : sinks) : Logger * sinks := foldl handle (lg, out) rs.

(** *** What a log is, said without the code

    A call reaches the threshold when it is at least as severe; its line shows
    the time, the level's name padded to five characters, the thread and the
    message. *)
Definition reaches (threshold level : LogLevel) : bool :=
  match threshold, level with
  | DEBUG, _ => true
  | INFO, DEBUG => false
  | INFO, _ => true
  | WARN, DEBUG | WARN, INFO => false
  | WARN, _ => true
  | ERROR, ERROR => true
  | ERROR, _ => false
  end.

Definition level_name (level : LogLevel) : bytes :=
  match level with DEBUG => lit "DEBUG" | INFO => lit "INFO" | WARN => lit "WARN" | ERROR => lit "ERROR" end.

Definition padded (n : nat) (s : bytes) : bytes := s ++ replicate (n - length s) " "%char.

Definition line_text (c : call) : bytes :=
  concat [lit "["; stamp c; lit "] ["; padded 5 (level_name (lvl c)); lit "] [T:"; tid c; lit "] "; msg c; [LF]].

Fixpoint journal (threshold : LogLevel) (rs : list request) : bytes :=
  match rs with
  | [] => []
  | SetLevel level :: rs => journal level rs
  | Log c :: rs => (if reaches threshold (lvl c) then line_text c else []) ++ journal threshold rs
  end.

(** *** Lemmas *)
Lemma enabled_reaches lg level : enabled lg level = reaches (min_level lg) level.
Proof. unfold enabled. by destruct (min_level lg), level. Qed.

Lemma plain_line_text c : plain_line (stamp c) (tid c) (lvl c) (msg c) ++ [LF] = line_text c.
Proof.
  unfold plain_line, line_text. cbn [concat]. rewrite app_nil_r, <-!app_assoc.
  assert (level_to_string (lvl c) = padded 5 (level_name (lvl c))) as -> by (by destruct (lvl c)). done.
Qed.

(** One call: the file that is open, the others, and the console. *)
Lemma log_call_file lg out c path :
  file_stream lg = Some path →
  default [] (files (log_call lg out c) !! path) =
  default [] (files out !! path) ++ (if reaches (min_level lg) (lvl c) then line_text c else []).
Proof.
  intros Hp. unfold log_call, log_string. rewrite enabled_reaches. destruct (reaches _ _); simpl.
  - rewrite Hp, <-plain_line_text. destruct (enable_console lg); simpl; rewrite lookup_insert_eq; simpl; done.
  - by rewrite app_nil_r.
Qed.

Lemma log_call_other lg out c path :
  file_stream lg ≠ Some path → files (log_call lg out c) !! path = files out !! path.
Proof.
  intros Hp. unfold log_call, log_string. destruct (enabled lg (lvl c)); simpl; [|done].
  destruct (file_stream lg) as [p|]; [|by destruct (enable_console lg)].
  destruct (enable_console lg); simpl; apply lookup_insert_ne; congruence.
Qed.

Lemma log_call_console lg out c :
  stderr (log_call lg out c) = stderr out ∧
  (is_tty lg = false →
   stdout (log_call lg out c) =
   stdout out ++ (if enable_console lg && reaches (min_level lg) (lvl c) then line_text c else [])).
Proof.
  unfold log_call, log_string. rewrite enabled_reaches, <-plain_line_text.
  destruct (reaches _ _), (enable_console lg), (file_stream lg); simpl; rewrite ?app_nil_r;
    (split; [done|]); intros Ht; by rewrite ?Ht.
Qed.

(** The threshold at the end. *)
Definition last_level (threshold : LogLevel) (rs : list request) : LogLevel :=
  foldl (λ l r, match r with SetLevel l' => l' | Log _ => l end) threshold rs.

(** ** Properties *)

(** C34: for any sequence of log calls, with changes of the threshold between
    them, on a logger whose file is open, the file grows by exactly the lines of
    the calls at least as severe as the threshold in force, whole and in call
    order; a console that is no terminal shows the same text when it is enabled
    and nothing otherwise; no other file and not standard error changes, and
    the level reported afterwards is the last one set. *)
Theorem log_file_complete_ordered lg rs out path path' :
  file_stream lg = Some path → path' ≠ path →
  let st := log_all lg rs out in
  default [] (files st.2 !! path) = default [] (files out !! path) ++ journal (min_level lg) rs ∧
  files st.2 !! path' = files out !! path' ∧
  stderr st.2 = stderr out ∧
  (is_tty lg = false →
   stdout st.2 = stdout out ++ (if enable_console lg then journal (min_level lg) rs else [])) ∧
  get_level st.1 = last_level (min_level lg) rs.
Proof.
  intros Hp Hne. unfold log_all. revert lg out Hp. induction rs as [|[c|level] rs IH]; intros lg out Hp; simpl.
  - rewrite app_nil_r. split_and!; try done. intros _. by destruct (enable_console lg); rewrite app_nil_r.
  - destruct (IH lg (log_call lg out c) Hp) as (H1 & H2 & H3 & H4 & H5).
    destruct (log_call_console lg out c) as [E1 E2]. split_and!; simpl.
    + by rewrite H1, (log_call_file lg out c path Hp), app_assoc.
    + rewrite H2. apply log_call_other. congruence.
    + by rewrite H3.
    + intros Ht. rewrite H4, E2, <-app_assoc by done. by destruct (enable_console lg).
    + exact H5.
  - exact (IH (set_level level lg) out Hp).
Qed.

Lemma log_file_complete_ordered_witness :
  let lg := mkLogger WARN false (Some (lit "a.log")) false in
  let rs := [Log (mkCall (lit "t0") (lit "1") INFO (lit "x")); Log (mkCall (lit "t1") (lit "2") WARN (lit "y"));
             SetLevel INFO; Log (mkCall (lit "t2") (lit "1") INFO (lit "z"))] in
  let out := mkSinks {[lit "a.log" := lit "old;"]} [] [] in
  (default [] (files (log_all lg rs out).2 !! lit "a.log") =
   lit "old;" ++ lit "[t1] [WARN ] [T:2] y" ++ [LF] ++ lit "[t2] [INFO ] [T:1] z" ++ [LF]) ∧
  file_stream lg = Some (lit "a.log").
Proof.
  intros lg rs out. split; [|done].
  exact (proj1 (log_file_complete_ordered lg rs out (lit "a.log") (lit "b.log") eq_refl ltac:(done))).
Defined.
