(* ===== verification/Protocol.v ===== *)
(** * Protocol.cpp: parsing request lines and building responses *)

From S2P Require Import Prelude Types CxxString.

Inductive CommandType := LIST | GET | QUIT | UNKNOWN.

Record Request := mkRequest { type : CommandType; argument : bytes }.

(** The member initialisers of [Request]. *)
Definition empty_request : Request := mkRequest UNKNOWN [].

(** ** [trim]: two index loops and a [substr] *)
Fixpoint trim_start (str : bytes) : nat :=
  match str with
  | c :: str' => if isspace c then S (trim_start str') else 0
  | [] => 0
  end.

(** [while (end > start && isspace(str[end - 1])) --end;] *)
Fixpoint trim_end (str : bytes) (start stop : nat) : nat :=
  match stop with
  | O => O
  | S e => if (Nat.ltb start stop) && isspace (nth e str NUL) then trim_end str start e else stop
  end.

Definition trim (str : bytes) : bytes :=
  let start := trim_start str in
  let stop := trim_end str start (length str) in
  take (stop - start) (drop start str).

(** ** [Protocol::parse_request] *)
Definition parse_request (raw_line : bytes) : Request :=
  let line := trim raw_line in
  match line with
  | [] => empty_request
  | _ =>
      let '(cmd, iss) := extract_word line in
      let cmd := map toupper cmd in
      if bool_decide (cmd = lit "LIST") then mkRequest LIST []
      else if bool_decide (cmd = lit "GET") then mkRequest GET (trim (getline (skip_ws iss)))
      else if bool_decide (cmd = lit "QUIT") || bool_decide (cmd = lit "EXIT")
              || bool_decide (cmd = lit "CLOSE") then mkRequest QUIT []
      else mkRequest UNKNOWN cmd
  end.

(** ** The response builders *)
Definition list_line (file : MediaFileInfo) : bytes :=
  filename file ++ lit " " ++ dec (size_bytes file) ++ [LF].

Definition build_list_response (files : list MediaFileInfo) : bytes :=
  lit "OK " ++ dec (zlen files) ++ [LF] ++ concat (map list_line files).

Definition build_get_header (file_size : Z) : bytes := lit "OK " ++ dec file_size ++ [LF].

Definition build_error_response (error_message : bytes) : bytes :=
  lit "ERROR " ++ error_message ++ [LF].

Definition build_ok_response (message : bytes) : bytes :=
  match message with
  | [] => lit "OK" ++ [LF]
  | _ => lit "OK " ++ message ++ [LF]
  end.

(** ** Reference definitions *)

(** [trim] without indices: drop the leading and the trailing white space. *)
Definition rtrim (s : bytes) : bytes := reverse (dropwhile isspace (reverse s)).
Definition trim_ref (s : bytes) : bytes := rtrim (skip_ws s).

(** A string that [trim] leaves alone. *)
Definition trimmed (s : bytes) : Prop :=
  (∀ c, head s = Some c → isspace c = false) ∧ (∀ c, last s = Some c → isspace c = false).

Definition all_space (s : bytes) : Prop := Forall (λ c, isspace c = true) s.

(** The command words of the protocol, by their upper-case spelling. *)
Definition command_of (upper : bytes) : CommandType :=
  if bool_decide (upper = lit "LIST") then LIST
  else if bool_decide (upper = lit "GET") then GET
  else if bool_decide (upper ∈ [lit "QUIT"; lit "EXIT"; lit "CLOSE"]) then QUIT
  else UNKNOWN.

#[export] Instance CommandType_eq_dec : EqDecision CommandType.
Proof. solve_decision. Defined.
#[export] Instance Request_eq_dec : EqDecision Request.
Proof. solve_decision. Defined.

(** ** Lemmas on [trim] *)
Lemma trim_start_length s : trim_start s = length (takewhile isspace s).
Proof. induction s as [|c s IH]; simpl; [done|]. destruct (isspace c); simpl; congruence. Qed.

Lemma drop_trim_start s : drop (trim_start s) s = skip_ws s.
Proof.
  unfold skip_ws. rewrite trim_start_length.
  rewrite <-(takewhile_dropwhile isspace s) at 2. by rewrite drop_app_length.
Qed.

(** The backward loop over [pre ++ t], started at its end, drops the trailing
    white space of [t]. *)
Lemma trim_end_rtrim pre t k :
  trim_end ((pre ++ t) ++ k) (length pre) (length (pre ++ t)) = (length pre + length (rtrim t))%nat.
Proof.
  revert k. induction t as [|c t IH] using rev_ind; intros k.
  - rewrite app_nil_r. unfold rtrim. simpl. destruct (length pre) as [|n] eqn:E; [done|].
    simpl. destruct (Nat.ltb_spec (S n) (S n)); [lia|]. simpl. lia.
  - rewrite !length_app. simpl length.
    replace (length pre + (length t + 1))%nat with (S (length pre + length t)) by lia.
    simpl. destruct (Nat.ltb_spec (length pre) (S (length pre + length t))); [|lia]. simpl.
    replace (nth (length pre + length t) ((pre ++ t ++ [c]) ++ k) NUL) with c.
    2:{ rewrite (app_assoc pre), <-!app_assoc, (app_assoc pre). rewrite app_nth2; rewrite length_app; [|lia].
        by rewrite Nat.sub_diag. }
    unfold rtrim. rewrite reverse_snoc. simpl. destruct (isspace c) eqn:Ec; simpl.
    + specialize (IH ([c] ++ k)). rewrite length_app in IH.
      rewrite (app_assoc pre), <-!app_assoc, (app_assoc pre). exact IH.
    + rewrite length_reverse. simpl. rewrite length_reverse. lia.
Qed.

Lemma trim_trim_ref s : trim s = trim_ref s.
Proof.
  unfold trim, trim_ref. rewrite drop_trim_start.
  assert (trim_end s (trim_start s) (length s) = (trim_start s + length (rtrim (skip_ws s)))%nat) as ->.
  { pose proof (trim_end_rtrim (takewhile isspace s) (skip_ws s) []) as H.
    rewrite app_nil_r in H. unfold skip_ws in *. rewrite takewhile_dropwhile in H.
    by rewrite trim_start_length. }
  replace (_ + _ - _)%nat with (length (rtrim (skip_ws s))) by lia.
  unfold rtrim. pose proof (takewhile_dropwhile isspace (reverse (skip_ws s))) as H.
  apply (f_equal (@reverse _)) in H. rewrite reverse_app, reverse_involutive in H.
  rewrite <-H at 2. by rewrite take_app_length.
Qed.

Lemma rtrim_decompose s : ∃ post, s = rtrim s ++ post ∧ all_space post.
Proof.
  exists (reverse (takewhile isspace (reverse s))). split.
  - unfold rtrim. rewrite <-reverse_app, takewhile_dropwhile. by rewrite reverse_involutive.
  - apply Forall_reverse. apply takewhile_Forall.
Qed.

Lemma rtrim_last s c : last (rtrim s) = Some c → isspace c = false.
Proof.
  unfold rtrim. rewrite <-head_reverse, reverse_involutive. apply dropwhile_head.
Qed.

Lemma rtrim_trimmed_id s : (∀ c, last s = Some c → isspace c = false) → rtrim s = s.
Proof.
  intros H. unfold rtrim. rewrite dropwhile_stop; [apply reverse_involutive|].
  intros c. rewrite head_reverse. apply H.
Qed.

Lemma rtrim_app_space s k : all_space k → rtrim (s ++ k) = rtrim s.
Proof.
  intros H. unfold rtrim. rewrite reverse_app, dropwhile_app; [done|]. by apply Forall_reverse.
Qed.

Lemma head_rtrim s c : head (rtrim s) = Some c → head s = Some c.
Proof.
  destruct (rtrim_decompose s) as (post & Hs & _). rewrite Hs at 2.
  by destruct (rtrim s).
Qed.

Lemma trim_is_trimmed s : trimmed (trim s).
Proof.
  rewrite trim_trim_ref. split.
  - intros c Hc%head_rtrim. by eapply dropwhile_head.
  - apply rtrim_last.
Qed.

Lemma trim_decompose s : ∃ pre post, s = pre ++ trim s ++ post ∧ all_space pre ∧ all_space post.
Proof.
  rewrite trim_trim_ref. unfold trim_ref. destruct (rtrim_decompose (skip_ws s)) as (post & H & ?).
  exists (takewhile isspace s), post. rewrite <-H. unfold skip_ws.
  rewrite takewhile_dropwhile. split_and!; [done|apply takewhile_Forall|done].
Qed.

Lemma trim_unique pre t post : all_space pre → all_space post → trimmed t → trim (pre ++ t ++ post) = t.
Proof.
  intros Hpre Hpost [Hh Hl]. rewrite trim_trim_ref. unfold trim_ref, skip_ws.
  rewrite dropwhile_app by done. destruct t as [|c t].
  - simpl. by rewrite dropwhile_all.
  - rewrite dropwhile_stop by (intros ? [= <-]; by apply Hh).
    rewrite rtrim_app_space by done. by apply rtrim_trimmed_id.
Qed.

Lemma trim_id t : trimmed t → trim t = t.
Proof. intros. rewrite <-(trim_unique [] t []) at 2; [by rewrite app_nil_r|by constructor..|done]. Qed.

Lemma trim_Forall (P : ascii → Prop) s : Forall P s → Forall P (trim s).
Proof.
  destruct (trim_decompose s) as (pre & post & E & _). rewrite E at 1.
  by intros [_ [? _]%Forall_app]%Forall_app.
Qed.

Lemma quit_words u :
  bool_decide (u ∈ [lit "QUIT"; lit "EXIT"; lit "CLOSE"]) =
  bool_decide (u = lit "QUIT") || bool_decide (u = lit "EXIT") || bool_decide (u = lit "CLOSE").
Proof.
  apply eq_true_iff_eq. rewrite !orb_true_iff, !bool_decide_eq_true, !elem_of_cons, elem_of_nil. tauto.
Qed.

(** The command word of a non-blank line. *)
Lemma parse_request_word l w rest :
  trim l ≠ [] → extract_word (trim l) = (w, rest) →
  parse_request l =
    match command_of (map toupper w) with
    | GET => mkRequest GET (trim (getline (skip_ws rest)))
    | UNKNOWN => mkRequest UNKNOWN (map toupper w)
    | c => mkRequest c []
    end.
Proof.
  intros Hne Hw. unfold parse_request, command_of. destruct (trim l) as [|c t] eqn:E; [done|].
  rewrite Hw, quit_words. by repeat case_bool_decide.
Qed.

Lemma isspace_toupper_inv c : isspace (toupper c) = false → isspace c = false.
Proof.
  unfold toupper, islower. pose proof (code_bounds c).
  destruct (Z.leb_spec 97 (code c)), (Z.leb_spec (code c) 122); simpl; try done.
  intros _. unfold isspace. lia.
Qed.

(** A word whose upper-case form has no white space has none. *)
Lemma nonspace_upper w u : map toupper w = u → forallb nonspace u = true → Forall (λ c, nonspace c = true) w.
Proof.
  intros <-. rewrite forallb_forall. intros H. apply Forall_forall. intros c Hc.
  unfold nonspace. rewrite negb_true_iff. apply isspace_toupper_inv.
  apply negb_true_iff. apply H. apply in_map. by apply list_elem_of_In.
Qed.

(** A request line made of a command word, white space and an argument. *)
Lemma parse_request_parts pre w ws arg post :
  all_space pre → all_space ws → all_space post →
  Forall (λ c, nonspace c = true) w → w ≠ [] → ws ≠ [] → trimmed arg → arg ≠ [] →
  parse_request (pre ++ w ++ ws ++ arg ++ post) =
    match command_of (map toupper w) with
    | GET => mkRequest GET (trim (getline arg))
    | UNKNOWN => mkRequest UNKNOWN (map toupper w)
    | c => mkRequest c []
    end.
Proof.
  intros Hpre Hws Hpost Hw Hw0 Hws0 Harg Harg0.
  assert (trim (pre ++ w ++ ws ++ arg ++ post) = w ++ ws ++ arg) as Ht.
  { rewrite (app_assoc ws), (app_assoc w). apply trim_unique; [done..|]. split.
    - intros c Hc. destruct w as [|d w]; [done|]. simplify_eq/=. inversion Hw as [|?? Hd].
      unfold nonspace in Hd. by destruct (isspace _).
    - intros c. rewrite !last_app. destruct Harg as [_ Hl].
      destruct (last arg) eqn:E; [by intros [= <-]; apply Hl|].
      by apply last_None in E. }
  rewrite (parse_request_word _ w (ws ++ arg)).
  - unfold skip_ws. rewrite dropwhile_app by done. rewrite dropwhile_stop; [done|apply Harg].
  - rewrite Ht. by destruct w.
  - rewrite Ht. apply extract_word_app; [done..|]. intros c Hc.
    destruct ws as [|d ws]; [done|]. simplify_eq/=. by inversion Hws.
Qed.

Lemma parse_get pre k ws name post :
  all_space pre → all_space ws → all_space post → ws ≠ [] →
  map toupper k = lit "GET" → trimmed name → name ≠ [] → Forall (λ c, c ≠ LF) name →
  parse_request (pre ++ k ++ ws ++ name ++ post) = mkRequest GET name.
Proof.
  intros Hpre Hws Hpost Hws0 Hk Hname Hname0 Hlf.
  rewrite parse_request_parts; try done.
  - rewrite Hk. change (command_of (lit "GET")) with GET. simpl.
    by rewrite getline_no_lf, trim_id.
  - by apply (nonspace_upper _ _ Hk).
  - by intros ->.
Qed.

(** ** Properties *)

(** C32: the index loops of [trim] compute the reference trimming; the result is
    what remains between a blank prefix and a blank suffix, and no other string
    with that property exists. *)
Theorem trim_correct s :
  trim s = trim_ref s ∧ trimmed (trim s) ∧
  (∃ pre post, s = pre ++ trim s ++ post ∧ all_space pre ∧ all_space post) ∧
  (∀ pre t post, s = pre ++ t ++ post → all_space pre → all_space post → trimmed t → trim s = t).
Proof.
  split_and!; [apply trim_trim_ref|apply trim_is_trimmed|apply trim_decompose|].
  intros pre t post -> **. by apply trim_unique.
Qed.

(** C31: a [GET] line is parsed into its file name whatever the case of the
    keyword, the white space around the line and between keyword and name; the
    name keeps its inner spaces. *)
Theorem parse_request_get pre k ws name post :
  all_space pre → all_space ws → all_space post → ws ≠ [] →
  map toupper k = lit "GET" → trimmed name → name ≠ [] → Forall (λ c, c ≠ LF) name →
  parse_request (pre ++ k ++ ws ++ name ++ post) = mkRequest GET name.
Proof. apply parse_get. Qed.

Lemma parse_request_get_witness :
  parse_request (lit "  get   my movie.mp4 " ++ [CR; LF]) = mkRequest GET (lit "my movie.mp4").
Proof.
  refine (parse_request_get (lit "  ") (lit "get") (lit "   ") (lit "my movie.mp4") (lit " " ++ [CR; LF])
            _ _ _ _ _ _ _ _); try by vm_compute.
  all: try (split; intros c Hc; vm_compute in Hc; injection Hc as <-; reflexivity).
  all: repeat constructor; discriminate.
Defined.

(** Every line is classified by the upper-case form of its first word, and
    a blank line is an unknown command with an empty argument. *)
Theorem parse_request_classifies l :
  type (parse_request l) =
    match trim l with [] => UNKNOWN | t => command_of (map toupper (fst (extract_word t))) end.
Proof.
  destruct (trim l) as [|c t] eqn:E.
  - unfold parse_request. by rewrite E.
  - destruct (extract_word (c :: t)) as [w rest] eqn:Ew. rewrite <-E in Ew.
    rewrite (parse_request_word l w rest); [|congruence|done]. simpl.
    by destruct (command_of _).
Qed.

(** C33: the argument of a request never begins or ends with white space and
    never contains a newline, so it cannot break the framing of a later line. *)
Theorem parse_request_argument_clean l :
  trimmed (argument (parse_request l)) ∧ Forall (λ c, c ≠ LF) (argument (parse_request l)).
Proof.
  assert (trimmed []) as H0 by (by split).
  destruct (trim l) as [|c t] eqn:E.
  { unfold parse_request. rewrite E. by split; [|constructor]. }
  destruct (extract_word (c :: t)) as [w rest] eqn:Ew.
  assert (Forall (λ c, nonspace (toupper c) = true) w) as Hw.
  { unfold extract_word in Ew. simplify_eq. eapply Forall_impl; [apply takewhile_Forall|].
    intros d Hd. simpl in Hd. unfold nonspace in *. rewrite negb_true_iff in *.
    unfold toupper, islower. destruct (Z.leb_spec 97 (code d)), (Z.leb_spec (code d) 122); simpl; try done.
    unfold isspace. rewrite code_char_of by lia. lia. }
  rewrite <-E in Ew. rewrite (parse_request_word l w rest); [|congruence|done].
  destruct (command_of _); simpl; (split; [|try by constructor]); try done.
  - apply trim_is_trimmed.
  - apply trim_Forall, getline_is_no_lf.
  - split; intros d Hd.
    + destruct w as [|x w]; [done|]. simplify_eq/=. inversion Hw as [|?? Hx].
      unfold nonspace in Hx. by destruct (isspace _).
    + apply last_Some_elem_of, list_elem_of_fmap in Hd as (x & -> & Hx).
      rewrite Forall_forall in Hw. specialize (Hw _ Hx). unfold nonspace in Hw. by destruct (isspace _).
  - apply Forall_map. eapply Forall_impl; [exact Hw|]. intros d Hd. by apply nonspace_ne_lf.
Qed.

