(* ===== verification/Socket.v ===== *)
(** * Socket.cpp: the POSIX socket wrapper, its I/O loops and its set-up calls

    The kernel is not under src/. Every answer it gives to a system call is an
    input: the state [io] holds arbitrary lists of answers, one list per kind of
    call, from which each call takes the next one, so a theorem for every [io]
    is a theorem for every behaviour of the kernel in a finite run.

    - [rx]: what [recv] reports on the connection: a segment of the byte
      stream of the peer (of which a [recv] takes as many bytes as fit its
      buffer), the end of the stream (an empty segment), or an error. When the
      list is exhausted the call has not returned yet ([Blocked]).
    - [sq]: what [send] reports: it accepts at most [n] bytes, fails, or does
      not return. When the list is exhausted the kernel accepts everything.
    - [cq], [aq], [pq]: the answers of [socket], [setsockopt], [bind], [listen]
      and [connect], of [accept], and of [getpeername].
    - [stops]: for each load of a session's [is_active_], whether another
      thread has run its [stop()] since the previous load.

    [tx] is the byte stream the kernel has accepted, [calls] the control calls
    made and [logs] the log calls made, in order. *)

From S2P Require Import Prelude Types CxxString.

Inductive recv_ev := Seg (bs : bytes) | RecvErr (e : errno).
Inductive send_ev := Accept (n : Z) | SendErr (e : errno) | Stall.

Inductive sock_opt := SO_REUSEADDR (v : Z) | SO_RCVTIMEO (sec : Z) | SO_SNDTIMEO (sec : Z).
Inductive sys_call :=
| CSocket
| CSetsockopt (fd : Z) (o : sock_opt)
| CBind (fd : Z) (s_addr sin_port : Z)
| CListen (fd : Z) (backlog : Z)
| CConnect (fd : Z) (s_addr sin_port : Z)
| CAccept (fd : Z)
| CGetpeername (fd : Z)
| CShutdown (fd : Z)
| CClose (fd : Z).

Record io := mkIo {
  rx : list recv_ev;
  sq : list send_ev;
  tx : bytes;
  cq : list (errno + Z);
  aq : list (errno + (Z * Z * Z));   (* descriptor, s_addr, sin_port *)
  pq : list (errno + (Z * Z));       (* s_addr, sin_port *)
  calls : list sys_call;
  stops : list bool;
  logs : list log_entry }.

Definition set_rx r s := mkIo r (sq s) (tx s) (cq s) (aq s) (pq s) (calls s) (stops s) (logs s).
Definition set_sq q s := mkIo (rx s) q (tx s) (cq s) (aq s) (pq s) (calls s) (stops s) (logs s).
Definition add_tx d s := mkIo (rx s) (sq s) (tx s ++ d) (cq s) (aq s) (pq s) (calls s) (stops s) (logs s).
Definition set_cq q s := mkIo (rx s) (sq s) (tx s) q (aq s) (pq s) (calls s) (stops s) (logs s).
Definition set_aq q s := mkIo (rx s) (sq s) (tx s) (cq s) q (pq s) (calls s) (stops s) (logs s).
Definition set_pq q s := mkIo (rx s) (sq s) (tx s) (cq s) (aq s) q (calls s) (stops s) (logs s).
Definition add_call c s := mkIo (rx s) (sq s) (tx s) (cq s) (aq s) (pq s) (calls s ++ [c]) (stops s) (logs s).
Definition set_stops l s := mkIo (rx s) (sq s) (tx s) (cq s) (aq s) (pq s) (calls s) l (logs s).
Definition add_log l s := mkIo (rx s) (sq s) (tx s) (cq s) (aq s) (pq s) (calls s) (stops s) (logs s ++ [l]).

(** ** System calls: a result is [inl errno] for a negative return value *)
Definition sys_recv (n : Z) : M io (errno + bytes) := λ s,
  match rx s with
  | [] => Blocked s
  | RecvErr e :: r => Ret (inl e) (set_rx r s)
  | Seg bs :: r =>
      if zlen bs <=? n then Ret (inr bs) (set_rx r s)
      else Ret (inr (ztake n bs)) (set_rx (Seg (zdrop n bs) :: r) s)
  end.

Definition sys_send (data : bytes) : M io (errno + Z) := λ s,
  match sq s with
  | [] => Ret (inr (zlen data)) (add_tx data s)
  | Accept n :: q =>
      let k := (0 `max` n) `min` zlen data in
      Ret (inr k) (add_tx (ztake k data) (set_sq q s))
  | SendErr e :: q => Ret (inl e) (set_sq q s)
  | Stall :: _ => Blocked s
  end.

Definition sys_ctl (c : sys_call) : M io (errno + Z) := λ s,
  match cq s with
  | [] => Blocked (add_call c s)
  | r :: q => Ret r (set_cq q (add_call c s))
  end.

Definition sys_accept (fd : Z) : M io (errno + (Z * Z * Z)) := λ s,
  match aq s with
  | [] => Blocked (add_call (CAccept fd) s)
  | r :: q => Ret r (set_aq q (add_call (CAccept fd) s))
  end.

Definition sys_getpeername (fd : Z) : M io (errno + (Z * Z)) := λ s,
  match pq s with
  | [] => Blocked (add_call (CGetpeername fd) s)
  | r :: q => Ret r (set_pq q (add_call (CGetpeername fd) s))
  end.

(** The [LOG_*] macros. *)
Definition LOG (l : LogLevel) (args : list log_arg) : M io () := modify (add_log (mkLog l args)).

(** ** The class *)
Record Socket := mkSocket { fd_ : Z }.

Definition is_valid (sock : Socket) : bool := 0 <=? fd_ sock.

Definition create_tcp : M io Socket :=
  fd ← sys_ctl CSocket;
  match fd with
  | inl e => LOG ERROR [Str "socket() creation failed: "; AErr e];; mret (mkSocket (-1))
  | inr fd => mret (mkSocket fd)
  end.

Definition set_reuse_address (reuse : bool) (sock : Socket) : M io bool :=
  if negb (is_valid sock) then mret false
  else
    r ← sys_ctl (CSetsockopt (fd_ sock) (SO_REUSEADDR (if reuse then 1 else 0)));
    match r with
    | inl e => LOG WARN [Str "setsockopt(SO_REUSEADDR) failed: "; AErr e];; mret false
    | inr _ => mret true
    end.

(** The address functions of the C library. [inet_pton host] is [None] when it
    returns 0 or less; [INADDR_ANY] is 0. *)
Section net.
Context (inet_pton : bytes → option Z) (inet_ntop : Z → option bytes) (htons ntohs : Z → Z).

Definition INADDR_ANY : Z := 0.

Definition bind (h : bytes) (p : Z) (sock : Socket) : M io bool :=
  if negb (is_valid sock) then mret false
  else
    let addr := if bool_decide (h = []) || bool_decide (h = lit "0.0.0.0") then Some INADDR_ANY
                else inet_pton h in
    match addr with
    | None => LOG ERROR [Str "Invalid IPv4 address: "; AStr h];; mret false
    | Some addr =>
        r ← sys_ctl (CBind (fd_ sock) addr (htons p));
        match r with
        | inl e =>
            LOG ERROR [Str "bind() on "; AStr h; Str ":"; ANum p; Str " failed: "; AErr e];; mret false
        | inr _ => mret true
        end
    end.

Definition listen (bl : Z) (sock : Socket) : M io bool :=
  if negb (is_valid sock) then mret false
  else
    r ← sys_ctl (CListen (fd_ sock) bl);
    match r with
    | inl e => LOG ERROR [Str "listen() failed: "; AErr e];; mret false
    | inr _ => mret true
    end.

Definition ip_text (addr : Z) : bytes :=
  match inet_ntop addr with Some s => s | None => lit "unknown" end.

(** Returns the new socket and the two out parameters, which keep the
    caller's values when the call fails. *)
Definition accept (client_ip : bytes) (client_port : Z) (sock : Socket) : M io (Socket * bytes * Z) :=
  if negb (is_valid sock) then mret (mkSocket (-1), client_ip, client_port)
  else
    r ← sys_accept (fd_ sock);
    match r with
    | inl e =>
        (if bool_decide (e ≠ EINTR) && bool_decide (e ≠ EBADF) && bool_decide (e ≠ EINVAL)
         then LOG ERROR [Str "accept() failed: "; AErr e] else mret ());;
        mret (mkSocket (-1), client_ip, client_port)
    | inr (fd, addr, sin_port) => mret (mkSocket fd, ip_text addr, ntohs sin_port)
    end.

Definition connect (h : bytes) (p : Z) (sock : Socket) : M io bool :=
  if negb (is_valid sock) then mret false
  else
    match inet_pton h with
    | None => LOG ERROR [Str "inet_pton failed for host: "; AStr h];; mret false
    | Some addr =>
        r ← sys_ctl (CConnect (fd_ sock) addr (htons p));
        match r with
        | inl e =>
            LOG ERROR [Str "connect() to "; AStr h; Str ":"; ANum p; Str " failed: "; AErr e];; mret false
        | inr _ => mret true
        end
    end.

Definition get_peer_info (ip : bytes) (p : Z) (sock : Socket) : M io (bool * bytes * Z) :=
  if negb (is_valid sock) then mret (false, ip, p)
  else
    r ← sys_getpeername (fd_ sock);
    match r with
    | inl _ => mret (false, ip, p)
    | inr (addr, sin_port) => mret (true, ip_text addr, ntohs sin_port)
    end.
End net.

Definition set_timeouts (rcv_sec snd_sec : Z) (sock : Socket) : M io bool :=
  if negb (is_valid sock) then mret false
  else
    r ← sys_ctl (CSetsockopt (fd_ sock) (SO_RCVTIMEO rcv_sec));
    match r with
    | inl e => LOG WARN [Str "setsockopt(SO_RCVTIMEO) failed: "; AErr e];; mret false
    | inr _ =>
        r ← sys_ctl (CSetsockopt (fd_ sock) (SO_SNDTIMEO snd_sec));
        match r with
        | inl e => LOG WARN [Str "setsockopt(SO_SNDTIMEO) failed: "; AErr e];; mret false
        | inr _ => mret true
        end
    end.

(** One iteration of the loop of [send_all]; the loop variable is
    [total_sent]. The result carries the value stored in [*out_bytes_sent]. *)
Definition send_all_body (data : bytes) (total_sent : Z) : M io (Z + bool * option Z) :=
  if total_sent <? zlen data then
    r ← sys_send (zdrop total_sent data);
    match r with
    | inl e =>
        if bool_decide (e = EINTR) then mret (inl total_sent)
        else
          (if bool_decide (e = EPIPE) || bool_decide (e = ECONNRESET)
           then LOG DEBUG [Str "send_all: Client closed connection abruptly ("; AErr e; Str ")"]
           else LOG WARN [Str "send_all failed: "; AErr e]);;
          mret (inr (false, Some (i32 total_sent)))
    | inr n =>
        if n =? 0 then mret (inr (false, Some (i32 total_sent)))
        else mret (inl (total_sent + n))
    end
  else mret (inr (true, Some (i32 total_sent))).

(** Every iteration uses up an answer of [sq] or sends the rest of the data. *)
Definition send_fuel (data : bytes) (total_sent : Z) (s : io) : nat :=
  length (sq s) + Z.to_nat (zlen data - total_sent).

Definition send_all (data : bytes) (sock : Socket) : M io (bool * option Z) :=
  if negb (is_valid sock) then mret (false, None)
  else loop (send_fuel data) (send_all_body data) 0.

Definition send_string (str : bytes) (sock : Socket) : M io bool :=
  r ← send_all str sock; mret (fst r).

(** The fuel of the receiving loops: the bytes and events [rx] still holds. *)
Definition rx_size (l : list recv_ev) : nat :=
  sum_list_with (λ ev, match ev with Seg bs => S (length bs) | RecvErr _ => 1%nat end) l.

(** The loop of [recv_all]; the loop variable is what the buffer holds, so
    [total_recv] is its length. The result is the [int] returned and the
    buffer. *)
Definition recv_all_body (length : Z) (data : bytes) : M io (bytes + Z * bytes) :=
  if zlen data <? length then
    r ← sys_recv (length - zlen data);
    match r with
    | inl e =>
        if bool_decide (e = EINTR) then mret (inl data)
        else
          (if bool_decide (e = EAGAIN) then LOG WARN [Str "recv_all: Socket timed out"]
           else if bool_decide (e ≠ ECONNRESET) then LOG WARN [Str "recv_all failed: "; AErr e]
           else mret ());;
          mret (inr (-1, data))
    | inr [] => mret (inr (0, data))
    | inr bs => mret (inl (data ++ bs))
    end
  else mret (inr (1, data)).

Definition recv_all (length : Z) (sock : Socket) : M io (Z * bytes) :=
  if negb (is_valid sock) then mret (-1, [])
  else loop (λ _ s, rx_size (rx s)) (recv_all_body length) [].

(** Strip a trailing carriage return. *)
Definition strip_cr (line : bytes) : bytes :=
  match last line with
  | Some c => if bool_decide (c = CR) then removelast line else line
  | None => line
  end.

Definition DEFAULT_MAX_LINE : Z := 4096.

Definition recv_line_body (max_length : Z) (line : bytes) : M io (bytes + bool * bytes) :=
  if zlen line <? max_length then
    r ← sys_recv 1;
    match r with
    | inl e => if bool_decide (e = EINTR) then mret (inl line) else mret (inr (false, line))
    | inr [] => mret (inr (negb (bool_decide (line = [])), line))
    | inr (ch :: _) =>
        if bool_decide (ch = LF) then mret (inr (true, strip_cr line))
        else mret (inl (line ++ [ch]))
    end
  else
    LOG WARN [Str "recv_line exceeded maximum allowed length ("; ANum max_length; Str " bytes)"];;
    mret (inr (false, line)).

(** Returns the [bool] and the final contents of [line]. *)
Definition recv_line (max_length : Z) (sock : Socket) : M io (bool * bytes) :=
  if negb (is_valid sock) then mret (false, [])
  else loop (λ _ s, rx_size (rx s)) (recv_line_body max_length) [].

Definition shutdown (sock : Socket) : M io () :=
  if 0 <=? fd_ sock then modify (add_call (CShutdown (fd_ sock))) else mret ().

Definition close (sock : Socket) : M io Socket :=
  if 0 <=? fd_ sock then modify (add_call (CClose (fd_ sock)));; mret (mkSocket (-1))
  else mret sock.

(** ** The byte stream behind a list of receive events

    [stream]: the bytes a reader gets before the stream ends or an error other
    than [EINTR] is reported; [stream_end]: the events from that point on. *)
Fixpoint stream (l : list recv_ev) : bytes :=
  match l with
  | [] => []
  | Seg [] :: _ => []
  | Seg bs :: l => bs ++ stream l
  | RecvErr e :: l => if bool_decide (e = EINTR) then stream l else []
  end.

Fixpoint stream_end (l : list recv_ev) : list recv_ev :=
  match l with
  | [] => []
  | Seg [] :: _ => l
  | Seg _ :: l => stream_end l
  | RecvErr e :: l' => if bool_decide (e = EINTR) then stream_end l' else l
  end.

(** Two event lists that deliver the same bytes, however segmented and
    interrupted, and end in the same way. *)
Definition rx_equiv (l1 l2 : list recv_ev) : Prop :=
  stream l1 = stream l2 ∧ stream_end l1 = stream_end l2.

#[export] Instance rx_equiv_equivalence : Equivalence rx_equiv.
Proof. unfold rx_equiv. split; [done|intros ?? []; done|intros ??? [] []; split; congruence]. Qed.

(** ** What the calls leave alone *)

(** Receiving changes [rx] and [logs] only. *)
Definition rx_frame (s s' : io) : Prop :=
  sq s' = sq s ∧ tx s' = tx s ∧ cq s' = cq s ∧ aq s' = aq s ∧ pq s' = pq s ∧
  calls s' = calls s ∧ stops s' = stops s.

(** Sending changes [sq], [tx] and [logs] only. *)
Definition tx_frame (s s' : io) : Prop :=
  rx s' = rx s ∧ cq s' = cq s ∧ aq s' = aq s ∧ pq s' = pq s ∧
  calls s' = calls s ∧ stops s' = stops s.

#[export] Instance rx_frame_preorder : PreOrder rx_frame.
Proof.
  split; [by intros s|].
  intros s1 s2 s3 (?&?&?&?&?&?&?) (?&?&?&?&?&?&?). unfold rx_frame. split_and!; congruence.
Qed.
#[export] Instance tx_frame_preorder : PreOrder tx_frame.
Proof.
  split; [by intros s|].
  intros s1 s2 s3 (?&?&?&?&?&?) (?&?&?&?&?&?). unfold tx_frame. split_and!; congruence.
Qed.

Lemma rx_frame_set_rx s r : rx_frame s (set_rx r s).
Proof. done. Qed.
Lemma rx_frame_log s l : rx_frame s (add_log l s).
Proof. done. Qed.
Lemma tx_frame_log s l : tx_frame s (add_log l s).
Proof. done. Qed.
#[export] Hint Resolve rx_frame_set_rx rx_frame_log tx_frame_log : wp.

Lemma wp_LOG l args (Q : () → io → Prop) (X B : io → Prop) s :
  Q () (add_log (mkLog l args) s) → wp (LOG l args) Q X B s.
Proof. done. Qed.
#[export] Hint Resolve wp_LOG : wp.

(** ** [send] and [send_all] *)

Lemma wp_send data (Q : errno + Z → io → Prop) (X B : io → Prop) s :
  (∀ k q, 0 ≤ k ≤ zlen data → (length q ≤ length (sq s))%nat →
     (length q < length (sq s))%nat ∨ k = zlen data →
     q `suffix_of` sq s → (k = 0 → data ≠ [] → ∃ n, n ≤ 0 ∧ Accept n ∈ sq s) →
     Q (inr k) (add_tx (ztake k data) (set_sq q s))) →
  (∀ e q, sq s = SendErr e :: q → Q (inl e) (set_sq q s)) →
  (Stall ∈ sq s → B s) →
  wp (sys_send data) Q X B s.
Proof.
  intros Hok Herr Hb. pose proof (zlen_nonneg data). unfold wp, sys_send. destruct (sq s) as [|[n|e|] q] eqn:E.
  all: rewrite ?E in Hok, Herr, Hb.
  - specialize (Hok (zlen data) []). unfold ztake, zlen in *. rewrite take_ge in Hok by lia.
    replace (set_sq [] s) with s in Hok by (rewrite <-E; by destruct s).
    apply Hok; [lia|done|by right|done|].
    intros H0 Hne. destruct data; [done|simpl in H0; lia].
  - apply Hok; simpl; [lia|lia|left; lia|by exists [Accept n]|].
    intros H0 Hne. exists n. split; [|set_solver].
    destruct data as [|c data]; [done|]. unfold zlen in H0. simpl in H0. lia.
  - by apply Herr.
  - apply Hb. set_solver.
Qed.

(** The answers of [send] that let a transfer go on. *)
Definition send_ok (ev : send_ev) : Prop :=
  match ev with Accept n => 1 ≤ n | SendErr e => e = EINTR | Stall => False end.

(** The whole behaviour of [send_all] on a valid socket: what the kernel has
    accepted is a prefix of the data, all of it on success, and with
    well-behaved answers the call succeeds. [Q] may rely on all of it. *)
Lemma wp_send_all data sock (Q : bool * option Z → io → Prop) (X B : io → Prop) s :
  is_valid sock = true →
  (∀ s', tx_frame s s' → tx s' = tx s ++ data → sq s' `suffix_of` sq s →
     Q (true, Some (i32 (zlen data))) s') →
  (∀ s' k, tx_frame s s' → 0 ≤ k < zlen data → tx s' = tx s ++ ztake k data → sq s' `suffix_of` sq s →
     ¬ Forall send_ok (sq s) → Q (false, Some (i32 k)) s') →
  (∀ s' k, tx_frame s s' → 0 ≤ k < zlen data → tx s' = tx s ++ ztake k data → sq s' `suffix_of` sq s →
     ¬ Forall send_ok (sq s) → B s') →
  wp (send_all data sock) Q X B s.
Proof.
  intros Hv Hok Hfail Hb. unfold send_all. rewrite Hv. simpl.
  apply (wp_loop (λ total s', 0 ≤ total ≤ zlen data ∧ tx_frame s s' ∧ sq s' `suffix_of` sq s ∧
                              tx s' = tx s ++ ztake total data)).
  2:{ split_and!; [done|done|done|done|]. by rewrite ztake_0, app_nil_r. }
  intros total s' (Ht & Hfr & Hsuf & Htx). unfold send_all_body.
  destruct (Z.ltb_spec total (zlen data)) as [Hlt|Hge].
  2:{ apply wp_ret. assert (total = zlen data) as -> by lia. apply Hok; [done| |done].
      by rewrite Htx, ztake_all by lia. }
  assert (∀ ev, ev ∈ sq s' → ¬ send_ok ev → ¬ Forall send_ok (sq s)) as Hbad.
  { intros ev Hin Hn Hall. rewrite Forall_forall in Hall. apply Hn, Hall.
    destruct Hsuf as [pre ->]. apply elem_of_app. by right. }
  apply wp_bind, wp_send.
  - intros k q Hk Hq Hdec Hqs Hz. rewrite zlen_zdrop in * by lia.
    assert (tx_frame s (add_tx (ztake k (zdrop total data)) (set_sq q s'))) as Hfr' by exact Hfr.
    assert (q `suffix_of` sq s) as Hsuf' by (by etrans).
    destruct (Z.eqb_spec k 0) as [->|Hk0].
    + apply wp_ret. apply Hfail; [done|lia| |done|].
      * simpl. by rewrite Htx, ztake_0, app_nil_r.
      * destruct Hz as (n & Hn & Hin); [done| |].
        { intros H0. pose proof (zlen_zdrop total data ltac:(lia)) as E.
          rewrite H0 in E. unfold zlen in *. simpl in *. lia. }
        apply (Hbad _ Hin). simpl. lia.
    + apply wp_ret. split_and!; [lia|lia|done|done| |].
      * simpl. rewrite Htx, <-app_assoc, ztake_add by lia. done.
      * unfold send_fuel. simpl. lia.
  - intros e q Hq. assert (q `suffix_of` sq s) as Hsuf'.
    { etrans; [|exact Hsuf]. rewrite Hq. by apply suffix_cons_r. }
    case_bool_decide as He.
    + apply wp_ret. split_and!; [lia|lia|done|done|done|].
      unfold send_fuel. simpl. rewrite Hq. simpl. lia.
    + assert (¬ Forall send_ok (sq s)).
      { apply (Hbad (SendErr e)); [rewrite Hq; left|done]. }
      apply wp_bind. case_match; apply wp_LOG, wp_ret, Hfail; done || lia.
  - intros Hin. apply (Hb _ total); [done|lia|done|done|].
    apply (Hbad Stall); [done|by intros []].
Qed.

Lemma wp_send_string data sock (Q : bool → io → Prop) (X B : io → Prop) s :
  is_valid sock = true →
  (∀ s', tx_frame s s' → tx s' = tx s ++ data → sq s' `suffix_of` sq s → Q true s') →
  (∀ s' p, tx_frame s s' → p `prefix_of` data → tx s' = tx s ++ p → ¬ Forall send_ok (sq s) → Q false s' ∧ B s') →
  wp (send_string data sock) Q X B s.
Proof.
  intros Hv Hok Hfail. unfold send_string. apply wp_bind, wp_send_all; [done|..].
  - intros s' Hfr Ht Hsuf. by apply wp_ret, Hok.
  - intros s' k Hfr Hk Ht _ Hn. apply wp_ret. by eapply Hfail; [|apply ztake_prefix|..].
  - intros s' k Hfr Hk Ht _ Hn. by eapply Hfail; [|apply ztake_prefix|..].
Qed.

Lemma suffix_Forall {A} (P : A → Prop) l k : l `suffix_of` k → Forall P k → Forall P l.
Proof. intros [pre ->]. by intros [_ ?]%Forall_app. Qed.

(** A partial send followed by an error. *)
Lemma send_all_cut data sock k e q s :
  is_valid sock = true → 0 < k < zlen data → e ≠ EINTR → sq s = Accept k :: SendErr e :: q →
  ∃ s', send_all data sock s = Ret (false, Some (i32 k)) s' ∧ tx s' = tx s ++ ztake k data ∧
        sq s' = q ∧ tx_frame s s'.
Proof.
  intros Hv Hk He Hsq. unfold send_all, loop, send_fuel. rewrite Hv. simpl. rewrite Hsq. simpl.
  assert (send_all_body data 0 s = Ret (inl k) (add_tx (ztake k data) (set_sq (SendErr e :: q) s))) as E1.
  { unfold send_all_body. destruct (Z.ltb_spec 0 (zlen data)); [|lia].
    unfold mbind, M_bind, sys_send. rewrite Hsq, zdrop_0. simpl.
    replace ((0 `max` k) `min` zlen data) with k by lia. by destruct (Z.eqb_spec k 0); [lia|]. }
  unfold mbind at 1, M_bind at 1. rewrite E1. simpl.
  set (s1 := add_tx (ztake k data) (set_sq (SendErr e :: q) s)).
  assert (∃ l, send_all_body data k s1 = Ret (inr (false, Some (i32 k))) (add_log l (set_sq q s1))) as [l E2].
  { unfold send_all_body. destruct (Z.ltb_spec k (zlen data)); [|lia].
    unfold mbind, M_bind, sys_send, s1. simpl. rewrite bool_decide_eq_false_2 by done.
    destruct (_ || _); by eexists. }
  unfold mbind at 1, M_bind at 1. rewrite E2. by eexists.
Qed.

(** ** [recv] and the receiving loops *)

Lemma wp_recv n (Q : errno + bytes → io → Prop) (X B : io → Prop) s :
  1 ≤ n →
  (∀ bs r, bs ≠ [] → zlen bs ≤ n → stream (rx s) = bs ++ stream r → stream_end r = stream_end (rx s) →
     (rx_size r < rx_size (rx s))%nat → Q (inr bs) (set_rx r s)) →
  (∀ r, stream (rx s) = [] → stream_end (rx s) = Seg [] :: r → (rx_size r < rx_size (rx s))%nat →
     Q (inr []) (set_rx r s)) →
  (∀ r, stream r = stream (rx s) → stream_end r = stream_end (rx s) → (rx_size r < rx_size (rx s))%nat →
     Q (inl EINTR) (set_rx r s)) →
  (∀ e r, e ≠ EINTR → stream (rx s) = [] → stream_end (rx s) = RecvErr e :: r →
     (rx_size r < rx_size (rx s))%nat → Q (inl e) (set_rx r s)) →
  (stream (rx s) = [] → stream_end (rx s) = [] → B s) →
  wp (sys_recv n) Q X B s.
Proof.
  intros Hn Hdata Heof Hintr Herr Hb. unfold wp, sys_recv.
  destruct (rx s) as [|[bs|e] r] eqn:E; [by apply Hb| |].
  - destruct bs as [|c bs].
    { destruct (Z.leb_spec (zlen (@nil ascii)) n) as [_|Hlt]; [|unfold zlen in Hlt; simpl in Hlt; lia].
      apply Heof; [done|done|simpl; lia]. }
    destruct (Z.leb_spec (zlen (c :: bs)) n) as [Hle|Hlt].
    { apply Hdata; [done|done|done|done|simpl; lia]. }
    assert (ztake n (c :: bs) ≠ []) as Hne.
    { unfold ztake. destruct (Z.to_nat n) eqn:En; [lia|done]. }
    assert (zdrop n (c :: bs) ≠ []) as Hne'.
    { intros H0. pose proof (zlen_zdrop n (c :: bs) ltac:(lia)) as Hz. rewrite H0 in Hz.
      unfold zlen in *. simpl in *. lia. }
    pose proof (ztake_zdrop n (c :: bs)) as Hsplit.
    apply Hdata; [done|rewrite zlen_ztake; lia| | |].
    + simpl. destruct (zdrop n (c :: bs)) as [|d ds] eqn:Ed; [done|].
      change (c :: bs ++ stream r) with ((c :: bs) ++ stream r). rewrite <-Hsplit at 1.
      by rewrite <-app_assoc.
    + simpl. by destruct (zdrop n (c :: bs)).
    + apply (f_equal length) in Hsplit. rewrite length_app in Hsplit.
      destruct (ztake n (c :: bs)); [done|]. simpl in *. lia.
  - destruct (decide (e = EINTR)) as [->|He].
    + apply Hintr; [done|done|simpl; lia].
    + apply Herr; [done|simpl; by rewrite bool_decide_eq_false_2..|simpl; lia].
Qed.

(** What ends a stream, as a result of the next [recv]. *)
Definition ends_with (l : list recv_ev) (r : option errno) (rest : list recv_ev) : Prop :=
  match r with
  | None => stream_end l = Seg [] :: rest
  | Some e => stream_end l = RecvErr e :: rest ∧ e ≠ EINTR
  end.

(** [recv_all n]: the next [n] bytes of the stream; otherwise the stream ended
    early, and the call reports how. *)
Lemma wp_recv_all n sock (Q : Z * bytes → io → Prop) (X B : io → Prop) s :
  is_valid sock = true →
  (∀ s' data, rx_frame s s' → zlen data = 0 `max` n → stream (rx s) = data ++ stream (rx s') →
     stream_end (rx s') = stream_end (rx s) → Q (1, data) s') →
  (∀ s', rx_frame s s' → zlen (stream (rx s)) < n → ends_with (rx s) None (rx s') →
     Q (0, stream (rx s)) s') →
  (∀ s' e, rx_frame s s' → zlen (stream (rx s)) < n → ends_with (rx s) (Some e) (rx s') →
     Q (-1, stream (rx s)) s') →
  (∀ s', rx_frame s s' → zlen (stream (rx s)) < n → stream_end (rx s) = [] → B s') →
  wp (recv_all n sock) Q X B s.
Proof.
  intros Hv Hok Heof Herr Hb. unfold recv_all. rewrite Hv. simpl.
  apply (wp_loop (λ data s', rx_frame s s' ∧ zlen data ≤ 0 `max` n ∧
           stream (rx s) = data ++ stream (rx s') ∧ stream_end (rx s') = stream_end (rx s))).
  2:{ split_and!; [done|unfold zlen; simpl; lia|done|done]. }
  intros data s' (Hfr & Hlen & Hst & Hend). unfold recv_all_body.
  destruct (Z.ltb_spec (zlen data) n) as [Hlt|Hge].
  2:{ apply wp_ret. apply Hok; [done|pose proof (zlen_nonneg data); lia|done|done]. }
  assert (stream (rx s') = [] → stream (rx s) = data) as Hall.
  { intros H0. by rewrite Hst, H0, app_nil_r. }
  apply wp_bind, wp_recv; [lia|..].
  - intros bs r Hbs Hle Hst' Hend' Hm. destruct bs as [|c bs]; [done|]. apply wp_ret.
    split_and!; [exact Hfr|rewrite zlen_app; lia| |simpl; congruence|exact Hm].
    by rewrite Hst, Hst', app_assoc.
  - intros r H0 H1 Hm. apply wp_ret. rewrite <-(Hall H0). rewrite Hend in H1.
    apply Heof; [exact Hfr|by rewrite (Hall H0)|exact H1].
  - intros r H0 H1 Hm. rewrite bool_decide_eq_true_2 by done. apply wp_ret.
    split_and!; [exact Hfr|done|simpl; congruence|simpl; congruence|exact Hm].
  - intros e r He H0 H1 Hm. rewrite bool_decide_eq_false_2 by done. rewrite Hend in H1.
    assert (∀ s2, rx_frame (set_rx r s') s2 → rx s2 = r → Q (-1, data) s2) as Hq.
    { intros s2 Hfr2 <-. rewrite <-(Hall H0). eapply (Herr s2 e); [|by rewrite (Hall H0)|done].
      etrans; [exact Hfr|exact Hfr2]. }
    apply wp_bind. repeat case_bool_decide; first [apply wp_LOG|apply wp_ret]; apply wp_ret, Hq; done.
  - intros H0 H1. apply Hb; [done|by rewrite (Hall H0)|congruence].
Qed.

(** [recv_line]: the reference result, read off the stream. *)
Lemma wp_recv_line max sock (Q : bool * bytes → io → Prop) (X B : io → Prop) s :
  is_valid sock = true → 0 ≤ max →
  (∀ s' line, rx_frame s s' → Forall (λ c, c ≠ LF) line → zlen line < max →
     stream (rx s) = line ++ LF :: stream (rx s') → stream_end (rx s') = stream_end (rx s) →
     Q (true, strip_cr line) s') →
  (∀ s' line, rx_frame s s' → Forall (λ c, c ≠ LF) line → zlen line = max →
     stream (rx s) = line ++ stream (rx s') → stream_end (rx s') = stream_end (rx s) →
     Q (false, line) s') →
  (∀ s', rx_frame s s' → Forall (λ c, c ≠ LF) (stream (rx s)) → zlen (stream (rx s)) < max →
     ends_with (rx s) None (rx s') → Q (negb (bool_decide (stream (rx s) = [])), stream (rx s)) s') →
  (∀ s' e, rx_frame s s' → Forall (λ c, c ≠ LF) (stream (rx s)) → zlen (stream (rx s)) < max →
     ends_with (rx s) (Some e) (rx s') → Q (false, stream (rx s)) s') →
  (∀ s', rx_frame s s' → Forall (λ c, c ≠ LF) (stream (rx s)) → zlen (stream (rx s)) < max →
     stream_end (rx s) = [] → B s') →
  wp (recv_line max sock) Q X B s.
Proof.
  intros Hv Hmax Hok Hlong Heof Herr Hb. unfold recv_line. rewrite Hv. simpl.
  apply (wp_loop (λ line s', rx_frame s s' ∧ zlen line ≤ max ∧ Forall (λ c, c ≠ LF) line ∧
           stream (rx s) = line ++ stream (rx s') ∧ stream_end (rx s') = stream_end (rx s))).
  2:{ by split_and!; [done|unfold zlen; simpl; lia|constructor|..]. }
  intros line s' (Hfr & Hlen & Hlf & Hst & Hend). unfold recv_line_body.
  destruct (Z.ltb_spec (zlen line) max) as [Hlt|Hge].
  2:{ apply wp_bind, wp_LOG, wp_ret. apply Hlong; [exact Hfr|done|lia|done|done]. }
  assert (stream (rx s') = [] → stream (rx s) = line) as Hall.
  { intros H0. by rewrite Hst, H0, app_nil_r. }
  apply wp_bind, wp_recv; [lia|..].
  - intros bs r Hbs Hle Hst' Hend' Hm. destruct bs as [|c [|d bs]]; [done| |].
    2:{ exfalso. unfold zlen in Hle. simpl in Hle. lia. }
    destruct (decide (c = LF)) as [Hc|Hc];
      [rewrite bool_decide_eq_true_2 by done|rewrite bool_decide_eq_false_2 by done]; apply wp_ret.
    + subst c. apply Hok; [exact Hfr|done|done| |simpl; congruence].
      by rewrite Hst, Hst'.
    + split_and!; [exact Hfr|rewrite zlen_app; unfold zlen in *; simpl; lia| | |simpl; congruence|exact Hm].
      * apply Forall_app. by split; [|constructor].
      * by rewrite Hst, Hst', <-app_assoc.
  - intros r H0 H1 Hm. apply wp_ret. rewrite <-(Hall H0). rewrite Hend in H1.
    apply Heof; [exact Hfr|by rewrite (Hall H0)..|exact H1].
  - intros r H0 H1 Hm. rewrite bool_decide_eq_true_2 by done. apply wp_ret.
    split_and!; [exact Hfr|done|done|simpl; congruence|simpl; congruence|exact Hm].
  - intros e r He H0 H1 Hm. rewrite bool_decide_eq_false_2 by done. apply wp_ret.
    rewrite Hend in H1. rewrite <-(Hall H0).
    apply (Herr _ e); [exact Hfr|by rewrite (Hall H0)..|done].
  - intros H0 H1. apply Hb; [done|by rewrite (Hall H0)..|congruence].
Qed.

(** A line received uses up some of what there is to receive. *)
Lemma recv_line_size max sock s :
  wp (recv_line max sock) (λ r s', r.1 = true → (rx_size (rx s') < rx_size (rx s))%nat)
    (λ _, False) (λ _, True) s.
Proof.
  unfold recv_line. destruct (is_valid sock); simpl; [|by apply wp_ret].
  apply (wp_loop (λ line s', (rx_size (rx s') ≤ rx_size (rx s))%nat)); [|done].
  intros line s' Hle. unfold recv_line_body.
  destruct (zlen line <? max); [|by apply wp_bind, wp_LOG, wp_ret].
  apply wp_bind, wp_recv; [lia|..]; simpl.
  - intros [|c bs] r _ _ _ _ Hm; [by apply wp_ret; simpl; lia|].
    destruct (bool_decide (c = LF)); apply wp_ret; simpl; lia.
  - intros r _ _ Hm. apply wp_ret. simpl. lia.
  - intros r _ _ Hm. apply wp_ret. simpl. lia.
  - intros e r He _ _ Hm. rewrite bool_decide_eq_false_2 by done. by apply wp_ret.
  - done.
Qed.

(** ** Reference results *)

(** A line without the carriage return it ends with, if it does: one of them. *)
Definition chomp (line : bytes) : bytes :=
  match reverse line with
  | c :: body => if decide (c = CR) then reverse body else line
  | [] => []
  end.

Lemma chomp_cr line : chomp (line ++ [CR]) = line.
Proof. unfold chomp. rewrite reverse_snoc. by rewrite decide_True, reverse_involutive. Qed.

Lemma chomp_plain line c : c ≠ CR → chomp (line ++ [c]) = line ++ [c].
Proof. intros Hc. unfold chomp. rewrite reverse_snoc. by rewrite decide_False. Qed.

Lemma chomp_last line : last line ≠ Some CR → chomp line = line.
Proof.
  destruct line as [|c line _] using rev_ind; [done|]. rewrite last_snoc. intros Hc. apply chomp_plain. congruence.
Qed.

(** The code's [strip_cr] looks at the last byte and drops it. *)
Lemma strip_cr_chomp line : strip_cr line = chomp line.
Proof.
  destruct line as [|c line _] using rev_ind; [done|]. unfold strip_cr. rewrite last_snoc.
  case_bool_decide as Hc; [subst c; by rewrite removelast_last, chomp_cr|by rewrite chomp_plain].
Qed.

(** What a caller of [recv_line] learns, as a function of the stream alone: the
    [bool], the line, and the stream and end that remain; [None] when the call
    cannot return yet. *)
Definition line_spec (max : Z) (st : bytes) (en : list recv_ev) :
    option (bool * bytes * bytes * list recv_ev) :=
  let line := takewhile not_lf st in
  if zlen line <? max then
    match dropwhile not_lf st with
    | _ :: rest => Some (true, chomp line, rest, en)
    | [] =>
        match en with
        | [] => None
        | Seg _ :: r => Some (negb (bool_decide (st = [])), st, stream r, stream_end r)
        | RecvErr _ :: r => Some (false, st, stream r, stream_end r)
        end
    end
  else Some (false, ztake max st, zdrop max st, en).

Lemma not_lf_Forall l : Forall (λ c, c ≠ LF) l → Forall (λ c, not_lf c = true) l.
Proof. intros H. eapply Forall_impl; [exact H|]. intros c Hc. by apply bool_decide_eq_true. Qed.

Lemma line_spec_found max line rest en :
  Forall (λ c, c ≠ LF) line → zlen line < max →
  line_spec max (line ++ LF :: rest) en = Some (true, chomp line, rest, en).
Proof.
  intros Hlf%not_lf_Forall Hlen. unfold line_spec.
  rewrite takewhile_app, dropwhile_app by done. simpl. rewrite app_nil_r.
  destruct (Z.ltb_spec (zlen line) max); [done|lia].
Qed.

Lemma line_spec_long max line rest en :
  Forall (λ c, c ≠ LF) line → zlen line = max →
  line_spec max (line ++ rest) en = Some (false, line, rest, en).
Proof.
  intros Hlf%not_lf_Forall Hlen. unfold line_spec. rewrite takewhile_app by done.
  destruct (Z.ltb_spec (zlen (line ++ takewhile not_lf rest)) max) as [Hlt|_].
  - rewrite zlen_app in Hlt. pose proof (zlen_nonneg (takewhile not_lf rest)). lia.
  - unfold ztake, zdrop, zlen in *. subst max. rewrite Nat2Z.id, take_app_length, drop_app_length. done.
Qed.

Lemma line_spec_short max st en :
  Forall (λ c, c ≠ LF) st → zlen st < max →
  line_spec max st en =
    match en with
    | [] => None
    | Seg _ :: r => Some (negb (bool_decide (st = [])), st, stream r, stream_end r)
    | RecvErr _ :: r => Some (false, st, stream r, stream_end r)
    end.
Proof.
  intros Hlf%not_lf_Forall Hlen. unfold line_spec.
  rewrite takewhile_all, dropwhile_all by done.
  destruct (Z.ltb_spec (zlen st) max); [done|lia].
Qed.

(** The receiving loop implements the reference result. *)
Lemma recv_line_wp_spec max sock s :
  is_valid sock = true → 0 ≤ max →
  wp (recv_line max sock)
    (λ r s', line_spec max (stream (rx s)) (stream_end (rx s)) =
               Some (r.1, r.2, stream (rx s'), stream_end (rx s')) ∧ rx_frame s s')
    (λ _, False)
    (λ s', line_spec max (stream (rx s)) (stream_end (rx s)) = None ∧ rx_frame s s') s.
Proof.
  intros Hv Hmax. apply wp_recv_line; [done|done|..].
  - intros s' line Hfr Hlf Hlen Hst Hend. split; [|done]. by rewrite Hst, line_spec_found, Hend, strip_cr_chomp.
  - intros s' line Hfr Hlf Hlen Hst Hend. split; [|done]. by rewrite Hst, line_spec_long, Hend.
  - intros s' Hfr Hlf Hlen He. split; [|done]. simpl in He. by rewrite line_spec_short, He.
  - intros s' e Hfr Hlf Hlen [He _]. split; [|done]. by rewrite line_spec_short, He.
  - intros s' Hfr Hlf Hlen He. split; [|done]. by rewrite line_spec_short, He.
Qed.

(** *** The same, said of the bytes

    [reads_line max st en ok line st' en']: on the stream [st] that ends with [en],
    a call with the limit [max] returns [ok] and [line] and leaves [st'] and [en']. *)
Inductive reads_line (max : Z) (st : bytes) (en : list recv_ev) : bool → bytes → bytes → list recv_ev → Prop :=
| line_lf line rest :
    st = line ++ LF :: rest → LF ∉ line → (∀ body, line ≠ body ++ [CR]) → zlen line < max →
    reads_line max st en true line rest en
| line_crlf line rest :
    st = line ++ CR :: LF :: rest → LF ∉ line → zlen line + 1 < max →
    reads_line max st en true line rest en
| line_unterminated c r :
    st ≠ [] → LF ∉ st → zlen st < max → en = Seg c :: r →
    reads_line max st en true st (stream r) (stream_end r)
| line_eof c r :
    st = [] → 0 < max → en = Seg c :: r → reads_line max st en false [] (stream r) (stream_end r)
| line_error e r :
    LF ∉ st → zlen st < max → en = RecvErr e :: r → reads_line max st en false st (stream r) (stream_end r)
| line_too_long line rest :
    st = line ++ rest → LF ∉ line → zlen line = max → reads_line max st en false line rest en.

(** The call waits while neither a newline, nor the limit, nor the end is there. *)
Definition line_pending (max : Z) (st : bytes) (en : list recv_ev) : Prop :=
  (LF ∉ st) ∧ zlen st < max ∧ en = [].

Lemma not_elem_lf (l : bytes) : Forall (λ c, c ≠ LF) l ↔ LF ∉ l.
Proof.
  rewrite Forall_forall. split; [intros H Hin; by destruct (H _ Hin)|]. intros H c Hc ->. by destruct H.
Qed.

(** The description is a function: it says the same as [line_spec]. *)
Lemma reads_line_spec max st en ok line st' en' :
  reads_line max st en ok line st' en' → line_spec max st en = Some (ok, line, st', en').
Proof.
  destruct 1 as [line rest -> Hlf Hcr Hlen|line rest -> Hlf Hlen|c r Hne Hlf Hlen ->|c r -> Hmax ->|e r Hlf Hlen ->|
                 line rest -> Hlf Hlen]; try apply not_elem_lf in Hlf.
  - rewrite line_spec_found by done. do 4 f_equal. destruct line as [|c line _] using rev_ind; [done|].
    apply chomp_plain. intros ->. by destruct (Hcr line).
  - change (CR :: LF :: rest) with ([CR] ++ LF :: rest). rewrite app_assoc, line_spec_found.
    + by rewrite chomp_cr.
    + apply Forall_app. by split; [|repeat constructor].
    + rewrite zlen_app. unfold zlen in *. simpl. lia.
  - rewrite line_spec_short by done. by rewrite bool_decide_eq_false_2.
  - rewrite line_spec_short; [done|constructor|by unfold zlen; simpl; lia].
  - by rewrite line_spec_short.
  - by apply line_spec_long.
Qed.

(** A line before its newline, with what [strip_cr] makes of it. *)
Lemma reads_line_found max line rest en :
  LF ∉ line → zlen line < max → reads_line max (line ++ (LF :: rest)) en true (strip_cr line) rest en.
Proof.
  intros Hlf Hlen. rewrite strip_cr_chomp. destruct line as [|c line _] using rev_ind.
  - apply line_lf; try done. intros body H. by destruct body.
  - destruct (decide (c = CR)) as [->|Hc].
    + rewrite chomp_cr, <-app_assoc. rewrite zlen_app in Hlen. apply line_crlf; [done|set_solver|].
      unfold zlen in *. simpl in *. lia.
    + rewrite chomp_plain by done. apply line_lf; try done. intros body [_ ?]%app_inj_tail. congruence.
Qed.

(** ** Properties *)

(** C4: whatever the kernel answers, [send_all] on a valid socket terminates;
    if it returns true the kernel has accepted exactly the data, once and in
    order; otherwise it has accepted a proper prefix of it; the out parameter is
    the number of bytes accepted, as an [int]; nothing else changes. *)
Theorem send_all_delivers data sock s :
  is_valid sock = true →
  wp (send_all data sock)
    (λ r s', tx_frame s s' ∧
       match r with
       | (true, out) => tx s' = tx s ++ data ∧ out = Some (i32 (zlen data))
       | (false, out) => ∃ k, 0 ≤ k < zlen data ∧ tx s' = tx s ++ ztake k data ∧ out = Some (i32 k)
       end)
    (λ _, False)
    (λ s', tx_frame s s' ∧ ∃ k, 0 ≤ k < zlen data ∧ tx s' = tx s ++ ztake k data) s.
Proof. intros Hv. apply wp_send_all; naive_solver. Qed.

Definition io0 : io := mkIo [] [] [] [] [] [] [] [] [].

Lemma send_all_delivers_witness :
  let s := set_sq [Accept 2; SendErr EINTR; Accept 1; SendErr EPIPE] io0 in
  is_valid (mkSocket 3) = true ∧
  (∃ k, send_all (lit "hello") (mkSocket 3) s =
          Ret (false, Some k) (add_log (mkLog DEBUG [Str "send_all: Client closed connection abruptly (";
                                                     AErr EPIPE; Str ")"])
                                 (add_tx (lit "hel") io0))) ∧
  wp (send_all (lit "hello") (mkSocket 3)) (λ r s', tx_frame s s' ∧
       match r with
       | (true, out) => tx s' = tx s ++ lit "hello" ∧ out = Some (i32 (zlen (lit "hello")))
       | (false, out) => ∃ k, 0 ≤ k < zlen (lit "hello") ∧ tx s' = tx s ++ ztake k (lit "hello") ∧ out = Some (i32 k)
       end)
    (λ _, False)
    (λ s', tx_frame s s' ∧ ∃ k, 0 ≤ k < zlen (lit "hello") ∧ tx s' = tx s ++ ztake k (lit "hello")) s.
Proof.
  split; [reflexivity|]. split; [by exists 3|].
  apply (send_all_delivers (lit "hello") (mkSocket 3)). reflexivity.
Defined.

(** C8: when [send] only ever accepts a positive number of bytes or is
    interrupted by a signal, [send_all] returns true with all the data accepted,
    for every sequence of partial sends. *)
Theorem send_all_succeeds data sock s :
  is_valid sock = true → Forall send_ok (sq s) →
  ∃ s', send_all data sock s = Ret (true, Some (i32 (zlen data))) s' ∧
        tx s' = tx s ++ data ∧ tx_frame s s' ∧ Forall send_ok (sq s').
Proof.
  intros Hv Hok.
  assert (wp (send_all data sock) (λ r s', r = (true, Some (i32 (zlen data))) ∧ tx s' = tx s ++ data ∧
             tx_frame s s' ∧ Forall send_ok (sq s')) (λ _, False) (λ _, False) s) as H.
  { apply wp_send_all; [done| |naive_solver..]. intros s' Hfr Htx [pre Hsuf].
    split_and!; [done|done|done|]. rewrite Hsuf in Hok. by apply Forall_app in Hok as [_ ?]. }
  unfold wp in H. destruct (send_all data sock s) as [r s'| | |]; naive_solver.
Qed.

Lemma send_all_succeeds_witness :
  let s := set_sq [Accept 2; SendErr EINTR; Accept 1] io0 in
  Forall send_ok (sq s) ∧ ∃ s', send_all (lit "hello") (mkSocket 3) s = Ret (true, Some 5) s' ∧ tx s' = lit "hello".
Proof.
  intros s. assert (Forall send_ok (sq s)) as H by (repeat constructor; simpl; lia).
  split; [done|].
  destruct (send_all_succeeds (lit "hello") (mkSocket 3) s eq_refl H) as (s' & H1 & H2 & _).
  exists s'. split; [exact H1|exact H2].
Defined.

(** C5: what [recv_line] returns and what it leaves unread, said of the bytes. A
    line ends at the first newline and loses exactly one carriage return before
    it; it must be shorter than the limit, its carriage return included, else
    the call fails after [max] bytes. At the end of the stream a non-empty
    unterminated line is returned with [true], unstripped, and nothing is [false];
    an error is [false] with the partial line. The call terminates, and waits
    only when none of these is the case. *)
Theorem recv_line_refines max sock s :
  is_valid sock = true → 0 ≤ max →
  wp (recv_line max sock)
    (λ r s', reads_line max (stream (rx s)) (stream_end (rx s)) r.1 r.2 (stream (rx s')) (stream_end (rx s')) ∧
             rx_frame s s')
    (λ _, False)
    (λ s', line_pending max (stream (rx s)) (stream_end (rx s)) ∧ rx_frame s s') s.
Proof.
  intros Hv Hmax. apply wp_recv_line; [done|done|..].
  - intros s' line Hfr Hlf%not_elem_lf Hlen Hst Hend. split; [|done]. rewrite Hst, Hend. by apply reads_line_found.
  - intros s' line Hfr Hlf%not_elem_lf Hlen Hst Hend. split; [|done]. rewrite Hst, Hend. by apply line_too_long.
  - intros s' Hfr Hlf%not_elem_lf Hlen He. split; [|done]. simpl in *. case_bool_decide as H; simpl.
    + rewrite H in *. by eapply line_eof.
    + by eapply line_unterminated.
  - intros s' e Hfr Hlf%not_elem_lf Hlen [He _]. split; [|done]. by eapply line_error.
  - intros s' Hfr Hlf%not_elem_lf Hlen He. by split.
Qed.

Lemma recv_line_refines_witness :
  let s := set_rx [Seg (lit "GE"); RecvErr EINTR; Seg (lit "T a" ++ [CR; CR; LF] ++ lit "LI")] io0 in
  recv_line 4096 (mkSocket 3) s = Ret (true, lit "GET a" ++ [CR]) (set_rx [Seg (lit "LI")] s) ∧
  reads_line 4096 (lit "GET a" ++ [CR; CR; LF] ++ lit "LI") [] true (lit "GET a" ++ [CR]) (lit "LI") [].
Proof.
  intros s. split; [by vm_compute|].
  pose proof (recv_line_refines 4096 (mkSocket 3) s eq_refl ltac:(lia)) as H.
  apply wp_returns in H as (r & s' & E & H & _); [|by vm_compute].
  assert (recv_line 4096 (mkSocket 3) s = Ret (true, lit "GET a" ++ [CR]) (set_rx [Seg (lit "LI")] s)) as E'
    by (by vm_compute).
  rewrite E' in E. injection E as <- <-. exact H.
Defined.

(** The same outcome up to the segmentation of what is left to receive. *)
Definition outcome_equiv {A} (o1 o2 : outcome io A) : Prop :=
  match o1, o2 with
  | Ret a1 s1, Ret a2 s2 => a1 = a2 ∧ rx_equiv (rx s1) (rx s2)
  | Blocked _, Blocked _ => True
  | _, _ => False
  end.

(** C6: the result of [recv_line] does not depend on how the network cuts the
    byte stream into segments nor on interrupting signals: equivalent event
    lists give the same line and leave equivalent lists. *)
Theorem recv_line_segmentation max sock s1 s2 :
  is_valid sock = true → 0 ≤ max → rx_equiv (rx s1) (rx s2) →
  outcome_equiv (recv_line max sock s1) (recv_line max sock s2).
Proof.
  intros Hv Hmax [Hst Hend].
  pose proof (recv_line_wp_spec max sock s1 Hv Hmax) as H1.
  pose proof (recv_line_wp_spec max sock s2 Hv Hmax) as H2.
  unfold wp in *. rewrite Hst, Hend in H1.
  destruct (recv_line max sock s1) as [[]| | |], (recv_line max sock s2) as [[]| | |]; simpl in *;
    unfold rx_equiv; naive_solver congruence.
Qed.

Lemma recv_line_segmentation_witness :
  let s1 := set_rx [Seg (lit "LIST" ++ [LF]); Seg []] io0 in
  let s2 := set_rx [Seg (lit "L"); RecvErr EINTR; Seg (lit "IS"); Seg (lit "T"); Seg [LF]; Seg []] io0 in
  rx_equiv (rx s1) (rx s2) ∧
  outcome_equiv (recv_line 4096 (mkSocket 3) s1) (recv_line 4096 (mkSocket 3) s2).
Proof.
  intros s1 s2. assert (rx_equiv (rx s1) (rx s2)) as H by by vm_compute.
  split; [exact H|]. apply (recv_line_segmentation 4096 (mkSocket 3) s1 s2); [reflexivity|lia|exact H].
Defined.

(** C7: [recv_all n] returns 1 exactly with the next [n] bytes of the stream,
    0 when the peer closed before them and -1 on an error, with the bytes that
    did arrive in the buffer; it terminates. *)
Theorem recv_all_exact n sock s :
  is_valid sock = true → 0 ≤ n →
  wp (recv_all n sock)
    (λ r s', rx_frame s s' ∧
       ((r = (1, ztake n (stream (rx s))) ∧ n ≤ zlen (stream (rx s)) ∧
         stream (rx s') = zdrop n (stream (rx s)) ∧ stream_end (rx s') = stream_end (rx s)) ∨
        (r = (0, stream (rx s)) ∧ zlen (stream (rx s)) < n ∧ ends_with (rx s) None (rx s')) ∨
        (∃ e, r = (-1, stream (rx s)) ∧ zlen (stream (rx s)) < n ∧ ends_with (rx s) (Some e) (rx s'))))
    (λ _, False)
    (λ s', rx_frame s s' ∧ zlen (stream (rx s)) < n ∧ stream_end (rx s) = []) s.
Proof.
  intros Hv Hn. apply wp_recv_all; [done|..].
  - intros s' data Hfr Hlen Hst Hend. split; [done|]. left. rewrite Hst.
    assert (n = zlen data) as -> by lia.
    rewrite zlen_app. pose proof (zlen_nonneg (stream (rx s'))).
    unfold ztake, zdrop, zlen in *. rewrite Nat2Z.id, take_app_length, drop_app_length.
    split_and!; [done|lia|done|done].
  - intros s' Hfr Hlen He. split; [done|]. right. left. done.
  - intros s' e Hfr Hlen He. split; [done|]. right. right. by exists e.
  - done.
Qed.

Lemma recv_all_exact_witness :
  let s := set_rx [Seg (lit "ab"); Seg (lit "cdef"); Seg []] io0 in
  recv_all 5 (mkSocket 3) s = Ret (1, lit "abcde") (set_rx [Seg (lit "f"); Seg []] s) ∧
  0 ≤ 5 ∧ wp (recv_all 5 (mkSocket 3))
    (λ r s', rx_frame s s' ∧
       ((r = (1, ztake 5 (stream (rx s))) ∧ 5 ≤ zlen (stream (rx s)) ∧
         stream (rx s') = zdrop 5 (stream (rx s)) ∧ stream_end (rx s') = stream_end (rx s)) ∨
        (r = (0, stream (rx s)) ∧ zlen (stream (rx s)) < 5 ∧ ends_with (rx s) None (rx s')) ∨
        (∃ e, r = (-1, stream (rx s)) ∧ zlen (stream (rx s)) < 5 ∧ ends_with (rx s) (Some e) (rx s'))))
    (λ _, False)
    (λ s', rx_frame s s' ∧ zlen (stream (rx s)) < 5 ∧ stream_end (rx s) = []) s.
Proof.
  split; [by vm_compute|]. split; [lia|].
  apply (recv_all_exact 5 (mkSocket 3)); [reflexivity|lia].
Defined.
