(* ===== verification/SocketOwnership.v ===== *)
(** * Socket.cpp: who owns a descriptor

    The constructors, the destructor, the move operations and [close] of the
    class, over a heap of live objects and the set of descriptors the process
    has open. A program is any sequence of these operations on live objects;
    [socket] and [accept] hand out descriptors that are not open. *)

From S2P Require Import Prelude Socket.

Record owners := mkOwners {
  objs : gmap nat Socket;
  open_fds : gset Z;
  bad_closes : nat        (* calls of [::close] on a descriptor that is not open *) }.

Definition no_objects : owners := mkOwners ∅ ∅ 0.

Definition set_obj (i : nat) (k : Socket) (st : owners) : owners :=
  mkOwners (<[i := k]> (objs st)) (open_fds st) (bad_closes st).

(** [::close] *)
Definition os_close (fd : Z) (st : owners) : owners :=
  if decide (fd ∈ open_fds st) then mkOwners (objs st) (open_fds st ∖ {[fd]}) (bad_closes st)
  else mkOwners (objs st) (open_fds st) (S (bad_closes st)).

(** [Socket()] *)
Definition default_construct (i : nat) : owners → owners := set_obj i (mkSocket (-1)).

(** [Socket(int)], applied to the result of [::socket] or [::accept]. *)
Definition fd_construct (i : nat) (fd : Z) (st : owners) : owners :=
  set_obj i (mkSocket fd) (mkOwners (objs st) ({[fd]} ∪ open_fds st) (bad_closes st)).

Definition close_obj (i : nat) (st : owners) : owners :=
  match objs st !! i with
  | Some k => if 0 <=? fd_ k then set_obj i (mkSocket (-1)) (os_close (fd_ k) st) else st
  | None => st
  end.

(** The transfer both move operations make. *)
Definition take_over (i j : nat) (st : owners) : owners :=
  match objs st !! j with
  | Some other => set_obj j (mkSocket (-1)) (set_obj i other st)
  | None => st
  end.

Definition move_construct (i j : nat) : owners → owners := take_over i j.

Definition move_assign (i j : nat) (st : owners) : owners :=
  if decide (i = j) then st else take_over i j (close_obj i st).

Definition destroy (i : nat) (st : owners) : owners :=
  let st := close_obj i st in
  mkOwners (delete i (objs st)) (open_fds st) (bad_closes st).

Inductive step : relation owners :=
| step_default i st : objs st !! i = None → step st (default_construct i st)
| step_fd i fd st : objs st !! i = None → 0 ≤ fd → fd ∉ open_fds st → step st (fd_construct i fd st)
| step_move i j st : objs st !! i = None → is_Some (objs st !! j) → step st (move_construct i j st)
| step_assign i j st : is_Some (objs st !! i) → is_Some (objs st !! j) → step st (move_assign i j st)
| step_close i st : is_Some (objs st !! i) → step st (close_obj i st)
| step_destroy i st : is_Some (objs st !! i) → step st (destroy i st).

(** ** The invariant *)

(** Object [i] holds the descriptor [fd]. *)
Definition holds (st : owners) (i : nat) (fd : Z) : Prop := objs st !! i = Some (mkSocket fd) ∧ 0 ≤ fd.

Definition owned_once (st : owners) : Prop :=
  bad_closes st = 0%nat ∧
  (∀ fd, fd ∈ open_fds st ↔ ∃ i, holds st i fd) ∧
  (∀ i j fd, holds st i fd → holds st j fd → i = j).

Lemma holds_set i k st j fd :
  holds (set_obj i k st) j fd ↔ (j = i ∧ k = mkSocket fd ∧ 0 ≤ fd) ∨ (j ≠ i ∧ holds st j fd).
Proof. unfold holds, set_obj. simpl. destruct (decide (j = i)) as [->|]; simplify_map_eq; naive_solver. Qed.

(** Overwriting an object that holds no descriptor with one that holds none. *)
Lemma owned_set_empty i st : (∀ fd, ¬ holds st i fd) → owned_once st → owned_once (set_obj i (mkSocket (-1)) st).
Proof.
  intros Hi (Hb & Hopen & Hinj). split_and!; [done| |].
  - intros fd. simpl. rewrite Hopen. setoid_rewrite holds_set. split.
    + intros [j Hj]. exists j. right. split; [|done]. intros ->. by destruct (Hi fd).
    + intros [j [(-> & [= <-] & ?)|[_ Hj]]]; [lia|by exists j].
  - intros j1 j2 fd. rewrite !holds_set. intros [(-> & [= <-] & ?)|[_ H1]]; [lia|].
    intros [(-> & [= <-] & ?)|[_ H2]]; [lia|]. by eapply Hinj.
Qed.

(** [close] leaves an object without a descriptor. *)
Lemma close_obj_owned i st :
  owned_once st → owned_once (close_obj i st) ∧ (∀ fd, ¬ holds (close_obj i st) i fd) ∧
  dom (objs (close_obj i st)) = dom (objs st).
Proof.
  intros (Hb & Hopen & Hinj). unfold close_obj.
  destruct (objs st !! i) as [[fd]|] eqn:E; simpl.
  2:{ split_and!; [done| |done]. intros fd [H _]. congruence. }
  destruct (Z.leb_spec 0 fd) as [Hfd|Hfd].
  2:{ split_and!; [done| |done]. intros fd' [H ?]. simplify_eq. lia. }
  assert (holds st i fd) as Hi by done.
  unfold os_close. destruct (decide (fd ∈ open_fds st)) as [_|Hn].
  2:{ destruct Hn. apply Hopen. by exists i. }
  split_and!.
  - split_and!; [done| |].
    + intros fd'. simpl. rewrite elem_of_difference, not_elem_of_singleton, Hopen. setoid_rewrite holds_set. split.
      * intros [[j Hj] Hne]. exists j. right. split; [|done]. intros ->. destruct Hj, Hi. by simplify_eq.
      * intros [j [(-> & [= <-] & ?)|[Hne Hj]]]; [lia|]. split; [by exists j|]. intros ->. by eapply Hne, Hinj.
    + intros j1 j2 fd'. rewrite !holds_set. intros [(-> & [= <-] & ?)|[_ H1]]; [lia|].
      intros [(-> & [= <-] & ?)|[_ H2]]; [lia|]. by eapply Hinj.
  - intros fd'. rewrite holds_set. intros [(_ & [= <-] & ?)|[? _]]; [lia|done].
  - simpl. apply elem_of_dom_2 in E. set_solver.
Qed.

(** A transfer to an object that holds nothing. *)
Lemma take_over_owned i j st : i ≠ j → (∀ fd, ¬ holds st i fd) → owned_once st → owned_once (take_over i j st).
Proof.
  intros Hij Hi (Hb & Hopen & Hinj). unfold take_over.
  destruct (objs st !! j) as [[fd0]|] eqn:E; [|done]. split_and!; [done| |].
  - intros fd. simpl. rewrite Hopen. setoid_rewrite holds_set. setoid_rewrite holds_set. split.
    + intros [k Hk]. destruct (decide (k = j)) as [->|Hkj].
      * exists i. right. split; [done|]. left. destruct Hk. simplify_eq. done.
      * exists k. right. split; [done|]. right. split; [|done]. intros ->. by destruct (Hi fd).
    + intros [k [(-> & [= <-] & ?)|[Hkj [(-> & [= ->] & ?)|[_ Hk]]]]]; [lia|by exists j|by exists k].
  - intros k1 k2 fd. rewrite !holds_set.
    intros [(-> & ? & ?)|[? [(-> & ? & ?)|[? H1]]]]; simplify_eq; try lia;
    intros [(-> & ? & ?)|[? [(-> & ? & ?)|[? H2]]]]; simplify_eq; try lia; try done.
    + destruct (Hinj j k2 fd); done.
    + destruct (Hinj j k1 fd); done.
    + by eapply Hinj.
Qed.

Lemma owned_step : preserved step owned_once.
Proof.
  intros st st' Hstep H. destruct Hstep as [i st Hi|i fd st Hi Hfd Hnew|i j st Hi Hj|i j st Hi Hj|i st Hi|i st Hi].
  - apply owned_set_empty; [|done]. intros fd [? _]. congruence.
  - destruct H as (Hb & Hopen & Hinj). unfold fd_construct. split_and!; [done| |].
    + intros fd'. simpl. rewrite elem_of_union, elem_of_singleton, Hopen. setoid_rewrite holds_set. split.
      * intros [->|[j Hj]]; [by exists i; left|]. exists j. right. split; [|done]. intros ->. destruct Hj. simpl in *. congruence.
      * intros [j [(-> & [= ->] & ?)|[? Hj]]]; [by left|]. right. by exists j.
    + intros j1 j2 fd'. rewrite !holds_set. intros [(-> & ? & ?)|[? H1]] [(-> & ? & ?)|[? H2]]; simplify_eq; try done.
      * destruct Hnew. apply Hopen. by exists j2.
      * destruct Hnew. apply Hopen. by exists j1.
      * by eapply Hinj.
  - apply take_over_owned; [|intros fd [? _]; congruence|done]. intros ->. rewrite Hi in Hj. by destruct Hj.
  - unfold move_assign. destruct (decide (i = j)); [done|].
    destruct (close_obj_owned i st H) as (? & ? & _). by apply take_over_owned.
  - by apply close_obj_owned.
  - destruct (close_obj_owned i st H) as ((Hb & Hopen & Hinj) & Hi' & _).
    assert (∀ k fd, holds (destroy i st) k fd ↔ holds (close_obj i st) k fd) as Hiff.
    { intros k fd. unfold holds, destroy. simpl. destruct (decide (k = i)) as [->|].
      - rewrite lookup_delete_eq. split; [by intros [? _]|]. intros Hk. by destruct (Hi' fd).
      - by rewrite lookup_delete_ne. }
    split_and!; [done| |].
    + intros fd. setoid_rewrite Hiff. apply Hopen.
    + intros k1 k2 fd. rewrite !Hiff. apply Hinj.
Qed.

Lemma owned_none : owned_once no_objects.
Proof.
  split_and!; [done| |].
  - intros fd. split; [set_solver|]. by intros (i & [H _]).
  - by intros i j fd [H _].
Qed.

(** C23: in every program that uses the class, each open descriptor is held by
    exactly one live object, no descriptor is closed that is not open (so none
    is closed twice), and when the last object is gone nothing is left open. *)
Theorem sockets_owned_once st :
  rtc step no_objects st →
  owned_once st ∧ (objs st = ∅ → open_fds st = ∅).
Proof.
  intros H. assert (owned_once st) as Hinv.
  { assert (owned_once no_objects) as H0 by apply owned_none. revert H0.
    induction H as [|x y z Hxy Hyz IH]; [done|]. intros Hx. apply IH. by eapply owned_step. }
  split; [done|]. intros He. destruct Hinv as (_ & Hopen & _). apply set_eq. intros fd.
  rewrite Hopen. split; [|set_solver]. intros (i & [Hi _]). rewrite He in Hi. done.
Qed.

(** The accept loop's life of one descriptor: accepted, moved into a session,
    closed by the session, the session destroyed. *)
Lemma sockets_owned_once_witness :
  let st := destroy 1 (destroy 0 (close_obj 1 (move_construct 1 0 (fd_construct 0 7 no_objects)))) in
  open_fds (move_construct 1 0 (fd_construct 0 7 no_objects)) = {[7]} ∧ open_fds st = ∅ ∧ bad_closes st = 0%nat.
Proof.
  intros st. split; [by vm_compute|].
  assert (rtc step no_objects st) as H.
  { eapply rtc_l; [apply (step_fd 0 7); [done|lia|by vm_compute]|].
    eapply rtc_l; [apply (step_move 1 0); [done|by eexists]|].
    eapply rtc_l; [apply (step_close 1); by eexists|].
    eapply rtc_l; [apply (step_destroy 0); by eexists|].
    eapply rtc_l; [apply (step_destroy 1); by eexists|]. apply rtc_refl. }
  destruct (sockets_owned_once st H) as ((Hb & _) & He). split; [apply He; by vm_compute|exact Hb].
Defined.
