(* ===== verification/FilePath.v ===== *)
(** * std::filesystem::path as the sources use it (POSIX generic format)

    A path is the sequence of its elements, as iteration over a
    [std::filesystem::path] gives them: the root directory ["/"] first when
    there is one, then the file names, and an empty last element when the path
    ends in a slash. The lexical operations follow the C++17 wording.
    [weakly_canonical] follows libstdc++ and asks the operating system, a
    parameter, for the status of a path and for [realpath]. *)

From S2P Require Import Prelude Types CxxString.

Abbreviation path := (list bytes).

Definition SLASH : ascii := "/"%char.
Definition ROOT : bytes := lit "/".
Definition DOT : bytes := lit ".".
Definition DOTDOT : bytes := lit "..".

(** The pieces between slashes. *)
Fixpoint split_slash (s : bytes) : list bytes :=
  match s with
  | [] => [[]]
  | c :: s =>
      if bool_decide (c = SLASH) then [] :: split_slash s
      else match split_slash s with
           | piece :: rest => (c :: piece) :: rest
           | [] => [[c]]
           end
  end.

(** Construction from a string: repeated slashes count once, a slash at the
    end gives an empty last element. *)
Definition path_of (s : bytes) : path :=
  let names := filter (λ e, e ≠ []) (split_slash s) in
  (if bool_decide (head s = Some SLASH) then [ROOT] else []) ++ names ++
  (if bool_decide (last s = Some SLASH) && negb (bool_decide (names = [])) then [[]] else []).

Definition is_absolute (p : path) : bool := bool_decide (head p = Some ROOT).

Fixpoint join_slash (p : path) : bytes :=
  match p with
  | [] => []
  | [e] => e
  | e :: p => e ++ lit "/" ++ join_slash p
  end.

(** [p.string()] *)
Definition path_string (p : path) : bytes :=
  match p with
  | e :: q => if bool_decide (e = ROOT) then ROOT ++ join_slash q else join_slash p
  | [] => []
  end.

Definition has_filename (p : path) : bool :=
  match last p with
  | Some e => negb (bool_decide (e = [])) && negb (bool_decide (e = ROOT))
  | None => false
  end.

(** The path an element stands for when it is appended: an empty element is the
    empty path. *)
Definition elem_path (e : bytes) : path := match e with [] => [] | _ => [e] end.

Definition drop_trailing (p : path) : path :=
  match last p with Some [] => removelast p | _ => p end.

(** [operator/] *)
Definition append (a b : path) : path :=
  if is_absolute b then b
  else match b with
       | [] => if has_filename a then a ++ [[]] else a
       | _ => drop_trailing a ++ b
       end.

Definition append_all (a : path) (es : list bytes) : path := foldl (λ a e, append a (elem_path e)) a es.

#[global] Arguments append_all : simpl never.

(** ** [lexically_normal] *)
Definition norm_push (stack : list bytes) (e : bytes) : list bytes :=
  if bool_decide (e = []) || bool_decide (e = DOT) then stack
  else if bool_decide (e = DOTDOT) then
    match stack with
    | [] => [DOTDOT]
    | top :: rest =>
        if bool_decide (top = DOTDOT) then DOTDOT :: stack
        else if bool_decide (top = ROOT) then stack
        else rest
    end
  else e :: stack.

Definition lexically_normal (p : path) : path :=
  match p with
  | [] => []
  | _ =>
      let q := reverse (foldl norm_push [] p) in
      let ends_in_dir := bool_decide (last p ∈ [Some []; Some DOT; Some DOTDOT]) in
      match q with
      | [] => [DOT]
      | _ => if ends_in_dir && has_filename q && negb (bool_decide (last q = Some DOTDOT))
             then q ++ [[]] else q
      end
  end.

(** ** [lexically_relative] *)
Fixpoint mismatch (a b : path) : path * path :=
  match a, b with
  | x :: a', y :: b' => if bool_decide (x = y) then mismatch a' b' else (a, b)
  | _, _ => (a, b)
  end.

(** Names below the common part of the base, minus its dot-dots. *)
Definition climb (b : path) : Z :=
  foldl (λ n e, if bool_decide (e = DOTDOT) then n - 1
                else if bool_decide (e = []) || bool_decide (e = DOT) then n else n + 1) 0 b.

Definition lexically_relative (p base : path) : path :=
  if negb (Bool.eqb (is_absolute p) (is_absolute base)) then []
  else
    let '(a, b) := mismatch p base in
    match a, b with
    | [], [] => [DOT]
    | _, _ =>
        let n := climb b in
        if n <? 0 then []
        else if (n =? 0) && (bool_decide (a = []) || bool_decide (head a = Some [])) then [DOT]
        else append_all (replicate (Z.to_nat n) DOTDOT) a
    end.

(** ** The operating system's view of the file system *)
Inductive file_type := regular | directory | other | not_found | status_failed.

#[export] Instance file_type_eq_dec : EqDecision file_type.
Proof. solve_decision. Defined.

Definition status_exists (t : file_type) : bool :=
  match t with not_found | status_failed => false | _ => true end.

Definition status_known (t : file_type) : bool :=
  match t with status_failed => false | _ => true end.

(** A directory entry: its name, what [is_regular_file(ec)] answers and whether
    it sets [ec], and what [file_size(ec)] answers ([None] sets [ec]). *)
Record dirent := mkDirent {
  d_name : bytes;
  d_is_regular : bool;
  d_status_ec : bool;
  d_size : option Z }.

(** [os_dir p]: the entries a [directory_iterator] visits, in its order, and
    whether advancing past the last of them fails; [None] when it cannot be
    opened. [os_open p]: the bytes an input file stream on [p] yields. *)
Class OS := {
  os_status : path → file_type;
  os_canonical : path → option path;
  os_dir : path → option (list dirent * bool);
  os_file_size : path → option Z;
  os_open : path → option bytes }.

(** What [canonical] documents of its result: absolute, without dot, dot-dot or
    empty elements. *)
Definition clean_name (e : bytes) : Prop := e ≠ [] ∧ e ≠ DOT ∧ e ≠ DOTDOT ∧ SLASH ∉ e.
Definition canonical_path (p : path) : Prop := ∃ q, p = ROOT :: q ∧ Forall clean_name q.

Class OSLaws (os : OS) : Prop :=
  canonical_is_canonical : ∀ p q, os_canonical p = Some q → canonical_path q.

(** ** [weakly_canonical] (libstdc++) *)
Section weakly.
Context {os : OS}.

(** The loop over the elements: the longest leading part that exists, and the
    elements that remain. [None]: a status query failed. *)
Fixpoint wc_scan (result : path) (its : list bytes) : option (path * list bytes) :=
  match its with
  | [] => Some (result, [])
  | e :: rest =>
      let tmp := append result (elem_path e) in
      let st := os_status tmp in
      if status_exists st then wc_scan tmp rest
      else if status_known st then Some (result, its)
      else None
  end.

(** [None] when [ec] is set. *)
Definition weakly_canonical (p : path) : option path :=
  let st := os_status p in
  if status_exists st then os_canonical p
  else if status_known st then
    '(result, its) ← wc_scan [] p;
    result ← (match result with [] => Some [] | _ => os_canonical result end);
    Some (lexically_normal (append_all result its))
  else None.
End weakly.

(** ** Lemmas *)
Lemma is_absolute_spec p : is_absolute p = true ↔ ∃ q, p = ROOT :: q.
Proof.
  unfold is_absolute. rewrite bool_decide_eq_true. destruct p as [|e q]; simpl; [naive_solver|].
  split; [intros [= ->]; by eexists|intros [q' [= -> ->]]; done].
Qed.

Lemma append_absolute a b : is_absolute a = true → is_absolute (append a b) = true.
Proof.
  intros Ha. unfold append. destruct (is_absolute b) eqn:Hb; [done|].
  apply is_absolute_spec in Ha as [q ->]. apply is_absolute_spec.
  destruct b as [|e b]; [destruct (has_filename _); by eexists|].
  unfold drop_trailing. destruct q as [|x q]; simpl; [by eexists|].
  destruct (last _) as [[|]|]; simpl; by eexists.
Qed.

(** In a normal form every dot-dot comes before every other element. *)
Lemma norm_push_shape es stack k q :
  reverse stack = replicate k DOTDOT ++ q → DOTDOT ∉ q →
  ∃ k' q', reverse (foldl norm_push stack es) = replicate k' DOTDOT ++ q' ∧ DOTDOT ∉ q'.
Proof.
  revert stack k q. induction es as [|e es IH]; intros stack k q Hs Hq; simpl; [by exists k, q|].
  unfold norm_push at 2. case_bool_decide as He; simpl; [by apply (IH _ k q)|].
  case_bool_decide as Hd; simpl; [by apply (IH _ k q)|]. case_bool_decide as Hdd.
  2:{ apply (IH _ k (q ++ [e])); [by rewrite reverse_cons, Hs, app_assoc|].
      intros [H|H%list_elem_of_singleton]%elem_of_app; congruence. }
  destruct stack as [|top rest].
  { apply (IH _ 1%nat []); [done|apply not_elem_of_nil]. }
  rewrite reverse_cons in Hs. destruct q as [|x q _] using rev_ind.
  - rewrite app_nil_r in Hs. rewrite <-(reverse_involutive (replicate k DOTDOT)) in Hs.
    rewrite reverse_replicate, <-reverse_cons in Hs. apply (inj reverse) in Hs.
    destruct k as [|k]; simplify_eq/=. apply (IH _ (S (S k)) []); [|done].
    rewrite app_nil_r. apply (reverse_replicate (S (S k)) DOTDOT).
  - rewrite app_assoc in Hs. apply app_inj_tail in Hs as [Hs ->].
    rewrite bool_decide_eq_false_2.
    2:{ intros ->. apply Hq. apply elem_of_app. right. left. }
    case_bool_decide.
    + apply (IH _ k (q ++ [x])); [by rewrite reverse_cons, Hs, app_assoc|done].
    + apply (IH _ k q); [done|]. intros H'. apply Hq. apply elem_of_app. by left.
Qed.

Lemma lexically_normal_rooted p r : lexically_normal p = ROOT :: r → DOTDOT ∉ r.
Proof.
  unfold lexically_normal. destruct p as [|e p]; [done|].
  destruct (norm_push_shape (e :: p) [] 0 []) as (k & q & Hq & Hn); [done|apply not_elem_of_nil|].
  rewrite Hq. intros H. assert (DOTDOT ∉ ROOT :: r) as Hin; [|intros ?; apply Hin; by right].
  rewrite <-H. destruct k as [|k].
  - destruct q as [|x q]; [by intros ?%list_elem_of_singleton|]. cbn [replicate app].
    destruct (_ && _ && _); [|done]. rewrite app_comm_cons.
    intros [?|?%list_elem_of_singleton]%elem_of_app; done.
  - exfalso. cbn [replicate app] in H. destruct (_ && _ && _); by simplify_eq.
Qed.

Lemma mismatch_spec a b :
  ∃ c, a = c ++ (mismatch a b).1 ∧ b = c ++ (mismatch a b).2 ∧
       (∀ x y, head (mismatch a b).1 = Some x → head (mismatch a b).2 = Some y → x ≠ y).
Proof.
  revert b. induction a as [|x a IH]; intros [|y b]; simpl; try (exists []; naive_solver).
  case_bool_decide as E; [|by exists []; naive_solver].
  subst y. destruct (IH b) as (c & H1 & H2 & H3). exists (x :: c). simpl. by rewrite <-H1, <-H2.
Qed.

Lemma mismatch_prefix a b : mismatch (b ++ a) b = (a, []).
Proof.
  induction b as [|y b IH]; simpl; [by destruct a|]. by rewrite bool_decide_eq_true_2.
Qed.

Lemma climb_clean b : Forall clean_name b → climb b = zlen b.
Proof.
  unfold climb. assert (∀ n, Forall clean_name b → foldl (λ n e, if bool_decide (e = DOTDOT) then n - 1
      else if bool_decide (e = []) || bool_decide (e = DOT) then n else n + 1) n b = n + zlen b) as H.
  { induction b as [|e b IH]; intros n Hb; simpl; [unfold zlen; simpl; lia|].
    inversion Hb as [|?? (H1 & H2 & H3 & _) Hb']; subst.
    rewrite !bool_decide_eq_false_2 by done. simpl. rewrite IH by done. unfold zlen. simpl. lia. }
  intros Hb. rewrite H by done. lia.
Qed.

(** Appending keeps a leading dot-dot, unless the result becomes absolute. *)
Lemma append_all_dotdot p es :
  head p = Some DOTDOT ∨ is_absolute p = true →
  head (append_all p es) = Some DOTDOT ∨ is_absolute (append_all p es) = true.
Proof.
  unfold append_all. revert p. induction es as [|e es IH]; intros p Hp; simpl; [done|].
  apply IH. destruct Hp as [Hp|Hp]; [|right; by apply append_absolute].
  unfold append. destruct (is_absolute (elem_path e)) eqn:Ha; [by right|]. left.
  destruct p as [|x p]; [done|]. simplify_eq/=. destruct e as [|c e].
  - simpl. by destruct (has_filename _).
  - simpl. unfold drop_trailing. destruct p as [|y p]; [done|]. by destruct (last _) as [[|]|].
Qed.

Lemma path_string_dotdot p : head p = Some DOTDOT → starts_with DOTDOT (path_string p) = true.
Proof.
  destruct p as [|e [|f p]]; simpl; intros [= ->]; [done|].
  rewrite bool_decide_eq_false_2 by done. apply starts_with_app.
Qed.

(** A relative path between an absolute path and a canonical base that does not
    start with dot-dot means that the path lies below the base. *)
Lemma relative_inside p base :
  canonical_path base → is_absolute p = true →
  lexically_relative p base ≠ [] →
  starts_with DOTDOT (path_string (lexically_relative p base)) = false →
  is_absolute (lexically_relative p base) = false →
  base `prefix_of` p.
Proof.
  intros (b & -> & Hb) [q ->]%is_absolute_spec. unfold lexically_relative.
  assert (∀ l, is_absolute (ROOT :: l) = true) as Hr by (intros; apply is_absolute_spec; by eexists).
  rewrite !Hr. simpl.
  destruct (mismatch_spec q b) as (c & Hq & Hbc & _). destruct (mismatch q b) as [x y]. simpl in *.
  destruct y as [|e y].
  { intros _ _ _. exists x. rewrite app_nil_r in Hbc. by rewrite Hbc, Hq at 1. }
  rewrite Hbc in Hb. apply Forall_app in Hb as [_ Hy].
  assert (climb (e :: y) = 1 + zlen y) as Hn by (rewrite climb_clean, zlen_cons by done; done).
  assert (match x with [] => let n := climb (e :: y) in
              if n <? 0 then [] else if (n =? 0) && (bool_decide (x = []) || bool_decide (head x = Some []))
              then [DOT] else append_all (replicate (Z.to_nat n) DOTDOT) x
          | _ :: _ => let n := climb (e :: y) in
              if n <? 0 then [] else if (n =? 0) && (bool_decide (x = []) || bool_decide (head x = Some []))
              then [DOT] else append_all (replicate (Z.to_nat n) DOTDOT) x end
          = append_all (replicate (Z.to_nat (1 + zlen y)) DOTDOT) x) as E.
  { pose proof (zlen_nonneg y). simpl. rewrite Hn.
    destruct (Z.ltb_spec (1 + zlen y) 0); [lia|]. destruct (Z.eqb_spec (1 + zlen y) 0); [lia|]. by destruct x. }
  destruct x as [|d x]; simpl in E |- *; rewrite E; clear E.
  all: match goal with |- context [append_all ?p ?es] => destruct (append_all_dotdot p es) as [H|H] end.
  all: try (left; rewrite Z2Nat.inj_add by (done || apply zlen_nonneg); done).
  all: intros _ H1 H2; try congruence; by rewrite path_string_dotdot in H1.
Qed.

(** Clean names appended to the empty path make that path. *)
Lemma append_all_clean p es : has_filename p = true ∨ p = [] → Forall clean_name es → append_all p es = p ++ es.
Proof.
  unfold append_all. revert p. induction es as [|e es IH]; intros p Hp Hes; simpl; [by rewrite app_nil_r|].
  inversion Hes as [|?? (He & _ & _ & Hs) Hes']; subst.
  assert (e ≠ ROOT) as Hroot by (intros ->; apply Hs; left).
  assert (elem_path e = [e]) as -> by by destruct e.
  assert (append p [e] = p ++ [e]) as ->.
  { unfold append, is_absolute. simpl. rewrite bool_decide_eq_false_2 by congruence.
    f_equal. unfold drop_trailing. destruct Hp as [Hp| ->]; [|done]. unfold has_filename in Hp.
    by destruct (last p) as [[|]|]. }
  rewrite IH; [by rewrite <-app_assoc| |done]. left. unfold has_filename. rewrite last_snoc.
  by rewrite !bool_decide_eq_false_2 by done.
Qed.

(** A name followed by a slash starts with dot-dot when the name does. *)
Lemma starts_with_dotdot_slash e k :
  clean_name e → starts_with DOTDOT (e ++ SLASH :: k) = starts_with DOTDOT e.
Proof.
  intros (He & Hd & _ & _). unfold starts_with. destruct e as [|c [|d e]]; [done| |done].
  simpl. rewrite !bool_decide_eq_false_2; [done|..]; by intros [=].
Qed.

Lemma path_string_clean e q : Forall clean_name (e :: q) → starts_with DOTDOT (path_string (e :: q)) = starts_with DOTDOT e.
Proof.
  intros [He _]%Forall_cons. simpl. rewrite bool_decide_eq_false_2.
  2:{ intros ->. destruct He as (_ & _ & _ & Hs). apply Hs. left. }
  destruct q as [|f q]; [done|]. by apply (starts_with_dotdot_slash e).
Qed.

(** The relative path from a base to a path below it. *)
Lemma relative_below base a :
  is_absolute base = true → Forall clean_name a →
  lexically_relative (base ++ a) base = match a with [] => [DOT] | _ => a end.
Proof.
  intros Hb Ha. unfold lexically_relative.
  assert (is_absolute (base ++ a) = true) as ->.
  { apply is_absolute_spec in Hb as [r ->]. apply is_absolute_spec. by eexists. }
  rewrite Hb, mismatch_prefix. simpl. destruct a as [|e a]; [done|].
  inversion Ha as [|?? [He _]]; subst. rewrite !bool_decide_eq_false_2 by (simpl; congruence). simpl.
  apply append_all_clean; [by right|done].
Qed.

(** ** Plain paths: absolute, and nothing in them that is not a name *)
Lemma clean_not_root e : clean_name e → e ≠ ROOT.
Proof. intros (_ & _ & _ & Hs) ->. apply Hs. left. Qed.

Lemma canonical_snoc p e : canonical_path p → clean_name e → canonical_path (p ++ [e]).
Proof. intros (q & -> & Hq) He. exists (q ++ [e]). split; [done|]. apply Forall_app. split; [done|by constructor]. Qed.

Lemma canonical_app p es : canonical_path p → Forall clean_name es → canonical_path (p ++ es).
Proof. intros (q & -> & Hq) He. exists (q ++ es). split; [done|]. by apply Forall_app. Qed.

Lemma canonical_last p : canonical_path p → ∃ e, last p = Some e ∧ (e = ROOT ∨ clean_name e).
Proof.
  intros (q & -> & Hq). destruct q as [|e q _] using rev_ind; [by exists ROOT; auto|].
  exists e. rewrite app_comm_cons, last_snoc. split; [done|]. apply Forall_app in Hq as [_ Hq].
  inversion Hq; auto.
Qed.

Lemma append_names p es : canonical_path p → Forall clean_name es → es ≠ [] → append p es = p ++ es.
Proof.
  intros Hp Hes Hne. destruct es as [|e es]; [done|]. inversion Hes as [|?? He _]; subst.
  unfold append, is_absolute. simpl. rewrite bool_decide_eq_false_2 by (intros [= ->]; by apply clean_not_root in He).
  f_equal. unfold drop_trailing. destruct (canonical_last p Hp) as (x & -> & [-> |(Hx & _)]); [done|by destruct x].
Qed.

Lemma append_all_names p es : canonical_path p → Forall clean_name es → append_all p es = p ++ es.
Proof.
  unfold append_all. intros Hp Hes. revert p Hp. induction Hes as [|e es He Hes IH]; intros p Hp; simpl;
    [by rewrite app_nil_r|].
  assert (elem_path e = [e]) as -> by (by destruct e, He).
  rewrite append_names by (done || by constructor). rewrite IH by (by apply canonical_snoc). by rewrite <-app_assoc.
Qed.

Lemma norm_push_clean stack e : clean_name e → norm_push stack e = e :: stack.
Proof. intros (H1 & H2 & H3 & _). unfold norm_push. by rewrite !bool_decide_eq_false_2. Qed.

Lemma normal_canonical p : canonical_path p → lexically_normal p = p.
Proof.
  intros Hp. assert (reverse (foldl norm_push [] p) = p) as E.
  { destruct Hp as (q & -> & Hq). simpl. assert (∀ st, foldl norm_push st q = reverse q ++ st) as ->.
    - induction Hq as [|e q He Hq IH]; intros st; simpl; [done|].
      by rewrite norm_push_clean, IH, reverse_cons, <-app_assoc.
    - rewrite reverse_app, reverse_involutive. done. }
  unfold lexically_normal. rewrite E. destruct p as [|x p']; [by destruct Hp as (? & ? & _)|].
  destruct (canonical_last _ Hp) as (e & He & Hc). rewrite bool_decide_eq_false_2; [done|]. rewrite He.
  intros Hin. rewrite !elem_of_cons, elem_of_nil in Hin.
  destruct Hc as [-> |(H1 & H2 & H3 & _)]; destruct_or! Hin; simplify_eq; done.
Qed.

(** ** What POSIX path resolution promises of one state of the file system

    A canonical path leads to its object directly; a directory and its canonical
    name have the same entries; an object has its leading directories, and what
    can be opened is there. *)
Class OSResolution (os : OS) : Prop := {
  canonical_fixed p q : os_canonical p = Some q → os_canonical q = Some q;
  canonical_entries p q e : canonical_path p → clean_name e → os_canonical p = Some q →
    status_exists (os_status (q ++ [e])) = status_exists (os_status (p ++ [e]));
  leading_exists p k : k ≠ [] → k `prefix_of` p → status_exists (os_status p) = true → status_exists (os_status k) = true;
  open_exists p c : os_open p = Some c → status_exists (os_status p) = true }.

Section resolution.
Context {os : OS}.

(** The scan of a plain path splits it where it stops to exist. *)
Lemma wc_scan_plain r its res rest :
  (r = [] ∧ canonical_path its) ∨ (canonical_path r ∧ Forall clean_name its) →
  wc_scan r its = Some (res, rest) →
  ((res = [] ∧ canonical_path rest) ∨ (canonical_path res ∧ Forall clean_name rest)) ∧
  (∀ e k, rest = e :: k → status_exists (os_status (res ++ [e])) = false).
Proof.
  revert r. induction its as [|e its IH]; intros r Hr; simpl.
  { intros [= <- <-]. split; [done|]. by intros. }
  assert (append r (elem_path e) = r ++ [e] ∧ canonical_path (r ++ [e]) ∧ Forall clean_name its) as (-> & Hc & Hits).
  { destruct Hr as [[-> (q & [= -> ->] & Hq)]|[Hr Hits]].
    - split_and!; [done|by exists []|done].
    - inversion Hits as [|?? He Hits']; subst. assert (elem_path e = [e]) as -> by (by destruct e, He).
      split_and!; [|by apply canonical_snoc|done]. apply append_names; [done|by constructor|done]. }
  destruct (status_exists (os_status (r ++ [e]))) eqn:Ee; [by apply IH; right|].
  destruct (status_known _); [|done]. intros [= <- <-]. split; [done|]. by intros ?? [= <- <-].
Qed.

(** The weakly canonical form of a plain path is the object's own name, or the
    name of nothing. *)
Lemma weakly_canonical_real p q :
  OSLaws os → OSResolution os → canonical_path p → weakly_canonical p = Some q →
  os_canonical q = Some q ∨ status_exists (os_status q) = false.
Proof.
  intros Hos Hres Hp. unfold weakly_canonical. destruct (status_exists (os_status p)) eqn:Ep.
  { intros H. left. by eapply canonical_fixed. }
  destruct (status_known _); [|done].
  destruct (wc_scan [] p) as [[res rest]|] eqn:Esc; simpl; [|done].
  destruct (wc_scan_plain [] p res rest) as [[[-> Hrest]|[Hcr Hrest]] Hstop]; [by left|done|..]; simpl.
  - intros [= <-]. right. destruct Hrest as (k & -> & Hk).
    assert (append_all [] (ROOT :: k) = ROOT :: k) as -> by (apply (append_all_names [ROOT]); [by exists []|done]).
    rewrite normal_canonical by (by exists k). apply not_true_iff_false. intros H.
    apply (leading_exists _ [ROOT]) in H; [|done|by exists k].
    specialize (Hstop ROOT k eq_refl). simpl in Hstop. congruence.
  - assert (res ≠ []) as Hne by (by destruct Hcr as (? & -> & _)).
    destruct (match res with [] => Some [] | _ => os_canonical res end) as [c|] eqn:Ec; simpl; [|done].
    assert (os_canonical res = Some c) as Hc by (by destruct res). clear Ec.
    pose proof (canonical_is_canonical _ _ Hc) as Hcc. intros [= <-].
    rewrite append_all_names, normal_canonical by (try done; by apply canonical_app).
    destruct rest as [|e k]; [left; rewrite app_nil_r; by eapply canonical_fixed|right].
    inversion Hrest as [|?? He _]; subst. apply not_true_iff_false. intros H.
    apply (leading_exists _ (c ++ [e])) in H; [| by destruct c|by exists k; rewrite <-app_assoc].
    by rewrite (canonical_entries res c e), (Hstop e k) in H.
Qed.
End resolution.
