(* ===== verification/FileManager.v ===== *)
(** * FileManager.cpp: the media directory and its path sandbox

    The operating system's file system is the parameter [OS] of FilePath.v, seen
    as a snapshot; size and contents of a file are independent answers, so a
    file that changes between the two calls is covered. Every method is total
    and writes nothing but log entries; [list_files] can also leave through the
    exception a directory iterator throws when it cannot advance. *)

From S2P Require Import Prelude Types CxxString Socket FilePath.

(** ** The interface a client session is written against

    A store of media files, with the pure views the laws describe it by:
    [list_view] is [None] when listing throws. *)
Class MediaStore := {
  list_files : M io (list MediaFileInfo);
  get_file_size : bytes → M io (option Z);
  open_binary_file : bytes → M io (option bytes);
  list_view : option (list MediaFileInfo);
  size_view : bytes → option Z;
  content_view : bytes → option bytes }.

(** Only the log changed. *)
Definition log_frame (s s' : io) : Prop :=
  rx s' = rx s ∧ sq s' = sq s ∧ tx s' = tx s ∧ cq s' = cq s ∧ aq s' = aq s ∧ pq s' = pq s ∧
  calls s' = calls s ∧ stops s' = stops s.

(** A store call returns its view and only logs. Sizes are [uint64_t] values. *)
Class MediaStoreLaws (ms : MediaStore) : Prop := {
  list_law : ∀ s, match list_view with
                  | Some fs => wp list_files (λ r s', r = fs ∧ log_frame s s') (λ _, False) (λ _, False) s
                  | None => wp list_files (λ _ _, False) (log_frame s) (λ _, False) s
                  end;
  size_law : ∀ f s, wp (get_file_size f) (λ r s', r = size_view f ∧ log_frame s s') (λ _, False) (λ _, False) s;
  open_law : ∀ f s, wp (open_binary_file f) (λ r s', r = content_view f ∧ log_frame s s') (λ _, False) (λ _, False) s;
  size_range : ∀ f n, size_view f = Some n → 0 ≤ n < 2 ^ 64;
  list_range : ∀ fs, list_view = Some fs → Forall (λ f, 0 ≤ size_bytes f < 2 ^ 64) fs }.

(** ** The class *)
Record FileManager := mkFileManager { root_dir_ : path; canonical_root_ : path }.

(** The constructor: [canonical_root_] is the empty path. *)
Definition make_file_manager (root_dir : bytes) : FileManager := mkFileManager (path_of root_dir) [].

(** [init]: [mkdirs p] is the file system after [create_directories p], or
    [None] when that returns false. Returns the [bool], the object and the file
    system it leaves behind. *)
Definition init (os : OS) (mkdirs : path → option OS) (fm : FileManager) : M io (bool * FileManager * OS) :=
  let created :=
    if status_exists (@os_status os (root_dir_ fm)) then Some os else mkdirs (root_dir_ fm) in
  match created with
  | None =>
      LOG ERROR [Str "Failed to create media directory: "; AStr (path_string (root_dir_ fm));
                 Str " ("; AErrCode; Str ")"];;
      mret (false, fm, os)
  | Some os =>
      match @os_canonical os (root_dir_ fm) with
      | None =>
          (* [canonical] returned an empty path and set [ec] *)
          LOG ERROR [Str "Failed to canonicalize media directory: "; AStr (path_string (root_dir_ fm));
                     Str " ("; AErrCode; Str ")"];;
          mret (false, mkFileManager (root_dir_ fm) [], os)
      | Some root =>
          LOG INFO [Str "Media repository root: "; AStr (path_string root)];;
          mret (true, mkFileManager (root_dir_ fm) root, os)
      end
  end.

Section methods.
Context {os : OS} (fm : FileManager).

(** The containment test on a canonical path. *)
Definition inside_root (weakly_canon : path) : bool :=
  let rel := lexically_relative weakly_canon (canonical_root_ fm) in
  negb (bool_decide (rel = []) || starts_with (lit "..") (path_string rel) || is_absolute rel).

(** [Some p]: true with [out_path = p]; [None]: false, [out_path] untouched. *)
Definition resolve_safe_path (filename : bytes) : M io (option path) :=
  if bool_decide (filename = []) then mret None
  else if bool_decide (NUL ∈ filename) then mret None
  else
    let candidate := path_of filename in
    if is_absolute candidate then
      LOG WARN [Str "Absolute path rejected: '"; AStr filename; Str "'"];; mret None
    else
      let full_candidate := append (canonical_root_ fm) candidate in
      match weakly_canonical full_candidate with
      | None => mret None
      | Some weakly_canon =>
          if negb (inside_root weakly_canon) then
            LOG WARN [Str "Path traversal attempt detected: '"; AStr filename; Str "' resolves outside root"];;
            mret None
          else mret (Some weakly_canon)
      end.

(** The order of the catalogue, [a.filename < b.filename], as "not greater". *)
Definition name_le (a b : MediaFileInfo) : Prop := string_ltb (filename b) (filename a) = false.
#[export] Instance name_le_dec : RelDecision name_le.
Proof. unfold name_le. intros a b. apply _. Defined.

(** One turn of the directory loop: the loop variables are the entries left,
    the files found and whether the shared error code [ec] is set. *)
Definition list_files_body (v : list dirent * list MediaFileInfo * bool) (fails : bool) :
    M io (list dirent * list MediaFileInfo * bool + list MediaFileInfo) :=
  let '(entries, files, ec) := v in
  match entries with
  | [] => if fails then throw else mret (inr files)
  | entry :: entries =>
      if ec : bool then
        LOG WARN [Str "Error during directory iteration: "; AErrCode];; mret (inr files)
      else if d_is_regular entry then
        let name := d_name entry in
        if negb (bool_decide (name = [])) && bool_decide (head name = Some "."%char) then
          mret (inl (entries, files, d_status_ec entry))
        else
          match d_size entry with
          | Some size => mret (inl (entries, files ++ [mkInfo name size], false))
          | None => mret (inl (entries, files, true))
          end
      else mret (inl (entries, files, d_status_ec entry))
  end.

Definition fm_list_files : M io (list MediaFileInfo) :=
  let st := os_status (canonical_root_ fm) in
  if negb (status_exists st) || negb (bool_decide (st = directory)) then mret []
  else
    files ← (match os_dir (canonical_root_ fm) with
             | None => mret []
             | Some (entries, fails) =>
                 loop (λ v _, length v.1.1) (λ v, list_files_body v fails) (entries, [], false)
             end);
    mret (merge_sort name_le files).

Definition file_exists (filename : bytes) : M io bool :=
  p ← resolve_safe_path filename;
  match p with
  | None => mret false
  | Some safe_path => mret (bool_decide (os_status safe_path = regular))
  end.

Definition fm_get_file_size (filename : bytes) : M io (option Z) :=
  p ← resolve_safe_path filename;
  match p with
  | None => mret None
  | Some safe_path =>
      if negb (bool_decide (os_status safe_path = regular)) then mret None
      else mret (os_file_size safe_path)
  end.

(** [None] is the null pointer; otherwise the bytes the stream will yield. *)
Definition fm_open_binary_file (filename : bytes) : M io (option bytes) :=
  p ← resolve_safe_path filename;
  match p with
  | None => LOG WARN [Str "Cannot open file outside sandbox: "; AStr filename];; mret None
  | Some safe_path =>
      match os_open safe_path with
      | None => LOG ERROR [Str "Failed to open binary file for reading: "; AStr (path_string safe_path)];; mret None
      | Some content => mret (Some content)
      end
  end.

(** ** The pure content of the methods *)
Definition resolved (filename : bytes) : option path :=
  if bool_decide (filename = []) || bool_decide (NUL ∈ filename) || is_absolute (path_of filename) then None
  else
    weakly_canon ← weakly_canonical (append (canonical_root_ fm) (path_of filename));
    if inside_root weakly_canon then Some weakly_canon else None.

Definition resolved_size (filename : bytes) : option Z :=
  p ← resolved filename; if bool_decide (os_status p = regular) then os_file_size p else None.

Definition resolved_content (filename : bytes) : option bytes := p ← resolved filename; os_open p.

(** The catalogue of a directory: an error on an entry ends the scan at the next
    one. *)
Fixpoint scan (entries : list dirent) (ec : bool) : list MediaFileInfo * bool :=
  match entries with
  | [] => ([], true)
  | entry :: entries =>
      if ec then ([], false)
      else if d_is_regular entry then
        if negb (bool_decide (d_name entry = [])) && bool_decide (head (d_name entry) = Some "."%char)
        then scan entries (d_status_ec entry)
        else match d_size entry with
             | Some size => let '(fs, e) := scan entries false in (mkInfo (d_name entry) size :: fs, e)
             | None => scan entries true
             end
      else scan entries (d_status_ec entry)
  end.

Definition catalogue : option (list MediaFileInfo) :=
  if bool_decide (os_status (canonical_root_ fm) = directory) then
    match os_dir (canonical_root_ fm) with
    | None => Some []
    | Some (entries, fails) =>
        let '(fs, reached_end) := scan entries false in
        if fails && reached_end then None else Some (merge_sort name_le fs)
    end
  else Some [].

Definition FileManager_store : MediaStore := {|
  list_files := fm_list_files;
  get_file_size := fm_get_file_size;
  open_binary_file := fm_open_binary_file;
  list_view := catalogue;
  size_view := resolved_size;
  content_view := resolved_content |}.
End methods.

(** ** Lemmas *)
#[export] Instance log_frame_preorder : PreOrder log_frame.
Proof.
  split; [by intros s|].
  intros s1 s2 s3 (?&?&?&?&?&?&?&?) (?&?&?&?&?&?&?&?). unfold log_frame. split_and!; congruence.
Qed.

Lemma log_frame_add s l : log_frame s (add_log l s).
Proof. done. Qed.
#[export] Hint Resolve log_frame_add : wp.

Section lemmas.
Context {os : OS} (fm : FileManager).

Lemma resolve_safe_path_wp f (Q : option path → io → Prop) (X B : io → Prop) s :
  (∀ s', log_frame s s' → Q (resolved fm f) s') → wp (resolve_safe_path fm f) Q X B s.
Proof.
  intros HQ. unfold resolve_safe_path, resolved in *.
  case_bool_decide; simpl in *; [by apply wp_ret, HQ|].
  case_bool_decide; simpl in *; [by apply wp_ret, HQ|].
  destruct (is_absolute (path_of f)); [by apply wp_bind, wp_LOG, wp_ret, HQ|].
  destruct (weakly_canonical _) as [p|]; simpl in *; [|by apply wp_ret, HQ].
  destruct (inside_root fm p); simpl in *; [by apply wp_ret, HQ|].
  by apply wp_bind, wp_LOG, wp_ret, HQ.
Qed.

Lemma get_file_size_wp f s :
  wp (fm_get_file_size fm f) (λ r s', r = resolved_size fm f ∧ log_frame s s') (λ _, False) (λ _, False) s.
Proof.
  unfold fm_get_file_size, resolved_size. apply wp_bind, resolve_safe_path_wp. intros s' Hs.
  destruct (resolved fm f) as [p|]; simpl; [|by apply wp_ret].
  case_bool_decide; simpl; by apply wp_ret.
Qed.

Lemma open_binary_file_wp f s :
  wp (fm_open_binary_file fm f) (λ r s', r = resolved_content fm f ∧ log_frame s s') (λ _, False) (λ _, False) s.
Proof.
  unfold fm_open_binary_file, resolved_content. apply wp_bind, resolve_safe_path_wp. intros s' Hs.
  destruct (resolved fm f) as [p|]; simpl.
  - destruct (os_open p); [by apply wp_ret|]. by apply wp_bind, wp_LOG, wp_ret.
  - by apply wp_bind, wp_LOG, wp_ret.
Qed.

Lemma file_exists_wp f s :
  wp (file_exists fm f) (λ r s', r = true ↔ ∃ p, resolved fm f = Some p ∧ os_status p = regular)
    (λ _, False) (λ _, False) s.
Proof.
  unfold file_exists. apply wp_bind, resolve_safe_path_wp. intros s' Hs.
  destruct (resolved fm f) as [p|]; simpl; apply wp_ret; [rewrite bool_decide_eq_true|]; naive_solver.
Qed.

(** An absolute result of [weakly_canonical] has no dot-dot element. *)
Lemma weakly_canonical_no_dotdot p q :
  OSLaws os → weakly_canonical p = Some q → is_absolute q = true → DOTDOT ∉ q.
Proof.
  intros Hos Hp [r ->]%is_absolute_spec. intros [?|Hin]%elem_of_cons; [done|]. revert Hin.
  revert Hp. unfold weakly_canonical. destruct (status_exists (os_status p)).
  - intros (r' & [= <-] & Hr)%canonical_is_canonical Hin. rewrite Forall_forall in Hr.
    by destruct (Hr _ Hin) as (_ & _ & ? & _).
  - destruct (status_known _); [|done]. destruct (wc_scan [] p) as [[res its]|]; simpl; [|done].
    destruct (match res with [] => _ | _ => _ end); simpl; [|done].
    intros [= H]. by eapply lexically_normal_rooted.
Qed.

Lemma inside_root_prefix q :
  canonical_path (canonical_root_ fm) → inside_root fm q = true →
  is_absolute q = true ∧ canonical_root_ fm `prefix_of` q.
Proof.
  intros Hroot. unfold inside_root. rewrite negb_true_iff, !orb_false_iff, bool_decide_eq_false.
  intros [[Hne Hdd] Hrel].
  assert (is_absolute q = true) as Habs.
  { destruct (is_absolute q) eqn:E; [done|]. exfalso. apply Hne. unfold lexically_relative.
    rewrite E. by destruct Hroot as (r & -> & _). }
  split; [done|]. by apply relative_inside.
Qed.

Lemma resolved_inside f p :
  OSLaws os → canonical_path (canonical_root_ fm) → resolved fm f = Some p →
  canonical_root_ fm `prefix_of` p ∧ DOTDOT ∉ p.
Proof.
  intros Hos Hroot. unfold resolved.
  destruct (bool_decide (f = []) || _ || _); [done|].
  destruct (weakly_canonical _) as [q|] eqn:E; simpl; [|done].
  destruct (inside_root fm q) eqn:Hin; [|done]. intros [= <-].
  apply inside_root_prefix in Hin as [Habs Hpre]; [|done]. split; [done|].
  by eapply weakly_canonical_no_dotdot.
Qed.
(** When the request names an object, or is made of names only, what is resolved
    is the object's own name or the name of nothing. *)
Definition direct_request (f : bytes) : Prop :=
  status_exists (os_status (append (canonical_root_ fm) (path_of f))) = true ∨
  (path_of f ≠ [] ∧ Forall clean_name (path_of f)).

Lemma resolved_real f p :
  OSLaws os → OSResolution os → canonical_path (canonical_root_ fm) → direct_request f → resolved fm f = Some p →
  os_canonical p = Some p ∨ status_exists (os_status p) = false.
Proof.
  intros Hos Hres Hroot Hf. unfold resolved. destruct (bool_decide (f = []) || _ || _); [done|].
  destruct (weakly_canonical _) as [q|] eqn:E; simpl; [|done].
  destruct (inside_root fm q); [|done]. intros [= <-]. destruct Hf as [Hex|[Hne Hf]].
  - left. unfold weakly_canonical in E. rewrite Hex in E. by eapply canonical_fixed.
  - rewrite append_names in E by done. eapply weakly_canonical_real; [done|done| |exact E].
    by apply canonical_app.
Qed.

Lemma resolved_content_real f content :
  OSLaws os → OSResolution os → canonical_path (canonical_root_ fm) → direct_request f →
  resolved_content fm f = Some content →
  ∃ p, canonical_root_ fm `prefix_of` p ∧ (DOTDOT ∉ p) ∧ os_canonical p = Some p ∧ os_open p = Some content.
Proof.
  intros Hos Hres Hroot Hf. unfold resolved_content. destruct (resolved fm f) as [p|] eqn:E; [|done].
  simpl. intros Hc. destruct (resolved_inside f p Hos Hroot E). exists p. split_and!; try done.
  destruct (resolved_real f p Hos Hres Hroot Hf E) as [|Hn]; [done|].
  by rewrite (open_exists p content Hc) in Hn.
Qed.

Lemma resolved_size_real f n :
  OSLaws os → OSResolution os → canonical_path (canonical_root_ fm) → direct_request f →
  resolved_size fm f = Some n →
  ∃ p, canonical_root_ fm `prefix_of` p ∧ (DOTDOT ∉ p) ∧ os_canonical p = Some p ∧ os_status p = regular ∧
       os_file_size p = Some n.
Proof.
  intros Hos Hres Hroot Hf. unfold resolved_size. destruct (resolved fm f) as [p|] eqn:E; [|done].
  simpl. case_bool_decide as Hreg; [|done]. intros Hn. destruct (resolved_inside f p Hos Hroot E).
  exists p. split_and!; try done. destruct (resolved_real f p Hos Hres Hroot Hf E) as [|He]; [done|].
  by rewrite Hreg in He.
Qed.

(** The containment test, exactly: below the root, and no first name that
    begins with two dots. *)
Lemma inside_root_below a :
  is_absolute (canonical_root_ fm) = true → Forall clean_name a →
  inside_root fm (canonical_root_ fm ++ a) = match a with [] => true | e :: _ => negb (starts_with DOTDOT e) end.
Proof.
  intros Hroot Ha. unfold inside_root. rewrite relative_below by done.
  destruct a as [|e a]; [done|]. change (lit "..") with DOTDOT. rewrite path_string_clean by done.
  rewrite bool_decide_eq_false_2 by done. unfold is_absolute.
  rewrite bool_decide_eq_false_2; [by rewrite orb_false_r|].
  inversion Ha as [|?? (_ & _ & _ & Hs)]; subst. intros [= ->]. apply Hs. left.
Qed.

(** ** The directory scan *)
Lemma list_files_wp s :
  match catalogue fm with
  | Some fs => wp (fm_list_files fm) (λ r s', r = fs ∧ log_frame s s') (λ _, False) (λ _, False) s
  | None => wp (fm_list_files fm) (λ _ _, False) (log_frame s) (λ _, False) s
  end.
Proof.
  unfold catalogue, fm_list_files. case_bool_decide as Hd.
  2:{ rewrite orb_true_r. by apply wp_ret. }
  rewrite Hd. simpl. destruct (os_dir (canonical_root_ fm)) as [[entries fails]|].
  2:{ by apply wp_bind, wp_ret, wp_ret. }
  assert (wp (loop (λ v _, length v.1.1) (λ v, list_files_body v fails) (entries, [], false))
    (λ r s', r = (scan entries false).1 ∧ (fails && (scan entries false).2) = false ∧ log_frame s s')
    (λ s', fails && (scan entries false).2 = true ∧ log_frame s s') (λ _, False) s) as Hloop.
  { apply (wp_loop (λ v s', log_frame s s' ∧
             scan entries false = (v.1.2 ++ (scan v.1.1 v.2).1, (scan v.1.1 v.2).2))).
    2:{ split; [done|]. simpl. by destruct (scan entries false). }
    intros [[es files] ec] s' [Hfr Hsc]. simpl in Hsc. rewrite Hsc. simpl. clear Hsc.
    destruct es as [|d es]; simpl.
    { destruct fails; [by apply wp_throw|]. apply wp_ret. by rewrite app_nil_r. }
    destruct ec; simpl.
    { apply wp_bind, wp_LOG, wp_ret. by rewrite app_nil_r, andb_false_r. }
    destruct (d_is_regular d); [|apply wp_ret; simpl; split; [done|lia]].
    destruct (negb _ && _); [apply wp_ret; simpl; split; [done|lia]|].
    destruct (d_size d) as [size|]; simpl; [|apply wp_ret; simpl; split; [done|lia]].
    destruct (scan es false) as [fs e] eqn:E. apply wp_ret. simpl. rewrite E, <-app_assoc.
    split; [done|lia]. }
  destruct (scan entries false) as [fs e]. simpl in *.
  destruct (fails && e); apply wp_bind; (eapply wp_mono; [exact Hloop|..]); try naive_solver.
  intros r s' (-> & _ & Hfr). by apply wp_ret.
Qed.
End lemmas.

(** The directory entries LIST shows when no entry reports an error. *)
Definition visible (d : dirent) : bool :=
  d_is_regular d && negb (negb (bool_decide (d_name d = [])) && bool_decide (head (d_name d) = Some "."%char)).

Definition entry_ok (d : dirent) : Prop :=
  d_status_ec d = false ∧ (visible d = true → is_Some (d_size d)).

Definition entry_info (d : dirent) : option MediaFileInfo :=
  if visible d then mkInfo (d_name d) <$> d_size d else None.

Lemma scan_cons_ok d es :
  entry_ok d → scan (d :: es) false = (option_list (entry_info d) ++ (scan es false).1, (scan es false).2).
Proof.
  intros [Hec Hsz]. unfold entry_info. unfold visible in *. simpl. rewrite Hec.
  destruct (scan es false) as [fs e]. destruct (d_is_regular d); [|done]. simpl in *.
  destruct (negb _ && _); simpl in *; [done|]. by destruct Hsz as [size ->].
Qed.

Lemma scan_ok pre es :
  Forall entry_ok pre → scan (pre ++ es) false = (omap entry_info pre ++ (scan es false).1, (scan es false).2).
Proof.
  induction 1 as [|d pre Hd Hpre IH]; [simpl; by destruct (scan es false)|].
  rewrite <-app_comm_cons, scan_cons_ok, IH by done. simpl. destruct (entry_info d); done.
Qed.

#[export] Instance name_le_total : Total name_le.
Proof.
  intros a b. unfold name_le. destruct (string_ltb (filename b) (filename a)) eqn:E1; [|by left].
  destruct (string_ltb (filename a) (filename b)) eqn:E2; [|by right]. exfalso.
  pose proof (string_ltb_trans _ _ _ E1 E2) as E. by rewrite string_ltb_irrefl in E.
Qed.

#[export] Instance name_le_trans : Transitive name_le.
Proof.
  intros a b c. unfold name_le. intros H1 H2.
  destruct (string_ltb (filename c) (filename a)) eqn:E; [|done]. exfalso.
  destruct (string_ltb (filename a) (filename b)) eqn:E1.
  - by rewrite (string_ltb_trans _ _ _ E E1) in H2.
  - rewrite (string_ltb_total _ _ E1 H1) in E. congruence.
Qed.

(** A small symlink-free file system for the examples: the directory /m with
    two films, a file whose name begins with two dots, and a secret outside. *)
Definition demo_files : list (path * bytes) :=
  [([ROOT; lit "m"; lit "b.mp4"], lit "BBBB"); ([ROOT; lit "m"; lit "a.mp4"], lit "AAA");
   ([ROOT; lit "m"; lit "..cut.mp4"], lit "CC"); ([ROOT; lit "etc"; lit "passwd"], lit "secret")].
Definition demo_dirs : list path := [[ROOT]; [ROOT; lit "m"]; [ROOT; lit "etc"]].

Definition demo_lookup (p : path) : option bytes :=
  foldr (λ f acc, if bool_decide (f.1 = lexically_normal p) then Some f.2 else acc) None demo_files.

Definition demo_os : OS := {|
  os_status p :=
    if bool_decide (lexically_normal p ∈ demo_dirs) then directory
    else match demo_lookup p with Some _ => regular | None => not_found end;
  os_canonical p :=
    if bool_decide (lexically_normal p ∈ demo_dirs ++ demo_files.*1) then Some (lexically_normal p) else None;
  os_dir p :=
    if bool_decide (lexically_normal p = [ROOT; lit "m"]) then
      Some ([mkDirent (lit "b.mp4") true false (Some 4); mkDirent (lit ".gitkeep") true false (Some 0);
             mkDirent (lit "sub") false false None; mkDirent (lit "a.mp4") true false (Some 3)], false)
    else None;
  os_file_size p := zlen <$> demo_lookup p;
  os_open p := demo_lookup p |}.

Definition demo_fm : FileManager := mkFileManager [lit "m"] [ROOT; lit "m"].

Lemma clean_name_dec_sound e :
  negb (bool_decide (e = [])) && negb (bool_decide (e = DOT)) && negb (bool_decide (e = DOTDOT))
    && negb (bool_decide (SLASH ∈ e)) = true → clean_name e.
Proof.
  rewrite !andb_true_iff, !negb_true_iff, !bool_decide_eq_false. unfold clean_name. tauto.
Qed.

Lemma demo_os_laws : OSLaws demo_os.
Proof.
  intros p q. simpl. case_bool_decide as Hin; [|done]. intros [= <-]. revert Hin.
  generalize (lexically_normal p). intros r Hr.
  assert (Forall (λ r, match r with x :: r => x = ROOT ∧ Forall clean_name r | [] => False end)
            (demo_dirs ++ demo_files.*1)) as Hall.
  { repeat constructor; by apply clean_name_dec_sound. }
  rewrite Forall_forall in Hall. specialize (Hall _ Hr). destruct r as [|x r]; [done|].
  destruct Hall as [-> Hr']. by exists r.
Qed.

Lemma demo_root : canonical_path (canonical_root_ demo_fm).
Proof. exists [lit "m"]. split; [done|]. repeat constructor; by apply clean_name_dec_sound. Qed.

(** The same with a symbolic link to the secret in the media directory, and with
    the kernel's own path walk: one element after the other, each from a
    directory, links followed as they are met. *)
Definition link_target (p : path) : path :=
  if bool_decide (p = [ROOT; lit "m"; lit "link"]) then [ROOT; lit "etc"; lit "passwd"] else p.

Definition link_enter (cur : path) (e : bytes) : option path :=
  if negb (bool_decide (cur ∈ demo_dirs)) then None
  else if bool_decide (e = []) || bool_decide (e = DOT) then Some cur
  else if bool_decide (e = DOTDOT) then Some (match cur with _ :: _ :: _ => removelast cur | _ => cur end)
  else
    let next := link_target (cur ++ [e]) in
    if bool_decide (next ∈ demo_dirs ++ demo_files.*1) then Some next else None.

Definition link_walk (p : path) : option path :=
  match p with
  | e :: es => if bool_decide (e = ROOT) then foldl (λ cur e, c ← cur; link_enter c e) (Some [ROOT]) es else None
  | [] => None
  end.

Definition link_os : OS := {|
  os_status p :=
    match link_walk p with
    | Some q => if bool_decide (q ∈ demo_dirs) then directory else regular
    | None => not_found
    end;
  os_canonical := link_walk;
  os_dir p := None;
  os_file_size p := q ← link_walk p; zlen <$> demo_lookup q;
  os_open p := q ← link_walk p; demo_lookup q |}.

Definition link_objects : list path := demo_dirs ++ demo_files.*1.

Lemma link_objects_plain q : q ∈ link_objects → canonical_path q.
Proof.
  assert (Forall (λ r, match r with x :: r => x = ROOT ∧ Forall clean_name r | [] => False end) link_objects) as Hall.
  { repeat constructor; by apply clean_name_dec_sound. }
  rewrite Forall_forall in Hall. intros Hq. specialize (Hall _ Hq). destruct q as [|x q]; [done|].
  destruct Hall as [-> ?]. by exists q.
Qed.

Lemma link_objects_fixed q : q ∈ link_objects → link_walk q = Some q.
Proof.
  assert (Forall (λ q, link_walk q = Some q) link_objects) as Hall by (repeat constructor).
  rewrite Forall_forall in Hall. apply Hall.
Qed.

Lemma link_enter_object cur e q : cur ∈ link_objects → link_enter cur e = Some q → q ∈ link_objects.
Proof.
  intros Hcur. unfold link_enter. case_bool_decide as Hd; simpl; [|done].
  destruct (_ || _); [by intros [= <-]|]. case_bool_decide.
  - intros Hq. unfold demo_dirs in Hd. rewrite !elem_of_cons, elem_of_nil in Hd.
    destruct_or! Hd; subst; try done; injection Hq as <-; left.
  - case_bool_decide; [|done]. by intros [= <-].
Qed.

Lemma link_walk_object p q : link_walk p = Some q → q ∈ link_objects.
Proof.
  destruct p as [|e p]; [done|]. unfold link_walk. case_bool_decide; [|done].
  induction p as [|x p IH] using rev_ind in q |- *.
  - intros [= <-]. left.
  - rewrite foldl_snoc. destruct (foldl _ _ p) as [c|]; simpl; [|done].
    apply link_enter_object. by apply IH.
Qed.

Lemma link_walk_app p k : p ≠ [] → link_walk (p ++ k) = foldl (λ cur e, c ← cur; link_enter c e) (link_walk p) k.
Proof.
  intros Hp. destruct p as [|e p]; [done|]. unfold link_walk. simpl. case_bool_decide; [by rewrite foldl_app|].
  induction k; simpl; done.
Qed.

Lemma link_status_exists p : status_exists (@os_status link_os p) = bool_decide (is_Some (link_walk p)).
Proof.
  simpl. destruct (link_walk p) as [q|]; [|symmetry; apply bool_decide_eq_false_2; by intros []].
  rewrite (bool_decide_eq_true_2 (is_Some (Some q))) by done. by case_bool_decide.
Qed.

Lemma link_os_laws : OSLaws link_os.
Proof. intros p q H. by eapply link_objects_plain, link_walk_object. Qed.

Lemma link_os_resolution : OSResolution link_os.
Proof.
  split.
  - intros p q H. by eapply link_objects_fixed, link_walk_object.
  - intros p q e (r & -> & _) _ Hq. rewrite !link_status_exists. change (link_walk (ROOT :: r) = Some q) in Hq.
    pose proof (link_walk_object _ _ Hq) as Hobj. pose proof (link_objects_plain _ Hobj) as (k & -> & _).
    rewrite !link_walk_app by done. by rewrite Hq, (link_objects_fixed _ Hobj).
  - intros p k Hk [l ->]. rewrite !link_status_exists, !bool_decide_eq_true, link_walk_app by done.
    intros H. destruct (link_walk k); [by eexists|]. exfalso. revert H. clear.
    induction l as [|x l IH]; simpl; [by intros [? ?]|exact IH].
  - intros p c. rewrite link_status_exists. simpl. destruct (link_walk p); [|done]. intros _. by apply bool_decide_eq_true.
Qed.

(** ** Properties *)

(** C9: whatever file name a client sends and whatever the file system holds,
    symbolic links included, a path that [resolve_safe_path] lets through has
    the canonical root as its leading elements and contains no dot-dot. *)
Theorem resolve_safe_path_confined (os : OS) fm f s p s' :
  OSLaws os → canonical_path (canonical_root_ fm) →
  resolve_safe_path fm f s = Ret (Some p) s' →
  canonical_root_ fm `prefix_of` p ∧ DOTDOT ∉ p.
Proof.
  intros Hos Hroot Hret.
  assert (wp (resolve_safe_path fm f) (λ r _, r = resolved fm f) (λ _, False) (λ _, False) s) as Hwp
    by (by apply resolve_safe_path_wp).
  apply (wp_Ret _ _ _ _ _ _ _ Hret) in Hwp. by apply (resolved_inside fm f).
Qed.

Lemma resolve_safe_path_confined_witness :
  let p := [ROOT; lit "m"; lit "a.mp4"] in
  @resolve_safe_path demo_os demo_fm (lit "./x/../a.mp4") io0 = Ret (Some p) io0 ∧
  @resolved demo_os demo_fm (lit "../etc/passwd") = None ∧
  canonical_root_ demo_fm `prefix_of` p ∧ DOTDOT ∉ p.
Proof.
  intros p.
  assert (@resolve_safe_path demo_os demo_fm (lit "./x/../a.mp4") io0 = Ret (Some p) io0) as H by by vm_compute.
  split; [exact H|]. split; [by vm_compute|].
  exact (resolve_safe_path_confined demo_os demo_fm _ io0 p io0 demo_os_laws demo_root H).
Defined.

(** C29: for a well-formed request that names an existing object, the sandbox
    accepts exactly the objects whose canonical path is the root itself or lies
    below it with a first name that does not begin with two dots. *)
Theorem resolve_safe_path_exact (os : OS) fm f q s :
  OSLaws os → canonical_path (canonical_root_ fm) →
  f ≠ [] → NUL ∉ f → is_absolute (path_of f) = false →
  status_exists (os_status (append (canonical_root_ fm) (path_of f))) = true →
  os_canonical (append (canonical_root_ fm) (path_of f)) = Some q →
  wp (resolve_safe_path fm f)
    (λ r _, ∀ p, r = Some p ↔ p = q ∧ ∃ a, q = canonical_root_ fm ++ a ∧
                                (∀ e, head a = Some e → starts_with DOTDOT e = false))
    (λ _, False) (λ _, False) s.
Proof.
  intros Hos Hroot Hf Hnul Habs Hst Hq. apply resolve_safe_path_wp. intros _ _ p.
  unfold resolved. rewrite !bool_decide_eq_false_2, Habs by done. simpl.
  unfold weakly_canonical. rewrite Hst, Hq. simpl.
  assert (Hqc := canonical_is_canonical _ _ Hq). destruct Hqc as (r & -> & Hr).
  destruct Hroot as (b & Eb & Hb).
  assert (∀ a, ROOT :: r = canonical_root_ fm ++ a →
            inside_root fm (ROOT :: r) = match a with [] => true | e :: _ => negb (starts_with DOTDOT e) end) as Hin.
  { intros a Ha. rewrite Ha. apply inside_root_below.
    - rewrite Eb. apply is_absolute_spec. by eexists.
    - rewrite Eb in Ha. simpl in Ha. simplify_eq. by apply Forall_app in Hr as [_ ?]. }
  destruct (inside_root fm (ROOT :: r)) eqn:E.
  - apply inside_root_prefix in E as Hpre; [|by exists b]. destruct Hpre as [_ [a Ha]].
    specialize (Hin a Ha). split.
    + intros [= <-]. split; [done|]. exists a. split; [done|].
      intros e He. destruct a as [|x a]; simplify_eq/=. by apply eq_sym, negb_true_iff in Hin.
    + by intros [-> _].
  - split; [done|]. intros [_ (a & Ha & Hd)]. specialize (Hin a Ha).
    destruct a as [|e a]; [done|]. by rewrite (Hd e) in Hin.
Qed.

Lemma resolve_safe_path_exact_witness :
  let q := [ROOT; lit "m"; lit "..cut.mp4"] in
  @os_canonical demo_os (append (canonical_root_ demo_fm) (path_of (lit "..cut.mp4"))) = Some q ∧
  @resolved demo_os demo_fm (lit "..cut.mp4") = None ∧
  wp (@resolve_safe_path demo_os demo_fm (lit "..cut.mp4"))
    (λ r _, ∀ p, r = Some p ↔ p = q ∧ ∃ a, q = canonical_root_ demo_fm ++ a ∧
                                (∀ e, head a = Some e → starts_with DOTDOT e = false))
    (λ _, False) (λ _, False) io0.
Proof.
  intros q. split; [by vm_compute|]. split; [by vm_compute|].
  apply (resolve_safe_path_exact demo_os demo_fm (lit "..cut.mp4") q io0 demo_os_laws demo_root);
    [done|exact (bool_decide_eq_false_1 (NUL ∈ lit "..cut.mp4") eq_refl)|by vm_compute..].
Defined.

(** A request that goes through a name that does not exist and back with a
    dot-dot is normalised as text from there on. On [link_os] it names the link,
    which lies in the media directory; the open then follows it. *)
Lemma link_os_escapes :
  let f := lit "nope/../link" in let p := [ROOT; lit "m"; lit "link"] in let q := [ROOT; lit "etc"; lit "passwd"] in
  @fm_get_file_size link_os demo_fm f io0 = Ret (Some 6) io0 ∧
  @fm_open_binary_file link_os demo_fm f io0 = Ret (Some (lit "secret")) io0 ∧
  @resolved link_os demo_fm f = Some p ∧ @os_canonical link_os p = Some q ∧
  @os_open link_os q = Some (lit "secret") ∧ ¬ canonical_root_ demo_fm `prefix_of` q.
Proof.
  intros f p q. split; [by vm_compute|]. split; [by vm_compute|]. split; [by vm_compute|].
  split; [by vm_compute|]. split; [by vm_compute|]. by intros [k [=]].
Qed.

(** C28: what the sandbox is worth. A request that names an object in the media
    directory, by whatever path, or that is made of plain names only, is served
    from inside the root: the bytes and the size are those of the object at [p],
    where [p] lies below the root, holds no dot-dot and is its own canonical
    path, so that no symbolic link leads from it to anywhere else. For the
    other requests there is a hole: where the media directory holds a link to a
    file outside, a request that reaches the link through a name that does not
    exist and a dot-dot is served the size and the bytes of that file. *)
Theorem store_reads_inside_root :
  (∀ (os : OS) fm f s,
     OSLaws os → OSResolution os → canonical_path (canonical_root_ fm) → direct_request fm f →
     wp (fm_open_binary_file fm f)
       (λ r _, ∀ content, r = Some content →
          ∃ p, canonical_root_ fm `prefix_of` p ∧ (DOTDOT ∉ p) ∧ os_canonical p = Some p ∧ os_open p = Some content)
       (λ _, False) (λ _, False) s ∧
     wp (fm_get_file_size fm f)
       (λ r _, ∀ n, r = Some n →
          ∃ p, canonical_root_ fm `prefix_of` p ∧ (DOTDOT ∉ p) ∧ os_canonical p = Some p ∧ os_status p = regular ∧
               os_file_size p = Some n)
       (λ _, False) (λ _, False) s) ∧
  (∃ (os : OS) fm f content,
     OSLaws os ∧ OSResolution os ∧ canonical_path (canonical_root_ fm) ∧
     fm_get_file_size fm f io0 = Ret (Some (zlen content)) io0 ∧
     fm_open_binary_file fm f io0 = Ret (Some content) io0 ∧
     ∃ p q, resolved fm f = Some p ∧ os_canonical p = Some q ∧ os_open q = Some content ∧
            ¬ canonical_root_ fm `prefix_of` q).
Proof.
  split.
  - intros os fm f s Hos Hres Hroot Hf. split.
    + eapply wp_mono; [apply open_binary_file_wp|..]; [|done|done].
      intros r s' [-> _] content. by apply resolved_content_real.
    + eapply wp_mono; [apply get_file_size_wp|..]; [|done|done].
      intros r s' [-> _] n. by apply resolved_size_real.
  - destruct link_os_escapes as (H1 & H2 & H). exists link_os, demo_fm, (lit "nope/../link"), (lit "secret").
    split; [apply link_os_laws|]. split; [apply link_os_resolution|]. split; [apply demo_root|].
    split; [exact H1|]. split; [exact H2|]. eexists _, _. exact H.
Qed.

Lemma store_reads_inside_root_witness :
  @fm_get_file_size link_os demo_fm (lit "a.mp4") io0 = Ret (Some 3) io0 ∧
  match @fm_open_binary_file link_os demo_fm (lit "link") io0 with Ret r _ => r = None | _ => False end ∧
  wp (@fm_open_binary_file link_os demo_fm (lit "a.mp4"))
    (λ r _, ∀ content, r = Some content →
       ∃ p, canonical_root_ demo_fm `prefix_of` p ∧ (DOTDOT ∉ p) ∧ @os_canonical link_os p = Some p ∧
            @os_open link_os p = Some content)
    (λ _, False) (λ _, False) io0.
Proof.
  split; [by vm_compute|]. split; [by vm_compute|].
  apply (proj1 (proj1 store_reads_inside_root link_os demo_fm (lit "a.mp4") io0 link_os_laws link_os_resolution demo_root
                  (or_introl eq_refl))).
Defined.

(** C30: when no directory entry reports an error, LIST's catalogue holds exactly
    the regular files that are not dot-files, each with its size, sorted by
    name. *)
Theorem list_files_catalogue (os : OS) fm entries s :
  os_status (canonical_root_ fm) = directory →
  os_dir (canonical_root_ fm) = Some (entries, false) → Forall entry_ok entries →
  wp (fm_list_files fm)
    (λ fs s', fs ≡ₚ omap entry_info entries ∧ StronglySorted name_le fs ∧ log_frame s s')
    (λ _, False) (λ _, False) s.
Proof.
  intros Hst Hdir Hok. pose proof (list_files_wp fm s) as H. unfold catalogue in H.
  rewrite bool_decide_eq_true_2, Hdir in H by done.
  rewrite <-(app_nil_r entries), scan_ok in H by done. simpl in H. rewrite app_nil_r in H.
  eapply wp_mono; [exact H|..]; [|done|done]. intros fs s' [-> Hfr]. split_and!; [apply merge_sort_Permutation| |done].
  apply (StronglySorted_merge_sort name_le).
Qed.

Lemma list_files_catalogue_witness :
  @fm_list_files demo_os demo_fm io0 = Ret [mkInfo (lit "a.mp4") 3; mkInfo (lit "b.mp4") 4] io0 ∧
  ∃ entries, @os_dir demo_os (canonical_root_ demo_fm) = Some (entries, false) ∧
  wp (@fm_list_files demo_os demo_fm)
    (λ fs s', fs ≡ₚ omap entry_info entries ∧ StronglySorted name_le fs ∧ log_frame io0 s')
    (λ _, False) (λ _, False) io0.
Proof.
  split; [by vm_compute|]. eexists. split; [reflexivity|].
  apply (list_files_catalogue demo_os demo_fm); [by vm_compute|reflexivity|].
  repeat constructor; simpl; try done; by intros; eexists.
Defined.

(** Once a directory entry makes the status or size query report an error
    (a dangling symbolic link does), the entries after it are left out of the
    catalogue, whatever they are. *)
Theorem list_files_truncated_by_error (os : OS) fm pre bad post s fails :
  os_status (canonical_root_ fm) = directory →
  os_dir (canonical_root_ fm) = Some (pre ++ bad :: post, fails) → Forall entry_ok pre →
  d_is_regular bad = false → d_status_ec bad = true → post ≠ [] →
  wp (fm_list_files fm) (λ fs _, fs ≡ₚ omap entry_info pre) (λ _, False) (λ _, False) s.
Proof.
  intros Hst Hdir Hok Hreg Hec Hpost. pose proof (list_files_wp fm s) as H. unfold catalogue in H.
  rewrite bool_decide_eq_true_2, Hdir, scan_ok in H by done. simpl in H. rewrite Hreg, Hec in H.
  destruct post as [|d post]; [done|]. simpl in H. rewrite andb_false_r, app_nil_r in H.
  eapply wp_mono; [exact H|..]; [|done|done]. intros fs s' [-> _]. apply merge_sort_Permutation.
Qed.

(** The demonstration directory with a dangling link between the films. *)
Definition dangling_os : OS := {|
  os_status := @os_status demo_os;
  os_canonical := @os_canonical demo_os;
  os_dir _ := Some ([mkDirent (lit "b.mp4") true false (Some 4)] ++ mkDirent (lit "dead") false true None ::
                    [mkDirent (lit "a.mp4") true false (Some 3)], false);
  os_file_size := @os_file_size demo_os;
  os_open := @os_open demo_os |}.

Lemma list_files_truncated_by_error_witness :
  wp (@fm_list_files dangling_os demo_fm) (λ fs _, fs ≡ₚ [mkInfo (lit "b.mp4") 4]) (λ _, False) (λ _, False) io0.
Proof.
  apply (list_files_truncated_by_error dangling_os demo_fm [mkDirent (lit "b.mp4") true false (Some 4)]
           (mkDirent (lit "dead") false true None) [mkDirent (lit "a.mp4") true false (Some 3)] io0 false);
    try by vm_compute.
  repeat constructor; simpl; by eexists.
Defined.

(** ** The class implements the store interface *)

(** File sizes are [uint64_t] values. *)
Class OSSizes (os : OS) : Prop := {
  file_size_range : ∀ p n, os_file_size p = Some n → 0 ≤ n < 2 ^ 64;
  entry_size_range : ∀ p entries fails, os_dir p = Some (entries, fails) →
    Forall (λ d, ∀ n, d_size d = Some n → 0 ≤ n < 2 ^ 64) entries }.

Lemma scan_sizes es ec :
  Forall (λ d, ∀ n, d_size d = Some n → 0 ≤ n < 2 ^ 64) es →
  Forall (λ f, 0 ≤ size_bytes f < 2 ^ 64) (scan es ec).1.
Proof.
  intros H. revert ec. induction H as [|d es Hd Hes IH]; intros ec; simpl; [by constructor|].
  destruct ec; [by constructor|]. destruct (d_is_regular d); [|apply IH].
  destruct (negb _ && _); [apply IH|]. destruct (d_size d) as [n|]; [|apply IH].
  specialize (IH false). destruct (scan es false). constructor; [by apply Hd|done].
Qed.

Lemma file_manager_store_laws (os : OS) (fm : FileManager) :
  OSSizes os → MediaStoreLaws (FileManager_store fm).
Proof.
  intros Hos. split.
  - apply list_files_wp.
  - apply get_file_size_wp.
  - apply open_binary_file_wp.
  - intros f n. simpl. unfold resolved_size. destruct (resolved fm f) as [p|]; simpl; [|done].
    case_bool_decide; [apply file_size_range|done].
  - intros fs. simpl. unfold catalogue. case_bool_decide; [|by intros [= <-]; constructor].
    destruct (os_dir _) as [[es fails]|] eqn:E; [|by intros [= <-]; constructor].
    destruct (scan es false) as [l e] eqn:El. destruct (fails && e); [done|]. intros [= <-].
    rewrite merge_sort_Permutation. apply entry_size_range in E.
    apply (scan_sizes es false) in E. by rewrite El in E.
Qed.

#[export] Instance file_manager_store_laws_instance (os : OS) (fm : FileManager) `{!OSSizes os} :
  MediaStoreLaws (FileManager_store fm) := file_manager_store_laws os fm _.

(** C27: [FileManager] keeps the contract sessions rely on: each of its three
    queries terminates, returns its pure view and changes nothing but the log
    (listing may instead leave through an exception), and sizes are 64-bit. *)
Theorem file_manager_implements_store (os : OS) fm : OSSizes os → MediaStoreLaws (FileManager_store fm).
Proof. apply file_manager_store_laws. Qed.

Lemma demo_os_sizes : OSSizes demo_os.
Proof.
  assert (∀ p c, demo_lookup p = Some c → zlen c < 10) as Hl.
  { intros p c. unfold demo_lookup. simpl.
    repeat (case_bool_decide; [intros [= <-]; vm_compute; done|]). done. }
  split.
  - intros p n. simpl. destruct (demo_lookup p) as [c|] eqn:E; simpl; [|done].
    intros [= <-]. apply Hl in E. pose proof (zlen_nonneg c). lia.
  - intros p es fails. simpl. case_bool_decide; [|done]. intros [= <- <-].
    repeat apply Forall_cons_2; try apply Forall_nil_2; simpl; intros n ?; simplify_eq; lia.
Qed.

Lemma file_manager_implements_store_witness : MediaStoreLaws (@FileManager_store demo_os demo_fm).
Proof. apply (file_manager_implements_store demo_os demo_fm demo_os_sizes). Defined.

(** After a successful [init] the root the sandbox compares with is a
    canonical path; on failure the object keeps its directory and an empty
    root, so that no absolute path is inside it. *)
Theorem init_root (os : OS) mkdirs root_dir s :
  OSLaws os → (∀ p os', mkdirs p = Some os' → OSLaws os') →
  canonical_root_ (make_file_manager root_dir) = [] ∧
  wp (init os mkdirs (make_file_manager root_dir))
    (λ r _, if r.1.1 then canonical_path (canonical_root_ r.1.2) ∧ OSLaws r.2
            else canonical_root_ r.1.2 = [] ∧ ∀ p, is_absolute p = true → inside_root r.1.2 p = false)
    (λ _, False) (λ _, False) s.
Proof.
  intros Hos Hmk. split; [done|].
  assert (∀ fm' p, canonical_root_ fm' = [] → is_absolute p = true → inside_root fm' p = false) as Hempty.
  { intros fm' p Hr Hp. unfold inside_root, lexically_relative. by rewrite Hr, Hp. }
  unfold init. destruct (status_exists _).
  - destruct (os_canonical _) as [root|] eqn:E; apply wp_bind, wp_LOG, wp_ret; simpl; [|naive_solver].
    split; [by eapply canonical_is_canonical|done].
  - destruct (mkdirs _) as [os'|] eqn:Em; [|apply wp_bind, wp_LOG, wp_ret; simpl; naive_solver].
    specialize (Hmk _ _ Em).
    destruct (@os_canonical os' _) as [root|] eqn:E; apply wp_bind, wp_LOG, wp_ret; simpl; [|naive_solver].
    split; [by eapply canonical_is_canonical|done].
Qed.

Lemma init_root_witness :
  match init demo_os (λ _, None) (make_file_manager (lit "/m")) io0 with
  | Ret (b, fm, _) s => (b, canonical_root_ fm, logs s)
  | _ => (false, [], [])
  end = (true, [ROOT; lit "m"], [mkLog INFO [Str "Media repository root: "; AStr (lit "/m")]]) ∧
  canonical_root_ (make_file_manager (lit "/m")) = [].
Proof.
  split; [by vm_compute|].
  exact (proj1 (init_root demo_os (λ _, None) (lit "/m") io0 demo_os_laws ltac:(by intros))).
Defined.
