(* ===== verification/ClientSession.v ===== *)
(** * ClientSession.cpp: one client's request loop

    The session is written against the interface [MediaStore] of FileManager.v.
    Its state is the object and the world [io] its socket lives in. Other
    threads act on a session only by calling [stop()]; the list [stops] of [io]
    says, before each load or store of [is_active_] and each call on the socket,
    whether one of them just did. A [stop()] in the middle of a socket call is an answer
    of the kernel (the call fails, or the stream ends), so every list of answers
    and stops together covers every interleaving of whole [stop()] calls. *)

From S2P Require Import Prelude Types CxxString Protocol Socket FileManager.

(** ** The class *)
Record ClientSession := mkSession {
  session_id_ : Z;
  socket_ : Socket;
  client_ip_ : bytes;
  client_port_ : Z;
  chunk_size_ : Z;
  is_active_ : bool }.

Definition make_session (id : Z) (sock : Socket) (ip : bytes) (p : Z) (chunk : Z) : ClientSession :=
  mkSession id sock ip p (if 0 <? chunk then chunk else DEFAULT_CHUNK_SIZE) true.

Record world := mkWorld { sess : ClientSession; net : io }.

Definition set_active (b : bool) (w : world) : world :=
  let c := sess w in
  mkWorld (mkSession (session_id_ c) (socket_ c) (client_ip_ c) (client_port_ c) (chunk_size_ c) b) (net w).
Definition set_socket (k : Socket) (w : world) : world :=
  let c := sess w in
  mkWorld (mkSession (session_id_ c) k (client_ip_ c) (client_port_ c) (chunk_size_ c) (is_active_ c)) (net w).

(** A call that touches the world outside the object only. *)
Definition in_io {A} (m : M io A) : M world A := λ w,
  match m (net w) with
  | Ret a s => Ret a (mkWorld (sess w) s)
  | Throw s => Throw (mkWorld (sess w) s)
  | Blocked s => Blocked (mkWorld (sess w) s)
  | NoFuel => NoFuel
  end.

(** A log call of the session: every message starts with the session's id. *)
Definition log_session (l : LogLevel) (args : list log_arg) : M world () :=
  w ← get;
  in_io (LOG l ([Str "[Client #"; ANum (session_id_ (sess w)); Str "] "] ++ args)).

Definition close_socket : M world () :=
  w ← get; k ← in_io (close (socket_ (sess w))); modify (set_socket k).

(** [stop]: the compare-and-exchange lets one caller through. A call of another
    thread is taken as a whole here, at one of the points of [interfere]; the
    interleaving of its accesses with those of the session's thread is the
    subject of [SessionRace.v]. *)
Definition stop : M world () :=
  w ← get;
  if is_active_ (sess w) then
    modify (set_active false);;
    log_session DEBUG [Str "Stopping session and shutting down socket"];;
    in_io (shutdown (socket_ (sess w)));;
    close_socket
  else mret ().

(** What other threads did up to this point. *)
Definition interfere : M world () := λ w,
  match stops (net w) with
  | [] => Ret () w
  | b :: q =>
      let w' := mkWorld (sess w) (set_stops q (net w)) in
      if b : bool then stop w' else Ret () w'
  end.

Definition load_active : M world bool := interfere;; w ← get; mret (is_active_ (sess w)).
Definition store_active (b : bool) : M world () := interfere;; modify (set_active b).

Definition on_socket {A} (call : Socket → M io A) : M world A :=
  interfere;; w ← get; in_io (call (socket_ (sess w))).

(** ** [std::ifstream] in binary mode *)
Record ifstream := mkStream { rest : bytes; good : bool }.

(** [read] of [n] characters and the [gcount()] characters it stored; a short
    read sets [eofbit] and [failbit], and a stream that is not good reads
    nothing. *)
Definition read (n : Z) (f : ifstream) : bytes * ifstream :=
  if good f then (ztake n (rest f), mkStream (zdrop n (rest f)) (n <=? zlen (rest f)))
  else ([], f).

(** [std::vector<char>(n)] throws [length_error] above [max_size()] and
    [bad_alloc] when there is no memory for it. *)
Definition VECTOR_MAX : Z := 2 ^ 63 - 1.

Section session.
Context {ms : MediaStore} (can_allocate : Z → bool).

Definition vector_ok (n : Z) : bool := (n <=? VECTOR_MAX) && can_allocate n.

(** ** LIST *)
Definition handle_list : M world () :=
  files ← in_io list_files;
  sent ← on_socket (send_string (build_list_response files));
  if negb sent then
    log_session WARN [Str "Failed to send LIST response to client"];; store_active false
  else log_session INFO [Str "Sent media catalog ("; ANum (zlen files); Str " files)"].

(** ** GET

    One iteration of the transfer loop; the loop variables are [total_sent] and
    the file stream. It is left with [Some total_sent], or with [None] when the
    whole handler returns. *)
Definition transfer_body (filename : bytes) (file_size chunk : Z) (v : Z * ifstream) :
    M world (Z * ifstream + option Z) :=
  let '(total_sent, file_stream) := v in
  active ← load_active;
  if negb (active && (total_sent <? file_size) && good file_stream) then mret (inr (Some total_sent))
  else
    let bytes_to_read := chunk `min` (file_size - total_sent) in
    let '(buffer, file_stream) := read bytes_to_read file_stream in
    if zlen buffer <=? 0 then mret (inr (Some total_sent))
    else
      sent ← on_socket (λ k, r ← send_all buffer k; mret (fst r));
      if negb sent then
        log_session ERROR [Str "Transfer failure for '"; AStr filename;
          Str "': client disconnected mid-transfer after sending "; ANum total_sent; Str " / ";
          ANum file_size; Str " bytes"];;
        store_active false;; mret (inr None)
      else mret (inl (total_sent + zlen buffer, file_stream)).

Definition transfer (filename : bytes) (file_size chunk : Z) (content : bytes) : M world (option Z) :=
  loop (λ v _, Z.to_nat (file_size - v.1)) (transfer_body filename file_size chunk) (0, mkStream content true).

Definition send_error (code : string) : M world () :=
  on_socket (send_string (build_error_response (lit code)));; mret ().

Definition handle_get (filename : bytes) : M world () :=
  log_session INFO [Str "Requested filename: '"; AStr filename; Str "'"];;
  if bool_decide (filename = []) then
    log_session WARN [Str "Invalid request: empty filename"];;
    send_error "EMPTY_FILENAME"
  else
    opt_size ← in_io (get_file_size filename);
    match opt_size with
    | None =>
        log_session WARN [Str "Missing file or forbidden path: '"; AStr filename; Str "'"];;
        send_error "FILE_NOT_FOUND"
    | Some file_size =>
        file ← in_io (open_binary_file filename);
        match file with
        | None =>
            log_session ERROR [Str "File-open failure: could not open '"; AStr filename;
              Str "' for binary reading"];;
            send_error "FILE_OPEN_FAILED"
        | Some content =>
            sent ← on_socket (send_string (build_get_header file_size));
            if negb sent then
              log_session WARN [Str "Client disconnected while sending GET response header"];;
              store_active false
            else
              w ← get;
              let chunk := chunk_size_ (sess w) in
              log_session INFO [Str "Streaming '"; AStr filename; Str "' ("; ANum file_size;
                Str " bytes, chunk: "; ANum chunk; Str " bytes)"];;
              if negb (vector_ok chunk) then throw
              else
                result ← transfer filename file_size chunk content;
                match result with
                | None => mret ()
                | Some total_sent =>
                    if total_sent =? file_size then
                      log_session INFO [Str "Successful transfer of '"; AStr filename; Str "' (";
                        ANum total_sent; Str " bytes in "; AStat; Str "s, "; AStat; Str " MB/s)"]
                    else
                      active ← load_active;
                      if active : bool then
                        log_session ERROR [Str "Transfer failure for '"; AStr filename;
                          Str "': streaming ended prematurely (sent "; ANum total_sent; Str " of ";
                          ANum file_size; Str " bytes)"]
                      else mret ()
                end
        end
    end.

(** ** The loop *)
Definition serve (request : Request) : M world () :=
  match type request with
  | LIST => handle_list
  | GET => handle_get (argument request)
  | QUIT =>
      log_session INFO [Str "Client sent QUIT command"];;
      on_socket (send_string (build_ok_response (lit "BYE")));;
      store_active false
  | UNKNOWN =>
      log_session WARN [Str "Invalid request or unknown command: '"; AStr (argument request); Str "'"];;
      send_error "INVALID_REQUEST"
  end.

Definition run_body (_ : ()) : M world (() + ()) :=
  active ← load_active;
  if negb active then mret (inr ())
  else
    r ← on_socket (recv_line DEFAULT_MAX_LINE);
    if negb (fst r) then mret (inr ())
    else serve (parse_request (snd r));; mret (inl ()).

Definition run : M world () :=
  store_active true;;
  w ← get;
  log_session INFO [Str "Client connected from "; AStr (client_ip_ (sess w)); Str ":";
                    ANum (client_port_ (sess w))];;
  loop (λ _ w, rx_size (rx (net w))) run_body ();;
  log_session INFO [Str "Client disconnected ("; AStr (client_ip_ (sess w)); Str ":";
                    ANum (client_port_ (sess w)); Str ")"];;
  store_active false;;
  close_socket.

(** ** What a client is promised

    The response to a request, as a function of the store; [None]: the listing
    throws. *)
Definition get_reply (filename : bytes) : bytes :=
  if bool_decide (filename = []) then build_error_response (lit "EMPTY_FILENAME")
  else match size_view filename with
       | None => build_error_response (lit "FILE_NOT_FOUND")
       | Some file_size =>
           match content_view filename with
           | None => build_error_response (lit "FILE_OPEN_FAILED")
           | Some content => build_get_header file_size ++ ztake file_size content
           end
       end.

Definition reply (request : Request) : option bytes :=
  match type request with
  | LIST => build_list_response <$> list_view
  | GET => Some (get_reply (argument request))
  | QUIT => Some (build_ok_response (lit "BYE"))
  | UNKNOWN => Some (build_error_response (lit "INVALID_REQUEST"))
  end.

(** How a conversation ends: the session closes the connection, it waits for a
    line that has not arrived, or an exception leaves its thread. *)
Inductive ending := Closed | Waiting | Crashed.

(** The conversation over a byte stream [st] that ends as [en]: the bytes sent
    and the ending. *)
Inductive conversation : bytes → list recv_ev → bytes → ending → Prop :=
| conv_wait st en :
    line_spec DEFAULT_MAX_LINE st en = None → conversation st en [] Waiting
| conv_close st en line st' en' :
    line_spec DEFAULT_MAX_LINE st en = Some (false, line, st', en') → conversation st en [] Closed
| conv_crash st en line st' en' :
    line_spec DEFAULT_MAX_LINE st en = Some (true, line, st', en') →
    reply (parse_request line) = None → conversation st en [] Crashed
| conv_quit st en line st' en' r :
    line_spec DEFAULT_MAX_LINE st en = Some (true, line, st', en') →
    type (parse_request line) = QUIT → reply (parse_request line) = Some r →
    conversation st en r Closed
| conv_serve st en line st' en' r out e :
    line_spec DEFAULT_MAX_LINE st en = Some (true, line, st', en') →
    type (parse_request line) ≠ QUIT → reply (parse_request line) = Some r →
    conversation st' en' out e → conversation st en (r ++ out) e.

(** Whatever goes wrong, what is sent is a sequence of pieces, each the
    beginning of the response to the next line of the stream. *)
Inductive partial_conversation : bytes → list recv_ev → bytes → Prop :=
| part_stop st en : partial_conversation st en []
| part_serve st en line st' en' r p out :
    line_spec DEFAULT_MAX_LINE st en = Some (true, line, st', en') →
    reply (parse_request line) = Some r → p `prefix_of` r →
    partial_conversation st' en' out → partial_conversation st en (p ++ out).
End session.

#[global] Arguments build_get_header : simpl never.
#[global] Arguments build_list_response : simpl never.
#[global] Arguments build_error_response : simpl never.
#[global] Arguments build_ok_response : simpl never.

(** ** What a call of the session does to its world *)

(** [calm]: no other thread stops the session, and [send] only accepts some
    bytes or is interrupted. *)
Definition calm (w : world) : Prop :=
  is_active_ (sess w) = true ∧ is_valid (socket_ (sess w)) = true ∧
  Forall send_ok (sq (net w)) ∧ Forall (λ b, b = false) (stops (net w)).

(** The session's descriptor is still open and nothing was done to it, or another
    thread has stopped the session. *)
Definition socket_stopped (w w' : world) : Prop :=
  let fd := fd_ (socket_ (sess w)) in
  0 ≤ fd ∧ socket_ (sess w') = mkSocket (-1) ∧ calls (net w') = calls (net w) ++ [CShutdown fd; CClose fd].

Definition socket_step (w w' : world) : Prop :=
  stops (net w') `suffix_of` stops (net w) ∧
  ((socket_ (sess w') = socket_ (sess w) ∧ calls (net w') = calls (net w)) ∨
   (true ∈ stops (net w) ∧ socket_stopped w w')).

(** [out] was sent, nothing was received. *)
Definition advance (w w' : world) (out : bytes) : Prop :=
  chunk_size_ (sess w') = chunk_size_ (sess w) ∧ socket_step w w' ∧
  rx (net w') = rx (net w) ∧ tx (net w') = tx (net w) ++ out.

(** Left to itself, a calm session stays as it is. *)
Definition keeps (w w' : world) : Prop := calm w → calm w' ∧ sess w' = sess w.

Lemma socket_step_same w w' :
  stops (net w') = stops (net w) → socket_ (sess w') = socket_ (sess w) → calls (net w') = calls (net w) →
  socket_step w w'.
Proof. intros E ? ?. split; [by rewrite E|by left]. Qed.

Lemma socket_step_trans w1 w2 w3 : socket_step w1 w2 → socket_step w2 w3 → socket_step w1 w3.
Proof.
  intros [Hs1 H12] [Hs2 H23]. split; [by etrans|].
  assert (true ∈ stops (net w2) → true ∈ stops (net w1)) as Hin.
  { intros H. destruct Hs1 as [k ->]. apply elem_of_app. by right. }
  unfold socket_stopped in *. destruct H12 as [[H1 H2]|(Ht & H0 & H1 & H2)], H23 as [[H3 H4]|(Ht' & H3' & H3 & H4)].
  - left. split; congruence.
  - right. rewrite H1 in *. split_and!; [auto|done|done|]. by rewrite H4, H2.
  - right. split_and!; [done|done|congruence|congruence].
  - rewrite H1 in H3'. simpl in H3'. lia.
Qed.

Lemma advance_refl w : advance w w [].
Proof. split_and!; [done|by apply socket_step_same|done|by rewrite app_nil_r]. Qed.

Lemma advance_trans w1 w2 w3 p q : advance w1 w2 p → advance w2 w3 q → advance w1 w3 (p ++ q).
Proof.
  intros (?&H1&?&Ht) (?&H2&?&Ht'). split_and!; [congruence| |congruence|].
  - by eapply socket_step_trans.
  - by rewrite Ht', Ht, app_assoc.
Qed.

Lemma advance_trans0 w1 w2 w3 p : advance w1 w2 p → advance w2 w3 [] → advance w1 w3 p.
Proof. intros H1 H2. rewrite <-(app_nil_r p). by eapply advance_trans. Qed.

#[export] Instance keeps_preorder : PreOrder keeps.
Proof.
  split; [by intros w|].
  intros w1 w2 w3 H1 H2 Hc. destruct (H1 Hc) as [Hc2 E2]. destruct (H2 Hc2) as [Hc3 E3].
  split; [done|congruence].
Qed.

(** A call that sends and receives nothing, keeps a calm session as it is and
    does not revive a stopped one. *)
Definition quiet (w w' : world) : Prop :=
  advance w w' [] ∧ keeps w w' ∧ (is_active_ (sess w) = false → is_active_ (sess w') = false).

#[export] Instance quiet_preorder : PreOrder quiet.
Proof.
  split; [intros w; split_and!; [apply advance_refl|done|done]|].
  intros w1 w2 w3 (?&?&?) (?&?&?). split_and!; [by eapply advance_trans0|by etrans|auto].
Qed.

Lemma wp_in_io {A} (m : M io A) (Q : A → world → Prop) (X B : world → Prop) w :
  wp m (λ a s, Q a (mkWorld (sess w) s)) (λ s, X (mkWorld (sess w) s)) (λ s, B (mkWorld (sess w) s)) (net w) →
  wp (in_io m) Q X B w.
Proof. unfold wp, in_io. by destruct (m (net w)). Qed.

Lemma quiet_log_frame w s : log_frame (net w) s → quiet w (mkWorld (sess w) s).
Proof.
  intros (?&Hsq&?&?&?&?&?&Hst). unfold quiet. split; [|split; [|done]].
  - split_and!; [done|by apply socket_step_same|done|by rewrite app_nil_r].
  - intros (Ha&Hv&Hs&Hp). split; [|done]. unfold calm. simpl. by rewrite Hsq, Hst.
Qed.

Lemma wp_log_session l args (Q : () → world → Prop) (X B : world → Prop) w :
  (∀ w', quiet w w' → Q () w') → wp (log_session l args) Q X B w.
Proof. intros HQ. unfold log_session. apply wp_bind, wp_get, wp_in_io, wp_LOG, HQ. by apply quiet_log_frame. Qed.

(** [stop] shuts an open descriptor down and closes it, if the session was
    active. *)
Lemma stop_wp w (Q : () → world → Prop) (X B : world → Prop) :
  (is_active_ (sess w) = false → Q () w) →
  (∀ w', chunk_size_ (sess w') = chunk_size_ (sess w) → is_active_ (sess w') = false → rx (net w') = rx (net w) →
     tx (net w') = tx (net w) → stops (net w') = stops (net w) →
     (socket_ (sess w') = socket_ (sess w) ∧ calls (net w') = calls (net w)) ∨ socket_stopped w w' → Q () w') →
  wp stop Q X B w.
Proof.
  intros HQ0 HQ. unfold stop. apply wp_bind, wp_get.
  destruct (is_active_ (sess w)) eqn:Ha; [|by apply wp_ret, HQ0].
  apply wp_bind, wp_modify, wp_bind. unfold log_session, close_socket.
  apply wp_bind, wp_get, wp_in_io, wp_LOG, wp_bind, wp_in_io. unfold shutdown, close. simpl.
  destruct (Z.leb_spec 0 (fd_ (socket_ (sess w)))) as [Hfd|Hfd].
  - apply wp_modify. apply wp_bind, wp_get, wp_bind, wp_in_io. simpl.
    destruct (Z.leb_spec 0 (fd_ (socket_ (sess w)))); [|lia].
    apply wp_bind, wp_modify, wp_ret, wp_modify, HQ; try done. right. split_and!; [done|done|].
    simpl. by rewrite <-app_assoc.
  - apply wp_ret. apply wp_bind, wp_get, wp_bind, wp_in_io. simpl.
    destruct (Z.leb_spec 0 (fd_ (socket_ (sess w)))); [lia|]. apply wp_ret, wp_modify, HQ; try done. by left.
Qed.

Lemma wp_interfere (Q : () → world → Prop) (X B : world → Prop) w :
  (∀ w', quiet w w' → Q () w') → wp interfere Q X B w.
Proof.
  intros HQ. unfold wp, interfere. destruct (stops (net w)) as [|b q] eqn:E; [by apply HQ|].
  set (w0 := mkWorld (sess w) (set_stops q (net w))).
  assert (q `suffix_of` stops (net w)) as Hsuf by (rewrite E; by apply suffix_cons_r).
  assert (advance w w0 []) as Hadv by (split_and!; [done|by split; [|left]|done|by simpl; rewrite app_nil_r]).
  destruct b.
  - apply (stop_wp w0).
    + intros Hi. apply HQ. split; [done|]. split; [|done]. intros (Ha & _). simpl in Hi. congruence.
    + intros w' Hch Hi Hrx Htx Hst Hsock. apply HQ. split; [|split; [|done]].
      * split_and!; [done| |done|by rewrite Htx, app_nil_r]. split; [by rewrite Hst|].
        destruct Hsock as [?|?]; [by left|right]. split; [rewrite E; left|done].
      * intros (_ & _ & _ & Hall). rewrite E in Hall. by inversion Hall.
  - apply HQ. split; [done|]. split; [|done]. intros (? & ? & ? & Hst). rewrite E in Hst. split; [|done].
    inversion Hst; subst. by split_and!.
Qed.

Lemma wp_load_active (Q : bool → world → Prop) (X B : world → Prop) w :
  (∀ w', quiet w w' → Q (is_active_ (sess w')) w') → wp load_active Q X B w.
Proof. intros HQ. unfold load_active. apply wp_bind, wp_interfere. intros w' Hw'. by apply wp_bind, wp_get, wp_ret, HQ. Qed.

Lemma wp_store_active b (Q : () → world → Prop) (X B : world → Prop) w :
  (∀ w' w0, quiet w w0 → w' = set_active b w0 → Q () w') → wp (store_active b) Q X B w.
Proof. intros HQ. unfold store_active. apply wp_bind, wp_interfere. intros w' Hw'. by eapply wp_modify, HQ. Qed.

(** ** Sending *)
Lemma advance_tx w s p : tx_frame (net w) s → tx s = tx (net w) ++ p → advance w (mkWorld (sess w) s) p.
Proof. intros (?&?&?&?&?&?) Ht. split_and!; [done| |done|done]. by apply socket_step_same. Qed.

Lemma quiet_advance w1 w2 w3 p : quiet w1 w2 → advance w2 w3 p → advance w1 w3 p.
Proof. intros [H _] H'. exact (advance_trans _ _ _ _ _ H H'). Qed.

Lemma advance_quiet w1 w2 w3 p : advance w1 w2 p → quiet w2 w3 → advance w1 w3 p.
Proof. intros H [H' _]. by eapply advance_trans0. Qed.

Lemma quiet_calm w w' : quiet w w' → calm w → calm w' ∧ sess w' = sess w.
Proof. by intros (_ & H & _). Qed.

Lemma wp_send_session data (Q : bool → world → Prop) (X B : world → Prop) w :
  (∀ w', advance w w' data → keeps w w' → Q true w') →
  (∀ w' p, advance w w' p → p `prefix_of` data → ¬ calm w → Q false w') →
  (∀ w' p, advance w w' p → p `prefix_of` data → ¬ calm w → B w') →
  wp (on_socket (send_string data)) Q X B w.
Proof.
  intros Hok Hfail Hb. unfold on_socket. apply wp_bind, wp_interfere. intros w1 Hq.
  apply wp_bind, wp_get, wp_in_io. unfold send_string. apply wp_bind.
  destruct (is_valid (socket_ (sess w1))) eqn:Hv.
  2:{ unfold send_all. rewrite Hv. apply wp_ret, wp_ret. apply (Hfail _ []).
      - exact (proj1 Hq).
      - apply prefix_nil.
      - intros Hc. destruct (quiet_calm _ _ Hq Hc) as [(_ & Hv' & _) _]. congruence. }
  assert (¬ Forall send_ok (sq (net w1)) → ¬ calm w) as Hcalm.
  { intros H Hc. by destruct (quiet_calm _ _ Hq Hc) as [(_ & _ & ? & _) _]. }
  apply wp_send_all; [done|..].
  - intros s' Hfr Ht Hsuf. apply wp_ret, Hok; [by eapply quiet_advance, advance_tx|].
    intros Hc. destruct (quiet_calm _ _ Hq Hc) as [(Ha & Hv' & Hs & Hst) E]. split; [|done].
    split_and!; [done|done| |].
    + destruct Hsuf as [pre Hpre]. rewrite Hpre in Hs. by apply Forall_app in Hs as [_ ?].
    + destruct Hfr as (_&_&_&_&_&Hst'). simpl. by rewrite Hst'.
  - intros s' k Hfr Hk Ht _ Hbad. apply wp_ret. apply (Hfail _ (ztake k data)); [|apply ztake_prefix|auto].
    by eapply quiet_advance, advance_tx.
  - intros s' k Hfr Hk Ht _ Hbad. apply (Hb _ (ztake k data)); [|apply ztake_prefix|auto].
    by eapply quiet_advance, advance_tx.
Qed.

(** ** The handlers

    [promise w R w']: what was sent is a beginning of the response [R], all of
    it when the session is calm, which then goes on unchanged. *)
Definition promise (R : bytes) (w w' : world) : Prop :=
  ∃ p, advance w w' p ∧ keeps w w' ∧ p `prefix_of` R ∧ (calm w → p = R).

(** The same for a handler that stopped half-way: only without calm. *)
Definition broken (R : bytes) (w w' : world) : Prop :=
  ∃ p, advance w w' p ∧ p `prefix_of` R ∧ ¬ calm w.

Lemma broken_promise R w w' : broken R w w' → promise R w w'.
Proof. intros (p & ? & ? & ?). exists p. unfold keeps. naive_solver. Qed.

Lemma promise_done R w w' : advance w w' R → keeps w w' → promise R w w'.
Proof. intros. by exists R. Qed.

Lemma promise_quiet R w w1 w2 : promise R w w1 → quiet w1 w2 → promise R w w2.
Proof.
  intros (p & Ha & Hk & Hp & Hc) Hq. exists p. split_and!; [by eapply advance_quiet| |done|done].
  etrans; [exact Hk|apply Hq].
Qed.

Lemma quiet_promise R w w1 w2 : quiet w w1 → promise R w1 w2 → promise R w w2.
Proof.
  intros Hq (p & Ha & Hk & Hp & Hc). exists p. split_and!; [by eapply quiet_advance| |done|].
  - etrans; [apply Hq|exact Hk].
  - intros Hw. by apply Hc, (quiet_calm _ _ Hq).
Qed.

Lemma quiet_broken R w w1 w2 : quiet w w1 → broken R w1 w2 → broken R w w2.
Proof.
  intros Hq (p & Ha & Hp & Hc). exists p. split_and!; [by eapply quiet_advance|done|].
  intros Hw. by apply Hc, (quiet_calm _ _ Hq).
Qed.

(** The response continues after a first part that has been sent. *)
Lemma promise_app R1 R2 w w1 w2 :
  advance w w1 R1 → keeps w w1 → promise R2 w1 w2 → promise (R1 ++ R2) w w2.
Proof.
  intros Ha1 Hk1 (p & Ha & Hk & Hp & Hc). exists (R1 ++ p). split_and!.
  - by eapply advance_trans.
  - by etrans.
  - by apply prefix_app.
  - intros Hw. by rewrite Hc by apply (Hk1 Hw).
Qed.

Lemma broken_app R1 R2 w w1 w2 :
  advance w w1 R1 → keeps w w1 → broken R2 w1 w2 → broken (R1 ++ R2) w w2.
Proof.
  intros Ha1 Hk1 (p & Ha & Hp & Hc). exists (R1 ++ p). split_and!.
  - by eapply advance_trans.
  - by apply prefix_app.
  - intros Hw. by apply Hc, (Hk1 Hw).
Qed.

(** A failed send ends the session: the stores that follow change nothing else. *)
Lemma broken_store R w w1 w0 b : broken R w w1 → quiet w1 w0 → broken R w (set_active b w0).
Proof.
  intros (p & Ha & Hp & Hc) Hq. exists p. split_and!; [|done|done].
  eapply advance_trans0; [by eapply advance_quiet|].
  split_and!; [done|by apply socket_step_same|done|by rewrite app_nil_r].
Qed.

Lemma broken_prefix R w w' p : advance w w' p → p `prefix_of` R → ¬ calm w → broken R w w'.
Proof. intros. by exists p. Qed.

Lemma promise_send_error c (X : world → Prop) w :
  wp (send_error c) (λ _, promise (build_error_response (lit c)) w) X
    (broken (build_error_response (lit c)) w) w.
Proof.
  unfold send_error. apply wp_bind, wp_send_session.
  - intros w' ??. by apply wp_ret, promise_done.
  - intros w' p ???. apply wp_ret, broken_promise. by exists p.
  - intros w' p ???. by exists p.
Qed.

(** ** The transfer loop *)
Lemma ztake_len {A} n (l : list A) : ztake (zlen (ztake n l)) l = ztake n l.
Proof. unfold ztake, zlen. rewrite Nat2Z.id, length_take. rewrite <-take_take. by rewrite (take_ge l). Qed.

Lemma ztake_mono {A} n m (l : list A) : n ≤ m → ztake n l `prefix_of` ztake m l.
Proof.
  intros H. unfold ztake. replace (Z.to_nat n) with (Z.to_nat n `min` Z.to_nat m)%nat by lia.
  rewrite <-take_take. exists (drop (Z.to_nat n) (take (Z.to_nat m) l)). by rewrite take_drop.
Qed.

(** Reading [n] more of the content after its first [total] characters. *)
Lemma chunk_extend total n (content : bytes) :
  0 ≤ total ≤ zlen content → 0 ≤ n →
  let buffer := ztake n (zdrop total content) in
  zlen buffer = n `min` (zlen content - total) ∧
  ztake (total + zlen buffer) content = ztake total content ++ buffer.
Proof.
  intros Ht Hn buffer. pose proof (zlen_nonneg buffer). split.
  - unfold buffer. rewrite zlen_ztake, zlen_zdrop by lia. lia.
  - rewrite ztake_add by lia. f_equal. apply ztake_len.
Qed.

Lemma transfer_wp f size chunk content (X : world → Prop) w :
  0 < chunk → 0 ≤ size →
  wp (transfer f size chunk content)
    (λ r, match r with Some _ => promise (ztake size content) w | None => broken (ztake size content) w end)
    X (broken (ztake size content) w) w.
Proof.
  intros Hchunk Hsize. unfold transfer.
  apply (wp_loop (λ v w', advance w w' (ztake v.1 content) ∧ keeps w w' ∧ 0 ≤ v.1 ≤ size ∧ v.1 ≤ zlen content ∧
           if good v.2 then rest v.2 = zdrop v.1 content else v.1 = zlen content)).
  2:{ split_and!; [apply advance_refl|done|done|done|done|done]. }
  intros [total file] w' (Hadv & Hk & Ht & Htc & Hf). simpl in *. unfold transfer_body.
  apply wp_bind, wp_load_active. intros w1 Hq.
  assert (advance w w1 (ztake total content)) as Hadv1 by (by eapply advance_quiet).
  assert (keeps w w1) as Hk1 by (etrans; [exact Hk|apply Hq]).
  assert ((calm w → ztake total content = ztake size content) → promise (ztake size content) w w1) as Hend.
  { intros H. exists (ztake total content). split_and!; [done|done| |done]. apply ztake_mono. lia. }
  assert (total = zlen content → ztake total content = ztake size content) as Hall.
  { intros ->. rewrite !ztake_all by lia. done. }
  destruct (is_active_ (sess w1)) eqn:Ha; simpl.
  2:{ apply wp_ret, Hend. intros Hc. by destruct (Hk1 Hc) as [[Ha' _] _]; congruence. }
  destruct (Z.ltb_spec total size) as [Hlt|Hge]; simpl.
  2:{ apply wp_ret, Hend. by assert (total = size) as -> by lia. }
  destruct (good file) eqn:Hg; simpl; [|by apply wp_ret, Hend; auto].
  unfold read. rewrite Hg, Hf. set (n := chunk `min` (size - total)).
  set (buffer := ztake n (zdrop total content)).
  destruct (chunk_extend total n content) as [Hlen Hcat]; [lia|lia|]. fold buffer in Hlen, Hcat.
  destruct (Z.leb_spec (zlen buffer) 0) as [H0|Hpos].
  { apply wp_ret, Hend. intros _. apply Hall. lia. }
  assert (ztake total content ++ buffer `prefix_of` ztake size content) as Hpre.
  { rewrite <-Hcat. apply ztake_mono. lia. }
  assert (∀ w2 p, advance w1 w2 p → p `prefix_of` buffer → ¬ calm w1 → broken (ztake size content) w w2) as Hbroken.
  { intros w2 p Ha2 Hp Hc. exists (ztake total content ++ p). split_and!; [by eapply advance_trans| |].
    - etrans; [by apply prefix_app|exact Hpre].
    - intros Hw. apply Hc, (Hk1 Hw). }
  apply wp_bind, (wp_send_session buffer).
  - intros w2 Ha2 Hk2. apply wp_ret. simpl. rewrite Hcat. split_and!; [|by etrans|lia|lia|lia| |lia].
    + by eapply advance_trans.
    + destruct (Z.leb_spec n (zlen (zdrop total content))) as [Hn|Hn]; rewrite zlen_zdrop in Hn by lia; simpl; [|lia].
      rewrite zdrop_zdrop by lia. f_equal. lia.
  - intros w2 p Ha2 Hp Hc. simpl. apply wp_bind, wp_log_session. intros w3 H3.
    apply wp_bind, wp_store_active. intros w4 w0 H0 ->. apply wp_ret.
    eapply broken_store; [by eapply Hbroken|by etrans].
  - intros w2 p Ha2 Hp Hc. by eapply Hbroken.
Qed.

(** ** LIST, GET and the other requests *)
Section handlers.
Context {ms : MediaStore} {laws : MediaStoreLaws ms} (can_allocate : Z → bool).

Lemma handle_list_wp w :
  wp handle_list
    (λ _ w', ∃ fs, list_view = Some fs ∧ promise (build_list_response fs) w w')
    (λ w', list_view = None ∧ quiet w w')
    (λ w', ∃ fs, list_view = Some fs ∧ broken (build_list_response fs) w w') w.
Proof.
  unfold handle_list. apply wp_bind, wp_in_io. pose proof (list_law (net w)) as Hlist.
  destruct list_view as [fs|].
  2:{ eapply wp_mono; [exact Hlist|done| |done]. intros s' Hs. split; [done|]. by apply quiet_log_frame. }
  eapply wp_mono; [exact Hlist| |done|done]. intros fs' s' [-> Hs%quiet_log_frame].
  apply wp_bind, wp_send_session; simpl.
  - intros w1 Ha Hk. apply wp_log_session. intros w2 H2. exists fs. split; [done|].
    eapply quiet_promise; [exact Hs|]. eapply promise_quiet; [|exact H2]. by apply promise_done.
  - intros w1 p Ha Hp Hc. apply wp_bind, wp_log_session. intros w2 H2.
    apply wp_store_active. intros w4 w0 H0 ->. exists fs. split; [done|].
    apply broken_promise. eapply quiet_broken; [exact Hs|].
    eapply broken_store; [by eapply broken_prefix|by etrans].
  - intros w1 p Ha Hp Hc. exists fs. split; [done|].
    eapply quiet_broken; [exact Hs|]. by eapply broken_prefix.
Qed.

Lemma logged_error l args c (X : world → Prop) w w0 :
  quiet w w0 →
  wp (log_session l args;; send_error c) (λ _, promise (build_error_response (lit c)) w) X
    (broken (build_error_response (lit c)) w) w0.
Proof.
  intros H0. apply wp_bind, wp_log_session. intros w1 H1.
  assert (quiet w w1) as Hq by by etrans.
  eapply wp_mono; [apply (promise_send_error c X)|..]; [|done|].
  - intros [] w2 H2. by eapply quiet_promise.
  - intros w2 H2. by eapply quiet_broken.
Qed.

(** The end of a transfer only logs. *)
Lemma get_epilogue f size R w r (X B : world → Prop) w1 :
  match r with Some _ => promise R w w1 | None => broken R w w1 end →
  wp (match r with
      | None => mret ()
      | Some total_sent =>
          if total_sent =? size then
            log_session INFO [Str "Successful transfer of '"; AStr f; Str "' (";
              ANum total_sent; Str " bytes in "; AStat; Str "s, "; AStat; Str " MB/s)"]
          else
            active ← load_active;
            if active : bool then
              log_session ERROR [Str "Transfer failure for '"; AStr f;
                Str "': streaming ended prematurely (sent "; ANum total_sent; Str " of ";
                ANum size; Str " bytes)"]
            else mret ()
      end) (λ _, promise R w) X B w1.
Proof.
  destruct r as [total|]; [|intros H; by apply wp_ret, broken_promise]. intros H.
  destruct (total =? size).
  { apply wp_log_session. intros w2 H2. by eapply promise_quiet. }
  apply wp_bind, wp_load_active. intros w2 H2.
  destruct (is_active_ (sess w2)); [|apply wp_ret; by eapply promise_quiet].
  apply wp_log_session. intros w3 H3. eapply promise_quiet; [exact H|by etrans].
Qed.

Lemma handle_get_wp f w :
  0 < chunk_size_ (sess w) →
  wp (handle_get can_allocate f) (λ _, promise (get_reply f) w)
    (λ w', vector_ok can_allocate (chunk_size_ (sess w)) = false ∧
           ∃ p, advance w w' p ∧ p `prefix_of` get_reply f)
    (broken (get_reply f) w) w.
Proof.
  intros Hchunk. unfold handle_get, get_reply. apply wp_bind, wp_log_session. intros w1 H1.
  destruct (bool_decide (f = [])); [by apply logged_error|].
  apply wp_bind, wp_in_io. eapply wp_mono; [apply size_law| |done|done].
  intros r s2 [-> Hf2]. apply quiet_log_frame in Hf2 as H2. assert (quiet w (mkWorld (sess w1) s2)) as Hq2 by by etrans.
  destruct (size_view f) as [size|] eqn:Es; [|by apply logged_error].
  apply wp_bind, wp_in_io. eapply wp_mono; [apply open_law| |done|done].
  intros r s3 [-> Hf3]. apply quiet_log_frame in Hf3 as H3.
  assert (quiet w (mkWorld (sess w1) s3)) as Hq3 by (by etrans).
  destruct (content_view f) as [content|]; [|by apply logged_error].
  assert (build_get_header size `prefix_of` build_get_header size ++ ztake size content) as Hpre
    by by eexists.
  apply wp_bind, wp_send_session; simpl.
  - intros w4 H4 K4. apply wp_bind, wp_get, wp_bind, wp_log_session. intros w5 H5.
    assert (advance w w5 (build_get_header size)) as Ha5.
    { eapply quiet_advance; [exact Hq3|]. by eapply advance_quiet. }
    assert (keeps w w5) as Hk5 by (etrans; [apply Hq3|]; etrans; [exact K4|apply H5]).
    assert (chunk_size_ (sess w4) = chunk_size_ (sess w)) as Hch.
    { destruct (quiet_advance _ _ _ _ Hq3 H4) as [? _]. done. }
    rewrite Hch. destruct (vector_ok can_allocate (chunk_size_ (sess w))); cbn [negb].
    2:{ apply wp_throw. split; [done|]. by eexists. }
    apply wp_bind. eapply wp_mono; [apply (transfer_wp f size _ content (λ _, False)); [done|]|..].
    + by apply (size_range f).
    + intros r w6 H6. apply get_epilogue. destruct r;
        [exact (promise_app _ _ _ _ _ Ha5 Hk5 H6)|exact (broken_app _ _ _ _ _ Ha5 Hk5 H6)].
    + done.
    + intros w6 H6. exact (broken_app _ _ _ _ _ Ha5 Hk5 H6).
  - intros w4 p H4 Hp Hc. apply wp_bind, wp_log_session. intros w5 H5.
    apply wp_store_active. intros w7 w6 H6 ->. apply broken_promise.
    eapply quiet_broken; [exact Hq3|]. eapply broken_store; [|exact (transitivity H5 H6)].
    eapply broken_prefix; [exact H4|by etrans|exact Hc].
  - intros w4 p H4 Hp Hc. eapply quiet_broken; [exact Hq3|].
    eapply broken_prefix; [exact H4|by etrans|exact Hc].
Qed.
End handlers.

(** ** Receiving, and the loop *)

(** The call may have received; it sent nothing. *)
Definition moved (w w' : world) : Prop :=
  chunk_size_ (sess w') = chunk_size_ (sess w) ∧ socket_step w w' ∧ tx (net w') = tx (net w) ∧ keeps w w'.

Abbreviation st w := (stream (rx (net w))).
Abbreviation en w := (stream_end (rx (net w))).

Lemma wp_recv_session (Q : bool * bytes → world → Prop) (X B : world → Prop) w :
  (∀ w' line, moved w w' → line_spec DEFAULT_MAX_LINE (st w) (en w) = Some (true, line, st w', en w') →
     (rx_size (rx (net w')) < rx_size (rx (net w)))%nat → Q (true, line) w') →
  (∀ w' line, moved w w' →
     (calm w → ∃ st' en', line_spec DEFAULT_MAX_LINE (st w) (en w) = Some (false, line, st', en')) →
     Q (false, line) w') →
  (∀ w', moved w w' → (calm w → line_spec DEFAULT_MAX_LINE (st w) (en w) = None) → B w') →
  wp (on_socket (recv_line DEFAULT_MAX_LINE)) Q X B w.
Proof.
  intros Hok Hfail Hb. unfold on_socket. apply wp_bind, wp_interfere. intros w1 Hq.
  apply wp_bind, wp_get, wp_in_io. destruct Hq as ((Hch & Hss & Hrx & Htx) & Hk & _).
  rewrite app_nil_r in Htx.
  destruct (is_valid (socket_ (sess w1))) eqn:Hv.
  2:{ unfold recv_line. rewrite Hv. apply wp_ret. apply Hfail; [by destruct w1|].
      intros Hc. by destruct (Hk Hc) as [(_&?&_) _]; congruence. }
  assert (∀ s', rx_frame (net w1) s' → moved w (mkWorld (sess w1) s')) as Hmv.
  { intros s' (Hsq & Ht & _ & _ & _ & Hcl & Hst). split_and!; [done| |simpl; congruence|].
    - eapply socket_step_trans; [exact Hss|]. by apply socket_step_same.
    - intros Hc. destruct (Hk Hc) as [(Ha & _ & Hs & Hsp) E]. split; [|done].
      unfold calm. simpl. rewrite Hsq, Hst. done. }
  eapply wp_mono; [apply wp_and; [apply recv_line_wp_spec; [done|]|apply (recv_line_size DEFAULT_MAX_LINE)]|..].
  - done.
  - intros [ok line] s' [[Hspec Hfr] Hsz]. rewrite Hrx in *. simpl in *.
    destruct ok; [by apply Hok; auto|]. apply Hfail; [by apply Hmv|]. intros _. by eexists _, _.
  - naive_solver.
  - intros s' [[Hspec Hfr] _]. rewrite Hrx in *. apply Hb; [by apply Hmv|done].
Qed.

Section run.
Context {ms : MediaStore} {laws : MediaStoreLaws ms} (can_allocate : Z → bool).

Abbreviation chunk_ok w := (vector_ok can_allocate (chunk_size_ (sess w))).

(** One request. *)
Lemma serve_wp req w :
  0 < chunk_size_ (sess w) →
  wp (serve can_allocate req)
    (λ _ w', ∃ R p, reply req = Some R ∧ advance w w' p ∧ p `prefix_of` R ∧
       (calm w → p = R ∧ if decide (type req = QUIT) then is_active_ (sess w') = false
                         else calm w' ∧ sess w' = sess w))
    (λ w', (reply req = None ∧ advance w w' []) ∨
           (chunk_ok w = false ∧ ∃ R p, reply req = Some R ∧ advance w w' p ∧ p `prefix_of` R))
    (λ w', ∃ R, reply req = Some R ∧ broken R w w') w.
Proof.
  intros Hchunk. unfold serve, reply. destruct (type req); simpl.
  - eapply wp_mono; [apply handle_list_wp|..].
    + intros _ w' (fs & -> & p & Ha & Hk & Hp & Hc). eexists _, p. split_and!; [done..|].
      intros Hw. split; [by apply Hc|by apply Hk].
    + intros w' [-> Hq]. left. split; [done|apply Hq].
    + intros w' (fs & -> & Hb). by eexists.
  - eapply wp_mono; [by apply handle_get_wp|..].
    + intros _ w' (p & Ha & Hk & Hp & Hc). eexists _, p. split_and!; [done..|].
      intros Hw. split; [by apply Hc|by apply Hk].
    + intros w' (Hc & p & Ha & Hp). right. split; [done|]. by eexists _, p.
    + intros w' Hb. by eexists.
  - apply wp_bind, wp_log_session. intros w1 H1. apply wp_bind, wp_send_session.
    + intros w2 Ha Hk. apply wp_store_active. intros w4 w3 H3 ->. eexists _, _. split_and!; [done| |reflexivity|done].
      exact (quiet_advance _ _ _ _ H1 (advance_quiet _ _ _ _ Ha H3)).
    + intros w2 p Ha Hp Hc. apply wp_store_active. intros w4 w3 H3 ->. eexists _, p. split_and!; [done| |done|].
      * exact (quiet_advance _ _ _ _ H1 (advance_quiet _ _ _ _ Ha H3)).
      * intros Hw. destruct Hc. by apply (quiet_calm _ _ H1).
    + intros w2 p Ha Hp Hc. eexists. split; [done|]. eapply quiet_broken; [exact H1|]. by eapply broken_prefix.
  - eapply wp_mono; [by apply (logged_error _ _ _ (λ _, False))|..].
    + intros _ w' (p & Ha & Hk & Hp & Hc). eexists _, p. split_and!; [done..|].
      intros Hw. split; [by apply Hc|by apply Hk].
    + done.
    + intros w' Hb. by eexists.
Qed.

(** From [w] to [w'] the bytes [out] were sent; receiving is not constrained. *)
Definition reached (w w' : world) (out : bytes) : Prop :=
  chunk_size_ (sess w') = chunk_size_ (sess w) ∧ socket_step w w' ∧ tx (net w') = tx (net w) ++ out.

Lemma reached_advance w w1 w2 out p : reached w w1 out → advance w1 w2 p → reached w w2 (out ++ p).
Proof.
  intros (?&H1&Ht) (?&H2&?&Ht'). split_and!; [congruence|by eapply socket_step_trans|].
  by rewrite Ht', Ht, app_assoc.
Qed.

Lemma reached_moved w w1 w2 out : reached w w1 out → moved w1 w2 → reached w w2 out.
Proof.
  intros (?&H1&Ht) (?&H2&Ht'&_). split_and!; [congruence|by eapply socket_step_trans|congruence].
Qed.

(** A session that started in [w] is over, or waits, in [w']. *)
Definition finish (e : ending) (w w' : world) : Prop :=
  ∃ out, reached w w' out ∧ partial_conversation (st w) (en w) out ∧
         (calm w → chunk_ok w = true → conversation (st w) (en w) out e).

(** The invariant of the loop: what follows continues the conversation, and
    only [QUIT] makes a calm session inactive. *)
Definition serving (w w' : world) : Prop :=
  ∃ out, reached w w' out ∧
    (∀ o, partial_conversation (st w') (en w') o → partial_conversation (st w) (en w) (out ++ o)) ∧
    (calm w → chunk_ok w = true →
     if is_active_ (sess w')
     then calm w' ∧ ∀ o e, conversation (st w') (en w') o e → conversation (st w) (en w) (out ++ o) e
     else conversation (st w) (en w) out Closed).

Lemma serving_refl w : serving w w.
Proof.
  exists []. split_and!; [|done|by intros Hc; destruct (Hc) as [-> _]].
  split_and!; [done|by apply socket_step_same|by rewrite app_nil_r].
Qed.

Lemma serving_quiet w w1 w2 : serving w w1 → quiet w1 w2 → serving w w2.
Proof.
  intros (out & Hr & Hp & Hc) (Ha & Hk & Hi). exists out. pose proof Ha as (_ & _ & Hrx & _).
  rewrite Hrx. split_and!; [|done|].
  { rewrite <-(app_nil_r out). by eapply reached_advance. }
  intros Hw Hch. specialize (Hc Hw Hch). destruct (is_active_ (sess w1)) eqn:E.
  - destruct Hc as [Hc1 Hc2]. destruct (Hk Hc1) as [Hc3 Es]. rewrite Es, E. done.
  - by rewrite Hi.
Qed.

Lemma serving_finish e w w1 w2 :
  serving w w1 → (∀ out, reached w w1 out → reached w w2 out) → (calm w1 → conversation (st w1) (en w1) [] e) →
  is_active_ (sess w1) = true → finish e w w2.
Proof.
  intros (out & Hr & Hp & Hc) Hm He Ha. exists out. split_and!; [by apply Hm| |].
  - rewrite <-(app_nil_r out). apply Hp. constructor.
  - intros Hw Hch. specialize (Hc Hw Hch). rewrite Ha in Hc. destruct Hc as [Hc1 Hc2].
    rewrite <-(app_nil_r out). by apply Hc2, He.
Qed.

Lemma serving_closed w w1 : serving w w1 → is_active_ (sess w1) = false → finish Closed w w1.
Proof.
  intros (out & Hr & Hp & Hc) Ha. exists out. rewrite Ha in Hc. split_and!; [done| |done].
  rewrite <-(app_nil_r out). apply Hp. constructor.
Qed.

(** One served request keeps the invariant. *)
Lemma serving_step w w1 w2 w3 line R p :
  serving w w1 → is_active_ (sess w1) = true → moved w1 w2 →
  line_spec DEFAULT_MAX_LINE (st w1) (en w1) = Some (true, line, st w2, en w2) →
  reply (parse_request line) = Some R → advance w2 w3 p → p `prefix_of` R →
  (calm w2 → p = R ∧ if decide (type (parse_request line) = QUIT) then is_active_ (sess w3) = false
                     else calm w3 ∧ sess w3 = sess w2) →
  serving w w3.
Proof.
  intros (out & Hr & Hp & Hc) Ha Hm Hline HR Hadv Hpre Hq. exists (out ++ p).
  pose proof Hadv as (_ & _ & Hrx & _). rewrite Hrx. split_and!.
  - eapply reached_advance; [|done]. by eapply reached_moved.
  - intros o Ho. rewrite <-app_assoc. by eapply Hp, part_serve.
  - intros Hw Hch. specialize (Hc Hw Hch). rewrite Ha in Hc. destruct Hc as [Hc1 Hc2].
    destruct Hm as (_ & _ & _ & Hk). destruct (Hk Hc1) as [Hcalm2 Es].
    destruct (Hq Hcalm2) as [-> Hq']. destruct (decide _) as [Hquit|Hquit].
    + rewrite Hq'. by eapply Hc2, conv_quit.
    + destruct Hq' as [Hc3 Es3]. rewrite Es3, Es, Ha. split; [done|].
      intros o e Ho. rewrite <-app_assoc. by eapply Hc2, conv_serve.
Qed.

(** A response cut short ends the loop. *)
Lemma serving_cut e w w1 w2 w3 line R p :
  serving w w1 → is_active_ (sess w1) = true → moved w1 w2 →
  line_spec DEFAULT_MAX_LINE (st w1) (en w1) = Some (true, line, st w2, en w2) →
  reply (parse_request line) = Some R → advance w2 w3 p → p `prefix_of` R →
  (calm w2 → chunk_ok w = true → False) → finish e w w3.
Proof.
  intros (out & Hr & Hp & Hc) Ha Hm Hline HR Hadv Hpre Hno. exists (out ++ p). split_and!.
  - eapply reached_advance; [|done]. by eapply reached_moved.
  - apply Hp. rewrite <-(app_nil_r p). eapply part_serve; [done..|constructor].
  - intros Hw Hch. specialize (Hc Hw Hch). rewrite Ha in Hc. destruct Hc as [Hc1 _].
    destruct (Hno (proj1 (proj2 (proj2 (proj2 Hm)) Hc1)) Hch).
Qed.

Lemma reply_crash req : reply req = None → list_view = None.
Proof. destruct req as [[] arg]; unfold reply; simpl; try done. by destruct list_view. Qed.

Lemma run_loop_wp w :
  0 < chunk_size_ (sess w) →
  wp (loop (λ _ w, rx_size (rx (net w))) (run_body can_allocate) ())
    (λ _, finish Closed w)
    (λ w', finish Crashed w w' ∧ (list_view = None ∨ chunk_ok w = false))
    (finish Waiting w) w.
Proof.
  intros Hchunk. apply (wp_loop (λ _ w', serving w w')); [|by apply serving_refl].
  intros [] w' Hs. unfold run_body. apply wp_bind, wp_load_active. intros w1 Hq.
  assert (rx (net w') = rx (net w1)) as Hrx1 by (by destruct Hq as ((_&_&->&_)&_)).
  apply (serving_quiet _ _ _ Hs) in Hq. clear Hs.
  destruct (is_active_ (sess w1)) eqn:Ha; simpl; [|by apply wp_ret, serving_closed].
  apply wp_bind, wp_recv_session.
  - intros w2 line Hm Hline Hsz. simpl. apply wp_bind.
    assert (chunk_size_ (sess w2) = chunk_size_ (sess w)) as Hch.
    { destruct Hq as (? & (E & _) & _), Hm as (E' & _). congruence. }
    eapply wp_mono; [apply serve_wp; by rewrite Hch|..].
    + intros _ w3 (R & p & HR & Hadv & Hp & Hc). apply wp_ret. split; [by eapply serving_step|].
      destruct Hadv as (_ & _ & -> & _). by rewrite Hrx1.
    + intros w3 [[HR Hadv]|(Hbad & R & p & HR & Hadv & Hp)].
      * split; [|left; by eapply reply_crash].
        eapply serving_finish; [exact Hq| |intros _; by eapply conv_crash|done].
        intros out Hout. rewrite <-(app_nil_r out). eapply reached_advance; [by eapply reached_moved|done].
      * rewrite Hch in Hbad. split; [|by right]. eapply serving_cut; [done..|]. congruence.
    + intros w3 (R & HR & p & Hadv & Hp & Hc). by eapply serving_cut.
  - intros w2 line Hm Hline. simpl. apply wp_ret. eapply serving_finish; [done| | |done].
    { intros out Hout. by eapply reached_moved. }
    intros Hc. destruct (Hline Hc) as (? & ? & ?). by eapply conv_close.
  - intros w2 Hm Hline. eapply serving_finish; [done| | |done].
    { intros out Hout. by eapply reached_moved. }
    intros Hc. by apply conv_wait, Hline.
Qed.

(** ** The whole thread function *)
Lemma finish_quiet e w w1 w2 : finish e w w1 → quiet w1 w2 → finish e w w2.
Proof.
  intros (out & Hr & Hp & Hc) [Ha _]. exists out. split_and!; [|done|done].
  rewrite <-(app_nil_r out). by eapply reached_advance.
Qed.

Lemma finish_from e w w1 w2 :
  advance w w1 [] → (calm w → calm w1) → finish e w1 w2 → finish e w w2.
Proof.
  intros (Hch & Hss & Hrx & Htx) Hk (out & (Hch' & Hss' & Htx') & Hp & Hc).
  rewrite Hrx in *. exists out. rewrite app_nil_r in Htx. split_and!.
  - split_and!; [congruence| |congruence]. by eapply socket_step_trans.
  - done.
  - intros Hw Hok. apply Hc; [by apply Hk|by rewrite Hch].
Qed.

(** The descriptor is closed: by the session, or by another thread's [stop()]. *)
Definition closed_once (w w' : world) : Prop :=
  let fd := fd_ (socket_ (sess w)) in
  is_active_ (sess w') = false ∧ socket_ (sess w') = mkSocket (-1) ∧
  (calls (net w') = calls (net w) ++ [CClose fd] ∨
   (true ∈ stops (net w) ∧ calls (net w') = calls (net w) ++ [CShutdown fd; CClose fd])).

(** The last call: it closes what [stop()] has not closed. *)
Lemma close_socket_wp (X B : world → Prop) w w1 out :
  is_valid (socket_ (sess w)) = true → reached w w1 out → is_active_ (sess w1) = false →
  wp close_socket (λ _ w', closed_once w w' ∧ tx (net w') = tx (net w) ++ out) X B w1.
Proof.
  intros Hv (_ & Hss & Htx) Hi. unfold close_socket. apply wp_bind, wp_get, wp_bind, wp_in_io. unfold close.
  destruct Hss as [_ [[Hs Hcl]|(Hst & Hfd & Hs & Hcl)]]; rewrite Hs; simpl.
  - unfold is_valid in Hv. rewrite Hv. apply wp_bind, wp_modify, wp_ret, wp_modify.
    split; [|done]. split_and!; [done|done|]. left. simpl. by rewrite Hcl.
  - apply wp_ret, wp_modify. split; [|done]. split_and!; [done|done|]. by right.
Qed.

Lemma run_wp w :
  0 < chunk_size_ (sess w) → is_valid (socket_ (sess w)) = true →
  wp (run can_allocate)
    (λ _ w', closed_once w w' ∧ ∃ out, tx (net w') = tx (net w) ++ out ∧
       partial_conversation (st w) (en w) out ∧
       (calm w → chunk_ok w = true → conversation (st w) (en w) out Closed))
    (λ w', finish Crashed w w' ∧ (list_view = None ∨ chunk_ok w = false))
    (finish Waiting w) w.
Proof.
  intros Hchunk Hv. unfold run. apply wp_bind, wp_store_active. intros w1' w0 Hq0 ->.
  apply wp_bind, wp_get, wp_bind, wp_log_session. intros w1 Hq1.
  assert (advance w (set_active true w0) []) as Ha0 by exact (proj1 Hq0).
  assert (advance w w1 []) as Ha1 by (by eapply advance_quiet).
  assert (calm w → calm w1) as Hc1.
  { intros Hw. apply Hq1. destruct (quiet_calm _ _ Hq0 Hw) as [(? & ? & ? & ?) _]. by split_and!. }
  assert (chunk_size_ (sess w1) = chunk_size_ (sess w)) as Hch by apply Ha1.
  apply wp_bind. eapply wp_mono; [apply run_loop_wp; by rewrite Hch|..].
  - intros [] w2 H2. apply wp_bind, wp_log_session. intros w3 H3.
    apply wp_bind, wp_store_active. intros w5 w4 H4 ->.
    eapply finish_quiet in H2; [|exact (transitivity H3 H4)].
    eapply finish_from in H2; [|done..]. destruct H2 as (out & Hr & Hp & Hconv).
    eapply wp_mono; [by apply (close_socket_wp (λ _, False) (λ _, False) w _ out)|..]; [|done|done].
    intros [] w6 [H6 Ht]. split; [done|]. by exists out.
  - intros w2 [H2 Hx]. rewrite Hch in Hx. split; [by eapply finish_from|done].
  - intros w2 H2. by eapply finish_from.
Qed.
End run.

(** A conversation is determined by the byte stream and the store. *)
Lemma conversation_functional (ms : MediaStore) st1 en1 o1 e1 o2 e2 :
  conversation st1 en1 o1 e1 → conversation st1 en1 o2 e2 → o1 = o2 ∧ e1 = e2.
Proof.
  intros H. revert o2 e2. induction H; intros o2 e2 H'; inversion H'; subst; try by simplify_eq.
  simplify_eq. edestruct IHconversation as [-> ->]; [eassumption|]. done.
Qed.

(** A connected session over the demonstration directory. *)
Definition demo_session (chunk : Z) : ClientSession :=
  make_session 1 (mkSocket 7) (lit "10.0.0.2") 40000 chunk.
Definition demo_store : MediaStore := @FileManager_store demo_os demo_fm.
Definition demo_store_laws : MediaStoreLaws demo_store := file_manager_store_laws demo_os demo_fm demo_os_sizes.
Definition demo_world (chunk : Z) (r : list recv_ev) (q : list send_ev) : world :=
  mkWorld (demo_session chunk) (set_rx r (set_sq q io0)).

Lemma demo_calm chunk r q : Forall send_ok q → calm (demo_world chunk r q).
Proof. intros Hq. by split_and!. Qed.

(** ** Properties *)

(** C2: a session left alone by other threads whose sends go through, in
    whatever portions, answers every line of its client's byte stream with the
    promised response, in order, until QUIT, the end of the stream, an error or
    an over-long line; when it is not finished it waits for a line that has not
    arrived; an exception leaves it only when the directory listing throws. It
    always terminates or waits. *)
Theorem session_conversation (ms : MediaStore) (can_allocate : Z → bool) w :
  MediaStoreLaws ms → 0 < chunk_size_ (sess w) → calm w →
  vector_ok can_allocate (chunk_size_ (sess w)) = true →
  let st := stream (rx (net w)) in
  let en := stream_end (rx (net w)) in
  wp (run can_allocate)
    (λ _ w', ∃ out, conversation st en out Closed ∧ tx (net w') = tx (net w) ++ out)
    (λ w', ∃ out, conversation st en out Crashed ∧ tx (net w') = tx (net w) ++ out ∧ list_view = None)
    (λ w', ∃ out, conversation st en out Waiting ∧ tx (net w') = tx (net w) ++ out) w.
Proof.
  intros laws Hchunk Hc Hok st en. eapply wp_mono; [apply run_wp; [done|apply Hc]|..].
  - intros _ w' (_ & out & Ht & _ & Hconv). exists out. auto.
  - intros w' [(out & (_ & _ & Ht) & _ & Hconv) Hx]. exists out.
    split_and!; [auto|done|]. destruct Hx; congruence.
  - intros w' (out & (_ & _ & Ht) & _ & Hconv). exists out. auto.
Qed.

Lemma session_conversation_witness :
  let w := demo_world 2 [Seg (lit "get a.m"); RecvErr EINTR; Seg (lit "p4" ++ [CR; LF] ++ lit "QUIT" ++ [LF])]
             [Accept 1; SendErr EINTR; Accept 3] in
  let out := lit "OK 3" ++ [LF] ++ lit "AAA" ++ lit "OK BYE" ++ [LF] in
  match @run demo_store (λ _, true) w with Ret _ w' => tx (net w') | _ => [] end = out ∧
  @conversation demo_store (stream (rx (net w))) (stream_end (rx (net w))) out Closed.
Proof.
  intros w out.
  assert (match @run demo_store (λ _, true) w with Ret _ w' => tx (net w') | _ => [] end = out) as H
    by by vm_compute.
  split; [exact H|].
  assert (calm w) as Hcalm by (apply demo_calm; repeat constructor; simpl; lia).
  pose proof (session_conversation demo_store (λ _, true) w demo_store_laws eq_refl Hcalm eq_refl) as Hwp.
  apply wp_returns in Hwp as (a & w' & E & o & Hconv & Ht); [|by vm_compute].
  rewrite E in H. rewrite H in Ht. rewrite Ht. exact Hconv.
Defined.

(** C13: over the life of a session that no other thread stops while it runs, its
    descriptor is closed exactly once and nothing else is done to it: [run()]
    closes it when it returns, whatever the kernel answered, and the [stop()] of
    the destructor then finds the flag cleared and does nothing. While the
    session waits in a system call, or when an exception leaves [run()], the
    descriptor has not been touched; an exception needs a throwing listing or a
    chunk buffer that cannot be allocated. What a [stop()] under way on another
    thread adds is the subject of [SessionRace.stop_races_with_run]. *)
Theorem session_closes_once (ms : MediaStore) (can_allocate : Z → bool) w :
  MediaStoreLaws ms → 0 < chunk_size_ (sess w) → is_valid (socket_ (sess w)) = true → true ∉ stops (net w) →
  let untouched w' := socket_ (sess w') = socket_ (sess w) ∧ calls (net w') = calls (net w) in
  wp (run can_allocate;; stop)
    (λ _ w', is_active_ (sess w') = false ∧ socket_ (sess w') = mkSocket (-1) ∧
             calls (net w') = calls (net w) ++ [CClose (fd_ (socket_ (sess w)))])
    (λ w', untouched w' ∧ (list_view = None ∨ vector_ok can_allocate (chunk_size_ (sess w)) = false))
    untouched w.
Proof.
  intros laws Hchunk Hv Hst untouched. apply wp_bind. eapply wp_mono; [by apply run_wp|..].
  - intros _ w1 [(Hi & Hc & Hcl) _]. destruct Hcl as [Hcl|[? _]]; [|done].
    unfold stop. apply wp_bind, wp_get. rewrite Hi. by apply wp_ret.
  - intros w' [(out & (_ & [_ Hss] & _) & _) Hx]. destruct Hss as [?|[? _]]; done.
  - intros w' (out & (_ & [_ Hss] & _) & _). destruct Hss as [?|[? _]]; done.
Qed.

Lemma session_closes_once_witness :
  let w := mkWorld (demo_session 0)
             (set_rx [Seg (lit "GET b.mp4" ++ [LF] ++ lit "QUIT" ++ [LF])] (set_sq [Accept 2; SendErr EPIPE] io0)) in
  match (@run demo_store (λ _, true);; stop) w with Ret _ w' => calls (net w') = [CClose 7] | _ => False end.
Proof.
  intros w.
  pose proof (session_closes_once demo_store (λ _, true) w demo_store_laws eq_refl eq_refl
                ltac:(apply not_elem_of_nil)) as Hwp.
  apply wp_returns in Hwp as (a & w' & E & _ & _ & Hcl); [|by vm_compute]. rewrite E. exact Hcl.
Defined.

(** C16: whatever the kernel answers, whenever other threads call [stop()] and
    however the run ends, what the session sent is a sequence of pieces, one per
    line received and in their order, each the beginning of the promised
    response to that line: nothing else is ever sent. *)
Theorem session_sends_only_responses (ms : MediaStore) (can_allocate : Z → bool) w :
  MediaStoreLaws ms → 0 < chunk_size_ (sess w) → is_valid (socket_ (sess w)) = true →
  let sent w' := ∃ out, tx (net w') = tx (net w) ++ out ∧
                        partial_conversation (stream (rx (net w))) (stream_end (rx (net w))) out in
  wp (run can_allocate) (λ _, sent) sent sent w.
Proof.
  intros laws Hchunk Hv sent. eapply wp_mono; [by apply run_wp|..].
  - intros _ w' (_ & out & Ht & Hp & _). by exists out.
  - intros w' [(out & (_ & _ & Ht) & Hp & _) _]. by exists out.
  - intros w' (out & (_ & _ & Ht) & Hp & _). by exists out.
Qed.

Lemma session_sends_only_responses_witness :
  let w := demo_world 2 [Seg (lit "GET a.mp4" ++ [LF])] [Accept 5; Accept 1; SendErr EPIPE] in
  match @run demo_store (λ _, true) w with Ret _ w' => tx (net w') | _ => [] end = lit "OK 3" ++ [LF] ++ lit "A" ∧
  ∃ out, match @run demo_store (λ _, true) w with Ret _ w' => tx (net w') | _ => [] end = out ∧
         @partial_conversation demo_store (stream (rx (net w))) (stream_end (rx (net w))) out.
Proof.
  intros w. split; [by vm_compute|].
  pose proof (session_sends_only_responses demo_store (λ _, true) w demo_store_laws eq_refl eq_refl) as Hwp.
  apply wp_returns in Hwp as (a & w' & E & out & Ht & Hp); [|by vm_compute].
  rewrite E. exists out. split; [exact Ht|exact Hp].
Defined.

(** C15: two calm sessions over the same store answer the same bytes with the
    same bytes: neither the chunk size, nor how the network cuts the stream, nor
    interrupting signals, nor partial sends make a difference. *)
Theorem session_output_deterministic (ms : MediaStore) (can_allocate : Z → bool) w1 w2 w1' w2' :
  MediaStoreLaws ms →
  0 < chunk_size_ (sess w1) → vector_ok can_allocate (chunk_size_ (sess w1)) = true → calm w1 →
  0 < chunk_size_ (sess w2) → vector_ok can_allocate (chunk_size_ (sess w2)) = true → calm w2 →
  rx_equiv (rx (net w1)) (rx (net w2)) → tx (net w1) = tx (net w2) →
  run can_allocate w1 = Ret () w1' → run can_allocate w2 = Ret () w2' →
  tx (net w1') = tx (net w2').
Proof.
  intros laws Hk1 Ho1 Hc1 Hk2 Ho2 Hc2 [Hst Hen] Htx E1 E2.
  pose proof (wp_Ret _ _ _ _ _ _ _ E1 (run_wp can_allocate w1 Hk1 (proj1 (proj2 Hc1)))) as (_ & o1 & T1 & _ & C1).
  pose proof (wp_Ret _ _ _ _ _ _ _ E2 (run_wp can_allocate w2 Hk2 (proj1 (proj2 Hc2)))) as (_ & o2 & T2 & _ & C2).
  specialize (C1 Hc1 Ho1). specialize (C2 Hc2 Ho2). rewrite Hst, Hen in C1.
  destruct (conversation_functional _ _ _ _ _ _ _ C1 C2) as [-> _]. by rewrite T1, T2, Htx.
Qed.

Lemma session_output_deterministic_witness :
  let w1 := demo_world 1 [Seg (lit "GET b.mp4" ++ [LF]); Seg []] [Accept 1; Accept 2] in
  let w2 := demo_world 65536 [Seg (lit "GET b"); RecvErr EINTR; Seg (lit ".mp4"); Seg [LF]; Seg []] [] in
  ∃ w1' w2', @run demo_store (λ _, true) w1 = Ret () w1' ∧ @run demo_store (λ _, true) w2 = Ret () w2' ∧
             tx (net w1') = tx (net w2').
Proof.
  intros w1 w2. eexists _, _. split; [by vm_compute|]. split; [by vm_compute|].
  apply (session_output_deterministic demo_store (λ _, true) w1 w2 _ _ demo_store_laws);
    first [by vm_compute|apply demo_calm; repeat constructor; simpl; lia].
Defined.

(** C3: a GET request, branch by branch: [get_reply] is the error response for
    an empty name, a missing or forbidden file and a file that cannot be opened,
    and otherwise the header with the size and that many bytes of content. The
    bytes sent are always a beginning of it, and all of it when the session is
    calm, for every chunk size. *)
Theorem handle_get_reply (ms : MediaStore) (can_allocate : Z → bool) f w :
  MediaStoreLaws ms → 0 < chunk_size_ (sess w) → vector_ok can_allocate (chunk_size_ (sess w)) = true →
  wp (handle_get can_allocate f)
    (λ _ w', rx (net w') = rx (net w) ∧
       ∃ p, tx (net w') = tx (net w) ++ p ∧ p `prefix_of` get_reply f ∧
            (calm w → p = get_reply f ∧ calm w' ∧ sess w' = sess w))
    (λ _, False)
    (λ w', ¬ calm w ∧ ∃ p, tx (net w') = tx (net w) ++ p ∧ p `prefix_of` get_reply f) w.
Proof.
  intros laws Hchunk Hok. eapply wp_mono; [by apply handle_get_wp|..].
  - intros _ w' (p & (_ & _ & Hrx & Ht) & Hk & Hp & Hc). split; [done|]. exists p. split_and!; [done|done|].
    intros Hw. destruct (Hk Hw). split_and!; [by apply Hc|done|done].
  - intros w' [Hbad _]. congruence.
  - intros w' (p & (_ & _ & _ & Ht) & Hp & Hc). split; [done|]. by exists p.
Qed.

Lemma handle_get_reply_witness :
  let w := demo_world 3 [] [Accept 4; Accept 2] in
  @get_reply demo_store (lit "b.mp4") = lit "OK 4" ++ [LF] ++ lit "BBBB" ∧
  @get_reply demo_store (lit "../etc/passwd") = lit "ERROR FILE_NOT_FOUND" ++ [LF] ∧
  ∃ p, match @handle_get demo_store (λ _, true) (lit "b.mp4") w with Ret _ w' => tx (net w') | _ => [] end = p ∧
       p = @get_reply demo_store (lit "b.mp4").
Proof.
  intros w. split; [by vm_compute|]. split; [by vm_compute|].
  pose proof (handle_get_reply demo_store (λ _, true) (lit "b.mp4") w demo_store_laws eq_refl eq_refl) as Hwp.
  apply wp_returns in Hwp as (a & w' & E & _ & p & Ht & _ & Hc); [|by vm_compute].
  assert (calm w) as Hw by (apply demo_calm; repeat constructor; simpl; lia).
  rewrite E. exists p. split; [exact Ht|apply Hc, Hw].
Defined.

(** C26: when a file is shorter than the size announced for it (it shrank after
    the size was read), a calm session sends the header, the bytes there are, and
    stays active and connected: whatever it answers to the next request follows
    at once, where the client still expects file content. *)
Theorem short_file_keeps_session (ms : MediaStore) (can_allocate : Z → bool) f size content w :
  MediaStoreLaws ms → 0 < chunk_size_ (sess w) → vector_ok can_allocate (chunk_size_ (sess w)) = true →
  f ≠ [] → size_view f = Some size → content_view f = Some content → zlen content < size → calm w →
  ∃ w', handle_get can_allocate f w = Ret () w' ∧
        tx (net w') = tx (net w) ++ build_get_header size ++ content ∧ calm w' ∧ sess w' = sess w.
Proof.
  intros laws Hchunk Hok Hf Hs Hcont Hlen Hw.
  pose proof (handle_get_wp can_allocate f w Hchunk) as Hwp. unfold wp in Hwp.
  destruct (handle_get can_allocate f w) as [[] w'|w'|w'|]; [|destruct Hwp; congruence| |done].
  - destruct Hwp as (p & (_ & _ & _ & Ht) & Hk & _ & Hp). exists w'. destruct (Hk Hw) as [Hc' E].
    split_and!; [done| |done|done]. rewrite Ht, (Hp Hw). unfold get_reply.
    rewrite bool_decide_eq_false_2, Hs, Hcont by done. by rewrite ztake_all by lia.
  - destruct Hwp as (p & _ & _ & Hno). by destruct Hno.
Qed.

(** A store whose film has lost its last byte since its size was read. *)
Definition shrunk_store : MediaStore := {|
  list_files := mret [];
  get_file_size f := mret (if bool_decide (f = lit "a") then Some 3 else None);
  open_binary_file f := mret (if bool_decide (f = lit "a") then Some (lit "AB") else None);
  list_view := Some [];
  size_view f := if bool_decide (f = lit "a") then Some 3 else None;
  content_view f := if bool_decide (f = lit "a") then Some (lit "AB") else None |}.

Lemma shrunk_store_laws : MediaStoreLaws shrunk_store.
Proof.
  split; simpl.
  - intros s. by apply wp_ret.
  - intros f s. by apply wp_ret.
  - intros f s. by apply wp_ret.
  - intros f n. case_bool_decide; [|done]. by intros [= <-].
  - intros fs [= <-]. constructor.
Qed.

Lemma short_file_keeps_session_witness :
  let w := demo_world 2 [] [] in
  ∃ w', @handle_get shrunk_store (λ _, true) (lit "a") w = Ret () w' ∧
        tx (net w') = lit "OK 3" ++ [LF] ++ lit "AB" ∧ calm w' ∧ sess w' = sess w.
Proof.
  intros w.
  exact (short_file_keeps_session shrunk_store (λ _, true) (lit "a") 3 (lit "AB") w
           shrunk_store_laws eq_refl eq_refl ltac:(done) eq_refl eq_refl eq_refl (demo_calm 2 [] [] ltac:(constructor))).
Defined.

(** The result of sending an error response is ignored: when the kernel
    accepts only part of it and then reports an error such as a send timeout, the
    session stays active, so a later response follows the truncated one. *)
Theorem error_response_failure_ignored (ms : MediaStore) (can_allocate : Z → bool) req k e q w :
  let R := build_error_response (lit "INVALID_REQUEST") in
  type req = UNKNOWN → 0 < k < zlen R → e ≠ EINTR → is_valid (socket_ (sess w)) = true →
  stops (net w) = [] → sq (net w) = Accept k :: SendErr e :: q →
  ∃ w', serve can_allocate req w = Ret () w' ∧ sess w' = sess w ∧
        tx (net w') = tx (net w) ++ ztake k R ∧ sq (net w') = q.
Proof.
  intros R Ht Hk He Hv Hst Hsq. unfold serve. rewrite Ht.
  set (L := mkLog WARN [Str "[Client #"; ANum (session_id_ (sess w)); Str "] ";
              Str "Invalid request or unknown command: '"; AStr (argument req); Str "'"]).
  destruct (send_all_cut R (socket_ (sess w)) k e q (add_log L (net w)) Hv Hk He Hsq) as (s' & E & Htx & Hq & _).
  assert (on_socket (send_string R) (mkWorld (sess w) (add_log L (net w))) = Ret false (mkWorld (sess w) s')) as E2.
  { unfold on_socket, interfere, send_string, in_io, mbind, M_bind. simpl. rewrite Hst. simpl. by rewrite E. }
  exists (mkWorld (sess w) s'). split; [|done].
  change (outcome_bind (λ _, mret ()) (on_socket (send_string R) (mkWorld (sess w) (add_log L (net w)))) =
            Ret () (mkWorld (sess w) s')).
  by rewrite E2.
Qed.

Lemma error_response_failure_ignored_witness :
  let w := demo_world 2 [] [Accept 5; SendErr EAGAIN] in
  0 < 5 < zlen (build_error_response (lit "INVALID_REQUEST")) ∧
  ∃ w', @serve demo_store (λ _, true) (mkRequest UNKNOWN (lit "HELO")) w = Ret () w' ∧
        is_active_ (sess w') = true ∧ tx (net w') = lit "ERROR".
Proof.
  intros w. split; [by vm_compute|].
  destruct (error_response_failure_ignored demo_store (λ _, true) (mkRequest UNKNOWN (lit "HELO")) 5 EAGAIN [] w
              eq_refl ltac:(by vm_compute) ltac:(done) eq_refl eq_refl eq_refl) as (w' & E & Hs & Ht & _).
  exists w'. split; [exact E|]. rewrite Hs. split; [reflexivity|exact Ht].
Defined.

(** A chunk size that no vector can have, which [strtoull] makes of a negative
    command-line value, ends the worker thread, and with it the server, with an
    uncaught exception at the first download: the client has its header, and no
    byte of the file. *)
Theorem oversized_chunk_throws (ms : MediaStore) (can_allocate : Z → bool) f size content w :
  MediaStoreLaws ms → VECTOR_MAX < chunk_size_ (sess w) → f ≠ [] →
  size_view f = Some size → content_view f = Some content → calm w →
  ∃ w', handle_get can_allocate f w = Throw w' ∧ tx (net w') = tx (net w) ++ build_get_header size.
Proof.
  intros laws Hbig Hf Hs Hcont Hcalm.
  assert (wp (handle_get can_allocate f) (λ _ _, False)
            (λ w', tx (net w') = tx (net w) ++ build_get_header size) (λ _, False) w) as H.
  2:{ unfold wp in H. destruct (handle_get can_allocate f w) as [| w'| |]; try done. by exists w'. }
  unfold handle_get. apply wp_bind, wp_log_session. intros w1 H1. rewrite bool_decide_eq_false_2 by done.
  apply wp_bind, wp_in_io. eapply wp_mono; [apply size_law| |done|done].
  intros r s2 [-> Hf2]. apply quiet_log_frame in Hf2 as H2. rewrite Hs.
  apply wp_bind, wp_in_io. eapply wp_mono; [apply open_law| |done|done].
  intros r s3 [-> Hf3]. apply quiet_log_frame in Hf3 as H3. rewrite Hcont.
  assert (quiet w (mkWorld (sess w1) s3)) as Hq3 by (etrans; [exact H1|]; etrans; [exact H2|exact H3]).
  assert (calm (mkWorld (sess w1) s3)) as Hc3 by (by apply (quiet_calm _ _ Hq3)).
  apply wp_bind, wp_send_session; [|by intros w4 p _ _ []..].
  intros w4 H4 K4. cbn [negb]. apply wp_bind, wp_get, wp_bind, wp_log_session. intros w5 H5.
  assert (advance w w5 (build_get_header size)) as (_ & _ & _ & Ht).
  { eapply quiet_advance; [exact Hq3|]. by eapply advance_quiet. }
  assert (chunk_size_ (sess w4) = chunk_size_ (sess w)) as Hch.
  { destruct (quiet_advance _ _ _ _ Hq3 H4) as [? _]. done. }
  unfold vector_ok. rewrite Hch. destruct (Z.leb_spec (chunk_size_ (sess w)) VECTOR_MAX); [lia|]. by apply wp_throw.
Qed.

Lemma oversized_chunk_throws_witness :
  let w := demo_world (2 ^ 64 - 1) [] [] in
  ∃ w', @handle_get demo_store (λ _, true) (lit "a.mp4") w = Throw w' ∧ tx (net w') = lit "OK 3" ++ [LF].
Proof.
  intros w.
  exact (oversized_chunk_throws demo_store (λ _, true) (lit "a.mp4") 3 (lit "AAA") w demo_store_laws eq_refl
           ltac:(done) ltac:(by vm_compute) ltac:(by vm_compute) (demo_calm (2 ^ 64 - 1) [] [] ltac:(constructor))).
Defined.
