(* ===== verification/SessionRace.v ===== *)
(** * ClientSession.cpp: [stop()] against the end of [run()], access by access

    [ClientSession.v] takes each [stop()] of another thread as a whole. Here the
    calling thread and the session's thread interleave at every access to the
    two things they share without a lock: the atomic [is_active_] and the plain
    member [fd_] of the session's socket. The session's thread is at its last
    [recv_line], which returns when the connection is shut down or the peer is
    gone, and then leaves [run()]. *)

From S2P Require Import Prelude Types Socket.

(** The thread in [stop()]: the compare-and-exchange, [Socket::shutdown],
    then in [Socket::close] the test of [fd_], the system call and the store. *)
Inductive stop_at := TCas | TShutdown | TTest | TClose | TSet | TDone.

(** The session's thread: in [recv_line], at the store of [is_active_], then in
    [Socket::close]. *)
Inductive run_at := RRecv | RStore | RTest | RClose | RSet | RDone.

Record shared := mkShared {
  fd : Z;                 (* [socket_.fd_] *)
  active : bool;          (* [is_active_] *)
  shut : bool;            (* [::shutdown] was called *)
  closed : list Z;        (* the arguments of [::close], in order *)
  at_stop : stop_at;
  at_run : run_at }.

(** A session on an open descriptor when another thread enters [stop()]. *)
Definition entered (d : Z) : shared := mkShared d true false [] TCas RRecv.

Definition stop_access (s : shared) : option shared :=
  match at_stop s with
  | TCas =>
      Some (if active s then mkShared (fd s) false (shut s) (closed s) TShutdown (at_run s)
            else mkShared (fd s) (active s) (shut s) (closed s) TDone (at_run s))
  | TShutdown => Some (mkShared (fd s) (active s) (shut s || (0 <=? fd s)) (closed s) TTest (at_run s))
  | TTest => Some (mkShared (fd s) (active s) (shut s) (closed s) (if 0 <=? fd s then TClose else TDone) (at_run s))
  | TClose => Some (mkShared (fd s) (active s) (shut s) (closed s ++ [fd s]) TSet (at_run s))
  | TSet => Some (mkShared (-1) (active s) (shut s) (closed s) TDone (at_run s))
  | TDone => None
  end.

Definition run_access (s : shared) : option shared :=
  match at_run s with
  | RRecv => Some (mkShared (fd s) (active s) (shut s) (closed s) (at_stop s) RStore)
  | RStore => Some (mkShared (fd s) false (shut s) (closed s) (at_stop s) RTest)
  | RTest => Some (mkShared (fd s) (active s) (shut s) (closed s) (at_stop s) (if 0 <=? fd s then RClose else RDone))
  | RClose => Some (mkShared (fd s) (active s) (shut s) (closed s ++ [fd s]) (at_stop s) RSet)
  | RSet => Some (mkShared (-1) (active s) (shut s) (closed s) (at_stop s) RDone)
  | RDone => None
  end.

(** Schedules: which of the two threads makes the next access. *)
Inductive turn := Stopper | Session.

Definition access (t : turn) (s : shared) : option shared :=
  match t with Stopper => stop_access s | Session => run_access s end.

Fixpoint run_schedule (ts : list turn) (s : shared) : option shared :=
  match ts with
  | [] => Some s
  | t :: ts => s ← access t s; run_schedule ts s
  end.

Definition both_done (s : shared) : Prop := at_stop s = TDone ∧ at_run s = RDone.

(** ** The invariant *)

(** The calls of [::close] a thread may still make. *)
Definition stop_may_close (p : stop_at) : nat := match p with TSet | TDone => 0 | _ => 1 end.
Definition run_may_close (p : run_at) : nat := match p with RSet | RDone => 0 | _ => 1 end.

Record race_inv (d : Z) (s : shared) : Prop := {
  race_fd : fd s = d ∨ fd s = -1;
  race_open : closed s = [] → fd s = d;
  race_closed : closed s = [] ∨ ∃ l, closed s = d :: l ∧ Forall (λ x, x = d ∨ x = -1) l;
  race_count : (length (closed s) + stop_may_close (at_stop s) + run_may_close (at_run s) ≤ 2)%nat;
  race_stop : at_stop s = TSet → closed s ≠ [];
  race_run : at_run s = RSet ∨ at_run s = RDone → closed s ≠ [] }.

Lemma race_entered d : 0 ≤ d → race_inv d (entered d).
Proof. intros Hd. split; simpl; try done; auto. by intros []. Qed.

(** A call of [::close] on what [fd_] holds. *)
Lemma race_close d s :
  race_inv d s → closed s ++ [fd s] ≠ [] ∧
  ∃ l, closed s ++ [fd s] = d :: l ∧ Forall (λ x, x = d ∨ x = -1) l.
Proof.
  intros [Hfd Hopen Hcl _ _ _]. split; [by destruct (closed s)|].
  destruct Hcl as [E|(l & E & Hl)]; rewrite E.
  - rewrite (Hopen E). by exists [].
  - exists (l ++ [fd s]). split; [done|]. apply Forall_app. split; [done|]. by constructor.
Qed.

Ltac race_fields :=
  split; simpl in *; rewrite ?length_app; simpl; auto; try done; try lia; try (by intros []).

Lemma race_stop_access d s s' : 0 ≤ d → race_inv d s → stop_access s = Some s' → race_inv d s'.
Proof.
  intros Hd Hinv H. pose proof (race_close d s Hinv) as [Hne Hcl].
  destruct Hinv. unfold stop_access in H. destruct (at_stop s) eqn:Ep; try done; simplify_eq.
  - destruct (active s); race_fields.
  - race_fields.
  - destruct (0 <=? fd s); race_fields.
  - race_fields.
  - race_fields. intros E. by destruct race_stop0.
Qed.

Lemma race_run_access d s s' : 0 ≤ d → race_inv d s → run_access s = Some s' → race_inv d s'.
Proof.
  intros Hd Hinv H. pose proof (race_close d s Hinv) as [Hne Hcl].
  destruct Hinv. unfold run_access in H. destruct (at_run s) eqn:Ep; try done; simplify_eq.
  - race_fields.
  - race_fields.
  - destruct (Z.leb_spec 0 (fd s)); race_fields. intros _ E. specialize (race_open0 E). lia.
  - race_fields.
  - race_fields. intros E. destruct race_run0; auto.
Qed.

Lemma race_schedule d ts s s' : 0 ≤ d → race_inv d s → run_schedule ts s = Some s' → race_inv d s'.
Proof.
  intros Hd. revert s. induction ts as [|t ts IH]; intros s Hinv; simpl; [by intros [= <-]|].
  destruct (access t s) as [s1|] eqn:E; simpl; [|done]. apply IH.
  destruct t; [by eapply race_stop_access|by eapply race_run_access].
Qed.

(** A schedule with fair turns for both threads never gets stuck before both are
    done. *)
Lemma access_available s : ¬ both_done s → ∃ t s', access t s = Some s'.
Proof.
  unfold both_done. intros H. destruct (at_stop s) eqn:E1; destruct (at_run s) eqn:E2;
    try (exists Stopper; simpl; unfold stop_access; rewrite E1; by eexists);
    try (exists Session; simpl; unfold run_access; rewrite E2; by eexists).
  by destruct H.
Qed.

(** ** Properties *)

(** C14: under every interleaving of [stop()] with the end of [run()] the
    descriptor is closed, but it can be closed twice: both threads may test
    [fd_] before either has stored -1, so a descriptor number that was handed
    out again in between is closed under its new owner. *)
Theorem stop_races_with_run d :
  0 ≤ d →
  (∀ ts s, run_schedule ts (entered d) = Some s → both_done s →
     closed s = [d] ∨ closed s = [d; d] ∨ closed s = [d; -1]) ∧
  (∃ ts s, run_schedule ts (entered d) = Some s ∧ both_done s ∧ closed s = [d; d]).
Proof.
  intros Hd. split.
  - intros ts s Hrun [Hs Hr]. destruct (race_schedule d ts _ s Hd (race_entered d Hd) Hrun) as [_ _ Hcl Hn _ Hne].
    rewrite Hs, Hr in Hn. simpl in Hn. destruct Hcl as [E|(l & E & Hl)]; [destruct (Hne (or_intror Hr)); done|].
    rewrite E in *. destruct l as [|x [|y l]]; simpl in Hn; [by left| |lia].
    inversion Hl as [|?? [->| ->] _]; subst; auto.
  - exists [Stopper; Stopper; Session; Session; Stopper; Session; Stopper; Session; Stopper; Session].
    unfold run_schedule, access, stop_access, run_access, entered. simpl.
    assert ((0 <=? d) = true) as -> by lia. simpl. by eexists.
Qed.

Lemma stop_races_with_run_witness :
  ∃ s, run_schedule [Stopper; Stopper; Session; Session; Stopper; Session; Stopper; Session; Stopper; Session]
         (entered 7) = Some s ∧ closed s = [7; 7] ∧
       (closed s = [7] ∨ closed s = [7; 7] ∨ closed s = [7; -1]).
Proof.
  eexists. split; [by vm_compute|]. split; [reflexivity|].
  apply (proj1 (stop_races_with_run 7 ltac:(lia))
           [Stopper; Stopper; Session; Session; Stopper; Session; Stopper; Session; Stopper; Session]).
  - by vm_compute.
  - by vm_compute.
Defined.
