(* ===== verification/Server.v ===== *)
(** * Server.cpp: start-up, the accept loop and shutdown

    Two views. [Startup]: [start] up to the accept loop and one turn of it, as
    effectful code over the socket world. [Threads]: the accept loop, the worker
    threads and [stop()] as a step relation over the state they share, one step
    per lock, atomic access or blocking call. *)

From S2P Require Import Prelude Types CxxString Socket FilePath FileManager ClientSession.

(** ** Start-up *)
Module Startup.

Record Server := mkServer {
  config_ : ServerConfig;
  file_manager_ : FileManager;
  server_socket_ : Socket;
  is_running_ : bool;
  running_instance_ : bool   (* the static pointer points to this object *) }.

Definition make_server (config : ServerConfig) : Server :=
  mkServer config (make_file_manager (media_dir config)) (mkSocket (-1)) false false.

(** The banner of a started server. *)
Definition announce (config : ServerConfig) (fm : FileManager) : M io () :=
  LOG INFO [Str "================================================="];;
  LOG INFO [Str " Multi-Client Media Streaming Server Started"];;
  LOG INFO [Str " Host Address:  "; AStr (host config)];;
  LOG INFO [Str " Port:          "; ANum (port config)];;
  LOG INFO [Str " Media Root:    "; AStr (path_string (canonical_root_ fm))];;
  LOG INFO [Str " Chunk Size:    "; ANum (chunk_size config); Str " bytes (";
            ANum (chunk_size config / 1024); Str " KB)"];;
  LOG INFO [Str " Socket Timeout:"; ANum (socket_timeout_sec config); Str "s"];;
  LOG INFO [Str "================================================="].

Section startup.
Context (inet_pton : bytes → option Z) (inet_ntop : Z → option bytes) (htons ntohs : Z → Z).

(** [start] up to the call of [accept_loop()], which runs when it returns
    true. *)
Definition start (os : OS) (mkdirs : path → option OS) (srv : Server) : M io (bool * Server * OS) :=
  let config := config_ srv in
  '(ok, fm, os) ← FileManager.init os mkdirs (file_manager_ srv);
  if negb ok then
    LOG ERROR [Str "Failed to initialize file manager for root: "; AStr (media_dir config)];;
    mret (false, mkServer config fm (server_socket_ srv) (is_running_ srv) (running_instance_ srv), os)
  else
    server_socket ← create_tcp;
    if negb (is_valid server_socket) then
      LOG ERROR [Str "Failed to create server TCP socket"];;
      mret (false, mkServer config fm server_socket (is_running_ srv) true, os)
    else
      reuse ← set_reuse_address true server_socket;
      (if negb reuse then LOG WARN [Str "Failed to set SO_REUSEADDR on server socket"] else mret ());;
      bound ← bind inet_pton htons (host config) (port config) server_socket;
      if negb bound then
        LOG ERROR [Str "Failed to bind socket to "; AStr (host config); Str ":"; ANum (port config)];;
        closed ← close server_socket;
        mret (false, mkServer config fm closed (is_running_ srv) true, os)
      else
        listening ← listen (backlog config) server_socket;
        if negb listening then
          LOG ERROR [Str "Failed to listen on server socket with backlog "; ANum (backlog config)];;
          closed ← close server_socket;
          mret (false, mkServer config fm closed (is_running_ srv) true, os)
        else
          announce config fm;;
          mret (true, mkServer config fm server_socket true true, os).


(** *** Lemmas *)

(** A call that succeeds or fails takes the next answer of the kernel; there is
    always one, so the call blocks only when the answers of the model are used
    up. *)
Lemma wp_ctl c (Q : errno + Z → io → Prop) (X B : io → Prop) s :
  (∀ r q, cq s = r :: q → Q r (set_cq q (add_call c s))) → (cq s = [] → B (add_call c s)) → wp (sys_ctl c) Q X B s.
Proof. intros HQ HB. unfold wp, sys_ctl. destruct (cq s) as [|r q]; [by apply HB|by apply HQ]. Qed.

(** The calls [l] were made and answered with [a]. *)
Definition answered (s s' : io) (a : list (errno + Z)) (l : list sys_call) : Prop :=
  cq s = a ++ cq s' ∧ calls s' = calls s ++ l.

(** [n] answers were not enough. *)
Definition starved (n : nat) (s : io) : Prop := (length (cq s) < n)%nat.

Lemma answered_none s s' : cq s' = cq s → calls s' = calls s → answered s s' [] [].
Proof. intros E1 E2. split; [done|]. by rewrite E2, app_nil_r. Qed.

Lemma answered_one s r q c : cq s = r :: q → answered s (set_cq q (add_call c s)) [r] [c].
Proof. by intros E. Qed.

Lemma answered_log s s1 s2 a l : answered s s1 a l → cq s2 = cq s1 → calls s2 = calls s1 → answered s s2 a l.
Proof. intros [E1 E2] Ec El. split; congruence. Qed.

Lemma answered_trans s1 s2 s3 a b l k :
  answered s1 s2 a l → answered s2 s3 b k → answered s1 s3 (a ++ b) (l ++ k).
Proof. intros [E1 E2] [E3 E4]. split; [by rewrite E1, E3, app_assoc|by rewrite E4, E2, app_assoc]. Qed.

(** The media root [init] finds or creates, and the file system it leaves. *)
Definition opened_root (os : OS) (mkdirs : path → option OS) (dir : path) : option (OS * path) :=
  os' ← (if status_exists (@os_status os dir) then Some os else mkdirs dir);
  root ← @os_canonical os' dir;
  Some (os', root).

Lemma init_wp (os : OS) mkdirs fm s :
  wp (FileManager.init os mkdirs fm)
    (λ r s', answered s s' [] [] ∧
       match opened_root os mkdirs (root_dir_ fm) with
       | Some (os', root) => r = (true, mkFileManager (root_dir_ fm) root, os')
       | None => r.1.1 = false
       end) (λ _, False) (λ _, False) s.
Proof.
  unfold FileManager.init, opened_root.
  destruct (if status_exists _ then _ else _) as [os'|]; simpl.
  - destruct (os_canonical _); simpl; apply wp_bind, wp_LOG, wp_ret; (split; [by apply answered_none|done]).
  - apply wp_bind, wp_LOG, wp_ret. split; [by apply answered_none|done].
Qed.

(** *** What a start is *)

(** The address the listening socket is bound to: any local one when the host is
    empty or 0.0.0.0, else the one it spells. *)
Inductive address (h : bytes) : option Z → Prop :=
| any_address : h = [] ∨ h = lit "0.0.0.0" → address h (Some INADDR_ANY)
| given_address a : h ≠ [] → h ≠ lit "0.0.0.0" → inet_pton h = Some a → address h (Some a)
| no_address : h ≠ [] → h ≠ lit "0.0.0.0" → inet_pton h = None → address h None.

Definition reuse_call (fd : Z) : sys_call := CSetsockopt fd (SO_REUSEADDR 1).
Definition bind_call (config : ServerConfig) (fd a : Z) : sys_call := CBind fd a (htons (port config)).

(** What the kernel answered, the calls that were made, and the listening
    descriptor. Only the answer to [setsockopt] does not matter; a descriptor
    that cannot be bound or listened on is closed. *)
Inductive startup (config : ServerConfig) : list (errno + Z) → list sys_call → option Z → Prop :=
| no_socket r : (∀ fd, r = inr fd → fd < 0) → startup config [r] [CSocket] None
| bad_host fd r : 0 ≤ fd → address (host config) None →
    startup config [inr fd; r] [CSocket; reuse_call fd; CClose fd] None
| bind_failed fd r a e : 0 ≤ fd → address (host config) (Some a) →
    startup config [inr fd; r; inl e] [CSocket; reuse_call fd; bind_call config fd a; CClose fd] None
| listen_failed fd r a n e : 0 ≤ fd → address (host config) (Some a) →
    startup config [inr fd; r; inr n; inl e]
      [CSocket; reuse_call fd; bind_call config fd a; CListen fd (backlog config); CClose fd] None
| listening_on fd r a n m : 0 ≤ fd → address (host config) (Some a) →
    startup config [inr fd; r; inr n; inr m]
      [CSocket; reuse_call fd; bind_call config fd a; CListen fd (backlog config)] (Some fd).

Lemma wp_create_tcp (Q : Socket → io → Prop) (X B : io → Prop) s :
  (∀ r k s', answered s s' [r] [CSocket] → match r with inl _ => k = mkSocket (-1) | inr fd => k = mkSocket fd end →
     Q k s') →
  (cq s = [] → B (add_call CSocket s)) → wp create_tcp Q X B s.
Proof.
  intros HQ HB. unfold create_tcp. apply wp_bind, wp_ctl; [|done]. intros [e|fd] q E.
  - by apply wp_bind, wp_LOG, wp_ret, (HQ (inl e)).
  - by apply wp_ret, (HQ (inr fd)).
Qed.

Lemma wp_reuse k (Q : bool → io → Prop) (X B : io → Prop) s :
  is_valid k = true →
  (∀ r b s', answered s s' [r] [reuse_call (fd_ k)] → Q b s') →
  (∀ s', cq s = [] → B s') → wp (set_reuse_address true k) Q X B s.
Proof.
  intros Hv HQ HB. unfold set_reuse_address. rewrite Hv. simpl. apply wp_bind, wp_ctl; [|auto]. intros [e|n] q E.
  - by apply wp_bind, wp_LOG, wp_ret, (HQ (inl e)).
  - by apply wp_ret, (HQ (inr n)).
Qed.

Lemma wp_bind_address h p k (Q : bool → io → Prop) (X B : io → Prop) s :
  is_valid k = true →
  (∀ s', address h None → answered s s' [] [] → Q false s') →
  (∀ a r s', address h (Some a) → answered s s' [r] [CBind (fd_ k) a (htons p)] →
     Q (match r with inr _ => true | inl _ => false end) s') →
  (∀ s', cq s = [] → B s') → wp (bind inet_pton htons h p k) Q X B s.
Proof.
  intros Hv Hbad Hcall HB. unfold bind. rewrite Hv. simpl.
  destruct (if bool_decide (h = []) || _ then _ else _) as [a|] eqn:Ea.
  - assert (address h (Some a)) as Ha.
    { repeat case_bool_decide; simplify_eq/=; constructor; auto. }
    apply wp_bind, wp_ctl; [|auto]. intros [e|n] q E.
    + by apply wp_bind, wp_LOG, wp_ret, (Hcall a (inl e)).
    + by apply wp_ret, (Hcall a (inr n)).
  - apply wp_bind, wp_LOG, wp_ret, Hbad; [|by apply answered_none].
    repeat case_bool_decide; simplify_eq/=. by constructor.
Qed.

Lemma wp_listen bl k (Q : bool → io → Prop) (X B : io → Prop) s :
  is_valid k = true →
  (∀ r s', answered s s' [r] [CListen (fd_ k) bl] → Q (match r with inr _ => true | inl _ => false end) s') →
  (∀ s', cq s = [] → B s') → wp (listen bl k) Q X B s.
Proof.
  intros Hv HQ HB. unfold listen. rewrite Hv. simpl. apply wp_bind, wp_ctl; [|auto]. intros [e|n] q E.
  - by apply wp_bind, wp_LOG, wp_ret, (HQ (inl e)).
  - by apply wp_ret, (HQ (inr n)).
Qed.

Lemma wp_announce config fm (Q : () → io → Prop) (X B : io → Prop) s :
  (∀ s', cq s' = cq s → calls s' = calls s → Q () s') → wp (announce config fm) Q X B s.
Proof. intros HQ. unfold announce. do 7 apply wp_bind, wp_LOG. by apply wp_LOG, HQ. Qed.

Lemma wp_close k (Q : Socket → io → Prop) (X B : io → Prop) s :
  is_valid k = true → (∀ s', answered s s' [] [CClose (fd_ k)] → Q (mkSocket (-1)) s') → wp (close k) Q X B s.
Proof. intros Hv HQ. unfold close. unfold is_valid in Hv. rewrite Hv. by apply wp_bind, wp_modify, wp_ret, HQ. Qed.

(** What [start] reports for a listening descriptor, or for none. *)
Definition start_result (srv : Server) (fd : option Z) (ok : bool) (srv' : Server) : Prop :=
  match fd with
  | Some fd => ok = true ∧ server_socket_ srv' = mkSocket fd ∧ is_running_ srv' = true
  | None => ok = false ∧ is_valid (server_socket_ srv') = false ∧ is_running_ srv' = is_running_ srv
  end.

(** [start] from the call of [create_tcp] on; [s] is the state [start] was called
    in and [root] the media root. *)
Definition start_post (srv : Server) (os1 : OS) (root : path) (s : io) (r : bool * Server * OS) (s' : io) : Prop :=
  let '(ok, srv', os') := r in
  config_ srv' = config_ srv ∧ os' = os1 ∧
  file_manager_ srv' = mkFileManager (root_dir_ (file_manager_ srv)) root ∧ running_instance_ srv' = true ∧
  ∃ a l fd, startup (config_ srv) a l fd ∧ answered s s' a l ∧ start_result srv fd ok srv'.

Lemma answered_starved s s' a l n : answered s s' a l → (length a < n)%nat → cq s' = [] → starved n s.
Proof. intros [E _] Hn Ee. unfold starved. rewrite E, Ee, app_nil_r. done. Qed.

(** The descriptor is closed after a failure. *)
Lemma start_gives_up srv os1 root s s1 k a l level args :
  is_valid k = true → answered s s1 a l → startup (config_ srv) a (l ++ [CClose (fd_ k)]) None →
  wp (LOG level args;;
      closed ← close k;
      mret (false, mkServer (config_ srv) (mkFileManager (root_dir_ (file_manager_ srv)) root) closed
                     (is_running_ srv) true, os1))
    (start_post srv os1 root s) (λ _, False) (λ _, starved 4 s) s1.
Proof.
  intros Hv E Hs. apply wp_bind, wp_LOG, wp_bind, wp_close; [done|]. intros s2 E2. apply wp_ret.
  split_and!; [done..|]. exists a, (l ++ [CClose (fd_ k)]), None. split_and!; [done| |done].
  rewrite <-(app_nil_r a). eapply answered_trans; [exact E|]. exact E2.
Qed.

Lemma start_from_socket srv os1 root s fd r s1 :
  0 ≤ fd → answered s s1 [inr fd; r] [CSocket; reuse_call fd] →
  let fm := mkFileManager (root_dir_ (file_manager_ srv)) root in
  wp (bound ← bind inet_pton htons (host (config_ srv)) (port (config_ srv)) (mkSocket fd);
      if negb bound then
        LOG ERROR [Str "Failed to bind socket to "; AStr (host (config_ srv)); Str ":"; ANum (port (config_ srv))];;
        closed ← close (mkSocket fd);
        mret (false, mkServer (config_ srv) fm closed (is_running_ srv) true, os1)
      else
        listening ← listen (backlog (config_ srv)) (mkSocket fd);
        if negb listening then
          LOG ERROR [Str "Failed to listen on server socket with backlog "; ANum (backlog (config_ srv))];;
          closed ← close (mkSocket fd);
          mret (false, mkServer (config_ srv) fm closed (is_running_ srv) true, os1)
        else announce (config_ srv) fm;; mret (true, mkServer (config_ srv) fm (mkSocket fd) true true, os1))
    (start_post srv os1 root s) (λ _, False) (λ _, starved 4 s) s1.
Proof.
  intros Hfd E fm. assert (is_valid (mkSocket fd) = true) as Hv by (unfold is_valid; simpl; lia).
  apply wp_bind, wp_bind_address; [done| | |].
  - intros s2 Ha E2. eapply start_gives_up; [done|exact (answered_trans _ _ _ _ _ _ _ E E2)|]. by apply bad_host.
  - intros addr b s2 Ha E2. pose proof (answered_trans _ _ _ _ _ _ _ E E2) as E3. simpl in E3.
    destruct b as [e|n]; [eapply start_gives_up; [done|exact E3|]; by apply bind_failed|].
    apply wp_bind, wp_listen; [done| |].
    + intros b s3 E4. pose proof (answered_trans _ _ _ _ _ _ _ E3 E4) as E5. simpl in E5.
      destruct b as [e|m]; [eapply start_gives_up; [done|exact E5|]; by apply listen_failed|].
      apply wp_bind, wp_announce. intros s4 E6 E7. apply wp_ret. split_and!; [done..|].
      eexists _, _, (Some fd). split_and!; [by eapply (listening_on _ fd r addr n m)| |done].
      eapply answered_log; [exact E5|done|done].
    + intros s3 Ee. eapply answered_starved; [exact E3|simpl; lia|done].
  - intros s2 Ee. eapply answered_starved; [exact E|simpl; lia|done].
Qed.

(** *** Properties *)

(** C21: [start] listens where it is told to, or reports that it does not. When
    the media root cannot be opened it fails before any socket call. Otherwise
    it makes exactly the calls of [startup]: it binds the configured port on any
    local address for an empty host or 0.0.0.0 and on the address the host
    spells for any other, listens with the configured backlog, and returns true,
    running and holding that very descriptor, exactly when [socket], [bind] and
    [listen] all succeeded; when one of the last two fails, or the host spells
    no address, it closes that descriptor and returns false. Either way the
    static instance pointer is left set once the media root was opened. *)
Theorem start_listens (os : OS) mkdirs srv s :
  is_valid (server_socket_ srv) = false →
  wp (start os mkdirs srv)
    (λ r s', let '(ok, srv', os') := r in
       config_ srv' = config_ srv ∧
       match opened_root os mkdirs (root_dir_ (file_manager_ srv)) with
       | None => start_result srv None ok srv' ∧ running_instance_ srv' = running_instance_ srv ∧ answered s s' [] []
       | Some (os1, root) =>
           os' = os1 ∧ file_manager_ srv' = mkFileManager (root_dir_ (file_manager_ srv)) root ∧
           running_instance_ srv' = true ∧
           ∃ a l fd, startup (config_ srv) a l fd ∧ answered s s' a l ∧ start_result srv fd ok srv'
       end)
    (λ _, False) (λ _, starved 4 s) s.
Proof.
  intros Hinv. unfold start. apply wp_bind. eapply wp_mono; [apply init_wp|..]; [|done|done].
  intros [[ok fm] os'] s1 [E1 Hroot]. destruct (opened_root _ _ _) as [[os1 root]|].
  2:{ simpl in Hroot. subst ok. apply wp_bind, wp_LOG, wp_ret. by split_and!. }
  injection Hroot as -> -> ->. simpl. apply wp_bind, wp_create_tcp.
  2:{ intros E. eapply answered_starved; [exact E1|simpl; lia|done]. }
  intros r k s2 E2 Hk. pose proof (answered_trans _ _ _ _ _ _ _ E1 E2) as E. simpl in E. clear s1 E1 E2.
  apply wp_mono with (start_post srv os1 root s) (λ _, False) (λ _, starved 4 s); [| |done|done].
  2:{ intros [[ok' srv'] os2] s' (?&?&?&?&?). by split_and!. }
  destruct (is_valid k) eqn:Hv; simpl.
  2:{ apply wp_bind, wp_LOG, wp_ret. split_and!; try done. exists [r], [CSocket], None. split_and!; try done.
      constructor. intros fd ->. subst k. unfold is_valid in Hv. simpl in Hv. lia. }
  destruct r as [e|fd]; [by subst k|]. assert (0 ≤ fd) as Hfd by (subst k; unfold is_valid in Hv; simpl in Hv; lia).
  subst k. apply wp_bind, wp_reuse; [done| |].
  2:{ intros s' Es. eapply answered_starved; [exact E|simpl; lia|done]. }
  intros r reuse s3 E3. pose proof (answered_trans _ _ _ _ _ _ _ E E3) as E4. simpl in E4.
  destruct reuse; simpl; [by apply wp_bind, wp_ret, start_from_socket with r|].
  apply wp_bind, wp_LOG, start_from_socket with r; [done|]. eapply answered_log; [exact E4|done|done].
Qed.




End startup.

Definition demo_config : ServerConfig :=
  mkConfig (lit "0.0.0.0") 8080 (lit "/m") 4 128 30 (lit "").

Lemma start_listens_witness :
  let s := set_cq [inr 3; inr 0; inl (EOTHER 98)] io0 in
  is_valid (server_socket_ (make_server demo_config)) = false ∧
  match start (λ _, None) (λ p, p) demo_os (λ _, None) (make_server demo_config) s with
  | Ret (b, srv, _) s' => Some (b, fd_ (server_socket_ srv), running_instance_ srv, calls s')
  | _ => None
  end = Some (false, -1, true, [CSocket; CSetsockopt 3 (SO_REUSEADDR 1); CBind 3 0 8080; CClose 3]) ∧
  match start (λ _, None) (λ p, p) demo_os (λ _, None) (make_server demo_config) s with
  | Ret r s' => config_ r.1.2 = demo_config
  | _ => False
  end.
Proof.
  intros s. split; [reflexivity|]. split; [by vm_compute|].
  pose proof (start_listens (λ _, None) (λ p, p) demo_os (λ _, None) (make_server demo_config) s eq_refl) as H.
  apply wp_returns in H as ([[ok srv'] os'] & s' & E & Hc & _); [|by vm_compute]. rewrite E. exact Hc.
Defined.

End Startup.

(** ** The threads *)
Module Threads.

(** Where a worker thread is: not made, made but before the store of
    [is_active_] in [run], in its loop, past the loop, past its last store, or
    returned. *)
Inductive thread := NotStarted | Starting | Running | Leaving | Ending | Finished.

#[export] Instance thread_eq_dec : EqDecision thread.
Proof. solve_decision. Defined.

(** A session object: its [is_active_], whether [stop()] has shut its connection
    down, and its worker thread. *)
Record session_obj := mkObj { active : bool; shut : bool; phase : thread }.

(** The listening socket. *)
Inductive listen_state := LOpen | LShut | LClosed.

(** Where the thread that runs [accept_loop] is. [i] is the session in flight
    between [accept] and its registration; [kept] and [todo] are the entries of
    [workers_] that [cleanup_finished_sessions] has passed and has not.
    [MEmplacing] and [MUnlocking] are inside the second locked section, before
    and after the worker is added. *)
Inductive main_pc :=
| MCheck | MAccepting
| MCleanup (i : nat) | MCleaning (i : nat) (kept todo : list nat)
| MRegister (i : nat) | MEmplacing (i : nat) | MUnlocking | MReturned.

(** Where the call of [stop()] that won the compare-and-exchange is. [SShutting w
    todo]: inside [stop()] of the session of worker [w], whose compare-and-exchange
    succeeded. *)
Inductive stop_pc :=
| SIdle | SShutdown | SClosing | SLocking
| SStopping (todo : list nat) | SShutting (w : nat) (todo : list nat)
| SJoining (todo : list nat) | SReturned.

Inductive holder := HMain | HStop.

Record system := mkSystem {
  running : bool;
  listener : listen_state;
  sessions : list session_obj;    (* in the order of [accept] *)
  workers : list nat;             (* [workers_]: indices into [sessions] *)
  mutex : option holder;          (* [workers_mutex_] *)
  main : main_pc;
  stopper : stop_pc;
  on_main : bool                  (* [stop()] runs in a signal handler on the main thread *) }.

(** The state when [accept_loop] is entered. *)
Definition started : system := mkSystem true LOpen [] [] None MCheck SIdle false.

Definition set_main (pc : main_pc) (st : system) : system :=
  mkSystem (running st) (listener st) (sessions st) (workers st) (mutex st) pc (stopper st) (on_main st).
Definition set_stopper (pc : stop_pc) (st : system) : system :=
  mkSystem (running st) (listener st) (sessions st) (workers st) (mutex st) (main st) pc (on_main st).
Definition set_listener (l : listen_state) (st : system) : system :=
  mkSystem (running st) l (sessions st) (workers st) (mutex st) (main st) (stopper st) (on_main st).
Definition set_mutex (m : option holder) (st : system) : system :=
  mkSystem (running st) (listener st) (sessions st) (workers st) m (main st) (stopper st) (on_main st).
Definition set_workers (ws : list nat) (st : system) : system :=
  mkSystem (running st) (listener st) (sessions st) ws (mutex st) (main st) (stopper st) (on_main st).
Definition set_session (i : nat) (s : session_obj) (st : system) : system :=
  mkSystem (running st) (listener st) (<[i := s]> (sessions st)) (workers st) (mutex st) (main st)
    (stopper st) (on_main st).

(** *** The main thread *)

(** [while (is_running_)] *)
Definition check_running (st : system) : option system :=
  match main st with
  | MCheck => Some (set_main (if running st then MAccepting else MReturned) st)
  | _ => None
  end.

(** [accept] takes a connection, the session object is made. *)
Definition accept_ok (st : system) : option system :=
  match main st, listener st with
  | MAccepting, LOpen =>
      Some (mkSystem (running st) (listener st) (sessions st ++ [mkObj true false NotStarted]) (workers st)
              (mutex st) (MCleanup (length (sessions st))) (stopper st) (on_main st))
  | _, _ => None
  end.

(** [accept] fails: [break] when the server was stopped, else [continue]. *)
Definition accept_fail (st : system) : option system :=
  match main st with
  | MAccepting => Some (set_main (if running st then MCheck else MReturned) st)
  | _ => None
  end.

(** [accept] returns because the listening socket was shut down or closed. *)
Definition accept_interrupted (st : system) : option system :=
  match listener st with LOpen => None | _ => accept_fail st end.

(** [cleanup_finished_sessions]: lock, one turn of the loop, unlock. *)
Definition clean_lock (st : system) : option system :=
  match main st, mutex st with
  | MCleanup i, None => Some (set_mutex (Some HMain) (set_main (MCleaning i [] (workers st)) st))
  | _, _ => None
  end.

Definition clean_next (st : system) : option system :=
  match main st with
  | MCleaning i kept (w :: todo) =>
      match sessions st !! w with
      | Some s =>
          if active s then Some (set_main (MCleaning i (kept ++ [w]) todo) st)
          else
            (* [join] returns once the thread has *)
            match phase s with
            | Finished => Some (set_workers (kept ++ todo) (set_main (MCleaning i kept todo) st))
            | _ => None
            end
      | None => None
      end
  | _ => None
  end.

Definition clean_unlock (st : system) : option system :=
  match main st with
  | MCleaning i _ [] => Some (set_mutex None (set_main (MRegister i) st))
  | _ => None
  end.

(** The registration: lock, the worker is added and its thread started, unlock. *)
Definition register_lock (st : system) : option system :=
  match main st, mutex st with
  | MRegister i, None => Some (set_mutex (Some HMain) (set_main (MEmplacing i) st))
  | _, _ => None
  end.

Definition register (st : system) : option system :=
  match main st with
  | MEmplacing i =>
      match sessions st !! i with
      | Some s =>
          Some (set_workers (workers st ++ [i])
                 (set_session i (mkObj (active s) (shut s) Starting) (set_main MUnlocking st)))
      | None => None
      end
  | _ => None
  end.

Definition register_unlock (st : system) : option system :=
  match main st with
  | MUnlocking => Some (set_mutex None (set_main MCheck st))
  | _ => None
  end.

(** *** [stop()] *)

(** The compare-and-exchange; [here]: on the main thread, in a signal handler. *)
Definition stop_cas (here : bool) (st : system) : option system :=
  if running st then
    Some (mkSystem false (listener st) (sessions st) (workers st) (mutex st) (main st) SShutdown here)
  else None.

(** A signal that arrives on the main thread: [running_instance_] points to the
    server while the accept loop runs. *)
Definition SIGINT : Z := 2.
Definition SIGTERM : Z := 15.

Definition handle_signal (signum : Z) (st : system) : option system :=
  if (signum =? SIGINT) || (signum =? SIGTERM) then stop_cas true st else None.

(** The listening socket is shut down, then closed. *)
Definition stop_shutdown (st : system) : option system :=
  match stopper st with
  | SShutdown => Some (set_stopper SClosing (set_listener LShut st))
  | _ => None
  end.

Definition stop_close (st : system) : option system :=
  match stopper st with
  | SClosing => Some (set_stopper SLocking (set_listener LClosed st))
  | _ => None
  end.

Definition stop_lock (st : system) : option system :=
  match stopper st, mutex st with
  | SLocking, None => Some (set_mutex (Some HStop) (set_stopper (SStopping (workers st)) st))
  | _, _ => None
  end.

(** [worker.session->stop()], one worker after the other: its
    compare-and-exchange of [is_active_] ... *)
Definition stop_next (st : system) : option system :=
  match stopper st with
  | SStopping (w :: todo) =>
      match sessions st !! w with
      | Some s =>
          if active s then Some (set_session w (mkObj false (shut s) (phase s)) (set_stopper (SShutting w todo) st))
          else Some (set_stopper (SStopping todo) st)
      | None => None
      end
  | SStopping [] => Some (set_stopper (SJoining (workers st)) st)
  | _ => None
  end.

(** ... and, when it succeeded, the shutdown and the close of its socket. *)
Definition stop_session (st : system) : option system :=
  match stopper st with
  | SShutting w todo =>
      match sessions st !! w with
      | Some s => Some (set_session w (mkObj (active s) true (phase s)) (set_stopper (SStopping todo) st))
      | None => None
      end
  | _ => None
  end.

(** [worker.worker_thread.join()] *)
Definition stop_join (st : system) : option system :=
  match stopper st with
  | SJoining (w :: todo) =>
      match sessions st !! w with
      | Some s => match phase s with Finished => Some (set_stopper (SJoining todo) st) | _ => None end
      | None => None
      end
  | _ => None
  end.

(** [workers_.clear()], and the lock is released. *)
Definition stop_clear (st : system) : option system :=
  match stopper st with
  | SJoining [] => Some (set_mutex None (set_workers [] (set_stopper SReturned st)))
  | _ => None
  end.

(** *** The worker threads ([ClientSession::run]) *)
Definition thread_begin (i : nat) (st : system) : option system :=
  match sessions st !! i with
  | Some s => match phase s with Starting => Some (set_session i (mkObj true (shut s) Running) st) | _ => None end
  | None => None
  end.

(** The loop is left because [stop()] shut the connection down: the pending or
    next [recv] or [send] fails. *)
Definition thread_stopped (i : nat) (st : system) : option system :=
  match sessions st !! i with
  | Some s =>
      match phase s with
      | Running => if shut s then Some (set_session i (mkObj (active s) true Leaving) st) else None
      | _ => None
      end
  | None => None
  end.

(** The loop is left because the client hung up or its [recv] timed out. *)
Definition thread_hangup (i : nat) (st : system) : option system :=
  match sessions st !! i with
  | Some s => match phase s with Running => Some (set_session i (mkObj (active s) (shut s) Leaving) st) | _ => None end
  | None => None
  end.

(** A handler stores [is_active_ = false], after QUIT or a failed [send]; the loop
    test then fails. *)
Definition thread_drop (i : nat) (st : system) : option system :=
  match sessions st !! i with
  | Some s => match phase s with Running => Some (set_session i (mkObj false (shut s) Leaving) st) | _ => None end
  | None => None
  end.

(** The loop test, when the thread gets to it after the flag was cleared. *)
Definition thread_test (i : nat) (st : system) : option system :=
  match sessions st !! i with
  | Some s =>
      match phase s with
      | Running => if active s then None else Some (set_session i (mkObj false (shut s) Leaving) st)
      | _ => None
      end
  | None => None
  end.

(** The last store of [is_active_], then [socket_.close()] and the return. *)
Definition thread_end (i : nat) (st : system) : option system :=
  match sessions st !! i with
  | Some s => match phase s with Leaving => Some (set_session i (mkObj false (shut s) Ending) st) | _ => None end
  | None => None
  end.

Definition thread_exit (i : nat) (st : system) : option system :=
  match sessions st !! i with
  | Some s => match phase s with Ending => Some (set_session i (mkObj (active s) (shut s) Finished) st) | _ => None end
  | None => None
  end.

(** A handler that runs on the main thread suspends it. *)
Definition main_enabled (st : system) : bool :=
  negb (on_main st) || match stopper st with SIdle | SReturned => true | _ => false end.

Definition main_ops : list (system → option system) :=
  [check_running; accept_interrupted; clean_lock; clean_next; clean_unlock; register_lock; register; register_unlock].
Definition accept_ops : list (system → option system) := [accept_ok; accept_fail].
Definition stop_ops : list (system → option system) :=
  [stop_cas false; handle_signal SIGINT; handle_signal SIGTERM; stop_shutdown; stop_close; stop_lock; stop_next;
   stop_session; stop_join; stop_clear].
Definition thread_ops (i : nat) : list (system → option system) :=
  [thread_begin i; thread_stopped i; thread_end i; thread_exit i].
Definition client_ops (i : nat) : list (system → option system) :=
  [thread_hangup i; thread_drop i; thread_test i].

(** The steps the server makes without any help: no client connects, sends,
    reads, hangs up or times out, and [accept] on the open socket does not
    return. *)
Inductive own_step (st st' : system) : Prop :=
| main_step op : op ∈ main_ops → main_enabled st = true → op st = Some st' → own_step st st'
| stop_step op : op ∈ stop_ops → op st = Some st' → own_step st st'
| thread_step i op : op ∈ thread_ops i → op st = Some st' → own_step st st'.

Inductive step (st st' : system) : Prop :=
| server_step : own_step st st' → step st st'
| accept_step op : op ∈ accept_ops → main_enabled st = true → op st = Some st' → step st st'
| client_step i op : op ∈ client_ops i → op st = Some st' → step st st'.

Definition reachable : system → Prop := rtc step started.

(** *** The invariant *)
Definition in_flight (st : system) : option nat :=
  match main st with MCleanup i | MCleaning i _ _ | MRegister i | MEmplacing i => Some i | _ => None end.

(** A thread that was started and has not returned. *)
Definition live (p : thread) : bool := match p with Starting | Running | Leaving | Ending => true | _ => false end.
Definition over (p : thread) : bool := match p with Ending | Finished => true | _ => false end.
(** A thread that has not left its loop: it may wait for its client. *)
Definition serving (p : thread) : bool := match p with NotStarted | Starting | Running => true | _ => false end.

Definition holds_lock (pc : stop_pc) : bool := match pc with SStopping _ | SShutting _ _ | SJoining _ => true | _ => false end.
Definition cleaning (pc : main_pc) : bool :=
  match pc with MCleaning _ _ _ | MEmplacing _ | MUnlocking => true | _ => false end.

(** The workers [stop()] has yet to shut down, while it holds the lock. *)
Definition pending (pc : stop_pc) : option (list nat) :=
  match pc with SStopping l => Some l | SShutting w l => Some (w :: l) | SJoining _ => Some [] | _ => None end.

(** [stop()] has not cleared the flag of worker [i]. *)
Definition untouched (pc : stop_pc) (i : nat) : Prop :=
  match pc with SStopping l | SShutting _ l => i ∈ l | SJoining _ => False | _ => True end.

Definition finished (st : system) (i : nat) : Prop := ∃ s, sessions st !! i = Some s ∧ phase s = Finished.

Record inv (st : system) : Prop := {
  inv_nodup : NoDup (workers st);
  inv_started : ∀ i, i ∈ workers st → ∃ s, sessions st !! i = Some s ∧ phase s ≠ NotStarted;
  inv_live : ∀ i s, sessions st !! i = Some s → live (phase s) = true → i ∈ workers st;
  inv_flight : ∀ i, in_flight st = Some i →
    S i = length (sessions st) ∧ ∃ s, sessions st !! i = Some s ∧ phase s = NotStarted;
  inv_waiting : ∀ i s, sessions st !! i = Some s → phase s = NotStarted → in_flight st = Some i;
  inv_inactive : ∀ i s, sessions st !! i = Some s → over (phase s) = true → active s = false;
  inv_serving : ∀ i s, sessions st !! i = Some s → serving (phase s) = true →
    (i ∈ workers st → untouched (stopper st) i) → active s = true;
  inv_halted : ∀ l i s, pending (stopper st) = Some l → sessions st !! i = Some s → serving (phase s) = true →
    i ∈ workers st → i ∈ l ∨ shut s = true;
  inv_lock : mutex st = if cleaning (main st) then Some HMain
                        else if holds_lock (stopper st) then Some HStop else None;
  inv_exclusive : cleaning (main st) = true → holds_lock (stopper st) = false;
  inv_clean : ∀ i k l, main st = MCleaning i k l → workers st = k ++ l;
  inv_pending : ∀ l, pending (stopper st) = Some l → l `suffix_of` workers st;
  inv_joining : ∀ l, stopper st = SJoining l → ∃ d, workers st = d ++ l ∧ Forall (finished st) d;
  inv_running : running st = true ↔ stopper st = SIdle;
  inv_returned : main st = MReturned → running st = false;
  inv_listener : listener st = match stopper st with SIdle | SShutdown => LOpen | SClosing => LShut | _ => LClosed end;
  inv_after : stopper st = SReturned → ∀ i, i ∈ workers st → S i = length (sessions st) }.

Lemma inv_init : inv started.
Proof. split; simpl; try done; try (by intros; set_solver). constructor. Qed.

Ltac op_cases H :=
  repeat (simplify_eq/=; match type of H with context [match ?x with _ => _ end] => destruct x eqn:? end);
  simplify_eq/=.

(** Which operation a step is. *)
Ltac pick_op Hop :=
  unfold main_ops, accept_ops, stop_ops, thread_ops, client_ops in Hop;
  rewrite !elem_of_cons, elem_of_nil in Hop; destruct_or! Hop; try done; subst.

(** The fields an operation does not touch are closed by [inv_fields]. *)
Ltac inv_fields :=
  split; unfold in_flight, set_main, set_stopper, set_listener, set_mutex, set_workers, set_session, finished in *;
  simpl in *; subst; simpl in *;
  try first [eassumption | done | by intros; congruence | by intros; simplify_eq/=; eauto].

(** One step of the main thread or of [stop()]. *)
Ltac inv_op op :=
  match goal with |- inv ?st → _ → _ => destruct st as [r li ss ws m pc sp om] end;
  intros [] H; unfold op in H; simpl in *; op_cases H; inv_fields.

Lemma inv_check_running st st' : inv st → check_running st = Some st' → inv st'.
Proof. inv_op check_running. all: destruct r; naive_solver. Qed.

Lemma inv_accept_fail st st' : inv st → accept_fail st = Some st' → inv st'.
Proof. inv_op accept_fail. all: destruct r; naive_solver. Qed.

Lemma inv_accept_interrupted st st' : inv st → accept_interrupted st = Some st' → inv st'.
Proof. unfold accept_interrupted. destruct (listener st); [done|apply inv_accept_fail..]. Qed.

Lemma inv_clean_lock st st' : inv st → clean_lock st = Some st' → inv st'.
Proof. inv_op clean_lock. all: intros; destruct (holds_lock sp); done. Qed.

Lemma inv_clean_unlock st st' : inv st → clean_unlock st = Some st' → inv st'.
Proof. inv_op clean_unlock. by rewrite inv_exclusive0. Qed.

Lemma inv_register_lock st st' : inv st → register_lock st = Some st' → inv st'.
Proof. inv_op register_lock. all: intros; destruct (holds_lock sp); done. Qed.

Lemma inv_register_unlock st st' : inv st → register_unlock st = Some st' → inv st'.
Proof. inv_op register_unlock. by rewrite inv_exclusive0. Qed.

(** While the main thread holds the lock, [stop()] does not. *)
Lemma not_pending pc l : holds_lock pc = false → pending pc ≠ Some l.
Proof. by destruct pc. Qed.

Lemma not_touched pc i : holds_lock pc = false → untouched pc i.
Proof. by destruct pc. Qed.

Lemma inv_clean_next st st' : inv st → clean_next st = Some st' → inv st'.
Proof.
  inv_op clean_next.
  - intros i' k' l' [= <- <- <-]. rewrite <-app_assoc. by apply (inv_clean0 i).
  - rewrite (inv_clean0 _ _ _ eq_refl) in inv_nodup0.
    rewrite <-Permutation_middle in inv_nodup0. by apply NoDup_cons in inv_nodup0 as [_ ?].
  - intros j Hj. apply inv_started0. rewrite (inv_clean0 _ _ _ eq_refl). set_solver.
  - intros j s' Hs' Hl. specialize (inv_live0 j s' Hs' Hl). rewrite (inv_clean0 _ _ _ eq_refl) in inv_live0.
    apply elem_of_app in inv_live0 as [?|[->|?]%elem_of_cons]; [set_solver| |set_solver].
    exfalso. simplify_eq. match goal with E : phase _ = Finished |- _ => rewrite E in Hl end. done.
  - intros j s' Hs' Hl _. apply (inv_serving0 j s' Hs' Hl). intros _. by apply not_touched, inv_exclusive0.
  - intros l' j s' Hp. by apply (not_pending sp l') in Hp; [|apply inv_exclusive0].
  - intros l' Hp. by apply (not_pending sp l') in Hp; [|apply inv_exclusive0].
  - intros l' ->. by specialize (inv_exclusive0 eq_refl).
  - intros -> j Hj. apply inv_after0; [done|]. rewrite (inv_clean0 _ _ _ eq_refl). set_solver.
Qed.

Lemma inv_accept_ok st st' : inv st → accept_ok st = Some st' → inv st'.
Proof.
  inv_op accept_ok.
  - intros i Hi. destruct (inv_started0 i Hi) as (s & Hs & Hp). exists s. split; [|done]. by apply lookup_app_l_Some.
  - intros i s [Hs|[_ Hs]]%lookup_app_Some; [by eauto|]. apply list_lookup_singleton_Some in Hs as [_ <-]. done.
  - intros i [= <-]. rewrite length_app. split; [simpl; lia|]. eexists.
    split; [apply list_lookup_middle; done|done].
  - intros i s [Hs|[Hlen Hs]]%lookup_app_Some Hp; [by specialize (inv_waiting0 i s Hs Hp)|].
    apply list_lookup_singleton_Some in Hs as [H0 _]. f_equal. lia.
  - intros i s [Hs|[_ Hs]]%lookup_app_Some; [by eauto|]. apply list_lookup_singleton_Some in Hs as [_ <-]. done.
  - intros i s [Hs|[_ Hs]]%lookup_app_Some; [by eauto|]. apply list_lookup_singleton_Some in Hs as [_ <-]. done.
  - intros l i s Hp [Hs|[_ Hs]]%lookup_app_Some; [by eauto|]. by destruct sp.
Qed.

Lemma inv_register st st' : inv st → register st = Some st' → inv st'.
Proof.
  inv_op register.
  all: destruct (inv_flight0 i eq_refl) as (Hlen & s0 & Hs0 & Hp0); simplify_eq.
  - apply NoDup_app. split_and!; [done| |apply NoDup_singleton]. intros j Hj H%list_elem_of_singleton. subst j.
    destruct (inv_started0 i Hj) as (? & ? & ?). by simplify_eq.
  - intros j [Hj|H%list_elem_of_singleton]%elem_of_app; [|subst j].
    + destruct (inv_started0 j Hj) as (s' & Hs' & ?). exists s'. split; [|done].
      rewrite list_lookup_insert_ne; [done|]. intros ->. by simplify_eq.
    + eexists. split; [apply list_lookup_insert_eq; lia|done].
  - intros j s'. rewrite list_lookup_insert_Some, elem_of_app, list_elem_of_singleton.
    intros [(-> & _)|[_ Hs']]; [by right|]. left. by eapply inv_live0.
  - intros j s'. rewrite list_lookup_insert_Some. intros [(_ & <- & _)|[Hne Hs']] Hp; [done|].
    specialize (inv_waiting0 _ _ Hs' Hp). congruence.
  - intros j s'. rewrite list_lookup_insert_Some. intros [(_ & <- & _)|[Hne Hs']] Hp; [done|]. by eapply inv_inactive0.
  - assert (∀ j, untouched sp j) as Hu by (intros; apply not_touched, inv_exclusive0; done).
    intros j s'. rewrite list_lookup_insert_Some. intros [(-> & <- & _)|[Hne Hs']] Hp _; simpl.
    + eapply inv_serving0; [eassumption|by rewrite Hp0|auto].
    + eapply (inv_serving0 _ _ Hs'); [done|auto].
  - intros l' j s' Hp. by apply (not_pending sp l') in Hp; [|apply inv_exclusive0].
  - intros l' Hp. by apply (not_pending sp l') in Hp; [|apply inv_exclusive0].
  - intros l' ->. by specialize (inv_exclusive0 eq_refl).
  - intros Hsp j [Hj|H%list_elem_of_singleton]%elem_of_app; rewrite length_insert; [by apply inv_after0|by subst j].
Qed.

Lemma inv_stop_cas b st st' : inv st → stop_cas b st = Some st' → inv st'.
Proof. inv_op stop_cas. all: assert (sp = SIdle) as -> by naive_solver; try done; naive_solver. Qed.

Lemma inv_stop_shutdown st st' : inv st → stop_shutdown st = Some st' → inv st'.
Proof. inv_op stop_shutdown. naive_solver. Qed.

Lemma inv_stop_close st st' : inv st → stop_close st = Some st' → inv st'.
Proof. inv_op stop_close. naive_solver. Qed.

Lemma inv_stop_lock st st' : inv st → stop_lock st = Some st' → inv st'.
Proof. inv_op stop_lock. all: intros; destruct (cleaning pc); naive_solver. Qed.

Lemma inv_stop_join st st' : inv st → stop_join st = Some st' → inv st'.
Proof.
  inv_op stop_join; [|naive_solver]. intros l' [= <-]. destruct (inv_joining0 _ eq_refl) as (d & -> & Hd).
  exists (d ++ [n]). split; [by rewrite <-app_assoc|]. apply Forall_app. split; [done|]. naive_solver.
Qed.

Lemma inv_stop_clear st st' : inv st → stop_clear st = Some st' → inv st'.
Proof.
  intros Hinv H. assert (∀ i s, sessions st !! i = Some s → live (phase s) = false) as Hno.
  { intros i s Hs. apply not_true_iff_false. intros Hl. unfold stop_clear in H. op_cases H.
    destruct (inv_joining _ Hinv _ ltac:(eassumption)) as (d & Hw & Hd). rewrite app_nil_r in Hw. subst d.
    rewrite Forall_forall in Hd. destruct (Hd i) as (s' & Hs' & Hp); [by eapply inv_live|]. simplify_eq.
    by rewrite Hp in Hl. }
  revert Hinv H. inv_op stop_clear.
  - constructor.
  - set_solver.
  - intros i s Hs Hl. by rewrite (Hno i s Hs) in Hl.
  - intros i s Hs Hp _. apply (inv_serving0 i s Hs Hp). intros Hi.
    destruct (inv_started0 i Hi) as (s' & Hs' & Hn). rewrite Hs in Hs'. injection Hs' as <-.
    specialize (Hno i s Hs). by destruct (phase s).
  - destruct (cleaning pc); [|done]. by specialize (inv_exclusive0 eq_refl).
  - intros i k l' ->. by specialize (inv_exclusive0 eq_refl).
  - naive_solver.
  - set_solver.
Qed.

(** A change of one session object. *)
Lemma inv_set_session i s s' st :
  inv st → sessions st !! i = Some s →
  (phase s = NotStarted ↔ phase s' = NotStarted) → (live (phase s') = true → live (phase s) = true) →
  (over (phase s') = true → active s' = false) → (phase s = Finished → phase s' = Finished) →
  (serving (phase s') = true →
     serving (phase s) = true ∧ ((i ∈ workers st → untouched (stopper st) i) → active s' = true) ∧
     (shut s = true → shut s' = true)) →
  inv (set_session i s' st).
Proof.
  intros [] Hs Hns Hlive Hover Hfin Hserv.
  assert (∀ P : session_obj → Prop, (P s → P s') → ∀ j, (∃ x, sessions st !! j = Some x ∧ P x) →
            ∃ x, <[i:=s']> (sessions st) !! j = Some x ∧ P x) as Hmap.
  { intros P HP j (x & Hx & Hp). destruct (decide (i = j)) as [<-|Hne].
    - exists s'. rewrite list_lookup_insert_eq by (by eapply lookup_lt_Some). simplify_eq. auto.
    - exists x. by rewrite list_lookup_insert_ne. }
  split; unfold in_flight, finished in *; simpl; try done; rewrite ?length_insert; try done.
  - intros j Hj. apply Hmap; [tauto|]. by apply inv_started0.
  - intros j x. rewrite list_lookup_insert_Some. intros [(<- & -> & _)|[_ Hx]]; eauto.
  - intros j Hj. destruct (inv_flight0 j Hj) as [? H]. split; [done|]. apply Hmap; [tauto|done].
  - intros j x. rewrite list_lookup_insert_Some. intros [(<- & -> & _)|[_ Hx]]; [|by eauto].
    intros Hp. eapply inv_waiting0; [exact Hs|tauto].
  - intros j x. rewrite list_lookup_insert_Some. intros [(<- & -> & _)|[_ Hx]]; eauto.
  - intros j x. rewrite list_lookup_insert_Some. intros [(<- & -> & _)|[_ Hx]]; [|by eauto].
    intros Hp Hu. by apply Hserv.
  - intros l j x Hl. rewrite list_lookup_insert_Some. intros [(<- & -> & _)|[_ Hx]]; [|by eauto].
    intros Hp Hi. destruct (Hserv Hp) as (Hp' & _ & Hsh). destruct (inv_halted0 l i s Hl Hs Hp' Hi); auto.
  - intros l Hl. destruct (inv_joining0 l Hl) as (d & Hw & Hd). exists d. split; [done|].
    eapply Forall_impl; [exact Hd|]. intros j. apply Hmap. done.
Qed.

Lemma inv_threads i op st st' : op ∈ thread_ops i ∨ op ∈ client_ops i → inv st → op st = Some st' → inv st'.
Proof.
  intros Hop Hinv H. assert (∀ s, sessions st !! i = Some s → over (phase s) = true → active s = false) as Hi
    by apply Hinv.
  destruct Hop as [Hop|Hop]; pick_op Hop;
    unfold thread_begin, thread_stopped, thread_hangup, thread_drop, thread_test, thread_end, thread_exit in H;
    destruct (sessions st !! i) as [s|] eqn:Hs; try done; destruct (phase s) eqn:Hp; try done;
    try (destruct (shut s) eqn:?; [|done]); try (destruct (active s) eqn:?; [done|]); injection H as <-;
    apply (inv_set_session i s); rewrite ?Hp; simpl; try done.
  intros _. apply Hi; [done|by rewrite Hp].
Qed.

(** [stop()] moves on to the next worker. *)
Lemma inv_stopping_next w l pc st :
  inv st → stopper st = pc → pending pc = Some (w :: l) →
  (∀ s, sessions st !! w = Some s → serving (phase s) = true → w ∈ workers st → shut s = true) →
  inv (set_stopper (SStopping l) st).
Proof.
  intros Hinv Hsp Hpc Hw.
  assert (holds_lock pc = true) as Hh by by destruct pc.
  assert (∀ j, j ∈ l → untouched pc j) as Hu by (destruct pc; naive_solver set_solver).
  assert (pc ≠ SIdle ∧ cleaning (main st) = false) as [Hni Hc].
  { split; [by intros ->|]. apply not_true_iff_false. intros Hc. apply (inv_exclusive _ Hinv) in Hc. congruence. }
  destruct st as [r li ss ws m mpc sp om], Hinv. simpl in *. subst sp. split; simpl; try done.
  - intros j s Hs Hp Hj. apply (inv_serving0 j s Hs Hp). auto.
  - intros l' j s [= <-] Hs Hp Hj. destruct (inv_halted0 _ j s Hpc Hs Hp Hj) as [[->|]%elem_of_cons|]; eauto.
  - by rewrite inv_lock0, Hc, Hh.
  - congruence.
  - intros l' [= <-]. etrans; [|exact (inv_pending0 _ Hpc)]. by apply suffix_cons_r.
  - naive_solver.
  - rewrite inv_listener0. by destruct pc.
Qed.

Lemma inv_stop_next st st' : inv st → stop_next st = Some st' → inv st'.
Proof.
  intros Hinv H. unfold stop_next in H. destruct (stopper st) as [| | | |[|w l]|w l| |] eqn:Hsp; try done.
  - injection H as <-. revert Hsp. destruct st as [r li ss ws m pc sp om], Hinv. simpl in *. intros ->.
    inv_fields.
    + intros i s Hs Hp Hu. apply (inv_serving0 i s Hs Hp). intros Hi. destruct (Hu Hi).
    + intros l' [= <-]. by exists [].
    + naive_solver.
  - destruct (sessions st !! w) as [s|] eqn:Hs; [|done].
    destruct (inv_pending _ Hinv (w :: l)) as (d & Hd); [by rewrite Hsp|].
    assert (w ∈ workers st) as Hw by (rewrite Hd; set_solver).
    assert (w ∉ l) as Hnd.
    { pose proof (inv_nodup _ Hinv) as Hn. rewrite Hd in Hn. apply NoDup_app in Hn as (_ & _ & Hn).
      by apply NoDup_cons in Hn as [? _]. }
    destruct (active s) eqn:Ha; injection H as <-.
    + apply (inv_set_session w s); simpl; try done; [|by intros; split_and!; auto; intros Hu; destruct Hnd; apply Hu].
      revert Hsp. clear Hs. destruct st as [r li ss ws m pc sp om], Hinv. simpl in *. intros ->.
      inv_fields. all: naive_solver set_solver.
    + apply (inv_stopping_next w l (SStopping (w :: l))); [done..|]. intros s' Hs' Hp _. simplify_eq.
      exfalso. assert (active s = true); [|congruence]. apply (inv_serving _ Hinv w s Hs Hp). intros _.
      rewrite Hsp. by left.
Qed.

Lemma inv_stop_session st st' : inv st → stop_session st = Some st' → inv st'.
Proof.
  intros Hinv H. unfold stop_session in H. destruct (stopper st) as [| | | | |w l| |] eqn:Hsp; try done.
  destruct (sessions st !! w) as [s|] eqn:Hs; [|done]. injection H as <-.
  apply (inv_stopping_next w l (SShutting w l) (set_session w (mkObj (active s) true (phase s)) st)); [|done|done|].
  - apply (inv_set_session w s (mkObj (active s) true (phase s)) st Hinv Hs); simpl; try done.
    + by apply (inv_inactive _ Hinv w).
    + intros Hp. split_and!; [done|by apply (inv_serving _ Hinv w)|done].
  - simpl. intros s'. rewrite list_lookup_insert_eq by (by eapply lookup_lt_Some). by intros [= <-].
Qed.

Lemma inv_own_step : preserved own_step inv.
Proof.
  intros st st' Hstep H. destruct Hstep as [op Hop _ E|op Hop E|i op Hop E]; [| |by eapply inv_threads; [left|..]].
  - pick_op Hop.
    + by eapply inv_check_running.
    + by eapply inv_accept_interrupted.
    + by eapply inv_clean_lock.
    + by eapply inv_clean_next.
    + by eapply inv_clean_unlock.
    + by eapply inv_register_lock.
    + by eapply inv_register.
    + by eapply inv_register_unlock.
  - pick_op Hop.
    + by eapply inv_stop_cas.
    + by eapply (inv_stop_cas true).
    + by eapply (inv_stop_cas true).
    + by eapply inv_stop_shutdown.
    + by eapply inv_stop_close.
    + by eapply inv_stop_lock.
    + by eapply inv_stop_next.
    + by eapply inv_stop_session.
    + by eapply inv_stop_join.
    + by eapply inv_stop_clear.
Qed.

Lemma inv_step : preserved step inv.
Proof.
  intros st st' Hstep H. destruct Hstep as [Hown|op Hop _ E|i op Hop E].
  - by eapply inv_own_step.
  - pick_op Hop; [by eapply inv_accept_ok|by eapply inv_accept_fail].
  - by eapply inv_threads; [right|..].
Qed.

Lemma inv_rtc st st' : rtc step st st' → inv st → inv st'.
Proof. induction 1 as [|x y z Hxy _ IH]; [done|]. intros H. apply IH. by eapply inv_step. Qed.

Lemma inv_reachable st : reachable st → inv st.
Proof. intros H. eapply inv_rtc; [exact H|apply inv_init]. Qed.

(** *** Shutdown by the server's own steps *)

(** How much a thread has left to do; a thread not yet made counts for the longer
    registry it leads to. *)
Definition thread_work (s : session_obj) : nat :=
  match phase s with NotStarted => 9 | Starting => 4 | Running => 3 | Leaving => 2 | Ending => 1 | Finished => 0 end.

Definition main_work (st : system) : nat :=
  match main st with
  | MReturned => 0 | MAccepting => 1 | MCheck => 2 | MUnlocking => 3 | MEmplacing _ => 4 | MRegister _ => 5
  | MCleaning _ _ l => 6 + length l
  | MCleanup _ => 7 + length (workers st)
  end.

Definition stop_work (st : system) : nat :=
  let n := length (workers st) in
  match stopper st with
  | SReturned => 0
  | SJoining l => 1 + length l
  | SStopping l => 2 + 2 * length l + n
  | SShutting _ l => 3 + 2 * length l + n
  | SLocking => 3 + 3 * n
  | SClosing => 4 + 3 * n
  | SShutdown => 5 + 3 * n
  | SIdle => 6 + 3 * n
  end.

Definition work (st : system) : nat :=
  sum_list_with thread_work (sessions st) + main_work st + stop_work st.

Lemma sum_insert {A} (f : A → nat) (l : list A) i x y :
  l !! i = Some x → (sum_list_with f (<[i:=y]> l) + f x = sum_list_with f l + f y)%nat.
Proof. revert i. induction l as [|z l IH]; intros [|i] H; simplify_eq/=; [lia|]. specialize (IH i H). lia. Qed.

(** Unfolds the work of two states and compares it. *)
Ltac compare_work :=
  unfold work, main_work, stop_work; simpl;
  repeat match goal with
  | Hs : ?l !! ?i = Some ?s |- context [<[?i:=?y]> ?l] =>
      pose proof (sum_insert thread_work l i s y Hs); generalize dependent (<[i:=y]> l); intros
  end;
  unfold thread_work in *; simpl in *;
  repeat match goal with H : phase _ = _ |- _ => rewrite H in *; clear H end;
  rewrite ?length_app; simpl; try lia.

Lemma main_step_work op st st' :
  inv st → op ∈ main_ops → op st = Some st' → (work st' < work st)%nat.
Proof.
  intros Hinv Hop E.
  assert (listener st ≠ LOpen → running st = false) as Hr.
  { rewrite (inv_listener _ Hinv). intros Hli. apply not_true_iff_false. intros Hr.
    apply (inv_running _ Hinv) in Hr. by rewrite Hr in Hli. }
  pose proof (inv_clean _ Hinv) as Hcl. pose proof (inv_flight _ Hinv) as Hfl. clear Hinv.
  destruct st as [r li ss ws m pc sp om]. simpl in *. pick_op Hop;
    unfold check_running, accept_interrupted, accept_fail, clean_lock, clean_next, clean_unlock, register_lock, register,
      register_unlock in E; simpl in E.
  - op_cases E; destruct r; compare_work.
  - op_cases E; rewrite Hr by done; compare_work.
  - op_cases E; compare_work.
  - op_cases E; rewrite ?(Hcl _ _ _ eq_refl); compare_work. all: destruct sp; simpl; rewrite ?length_app; simpl; lia.
  - op_cases E; compare_work.
  - op_cases E; compare_work.
  - destruct pc as [| | | | |i| |]; try done. destruct (Hfl i eq_refl) as (_ & s & Hs & Hp). rewrite Hs in E.
    injection E as <-. compare_work. destruct sp; simpl; rewrite ?length_app; simpl; lia.
  - op_cases E; compare_work.
Qed.

Lemma stop_step_work op st st' : op ∈ stop_ops → inv st → op st = Some st' → (work st' < work st)%nat.
Proof.
  intros Hop Hinv E. pose proof (inv_running _ Hinv) as Hrun. clear Hinv.
  destruct st as [r li ss ws m pc sp om]. simpl in *. pick_op Hop;
    unfold handle_signal, stop_cas, stop_shutdown, stop_close, stop_lock, stop_next, stop_session, stop_join,
      stop_clear in E; simpl in E; op_cases E; try rewrite (proj1 Hrun eq_refl) in *; compare_work.
  destruct pc; simpl; lia.
Qed.

Lemma thread_step_work i op st st' : op ∈ thread_ops i → op st = Some st' → (work st' < work st)%nat.
Proof.
  intros Hop E. destruct st as [r li ss ws m pc sp om]. simpl in *.
  pick_op Hop; unfold thread_begin, thread_stopped, thread_end, thread_exit in E; simpl in E;
    destruct (ss !! i) as [s|] eqn:Hs; try done; destruct (phase s) eqn:Hp; try done;
    try (destruct (shut s); [|done]); injection E as <-; compare_work.
Qed.

(** Every step the server makes on its own is progress. *)
Lemma own_step_work st st' : inv st → own_step st st' → (work st' < work st)%nat.
Proof.
  intros Hinv [op Hop _ E|op Hop E|i op Hop E].
  - by eapply main_step_work.
  - by eapply stop_step_work.
  - by eapply thread_step_work.
Qed.

(** The main thread holds the lock and is suspended by a handler that runs
    [stop()]. *)
Definition blocked (st : system) : Prop := main_enabled st = false ∧ mutex st = Some HMain.

Lemma main_enabled_after st : running st = false → inv st → main_enabled st = true ↔ on_main st = false ∨ stopper st = SReturned.
Proof.
  intros Hr Hinv. assert (stopper st ≠ SIdle) as Hs by (intros E; apply (inv_running _ Hinv) in E; congruence).
  unfold main_enabled. destruct (on_main st), (stopper st); simpl; naive_solver.
Qed.

Lemma own_step_stopped st st' :
  own_step st st' → inv st → running st = false → ¬ blocked st → running st' = false ∧ ¬ blocked st'.
Proof.
  intros Hstep Hinv Hr Hb. pose proof (main_enabled_after st Hr Hinv) as Hen. unfold blocked in *.
  destruct Hstep as [op Hop Hm E|op Hop E|i op Hop E].
  - assert (running st' = running st ∧ main_enabled st' = main_enabled st) as [-> ->]; [|split; [done|by intros [? _]; congruence]].
    clear -Hop E. pick_op Hop;
      unfold check_running, accept_interrupted, accept_fail, clean_lock, clean_next, clean_unlock, register_lock,
        register, register_unlock in E; op_cases E; done.
  - destruct st as [r li ss ws m pc sp om]. simpl in *. subst r.
    pick_op Hop; unfold handle_signal, stop_cas, stop_shutdown, stop_close, stop_lock, stop_next, stop_session,
      stop_join, stop_clear in E; simpl in E; op_cases E; (split; [done|]); unfold main_enabled in *; simpl in *;
      naive_solver.
  - assert (running st' = running st ∧ main_enabled st' = main_enabled st ∧ mutex st' = mutex st) as (-> & -> & ->);
      [|done]. clear -Hop E. pick_op Hop; unfold thread_begin, thread_stopped, thread_end, thread_exit in E;
      op_cases E; done.
Qed.

(** A thread that need not wait for its client can move. *)
Lemma worker_moves i s st :
  sessions st !! i = Some s → phase s ≠ NotStarted → phase s ≠ Finished → (phase s = Running → shut s = true) →
  red own_step st.
Proof.
  intros Hs Hn Hf Hrun. destruct (phase s) eqn:Hp; try done.
  - eexists. apply (thread_step _ _ i (thread_begin i)); [repeat constructor|]. unfold thread_begin. by rewrite Hs, Hp.
  - eexists. apply (thread_step _ _ i (thread_stopped i)); [repeat constructor|]. unfold thread_stopped.
    by rewrite Hs, Hp, Hrun.
  - eexists. apply (thread_step _ _ i (thread_end i)); [repeat constructor|]. unfold thread_end. by rewrite Hs, Hp.
  - eexists. apply (thread_step _ _ i (thread_exit i)); [repeat constructor|]. unfold thread_exit. by rewrite Hs, Hp.
Qed.

Lemma main_moves op st st' : op ∈ main_ops → main_enabled st = true → op st = Some st' → red own_step st.
Proof. intros. eexists. by eapply main_step. Qed.

Lemma stop_moves op st st' : op ∈ stop_ops → op st = Some st' → red own_step st.
Proof. intros. eexists. by eapply stop_step. Qed.

(** The locked sections of the main thread end: the workers a sweep joins were
    not stopped, so they are past their loop. *)
Lemma holder_moves st :
  inv st → main_enabled st = true → mutex st = Some HMain → red own_step st.
Proof.
  intros Hinv Hen Hm. assert (cleaning (main st) = true) as Hc.
  { pose proof (inv_lock _ Hinv) as Hl. rewrite Hm in Hl. by destruct (cleaning (main st)), (holds_lock (stopper st)). }
  destruct (main st) as [| | |i k [|w l]| |i| |] eqn:Hmain; try done.
  - eapply (main_moves clean_unlock); [repeat constructor|done|]. unfold clean_unlock. by rewrite Hmain.
  - pose proof (inv_clean _ Hinv _ _ _ Hmain) as Hw.
    destruct (inv_started _ Hinv w) as (s & Hs & Hp); [rewrite Hw; set_solver|].
    destruct (active s) eqn:Ha.
    { eapply (main_moves clean_next); [repeat constructor|done|]. unfold clean_next. by rewrite Hmain, Hs, Ha. }
    destruct (decide (phase s = Finished)) as [Hf|Hf].
    { eapply (main_moves clean_next); [repeat constructor|done|]. unfold clean_next. by rewrite Hmain, Hs, Ha, Hf. }
    apply (worker_moves w s); [done..|]. intros Hrun. exfalso.
    assert (active s = true); [|congruence]. apply (inv_serving _ Hinv w s Hs); [by rewrite Hrun|].
    intros _. apply not_touched, (inv_exclusive _ Hinv). by rewrite Hmain.
  - destruct (inv_flight _ Hinv i) as (_ & s & Hs & _); [unfold in_flight; by rewrite Hmain|].
    eapply (main_moves register); [repeat constructor|done|]. unfold register. by rewrite Hmain, Hs.
  - eapply (main_moves register_unlock); [repeat constructor|done|]. unfold register_unlock. by rewrite Hmain.
Qed.

(** [stop()] can always move, unless a handler waits for its own thread's lock:
    every worker it joins was shut down first. *)
Lemma stopper_moves st :
  inv st → running st = false → ¬ blocked st → stopper st ≠ SReturned → red own_step st.
Proof.
  intros Hinv Hr Hb Hs. assert (stopper st ≠ SIdle) as Hi by (intros E; apply (inv_running _ Hinv) in E; congruence).
  destruct (stopper st) as [| | | |[|w l]|w l|[|w l]|] eqn:Hsp; try done.
  - eapply (stop_moves stop_shutdown); [repeat constructor|]. unfold stop_shutdown. by rewrite Hsp.
  - eapply (stop_moves stop_close); [repeat constructor|]. unfold stop_close. by rewrite Hsp.
  - destruct (mutex st) as [[]|] eqn:Hm.
    + apply holder_moves; [done| |done]. apply not_false_iff_true. intros E. by destruct Hb.
    + pose proof (inv_lock _ Hinv) as Hl. rewrite Hm, Hsp in Hl. by destruct (cleaning (main st)).
    + eapply (stop_moves stop_lock); [repeat constructor|]. unfold stop_lock. by rewrite Hsp, Hm.
  - eapply (stop_moves stop_next); [repeat constructor|]. unfold stop_next. by rewrite Hsp.
  - destruct (inv_pending _ Hinv (w :: l)) as (d & Hd); [by rewrite Hsp|].
    destruct (inv_started _ Hinv w) as (s & Hl & _); [rewrite Hd; set_solver|].
    destruct (active s) eqn:Ha; eapply (stop_moves stop_next); try (by repeat constructor); unfold stop_next;
      by rewrite Hsp, Hl, Ha.
  - destruct (inv_pending _ Hinv (w :: l)) as (d & Hd); [by rewrite Hsp|].
    destruct (inv_started _ Hinv w) as (s & Hl & _); [rewrite Hd; set_solver|].
    eapply (stop_moves stop_session); [repeat constructor|]. unfold stop_session. by rewrite Hsp, Hl.
  - eapply (stop_moves stop_clear); [repeat constructor|]. unfold stop_clear. by rewrite Hsp.
  - destruct (inv_joining _ Hinv _ Hsp) as (d & Hd & _). assert (w ∈ workers st) as Hw by (rewrite Hd; set_solver).
    destruct (inv_started _ Hinv w Hw) as (s & Hl & Hp). destruct (decide (phase s = Finished)) as [Hf|Hf].
    + eapply (stop_moves stop_join); [repeat constructor|]. unfold stop_join. by rewrite Hsp, Hl, Hf.
    + apply (worker_moves w s); [done..|]. intros Hrun.
      destruct (inv_halted _ Hinv [] w s) as [H|H]; [by rewrite Hsp|done|by rewrite Hrun|done|set_solver|done].
Qed.

(** Once [stop()] has returned the accept loop can always move. *)
Lemma loop_moves st :
  inv st → stopper st = SReturned → main st ≠ MReturned → red own_step st.
Proof.
  intros Hinv Hsp Hm. assert (main_enabled st = true) as Hen.
  { unfold main_enabled. rewrite Hsp. by destruct (on_main st). }
  pose proof (inv_lock _ Hinv) as Hl. rewrite Hsp in Hl.
  destruct (main st) as [| |i|i k l|i|i| |] eqn:Hmain; simpl in Hl; try done; try by apply holder_moves.
  - eapply (main_moves check_running); [repeat constructor|done|]. unfold check_running. by rewrite Hmain.
  - eapply (main_moves accept_interrupted); [repeat constructor|done|]. unfold accept_interrupted, accept_fail.
    by rewrite (inv_listener _ Hinv), Hsp, Hmain.
  - eapply (main_moves clean_lock); [repeat constructor|done|]. unfold clean_lock. by rewrite Hmain, Hl.
  - eapply (main_moves register_lock); [repeat constructor|done|]. unfold register_lock. by rewrite Hmain, Hl.
Qed.

(** A stopped server whose handler does not block itself: what holds in it and
    in everything its own steps lead to. *)
Definition stopped (st : system) : Prop := inv st ∧ running st = false ∧ ¬ blocked st.

Lemma stopped_own_step : preserved own_step stopped.
Proof.
  intros st st' Hstep (Hinv & Hr & Hb). destruct (own_step_stopped _ _ Hstep Hinv Hr Hb).
  split_and!; [by eapply inv_own_step|done..].
Qed.

Lemma stopped_terminates st : inv st → sn own_step st.
Proof.
  remember (work st) as n eqn:Hn. revert st Hn. induction (lt_wf n) as [n _ IH]. intros st -> Hinv.
  constructor. intros st' Hstep. eapply IH; [by apply own_step_work|done|by eapply inv_own_step].
Qed.

Lemma stopped_moves st : stopped st → (stopper st = SReturned ∧ main st = MReturned) ∨ red own_step st.
Proof.
  intros (Hinv & Hr & Hb).
  assert (stopper st = SReturned ∨ stopper st ≠ SReturned) as [Hs|Hs] by (destruct (stopper st); auto).
  - assert (main st = MReturned ∨ main st ≠ MReturned) as [Hm|Hm] by (destruct (main st); auto); [auto|].
    right. by apply loop_moves.
  - right. by apply stopper_moves.
Qed.

Lemma stopped_reaches st :
  stopped st → ∃ st', rtc own_step st st' ∧ stopper st' = SReturned ∧ main st' = MReturned.
Proof.
  intros Hst. pose proof (stopped_terminates st (proj1 Hst)) as Hsn. revert Hst.
  induction Hsn as [st _ IH]. intros Hst. destruct (stopped_moves st Hst) as [H|[st1 Hstep]]; [by exists st|].
  destruct (IH st1 Hstep) as (st' & Hr & H); [by eapply stopped_own_step|]. exists st'. split; [by eapply rtc_l|done].
Qed.

(** *** Lemmas for the properties *)

(** Once the listening socket is shut down with no connection in flight, none
    appears, and the workers are gone when [stop()] returns. *)
Definition quiescent (st : system) : Prop :=
  listener st ≠ LOpen ∧ in_flight st = None ∧ (stopper st = SReturned → workers st = []).

Ltac unfold_ops E :=
  unfold check_running, accept_interrupted, accept_ok, accept_fail, clean_lock, clean_next, clean_unlock, register_lock,
    register, register_unlock, handle_signal, stop_cas, stop_shutdown, stop_close, stop_lock, stop_next, stop_session,
    stop_join, stop_clear, thread_begin, thread_stopped, thread_hangup, thread_drop, thread_test, thread_end,
    thread_exit in E; simpl in E.

Lemma quiescent_step : preserved step quiescent.
Proof.
  intros [r li ss ws m pc sp om] st' Hstep (Hl & Hf & Hw). unfold in_flight in Hf. simpl in *.
  destruct Hstep as [[op Hop _ E|op Hop E|i op Hop E]|op Hop _ E|i op Hop E]; pick_op Hop; unfold_ops E; op_cases E;
    split_and!; try done; unfold in_flight; simpl; by destruct r.
Qed.

(** The two places where entries leave [workers_]. *)
Lemma erase_finished st st' i :
  inv st → step st st' → i ∈ workers st → i ∉ workers st' → finished st i.
Proof.
  intros Hinv Hstep Hi Hn.
  destruct Hstep as [[op Hop _ E|op Hop E|j op Hop E]|op Hop _ E|j op Hop E]; pick_op Hop; unfold_ops E;
    op_cases E; try done.
  - match goal with Hm : main st = MCleaning _ _ _ |- _ => rewrite (inv_clean _ Hinv _ _ _ Hm) in Hi end.
    rewrite elem_of_app, elem_of_cons in Hi. rewrite elem_of_app in Hn.
    assert (i = n) as -> by tauto. by eexists.
  - destruct Hn. apply elem_of_app. by left.
  - match goal with Hm : stopper st = SJoining _ |- _ => destruct (inv_joining _ Hinv _ Hm) as (d & Hw & Hd) end.
    rewrite Hw, app_nil_r in Hi. rewrite Forall_forall in Hd. by apply Hd.
Qed.

(** A blocked server stays as it is: [stop()] gets no further than the lock. *)
Definition before_lock (pc : stop_pc) : bool := match pc with SShutdown | SClosing | SLocking => true | _ => false end.

Lemma blocked_step st st' :
  before_lock (stopper st) = true → running st = false → blocked st → step st st' →
  before_lock (stopper st') = true ∧ (stopper st = SLocking → stopper st' = SLocking) ∧ running st' = false ∧
  blocked st' ∧ main st' = main st.
Proof.
  intros Hs Hr [Hen Hm] Hstep. unfold blocked.
  destruct Hstep as [[op Hop Hen' E|op Hop E|j op Hop E]|op Hop Hen' E|j op Hop E]; [congruence| | |congruence|].
  - destruct st as [r li ss ws m pc sp om]. simpl in *. subst r m. unfold main_enabled in *. simpl in *.
    pick_op Hop; unfold_ops E; op_cases E; naive_solver.
  - pick_op Hop; unfold_ops E; op_cases E; naive_solver.
  - pick_op Hop; unfold_ops E; op_cases E; naive_solver.
Qed.

Lemma blocked_forever st st' :
  before_lock (stopper st) = true → running st = false → blocked st → rtc step st st' →
  before_lock (stopper st') = true ∧ (stopper st = SLocking → stopper st' = SLocking) ∧ main st' = main st.
Proof.
  intros Hs Hr Hb H. revert Hs Hr Hb. induction H as [|x y z Hxy _ IH]; [done|]. intros Hs Hr Hb.
  destruct (blocked_step x y Hs Hr Hb Hxy) as (H1 & H2 & H3 & H4 & H5).
  destruct (IH H1 H3 H4) as (H6 & H7 & H8). split_and!; [done|auto|congruence].
Qed.

(** Running a given schedule. *)
Ltac step_main op :=
  eapply rtc_l; [apply server_step, (main_step _ _ op); [repeat constructor|reflexivity|cbv; reflexivity]|].
Ltac step_stop op := eapply rtc_l; [apply server_step, (stop_step _ _ op); [repeat constructor|cbv; reflexivity]|].
Ltac step_thread i op :=
  eapply rtc_l; [apply server_step, (thread_step _ _ i op); [repeat constructor|cbv; reflexivity]|].
Ltac step_accept op :=
  eapply rtc_l; [apply (accept_step _ _ op); [repeat constructor|reflexivity|cbv; reflexivity]|].
Ltac step_client i op := eapply rtc_l; [apply (client_step _ _ i op); [repeat constructor|cbv; reflexivity]|].

(** One client connected and being served; the main thread waits for the next. *)
Definition one_client : system :=
  mkSystem true LOpen [mkObj true false Running] [0%nat] None MAccepting SIdle false.

Lemma one_client_reachable : reachable one_client.
Proof.
  unfold reachable, one_client. step_main check_running. step_accept accept_ok. step_main clean_lock.
  step_main clean_unlock. step_main register_lock. step_main register. step_main register_unlock.
  step_thread 0%nat (thread_begin 0). step_main check_running. apply rtc_refl.
Qed.

(** The same after a second connection was accepted, at the moment the main
    thread holds the lock of the sweep. *)
Definition sweeping : system :=
  mkSystem true LOpen [mkObj true false Running; mkObj true false NotStarted] [0%nat] (Some HMain)
    (MCleaning 1 [] [0%nat]) SIdle false.

Lemma sweeping_reachable : reachable sweeping.
Proof.
  unfold reachable. etrans; [apply one_client_reachable|]. unfold one_client, sweeping.
  step_accept accept_ok. step_main clean_lock. apply rtc_refl.
Qed.

(** The first connection is being registered. *)
Definition registering : system :=
  mkSystem true LOpen [mkObj true false Starting] [0%nat] (Some HMain) MUnlocking SIdle false.

Lemma registering_reachable : reachable registering.
Proof.
  unfold reachable, registering. step_main check_running. step_accept accept_ok. step_main clean_lock.
  step_main clean_unlock. step_main register_lock. step_main register. apply rtc_refl.
Qed.

(** A client is being served when another thread calls [stop()]. *)
Definition stopping_idle : system :=
  mkSystem false LClosed [mkObj true false Running] [0%nat] None MAccepting SLocking false.
Definition stopped_idle : system :=
  mkSystem false LClosed [mkObj false true Finished] [] None MAccepting SReturned false.

Lemma stopping_idle_reachable : reachable stopping_idle.
Proof.
  unfold reachable, stopping_idle. etrans; [apply one_client_reachable|]. unfold one_client.
  step_stop (stop_cas false). step_stop stop_shutdown. step_stop stop_close. apply rtc_refl.
Qed.

Lemma stopped_idle_from : rtc step stopping_idle stopped_idle.
Proof.
  unfold stopping_idle, stopped_idle. step_stop stop_lock. step_stop stop_next. step_stop stop_session.
  step_stop stop_next. step_thread 0%nat (thread_stopped 0). step_thread 0%nat (thread_end 0).
  step_thread 0%nat (thread_exit 0). step_stop stop_join. step_stop stop_clear. apply rtc_refl.
Qed.

Lemma stopped_idle_reachable : reachable stopped_idle.
Proof. unfold reachable. etrans; [apply stopping_idle_reachable|apply stopped_idle_from]. Qed.

(** *** Properties *)

(** C12: in every interleaving of the accept loop, the worker threads and
    [stop()], the registry is sound: no worker is registered twice, every
    registered worker was started, every started thread that has not returned is
    registered, every accepted connection has its thread started or is the one
    in flight, and the accept loop and [stop()] never use the registry at the
    same time. *)
Theorem registry_sound st :
  reachable st →
  NoDup (workers st) ∧
  (∀ i, i ∈ workers st → ∃ s, sessions st !! i = Some s ∧ phase s ≠ NotStarted) ∧
  (∀ i s, sessions st !! i = Some s → live (phase s) = true → i ∈ workers st) ∧
  (∀ i s, sessions st !! i = Some s → phase s = NotStarted → in_flight st = Some i) ∧
  ¬ (cleaning (main st) = true ∧ holds_lock (stopper st) = true).
Proof.
  intros []%inv_reachable. split_and!; [done..|]. intros [Hc Hh]. rewrite (inv_exclusive0 Hc) in Hh. done.
Qed.

Lemma registry_sound_witness : reachable one_client ∧ NoDup (workers one_client).
Proof.
  split; [apply one_client_reachable|]. exact (proj1 (registry_sound one_client one_client_reachable)).
Defined.

(** C17: an entry leaves the registry, in a sweep or at shutdown, only after its
    thread has returned: no running thread is ever forgotten. *)
Theorem worker_erased_finished st st' i :
  reachable st → step st st' → i ∈ workers st → i ∉ workers st' → finished st i.
Proof. intros H%inv_reachable. by apply erase_finished. Qed.

Lemma worker_erased_finished_witness :
  let st := mkSystem true LOpen [mkObj false false Finished; mkObj true false NotStarted] [0%nat] (Some HMain)
              (MCleaning 1 [] [0%nat]) SIdle false in
  let st' := set_workers [] (set_main (MCleaning 1 [] []) st) in
  step st st' ∧ finished st 0.
Proof.
  intros st st'.
  assert (reachable st) as Hr.
  { unfold reachable. etrans; [apply sweeping_reachable|]. unfold sweeping, st.
    step_client 0%nat (thread_hangup 0). step_thread 0%nat (thread_end 0). step_thread 0%nat (thread_exit 0).
    apply rtc_refl. }
  assert (step st st') as Hs
    by (apply server_step, (main_step _ _ clean_next); [repeat constructor|reflexivity|reflexivity]).
  split; [exact Hs|]. apply (worker_erased_finished st st' 0 Hr Hs); [left|apply not_elem_of_nil].
Defined.

(** C18: when [stop()] returns the server is not running, its listening socket is
    closed, and every session but possibly the last one accepted has finished;
    a session still registered is that last one. *)
Theorem stop_finishes_sessions st :
  reachable st → stopper st = SReturned →
  running st = false ∧ listener st = LClosed ∧
  (∀ i s, sessions st !! i = Some s → S i ≠ length (sessions st) → phase s = Finished) ∧
  (∀ i, i ∈ workers st → S i = length (sessions st)).
Proof.
  intros []%inv_reachable Hs. split_and!.
  - destruct (running st) eqn:E; [|done]. assert (stopper st = SIdle) by (by apply inv_running0). congruence.
  - by rewrite inv_listener0, Hs.
  - intros i s Hi Hne. destruct (phase s) eqn:Hp; try done.
    1: destruct (inv_flight0 i) as [? _]; [by eapply inv_waiting0|done].
    all: destruct Hne; apply inv_after0; [done|]; by eapply inv_live0; [|rewrite Hp].
  - by apply inv_after0.
Qed.

Lemma stop_finishes_sessions_witness :
  stopper stopped_idle = SReturned ∧ running stopped_idle = false ∧ listener stopped_idle = LClosed.
Proof.
  destruct (stop_finishes_sessions stopped_idle stopped_idle_reachable eq_refl) as (H1 & H2 & _).
  split; [reflexivity|]. split; [exact H1|exact H2].
Defined.

(** C19: when no connection is in flight once the listening socket is shut down,
    [stop()] returns with every session finished and every worker joined. *)
Theorem quiet_shutdown_clean st st' :
  reachable st → listener st ≠ LOpen → in_flight st = None → stopper st ≠ SReturned →
  rtc step st st' → stopper st' = SReturned →
  workers st' = [] ∧ ∀ i s, sessions st' !! i = Some s → phase s = Finished.
Proof.
  intros Hr Hl Hf Hns Hrtc Hs.
  assert (quiescent st') as (_ & Hf' & Hw).
  { assert (quiescent st) as Hq by (by split_and!). revert Hq. clear -Hrtc.
    induction Hrtc as [|x y z Hxy _ IH]; [done|]. intros Hq. apply IH. by eapply quiescent_step. }
  split; [auto|]. intros i s Hi.
  destruct (inv_rtc _ _ Hrtc (inv_reachable _ Hr)) as [_ _ Hlive _ Hwait].
  destruct (phase s) eqn:Hp; try done.
  1: specialize (Hwait i s Hi Hp); congruence.
  all: specialize (Hlive i s Hi); rewrite Hp, Hw in Hlive by done; by apply elem_of_nil in Hlive.
Qed.

Lemma quiet_shutdown_clean_witness :
  in_flight stopping_idle = None ∧ workers stopped_idle = [].
Proof.
  split; [reflexivity|].
  exact (proj1 (quiet_shutdown_clean stopping_idle stopped_idle stopping_idle_reachable ltac:(discriminate) eq_refl
                  ltac:(discriminate) stopped_idle_from eq_refl)).
Defined.

(** C20: once [stop()] has begun, the server shuts down without any help from its
    clients, however many are connected and silent: its own steps come to an
    end in every order, and only where [stop()] and the accept loop have both
    returned. The one exception is a handler that interrupted a locked section
    of its own thread. *)
Theorem stop_completes st :
  reachable st → running st = false → ¬ blocked st →
  sn own_step st ∧
  (∀ st', rtc own_step st st' → nf own_step st' → stopper st' = SReturned ∧ main st' = MReturned) ∧
  ∃ st', rtc own_step st st' ∧ stopper st' = SReturned ∧ main st' = MReturned.
Proof.
  intros Hreach Hr Hb. assert (stopped st) as Hst by (split_and!; [by apply inv_reachable|done..]). clear Hreach Hr Hb.
  split; [apply stopped_terminates, Hst|].
  assert (∀ st', rtc own_step st st' → stopped st') as Hall.
  { intros st' H. induction H as [|x y z Hxy _ IH]; [done|]. by eapply IH, stopped_own_step. }
  split; [|by apply stopped_reaches]. intros st' H Hnf. by destruct (stopped_moves st' (Hall st' H)).
Qed.

Lemma stop_completes_witness :
  reachable stopping_idle ∧ ∃ st', rtc own_step stopping_idle st' ∧ stopper st' = SReturned ∧ main st' = MReturned.
Proof.
  split; [apply stopping_idle_reachable|].
  exact (proj2 (proj2 (stop_completes stopping_idle stopping_idle_reachable eq_refl
                         ltac:(intros [H _]; discriminate H)))).
Defined.

(** C24: a connection accepted before [stop()] closes the listening socket and
    registered after [stop()] has emptied the registry is neither stopped nor
    joined: the accept loop can return with its thread running, and the
    destructor of the registry then destroys a joinable thread. The schedule
    exists whether [stop()] runs on another thread or in a signal handler on the
    main thread. *)
Theorem late_session_orphaned here :
  ∃ st, reachable st ∧ on_main st = here ∧ main st = MReturned ∧ stopper st = SReturned ∧
        workers st = [0%nat] ∧ sessions st = [mkObj true false Running].
Proof.
  assert (rtc step started (mkSystem false LClosed [mkObj true false Running] [0%nat] None MReturned SReturned here))
    as H.
  { unfold started. step_main check_running. step_accept accept_ok.
    destruct here; [step_stop (handle_signal SIGINT)|step_stop (stop_cas false)].
    all: step_stop stop_shutdown; step_stop stop_close; step_stop stop_lock; step_stop stop_next; step_stop stop_clear;
      step_main clean_lock; step_main clean_unlock; step_main register_lock; step_main register;
      step_main register_unlock; step_main check_running; step_thread 0%nat (thread_begin 0); apply rtc_refl. }
  by eexists.
Qed.

(** C25: a termination signal handled on the main thread while it sweeps the
    registry deadlocks the server: [stop()] waits for the lock its own thread
    holds, and no continuation ever gets past it. The same holds for a signal
    at any other point of the locked sections, the registration of a worker
    included. *)
Theorem signal_in_sweep_deadlocks :
  (∃ st, reachable st ∧ stopper st = SLocking ∧
         ∀ st', rtc step st st' → stopper st' = SLocking ∧ main st' = main st) ∧
  (∀ signum st st1 st', reachable st → mutex st = Some HMain → handle_signal signum st = Some st1 →
     rtc step st1 st' → stopper st' ≠ SReturned ∧ main st' = main st) ∧
  (∃ st st1, reachable st ∧ main st = MUnlocking ∧ mutex st = Some HMain ∧ handle_signal SIGTERM st = Some st1).
Proof.
  split_and!.
  - set (st := mkSystem false LClosed [mkObj true false Running; mkObj true false NotStarted] [0%nat] (Some HMain)
                 (MCleaning 1 [] [0%nat]) SLocking true).
    exists st. split_and!; [|done|].
    + unfold reachable. etrans; [apply sweeping_reachable|]. unfold sweeping, st.
      step_stop (handle_signal SIGINT). step_stop stop_shutdown. step_stop stop_close. apply rtc_refl.
    + intros st' H. destruct (blocked_forever st st') as (_ & H1 & H2); [done..|]. by split; [apply H1|].
  - intros signum st st1 st' Hr Hm E H. unfold handle_signal, stop_cas in E. op_cases E.
    eapply blocked_forever in H as (H1 & _ & H2); [|reflexivity|reflexivity|by split]. split; [|exact H2]. intros E. by rewrite E in H1.
  - exists registering. eexists. split_and!; [apply registering_reachable|reflexivity..].
Qed.

Lemma signal_in_sweep_deadlocks_witness :
  let st := mkSystem false LOpen (sessions sweeping) [0%nat] (Some HMain) (main sweeping) SShutdown true in
  handle_signal SIGINT sweeping = Some st ∧ stopper st ≠ SReturned.
Proof.
  intros st. split; [reflexivity|].
  exact (proj1 (proj1 (proj2 signal_in_sweep_deadlocks) SIGINT sweeping st st sweeping_reachable eq_refl eq_refl
                  (rtc_refl _ _))).
Defined.

End Threads.
