(* ===== verification/ServerMain.v ===== *)
(** * server_main.cpp: the command line of the server

    [parse_args] is the loop over [argv[1..]]; it either stops the program with
    an exit status and a message on standard error or hands a configuration and
    the text of the log level on. The usage text on standard output is not
    modelled. *)

From S2P Require Import Prelude Types CxxString Logger.

Inductive parsed :=
| Exit (status : Z) (message : bytes)
| Parsed (config : ServerConfig) (log_level_str : bytes).

Definition with_port (v : Z) (c : ServerConfig) : ServerConfig :=
  mkConfig (host c) v (media_dir c) (chunk_size c) (backlog c) (socket_timeout_sec c) (log_file c).
Definition with_media_dir (v : bytes) (c : ServerConfig) : ServerConfig :=
  mkConfig (host c) (port c) v (chunk_size c) (backlog c) (socket_timeout_sec c) (log_file c).
Definition with_chunk_size (v : Z) (c : ServerConfig) : ServerConfig :=
  mkConfig (host c) (port c) (media_dir c) v (backlog c) (socket_timeout_sec c) (log_file c).
Definition with_backlog (v : Z) (c : ServerConfig) : ServerConfig :=
  mkConfig (host c) (port c) (media_dir c) (chunk_size c) v (socket_timeout_sec c) (log_file c).
Definition with_log_file (v : bytes) (c : ServerConfig) : ServerConfig :=
  mkConfig (host c) (port c) (media_dir c) (chunk_size c) (backlog c) (socket_timeout_sec c) v.

Definition requires_argument (flag : string) : parsed :=
  Exit 1 (lit "Error: " ++ lit flag ++ lit " requires an argument" ++ [LF]).

(** [arg == a || arg == b] *)
Definition is_flag (a b : string) (arg : bytes) : bool :=
  bool_decide (arg = lit a) || bool_decide (arg = lit b).

Fixpoint parse_args (config : ServerConfig) (log_level_str : bytes) (args : list bytes) : parsed :=
  match args with
  | [] => Parsed config log_level_str
  | arg :: args =>
      if is_flag "-h" "--help" arg then Exit 0 []
      else if is_flag "-p" "--port" arg then
        match args with
        | v :: args =>
            let p := u16 (strtoul v) in
            if p =? 0 then Exit 1 (lit "Error: Invalid port number: " ++ v ++ [LF])
            else parse_args (with_port p config) log_level_str args
        | [] => requires_argument "--port"
        end
      else if is_flag "-d" "--media-dir" arg then
        match args with
        | v :: args => parse_args (with_media_dir v config) log_level_str args
        | [] => requires_argument "--media-dir"
        end
      else if is_flag "-c" "--chunk-size" arg then
        match args with
        | v :: args =>
            let n := strtoul v in
            if n =? 0 then Exit 1 (lit "Error: Invalid chunk size: " ++ v ++ [LF])
            else parse_args (with_chunk_size n config) log_level_str args
        | [] => requires_argument "--chunk-size"
        end
      else if is_flag "-b" "--backlog" arg then
        match args with
        | v :: args => parse_args (with_backlog (atoi v) config) log_level_str args
        | [] => requires_argument "--backlog"
        end
      else if is_flag "-l" "--log-file" arg then
        match args with
        | v :: args => parse_args (with_log_file v config) log_level_str args
        | [] => requires_argument "--log-file"
        end
      else if bool_decide (arg = lit "--log-level") then
        match args with
        | v :: args => parse_args config v args
        | [] => requires_argument "--log-level"
        end
      else Exit 1 (lit "Error: Unknown option '" ++ arg ++ lit "'" ++ [LF])
  end.

Definition log_level_of (log_level_str : bytes) : LogLevel :=
  if bool_decide (log_level_str = lit "debug") then DEBUG
  else if bool_decide (log_level_str = lit "info") then INFO
  else if bool_decide (log_level_str = lit "warn") then WARN
  else if bool_decide (log_level_str = lit "error") then ERROR
  else INFO.

(** [main]: what it does before [server.start()], and its exit status from the
    [bool] that returns. [Logger::init] always enables the console. *)
Definition server_main (can_open : bytes → bool) (tty : bool) (args : list bytes) (out : sinks) :
    Z * bytes + ServerConfig * Logger * sinks :=
  match parse_args default_config (lit "info") args with
  | Exit status message => inl (status, message)
  | Parsed config log_level_str =>
      let '(lg, out) := init can_open tty (log_file config) (log_level_of log_level_str) true initial_logger out in
      inr (config, lg, out)
  end.

Definition exit_status (start_ok : bool) : Z := if start_ok then 0 else 1.

(** ** Command lines as lists of options *)
Inductive option_arg :=
| OPort (v : bytes) | OMediaDir (v : bytes) | OChunkSize (v : bytes)
| OBacklog (v : bytes) | OLogFile (v : bytes) | OLogLevel (v : bytes).

(** The arguments that set an option; [long] chooses the long form of the flag. *)
Definition words (o : option_arg) (long : bool) : list bytes :=
  match o with
  | OPort v => [lit (if long then "--port" else "-p"); v]
  | OMediaDir v => [lit (if long then "--media-dir" else "-d"); v]
  | OChunkSize v => [lit (if long then "--chunk-size" else "-c"); v]
  | OBacklog v => [lit (if long then "--backlog" else "-b"); v]
  | OLogFile v => [lit (if long then "--log-file" else "-l"); v]
  | OLogLevel v => [lit "--log-level"; v]
  end.

Definition acceptable (o : option_arg) : Prop :=
  match o with OPort v => u16 (strtoul v) ≠ 0 | OChunkSize v => strtoul v ≠ 0 | _ => True end.

(** What one option says about each setting. *)
Definition port_setting (o : option_arg) : option Z := match o with OPort v => Some (strtoul v mod 65536) | _ => None end.
Definition media_dir_setting (o : option_arg) : option bytes := match o with OMediaDir v => Some v | _ => None end.
Definition chunk_size_setting (o : option_arg) : option Z := match o with OChunkSize v => Some (strtoul v) | _ => None end.
Definition backlog_setting (o : option_arg) : option Z := match o with OBacklog v => Some (atoi v) | _ => None end.
Definition log_file_setting (o : option_arg) : option bytes := match o with OLogFile v => Some v | _ => None end.
Definition level_setting (o : option_arg) : option bytes := match o with OLogLevel v => Some v | _ => None end.

(** The last option that says something, else the default. *)
Definition last_value {A} (f : option_arg → option A) (d : A) (opts : list option_arg) : A :=
  default d (last (omap f opts)).

(** How a command line can go on after its last accepted option: not at all, with
    a request for help, with a flag whose argument is missing, with a value that
    is refused, or with a word that is no flag. With the exit status and the
    message. *)
Inductive ending : list bytes → option (Z * bytes) → Prop :=
| all_read : ending [] None
| help_asked a rest : a = lit "-h" ∨ a = lit "--help" → ending (a :: rest) (Some (0, []))
| argument_missing o flag_long flag v : words o flag_long = [flag; v] →
    ending [flag]
      (Some (1, lit "Error: " ++ default [] (head (words o true)) ++ lit " requires an argument" ++ [LF]))
| port_refused v long rest : strtoul v mod 65536 = 0 →
    ending (words (OPort v) long ++ rest) (Some (1, lit "Error: Invalid port number: " ++ v ++ [LF]))
| chunk_size_refused v long rest : strtoul v = 0 →
    ending (words (OChunkSize v) long ++ rest) (Some (1, lit "Error: Invalid chunk size: " ++ v ++ [LF]))
| unknown_option a rest : a ≠ lit "-h" → a ≠ lit "--help" → (∀ o long v, words o long ≠ [a; v]) →
    ending (a :: rest) (Some (1, lit "Error: Unknown option '" ++ a ++ lit "'" ++ [LF])).

(** ** Lemmas *)
Lemma u16_range z : 0 ≤ u16 z < 2 ^ 16.
Proof. unfold u16. apply Z.mod_pos_bound. lia. Qed.

Lemma digits_value_from acc s : 0 ≤ acc → Forall (λ c, isdigit c = true) s →
  0 ≤ foldl (λ acc c, acc * 10 + (code c - 48)) acc s.
Proof.
  intros Ha Hs. revert acc Ha. induction Hs as [|c s Hc Hs IH]; intros acc Ha; simpl; [done|].
  apply IH. unfold isdigit in Hc. lia.
Qed.

Lemma strtoul_range s : 0 ≤ strtoul s < 2 ^ 64.
Proof.
  unfold strtoul. destruct (sign (skip_ws s)) as [neg s'].
  pose proof (digits_value_from 0 (takewhile isdigit s') ltac:(done) (takewhile_Forall isdigit s')) as H.
  fold (digits_value (takewhile isdigit s')) in H.
  destruct (Z.leb_spec (2 ^ 64) (digits_value (takewhile isdigit s'))); [lia|].
  destruct neg; [unfold u64; apply Z.mod_pos_bound; lia|lia].
Qed.

Lemma i32_range z : - 2 ^ 31 ≤ i32 z < 2 ^ 31.
Proof. unfold i32. pose proof (Z.mod_pos_bound (z + 2 ^ 31) (2 ^ 32) ltac:(lia)). lia. Qed.

Lemma atoi_range s : - 2 ^ 31 ≤ atoi s < 2 ^ 31.
Proof. unfold atoi. destruct (sign _). apply i32_range. Qed.

Lemma strtoul_dec n : 0 ≤ n < 2 ^ 64 → strtoul (dec n) = n.
Proof.
  intros Hn. pose proof (extract_u64_dec n [] Hn ltac:(done)) as H. rewrite app_nil_r in H.
  unfold extract_u64 in H. unfold strtoul. destruct (sign (skip_ws (dec n))) as [neg s'].
  destruct (takewhile isdigit s') as [|c ds] eqn:E.
  - discriminate H.
  - destruct (2 ^ 64 <=? digits_value (c :: ds)); [discriminate H|]. congruence.
Qed.

Lemma last_value_cons {A} (f : option_arg → option A) d o opts :
  last_value f d (o :: opts) = last_value f (default d (f o)) opts.
Proof.
  unfold last_value. simpl. destruct (f o) as [x|]; simpl; [|done].
  rewrite last_cons. by destruct (last _).
Qed.

(** A configuration with the settings the options give. *)
Definition configured (c : ServerConfig) (opts : list option_arg) : ServerConfig :=
  mkConfig (host c) (last_value port_setting (port c) opts) (last_value media_dir_setting (media_dir c) opts)
    (last_value chunk_size_setting (chunk_size c) opts) (last_value backlog_setting (backlog c) opts)
    (socket_timeout_sec c) (last_value log_file_setting (log_file c) opts).

Lemma configured_cons c o opts :
  configured c (o :: opts) = configured (configured c [o]) opts.
Proof. unfold configured. simpl. by rewrite !last_value_cons. Qed.

Lemma configured_nil c : configured c [] = c.
Proof. by destruct c. Qed.

#[local] Arguments Z.modulo : simpl never.
#[local] Arguments strtoul : simpl never.
#[local] Arguments atoi : simpl never.
#[local] Arguments Z.eqb : simpl never.
#[local] Arguments u16 : simpl never.

Lemma parse_args_option o long config lvl args :
  acceptable o →
  parse_args config lvl (words o long ++ args) =
    parse_args (configured config [o]) (default lvl (level_setting o)) args.
Proof.
  destruct config, o, long; simpl; intros Hok; try done;
    repeat match goal with |- context [Z.eqb ?a 0] => destruct (Z.eqb_spec a 0); [done|] end; done.
Qed.

(** The refusals do not depend on what was read before. *)
Lemma parse_args_ending config lvl tail r :
  ending tail r →
  parse_args config lvl tail =
    match r with None => Parsed config lvl | Some (status, message) => Exit status message end.
Proof.
  destruct 1 as [|a rest [->| ->]|o long flag v Hw|v long rest Hv|v long rest Hv|a rest H1 H2 Hn]; try done.
  - destruct o, long; simpl in Hw; injection Hw as <- <-; reflexivity.
  - assert (u16 (strtoul v) = 0) as Hu by done. destruct long; simpl; rewrite Hu; reflexivity.
  - destruct long; simpl; rewrite Hv; reflexivity.
  - assert (∀ o, a ≠ default [] (head (words o true)) ∧ a ≠ default [] (head (words o false))) as Hf.
    { intros o. destruct o as [v|v|v|v|v|v] eqn:Eo; split; intros ->;
        first [by apply (Hn o true v); subst o|by apply (Hn o false v); subst o]. }
    assert (∀ x y, a ≠ lit x → a ≠ lit y → is_flag x y a = false) as Hflag.
    { intros x y Hx Hy. unfold is_flag. by rewrite !bool_decide_eq_false_2. }
    cbn [parse_args]. rewrite Hflag by done.
    destruct (Hf (OPort [])), (Hf (OMediaDir [])), (Hf (OChunkSize [])), (Hf (OBacklog [])), (Hf (OLogFile [])),
      (Hf (OLogLevel [])). rewrite !Hflag by done. by rewrite bool_decide_eq_false_2.
Qed.

Lemma parse_args_options opts longs config lvl tail r :
  length longs = length opts → Forall acceptable opts → ending tail r →
  parse_args config lvl (concat (zip_with words opts longs) ++ tail) =
    match r with
    | None => Parsed (configured config opts) (last_value level_setting lvl opts)
    | Some (status, message) => Exit status message
    end.
Proof.
  intros Hlen Hok Hend. revert longs config lvl Hlen.
  induction opts as [|o opts IH]; intros [|long longs] config lvl Hlen; try done.
  - simpl. rewrite configured_nil. by apply parse_args_ending.
  - inversion Hok; subst. simpl. rewrite <-app_assoc, parse_args_option by done.
    injection Hlen as Hlen. rewrite IH by done. by rewrite (configured_cons config o opts), last_value_cons.
Qed.

(** Every command line is of this form. *)
Definition command_line (args : list bytes) : Prop :=
  ∃ opts longs tail r, args = concat (zip_with words opts longs) ++ tail ∧ length longs = length opts ∧
    Forall acceptable opts ∧ ending tail r.

Lemma command_line_end tail r : ending tail r → command_line tail.
Proof. intros H. by exists [], [], tail, r. Qed.

Lemma command_line_option o long rest : acceptable o → command_line rest → command_line (words o long ++ rest).
Proof.
  intros Ho (opts & longs & tail & r & -> & Hlen & Hok & Hend). exists (o :: opts), (long :: longs), tail, r.
  split_and!; [simpl; by rewrite app_assoc|simpl; congruence|by constructor|done].
Qed.

(** A word that is a flag, and what follows it. *)
Lemma command_line_flag mk long flag rest :
  (∀ v, words (mk v) long = [flag; v]) →
  (∀ v rest, ¬ acceptable (mk v) → command_line (flag :: v :: rest)) →
  (∀ v, acceptable (mk v) ∨ ¬ acceptable (mk v)) →
  (∀ v rest', rest = v :: rest' → command_line rest') →
  command_line (flag :: rest).
Proof.
  intros Hw Hbad Hdec Hrest. destruct rest as [|v rest].
  { eapply command_line_end, (argument_missing (mk [])), (Hw []). }
  destruct (Hdec v) as [Hok|Hno]; [|by apply Hbad].
  change (command_line ([flag; v] ++ rest)). rewrite <-(Hw v). apply command_line_option; [done|by eapply Hrest].
Qed.

(** What every accepted configuration satisfies. *)
Definition config_ok (c : ServerConfig) : Prop :=
  1 ≤ port c < 2 ^ 16 ∧ 1 ≤ chunk_size c < 2 ^ 64 ∧ - 2 ^ 31 ≤ backlog c < 2 ^ 31 ∧
  host c = lit "0.0.0.0" ∧ socket_timeout_sec c = DEFAULT_SOCKET_TIMEOUT_SEC.

Lemma parse_args_ok n args config lvl c l :
  (length args ≤ n)%nat → config_ok config → parse_args config lvl args = Parsed c l → config_ok c.
Proof.
  revert args config lvl. induction n as [|n IH]; intros args config lvl Hn Hok; (destruct args as [|arg args]; [by intros [= <- _]|]);
    simpl in Hn; [lia|]. cbn [parse_args].
  assert (∀ (config : ServerConfig) lvl (v : bytes) rest, args = v :: rest → config_ok config →
            parse_args config lvl rest = Parsed c l → config_ok c) as Hrec.
  { intros config' lvl' v rest -> Hok' H. simpl in Hn. apply (IH rest config' lvl'); [lia|done|done]. }
  pose proof Hok as (H1 & H2 & H3 & H4 & H5).
  destruct (is_flag "-h" "--help" arg); [done|].
  destruct (is_flag "-p" "--port" arg).
  { destruct args as [|v rest]; [done|]. destruct (Z.eqb_spec (u16 (strtoul v)) 0); [done|].
    apply (Hrec _ _ _ _ eq_refl). split_and!; simpl; try done; pose proof (u16_range (strtoul v)); lia. }
  destruct (is_flag "-d" "--media-dir" arg).
  { destruct args as [|v rest]; [done|]. apply (Hrec _ _ _ _ eq_refl). exact Hok. }
  destruct (is_flag "-c" "--chunk-size" arg).
  { destruct args as [|v rest]; [done|]. destruct (Z.eqb_spec (strtoul v) 0); [done|].
    apply (Hrec _ _ _ _ eq_refl). split_and!; simpl; try done; pose proof (strtoul_range v); lia. }
  destruct (is_flag "-b" "--backlog" arg).
  { destruct args as [|v rest]; [done|]. apply (Hrec _ _ _ _ eq_refl).
    split_and!; simpl; try done; pose proof (atoi_range v); lia. }
  destruct (is_flag "-l" "--log-file" arg).
  { destruct args as [|v rest]; [done|]. apply (Hrec _ _ _ _ eq_refl). exact Hok. }
  destruct (bool_decide (arg = lit "--log-level")); [|discriminate].
  destruct args as [|v rest]; [discriminate|]. apply (Hrec _ _ _ _ eq_refl). exact Hok.
Qed.

(** [a] is the flag of an option, in one of its forms. *)
Definition option_flag (a : bytes) : Prop :=
  ∃ mk long, (∀ v, words (mk v) long = [a; v]) ∧
    (∀ v rest, ¬ acceptable (mk v) → command_line (a :: v :: rest)) ∧
    (∀ v, acceptable (mk v) ∨ ¬ acceptable (mk v)).

Lemma option_flag_plain (mk : bytes → option_arg) long a :
  (∀ v, acceptable (mk v)) → (∀ v, words (mk v) long = [a; v]) → option_flag a.
Proof. intros Ha Hw. exists mk, long. split_and!; [done| |by left]. intros v rest Hn. by destruct Hn. Qed.

Lemma option_flag_words o long a v : words o long = [a; v] → option_flag a.
Proof.
  intros Hw. destruct o; simpl in Hw; injection Hw as <- _;
    try (by apply (option_flag_plain OMediaDir long)); try (by apply (option_flag_plain OBacklog long));
    try (by apply (option_flag_plain OLogFile long)); try (by apply (option_flag_plain OLogLevel long)).
  - exists OPort, long. split_and!; [done| |intros w; simpl; lia]. intros w rest Hn. simpl in Hn.
    eapply command_line_end, (port_refused w long). change 65536 with (2 ^ 16). unfold u16 in Hn. lia.
  - exists OChunkSize, long. split_and!; [done| |intros w; simpl; lia]. intros w rest Hn. simpl in Hn.
    eapply command_line_end, (chunk_size_refused w long). lia.
Qed.

Definition all_flags : list (list bytes) :=
  concat (map (λ o, [words o true; words o false])
    [OPort []; OMediaDir []; OChunkSize []; OBacklog []; OLogFile []; OLogLevel []]).

Lemma is_flag_spec a : option_flag a ∨ ∀ o long v, words o long ≠ [a; v].
Proof.
  destruct (decide ([a; []] ∈ all_flags)) as [Hin|Hno].
  - left. unfold all_flags in Hin. simpl in Hin. rewrite !elem_of_cons, elem_of_nil in Hin.
    destruct_or! Hin; try done; injection Hin as ->;
      [apply (option_flag_words (OPort []) true _ [])|apply (option_flag_words (OPort []) false _ [])
      |apply (option_flag_words (OMediaDir []) true _ [])|apply (option_flag_words (OMediaDir []) false _ [])
      |apply (option_flag_words (OChunkSize []) true _ [])|apply (option_flag_words (OChunkSize []) false _ [])
      |apply (option_flag_words (OBacklog []) true _ [])|apply (option_flag_words (OBacklog []) false _ [])
      |apply (option_flag_words (OLogFile []) true _ [])|apply (option_flag_words (OLogFile []) false _ [])
      |apply (option_flag_words (OLogLevel []) true _ [])|apply (option_flag_words (OLogLevel []) false _ [])]; done.
  - right. intros o long v Hw. apply Hno. unfold all_flags. simpl. rewrite !elem_of_cons.
    destruct o, long; simpl in Hw; injection Hw as <- _; tauto.
Qed.

Lemma all_command_lines args : command_line args.
Proof.
  remember (length args) as n eqn:Hn. revert args Hn. induction (lt_wf n) as [n _ IH]. intros [|a rest] ->.
  { eapply command_line_end, all_read. }
  assert (∀ v rest', rest = v :: rest' → command_line rest') as Hrest.
  { intros v rest' ->. eapply IH; [|done]. simpl. lia. }
  destruct (decide (a = lit "-h" ∨ a = lit "--help")) as [Hh|Hh]; [by eapply command_line_end, help_asked|].
  destruct (is_flag_spec a) as [(mk & long & Hw & Hbad & Hdec)|Hn].
  - by eapply command_line_flag.
  - eapply command_line_end, unknown_option; naive_solver.
Qed.

(** ** Properties *)

(** C36: every configuration the command line yields has a port of 1 to 65535, a
    positive 64-bit chunk size, a backlog that fits an [int], the default host
    and the default timeout. *)
Theorem accepted_config_bounds args c l :
  parse_args default_config (lit "info") args = Parsed c l → config_ok c.
Proof. intros H. eapply (parse_args_ok (length args) args default_config); [done|by split_and!|exact H]. Qed.

Lemma accepted_config_bounds_witness :
  let args := [lit "-p"; lit "9000"; lit "--chunk-size"; lit "1024"; lit "-b"; lit "-1"] in
  ∃ c, parse_args default_config (lit "info") args = Parsed c (lit "info") ∧ port c = 9000 ∧ config_ok c.
Proof.
  intros args. eexists. split; [by vm_compute|]. split; [reflexivity|].
  apply (accepted_config_bounds args _ (lit "info")). by vm_compute.
Defined.

(** C35: the command line, completely. Any list of arguments is a sequence of
    accepted options followed by nothing, a request for help, a flag without its
    argument, a refused number or an unknown word. In the first case each
    setting has the value its last option gives, in either form of the flag, or
    its documented default, whatever the other options are; in the others the
    program exits with the status and the message of the first offending word. *)
Theorem parse_args_applies_options :
  (∀ args, command_line args) ∧
  ∀ opts longs tail r, length longs = length opts → Forall acceptable opts → ending tail r →
    parse_args default_config (lit "info") (concat (zip_with words opts longs) ++ tail) =
      match r with
      | Some (status, message) => Exit status message
      | None =>
          Parsed (mkConfig (lit "0.0.0.0") (last_value port_setting 8080 opts) (last_value media_dir_setting (lit "media") opts)
                    (last_value chunk_size_setting 65536 opts) (last_value backlog_setting 128 opts) 30
                    (last_value log_file_setting (lit "logs/server.log") opts))
                 (last_value level_setting (lit "info") opts)
      end.
Proof.
  split; [apply all_command_lines|]. intros opts longs tail r H1 H2 H3.
  exact (parse_args_options opts longs default_config (lit "info") tail r H1 H2 H3).
Qed.

Lemma parse_args_applies_options_witness :
  let opts := [OPort (lit "9000"); OLogLevel (lit "debug"); OPort (lit "9001")] in
  parse_args default_config (lit "info") [lit "-p"; lit "9000"; lit "--log-level"; lit "debug"; lit "--port"; lit "9001"] =
    Parsed (mkConfig (lit "0.0.0.0") 9001 (lit "media") 65536 128 30 (lit "logs/server.log")) (lit "debug").
Proof.
  intros opts.
  exact (proj2 parse_args_applies_options opts [false; false; true] [] None eq_refl
           ltac:(repeat constructor; vm_compute; discriminate) all_read).
Defined.

(** A port number is reduced modulo 65536 before it is checked, so a number
    that is no port at all is accepted as another one. *)
Theorem port_truncated n config lvl :
  0 ≤ n < 2 ^ 64 → u16 n ≠ 0 →
  parse_args config lvl [lit "--port"; dec n] = Parsed (with_port (u16 n) config) lvl.
Proof.
  intros Hn Hp. simpl. rewrite strtoul_dec by done. by destruct (Z.eqb_spec (u16 n) 0).
Qed.

Lemma port_truncated_witness :
  parse_args default_config (lit "info") [lit "--port"; lit "65616"] = Parsed (with_port 80 default_config) (lit "info").
Proof. exact (port_truncated 65616 default_config (lit "info") ltac:(lia) ltac:(by vm_compute)). Defined.
