(* ===== verification/ClientMain.v ===== *)
(** * client_main.cpp: the command-line client

    [do_list] and [do_get] run over the same socket world as the server's
    sessions. What the client asks of its own file system is a parameter: whether
    the output directory can be made, whether the output file opens and how many
    bytes the disk takes before writing fails, and whether the final [canonical]
    succeeds. What is printed is reduced to its data: the rows of the listing and
    the percentages of the progress display. *)

From S2P Require Import Prelude Types CxxString Protocol Socket FilePath FileManager.

(** ** [do_list] *)

(** One line of the listing: [line_iss >> name >> size]. *)
Definition parse_row (line : bytes) : MediaFileInfo :=
  let '(name, line_iss) := extract_word line in
  mkInfo name (fst (fst (extract_u64 line_iss))).

(** One turn of the row loop: the loop variables are [i] and the rows printed;
    it is left with the rows and whether all arrived. *)
Definition list_body (sock : Socket) (count : Z) (v : Z * list MediaFileInfo) :
    M io (Z * list MediaFileInfo + bool * list MediaFileInfo) :=
  let '(i, rows) := v in
  if i <? count then
    r ← recv_line DEFAULT_MAX_LINE sock;
    if negb (fst r) then mret (inr (false, rows))
    else mret (inl (i + 1, rows ++ [parse_row (snd r)]))
  else mret (inr (true, rows)).

(** Returns the [bool] and the rows. *)
Definition do_list (sock : Socket) : M io (bool * list MediaFileInfo) :=
  sent ← send_string (lit "LIST" ++ [LF]) sock;
  if negb sent then mret (false, [])
  else
    r ← recv_line DEFAULT_MAX_LINE sock;
    if negb (fst r) then mret (false, [])
    else
      let header := snd r in
      if negb (starts_with (lit "OK") header) then mret (false, [])
      else
        match substr 3 header with
        | None => throw
        | Some iss =>
            let count := fst (fst (extract_u64 iss)) in
            res ← loop (λ _ s, rx_size (rx s)) (list_body sock count) (0, []);
            if negb (fst res) then mret res
            else send_string (lit "QUIT" ++ [LF]) sock;; mret res
        end.

(** ** [do_get] *)
Definition CHUNK_SIZE : Z := 64 * 1024.

(** [static_cast<int>((total_received * 100) / file_size)], 64-bit unsigned. *)
Definition percent (total_received file_size : Z) : Z :=
  if 0 <? file_size then i32 (u64 (total_received * 100) / file_size) else 100.

Section files.
Context (mkdir_ok : bytes → bool) (can_create : path → bool) (capacity : path → Z) (canonical_ok : path → bool).

(** One turn of the receive loop: the loop variables are [total_received], the
    bytes passed to [outfile.write] so far and the percentages shown. *)
Definition get_body (sock : Socket) (file_size : Z) (v : Z * bytes * list Z) :
    M io (Z * bytes * list Z + bool * bytes * list Z) :=
  let '(total_received, written, progress) := v in
  if total_received <? file_size then
    let to_recv := CHUNK_SIZE `min` (file_size - total_received) in
    r ← recv_all to_recv sock;
    let '(res, buffer) := r in
    if res =? 0 then mret (inr (false, written, progress))
    else if res <? 0 then mret (inr (false, written, progress))
    else
      let total_received := u64 (total_received + to_recv) in
      mret (inl (total_received, written ++ buffer, progress ++ [percent total_received file_size]))
  else mret (inr (true, written, progress)).

(** Returns the [bool], what the output file holds if it was created, and the
    percentages shown. The result of [write] is not looked at: the file holds
    what the disk took. *)
Definition do_get (sock : Socket) (filename output_dir : bytes) : M io (bool * option bytes * list Z) :=
  if negb (mkdir_ok output_dir) then mret (false, None, [])
  else
    let out_path := append (path_of output_dir) (path_of filename) in
    sent ← send_string (lit "GET " ++ filename ++ [LF]) sock;
    if negb sent then mret (false, None, [])
    else
      r ← recv_line DEFAULT_MAX_LINE sock;
      if negb (fst r) then mret (false, None, [])
      else
        let header := snd r in
        if negb (starts_with (lit "OK") header) then mret (false, None, [])
        else
          match substr 3 header with
          | None => throw
          | Some iss =>
              let '(file_size, ok, _) := extract_u64 iss in
              if negb ok then mret (false, None, [])
              else if negb (can_create out_path) then mret (false, None, [])
              else
                res ← loop (λ v _, Z.to_nat (file_size - v.1.1)) (get_body sock file_size) (0, [], []);
                let '(all, written, progress) := res in
                let saved := Some (ztake (capacity out_path) written) in
                if negb all then mret (false, saved, progress)
                else if negb (canonical_ok out_path) then throw
                else send_string (lit "QUIT" ++ [LF]) sock;; mret (true, saved, progress)
          end.

(** ** The command line *)
Record options := mkOptions {
  o_host : bytes;
  o_port : Z;
  o_get_file : bytes;
  o_output_dir : bytes;
  o_list_mode : bool }.

Definition is_opt (a b : string) (arg : bytes) : bool :=
  bool_decide (arg = lit a) || bool_decide (arg = lit b).

(** [arg[0] != '-'] *)
Definition positional (arg : bytes) : bool := negb (bool_decide (head arg = Some "-"%char)).

Definition port_of (v : bytes) : Z := u16 (atoi v).

(** The loop of list mode. *)
Fixpoint list_args (h : bytes) (p : Z) (host_set : bool) (args : list bytes) : bytes * Z :=
  match args with
  | [] => (h, p)
  | arg :: args =>
      if is_opt "-l" "--list" arg then list_args h p host_set args
      else if is_opt "-s" "--server" arg then
        match args with v :: args => list_args v p host_set args | [] => (h, p) end
      else if is_opt "-p" "--port" arg then
        match args with v :: args => list_args h (port_of v) host_set args | [] => (h, p) end
      else if positional arg then
        if host_set then list_args h (port_of arg) host_set args
        else list_args arg p true args
      else list_args h p host_set args
  end.

(** The loop over the flags; [None]: an unknown option. *)
Fixpoint flag_args (o : options) (args : list bytes) : option options :=
  match args with
  | [] => Some o
  | arg :: args =>
      if is_opt "-s" "--server" arg then
        match args with
        | v :: args => flag_args (mkOptions v (o_port o) (o_get_file o) (o_output_dir o) (o_list_mode o)) args
        | [] => Some o
        end
      else if is_opt "-p" "--port" arg then
        match args with
        | v :: args => flag_args (mkOptions (o_host o) (port_of v) (o_get_file o) (o_output_dir o) (o_list_mode o)) args
        | [] => Some o
        end
      else if is_opt "-g" "--get" arg then
        match args with
        | v :: args => flag_args (mkOptions (o_host o) (o_port o) v (o_output_dir o) (o_list_mode o)) args
        | [] => Some o
        end
      else if is_opt "-o" "--output-dir" arg then
        match args with
        | v :: args => flag_args (mkOptions (o_host o) (o_port o) (o_get_file o) v (o_list_mode o)) args
        | [] => Some o
        end
      else None
  end.

Definition default_options : options := mkOptions (lit "127.0.0.1") 8080 [] (lit "downloads") false.

(** [argv[1..]] to the options, or an exit status. *)
Definition client_args (args : list bytes) : Z + options :=
  if match args with arg :: _ => is_opt "-h" "--help" arg | [] => false end then inl 0
  else
    let list_mode := existsb (is_opt "-l" "--list") args in
    let parsed :=
      if list_mode then
        let '(h, p) := list_args (o_host default_options) (o_port default_options) false args in
        Some (mkOptions h p [] (o_output_dir default_options) true)
      else
        match args with
        | a1 :: a2 :: a3 :: more =>
            if positional a1 then
              Some (mkOptions a1 (port_of a2) a3
                      (match more with a4 :: _ => a4 | [] => o_output_dir default_options end) false)
            else flag_args default_options args
        | _ => flag_args default_options args
        end in
    match parsed with
    | None => inl 1
    | Some o =>
        if negb (o_list_mode o) && bool_decide (o_get_file o = []) then inl 1
        else if o_port o =? 0 then inl 1
        else inr o
    end.

(** [main]: the exit status, the rows and the saved file. *)
Definition client_main (inet_pton : bytes → option Z) (htons : Z → Z) (args : list bytes) :
    M io (Z * list MediaFileInfo * option bytes) :=
  match client_args args with
  | inl status => mret (status, [], None)
  | inr o =>
      sock ← create_tcp;
      if negb (is_valid sock) then mret (1, [], None)
      else
        connected ← connect inet_pton htons (o_host o) (o_port o) sock;
        if negb connected then close sock;; mret (1, [], None)   (* the destructor *)
        else
          listed ← (if o_list_mode o then do_list sock else mret (true, []));
          got ← (if fst listed && negb (bool_decide (o_get_file o = []))
                 then do_get sock (o_get_file o) (o_output_dir o)
                 else mret (fst listed, None, []));
          close sock;;
          mret (if got.1.1 : bool then 0 else 1, snd listed, got.1.2)
  end.
End files.

#[local] Arguments lit : simpl never.

(** ** Lemmas on [do_get] *)
Section get.
Context (mkdir_ok : bytes → bool) (can_create : path → bool) (capacity : path → Z) (canonical_ok : path → bool).

Lemma get_loop_wp sock size s :
  is_valid sock = true → 0 ≤ size < 2 ^ 64 →
  wp (loop (λ v _, Z.to_nat (size - v.1.1)) (get_body sock size) (0, [], []))
    (λ r s', rx_frame s s' ∧
       if r.1.1 then
         size ≤ zlen (stream (rx s)) ∧ r.1.2 = ztake size (stream (rx s)) ∧
         stream (rx s') = zdrop size (stream (rx s)) ∧ stream_end (rx s') = stream_end (rx s)
       else r.1.2 `prefix_of` stream (rx s) ∧ zlen (stream (rx s)) < size)
    (λ _, False) (λ s', rx_frame s s' ∧ zlen (stream (rx s)) < size) s.
Proof.
  intros Hv Hsize.
  apply (wp_loop (λ v s', rx_frame s s' ∧ v.1.1 = zlen v.1.2 ∧ v.1.1 ≤ size ∧
           stream (rx s) = v.1.2 ++ stream (rx s') ∧ stream_end (rx s') = stream_end (rx s))).
  2:{ split_and!; [done|done|simpl; lia|done|done]. }
  intros [[total written] progress] s' (Hfr & Htot & Hle & Hst & Hen). simpl in *. subst total. unfold get_body.
  destruct (Z.ltb_spec (zlen written) size) as [Hlt|Hge].
  2:{ apply wp_ret. simpl. split; [done|]. assert (size = zlen written) as -> by lia. rewrite Hst.
      unfold ztake, zdrop, zlen. rewrite Nat2Z.id, take_app_length, drop_app_length, length_app.
      split_and!; [lia|done|done|done]. }
  set (n := CHUNK_SIZE `min` (size - zlen written)). assert (1 ≤ n) as Hn by (unfold n, CHUNK_SIZE; lia).
  assert (zlen (stream (rx s')) < n → zlen (stream (rx s)) < size) as Hshort.
  { intros H. rewrite Hst, zlen_app. lia. }
  pose proof (zlen_nonneg written).
  apply wp_bind, wp_recv_all; [done|..].
  - intros s2 data Hfr2 Hlen Hst2 Hen2. simpl. apply wp_ret. simpl. rewrite zlen_app.
    assert (u64 (zlen written + n) = zlen written + zlen data) as ->.
    { unfold u64. rewrite Z.mod_small; lia. }
    split_and!; [by etrans|lia|lia| |congruence|lia]. by rewrite Hst, Hst2, app_assoc.
  - intros s2 Hfr2 Hlen He. simpl. apply wp_ret. simpl. split_and!; [by etrans| |auto].
    rewrite Hst. by eexists.
  - intros s2 e Hfr2 Hlen He. simpl. apply wp_ret. simpl. split_and!; [by etrans| |auto].
    rewrite Hst. by eexists.
  - intros s2 Hfr2 Hlen He. split; [by etrans|auto].
Qed.

(** What a successful download has read: a header line, and the content. *)
Definition downloaded (s : io) (size : Z) (body : bytes) (en : list recv_ev) : Prop :=
  ∃ header iss rest,
    line_spec DEFAULT_MAX_LINE (stream (rx s)) (stream_end (rx s)) = Some (true, header, body, en) ∧
    starts_with (lit "OK") header = true ∧ substr 3 header = Some iss ∧ extract_u64 iss = (size, true, rest).

Lemma extract_u64_range s n ok rest : extract_u64 s = (n, ok, rest) → 0 ≤ n < 2 ^ 64.
Proof.
  unfold extract_u64. destruct (sign (skip_ws s)) as [neg s'].
  pose proof (takewhile_Forall isdigit s') as Hd. destruct (takewhile isdigit s') as [|c ds]; [by intros [= <- _ _]|].
  assert (∀ l acc, 0 ≤ acc → Forall (λ c, isdigit c = true) l → 0 ≤ foldl (λ acc c, acc * 10 + (code c - 48)) acc l) as Hpos.
  { induction l as [|d l IH]; intros acc Ha Hl; simpl; [done|]. inversion Hl; subst. apply IH; [|done].
    unfold isdigit in *. lia. }
  pose proof (Hpos (c :: ds) 0 ltac:(done) Hd) as H0. fold (digits_value (c :: ds)) in H0.
  destruct (Z.leb_spec (2 ^ 64) (digits_value (c :: ds))); [by intros [= <- _ _]|]. intros [= <- _ _].
  destruct neg; [unfold u64; apply Z.mod_pos_bound; lia|lia].
Qed.

(** Nothing stands in the way of a download. *)
Definition favourable (f dir : bytes) (s : io) : Prop :=
  let out_path := append (path_of dir) (path_of f) in
  mkdir_ok dir = true ∧ can_create out_path = true ∧ canonical_ok out_path = true ∧ Forall send_ok (sq s) ∧
  ∃ size body en, downloaded s size body en ∧ size ≤ zlen body.

(** The three ways a download ends: saved, given up, or an uncaught exception. *)
Definition saved_all (f dir : bytes) (s s' : io) (saved : option bytes) : Prop :=
  ∃ size body en q, downloaded s size body en ∧ size ≤ zlen body ∧
    saved = Some (ztake (capacity (append (path_of dir) (path_of f))) (ztake size body)) ∧
    tx s' = tx s ++ (lit "GET " ++ f ++ [LF]) ++ q ∧ q `prefix_of` (lit "QUIT" ++ [LF]) ∧
    (Forall send_ok (sq s) → q = lit "QUIT" ++ [LF]).

Definition gave_up (s : io) (saved : option bytes) : Prop :=
  ∀ p, saved = Some p → ∃ size body en, downloaded s size body en ∧ zlen body < size ∧ p `prefix_of` body.

Definition get_throws (f dir : bytes) (s : io) : Prop :=
  canonical_ok (append (path_of dir) (path_of f)) = false ∨
  ∃ header body en, line_spec DEFAULT_MAX_LINE (stream (rx s)) (stream_end (rx s)) = Some (true, header, body, en) ∧
    starts_with (lit "OK") header = true ∧ zlen header < 3.

Lemma gave_up_none s : gave_up s None.
Proof. by intros p. Qed.

Lemma favourable_line f dir s :
  favourable f dir s → ∃ header iss rest size body en,
    line_spec DEFAULT_MAX_LINE (stream (rx s)) (stream_end (rx s)) = Some (true, header, body, en) ∧
    starts_with (lit "OK") header = true ∧ substr 3 header = Some iss ∧ extract_u64 iss = (size, true, rest).
Proof. intros (_ & _ & _ & _ & size & body & en & (header & iss & rest & ?) & _). naive_solver. Qed.

Lemma downloaded_unique s n1 b1 e1 n2 b2 e2 : downloaded s n1 b1 e1 → downloaded s n2 b2 e2 → n1 = n2 ∧ b1 = b2.
Proof. intros (?&?&?&?&_&?&?) (?&?&?&?&_&?&?). simplify_eq. split; congruence. Qed.

(** The end of a download: the client says [QUIT], whatever comes of it. *)
Lemma send_quit_wp sock f dir s s3 size body en (progress : list Z) (X : io → Prop) :
  is_valid sock = true → downloaded s size body en → size ≤ zlen body →
  tx s3 = tx s ++ (lit "GET " ++ f ++ [LF]) → (Forall send_ok (sq s) → Forall send_ok (sq s3)) →
  wp (send_string (lit "QUIT" ++ [LF]) sock;;
      mret (true, Some (ztake (capacity (append (path_of dir) (path_of f))) (ztake size body)), progress))
    (λ (r : bool * option bytes * list Z) s',
       if r.1.1 then saved_all f dir s s' r.1.2 else gave_up s r.1.2 ∧ ¬ favourable f dir s)
    X (λ _, ¬ favourable f dir s) s3.
Proof.
  intros Hv Hd Hlen Ht3 Hok3. apply wp_bind, wp_send_string; [done|..].
  - intros s4 _ Ht4 _. apply wp_ret. eexists _, _, _, _. split_and!; [exact Hd|done|done| |reflexivity|done].
    by rewrite Ht4, Ht3, <-app_assoc.
  - intros s4 p _ Hp Ht4 Hn. split.
    + apply wp_ret. eexists _, _, _, _. split_and!; [exact Hd|done|done| |exact Hp|intros H; by destruct Hn; auto].
      by rewrite Ht4, Ht3, <-app_assoc.
    + intros (_ & _ & _ & H & _). by destruct Hn; auto.
Qed.

Lemma do_get_wp sock f dir s :
  is_valid sock = true →
  wp (do_get mkdir_ok can_create capacity canonical_ok sock f dir)
    (λ r s', if r.1.1 then saved_all f dir s s' r.1.2 else gave_up s r.1.2 ∧ ¬ favourable f dir s)
    (λ _, get_throws f dir s ∧ ¬ favourable f dir s)
    (λ _, ¬ favourable f dir s) s.
Proof.
  intros Hv. unfold do_get.
  destruct (mkdir_ok dir) eqn:Hmk; simpl; [|apply wp_ret; split; [apply gave_up_none|]; intros (? & _); congruence].
  apply wp_bind, wp_send_string; [done| |].
  2:{ intros s1 p Hfr Hp Ht Hn. assert (¬ favourable f dir s) by (by intros (_ & _ & _ & ? & _)).
      split; [|done]. apply wp_ret. split; [apply gave_up_none|done]. }
  intros s1 (Hrx & _) Htx1 Hsq1. simpl. apply wp_bind.
  eapply wp_mono; [apply recv_line_wp_spec; [done|done]|..]; [|done|].
  2:{ intros s2 [Hline _]. rewrite Hrx in Hline. intros (? & ? & ? & ? & ? & ? & ? & _)%favourable_line. congruence. }
  intros [ok header] s2 [Hline Hfr2]. rewrite Hrx in Hline. simpl in *.
  destruct ok; simpl.
  2:{ apply wp_ret. split; [apply gave_up_none|]. intros (? & ? & ? & ? & ? & ? & ? & _)%favourable_line. congruence. }
  destruct (starts_with _ header) eqn:Hok; simpl.
  2:{ apply wp_ret. split; [apply gave_up_none|]. intros (? & ? & ? & ? & ? & ? & ? & ? & _)%favourable_line. simplify_eq; congruence. }
  destruct (substr 3 header) as [iss|] eqn:Hsub.
  2:{ apply wp_throw. split.
      - right. eexists _, _, _. split_and!; [exact Hline|done|].
        unfold substr in Hsub. destruct (Z.ltb_spec (zlen header) 3); [done|discriminate].
      - intros (? & ? & ? & ? & ? & ? & ? & ? & ? & _)%favourable_line. simplify_eq; congruence. }
  destruct (extract_u64 iss) as [[size ok] rest] eqn:Hext. destruct ok; simpl.
  2:{ apply wp_ret. split; [apply gave_up_none|]. intros (? & ? & ? & ? & ? & ? & ? & ? & ? & ?)%favourable_line. simplify_eq; congruence. }
  assert (downloaded s size (stream (rx s2)) (stream_end (rx s2))) as Hd by (by exists header, iss, rest).
  destruct (can_create _) eqn:Hcr; simpl; [|apply wp_ret; split; [apply gave_up_none|]; intros (_ & ? & _); congruence].
  apply wp_bind. eapply wp_mono; [apply get_loop_wp; [done|by eapply extract_u64_range]|..]; [|done|].
  2:{ intros s3 [_ Hlen] (_ & _ & _ & _ & ? & ? & ? & Hd' & Hle).
      destruct (downloaded_unique _ _ _ _ _ _ _ Hd Hd') as [<- <-]. lia. }
  intros [[all written] progress] s3 [Hfr3 Hall]. simpl in *. destruct all; simpl.
  2:{ destruct Hall as [Hp Hlen]. apply wp_ret. simpl. split.
      - intros p [= <-]. eexists _, _, _. split_and!; [exact Hd|done|]. etrans; [apply ztake_prefix|exact Hp].
      - intros (_ & _ & _ & _ & ? & ? & ? & Hd' & Hle).
        destruct (downloaded_unique _ _ _ _ _ _ _ Hd Hd') as [<- <-]. lia. }
  destruct Hall as (Hlen & -> & _ & _).
  destruct (canonical_ok _) eqn:Hcan; simpl.
  2:{ apply wp_throw. split; [by left|]. intros (_ & _ & ? & _). congruence. }
  pose proof Hfr2 as (Esq2 & E2 & _). pose proof Hfr3 as (Esq3 & E3 & _).
  assert (tx s3 = tx s ++ (lit "GET " ++ f ++ [LF])) as Ht3 by (rewrite E3, E2; exact Htx1).
  assert (Forall send_ok (sq s) → Forall send_ok (sq s3)) as Hok3.
  { intros H. rewrite Esq3, Esq2. by eapply suffix_Forall. }
  apply (send_quit_wp sock f dir s s3 size _ _ progress _ Hv Hd Hlen Ht3 Hok3).
Qed.
End get.

(** ** Lemmas on [do_list] *)

(** A catalogue entry the text format can carry. *)
Definition listable (f : MediaFileInfo) : Prop :=
  filename f ≠ [] ∧ Forall (λ c, nonspace c = true) (filename f) ∧ 0 ≤ size_bytes f < 2 ^ 64 ∧
  zlen (filename f) < 4000.

Lemma dec_go_length fuel n : (length (dec_go fuel n) ≤ fuel)%nat.
Proof.
  revert n. induction fuel as [|fuel IH]; intros n; simpl; [lia|]. destruct (n <? 10); simpl; [lia|].
  rewrite length_app. simpl. specialize (IH (n / 10)). lia.
Qed.

Lemma dec_length n : 0 ≤ n < 2 ^ 64 → zlen (dec n) ≤ 64.
Proof.
  intros Hn. unfold zlen, dec. pose proof (dec_go_length (S (Z.to_nat (Z.log2 n))) n) as H.
  assert (Z.log2 n ≤ 63).
  { destruct (decide (n = 0)) as [->|]; [done|]. apply Z.lt_succ_r. apply Z.log2_lt_pow2; lia. }
  pose proof (Z.log2_nonneg n). lia.
Qed.

(** The text of an entry, without its newline. *)
Definition row_text (f : MediaFileInfo) : bytes := filename f ++ lit " " ++ dec (size_bytes f).

Lemma list_line_row f : list_line f = row_text f ++ [LF].
Proof. unfold list_line, row_text. by rewrite <-!app_assoc. Qed.

Lemma extract_u64_space s : extract_u64 (lit " " ++ s) = extract_u64 s.
Proof. done. Qed.

Lemma parse_row_text f : listable f → parse_row (row_text f) = f.
Proof.
  intros (Hne & Hns & Hsz & _). unfold parse_row, row_text.
  rewrite extract_word_app; [|done|done|by intros c [= <-]].
  rewrite extract_u64_space, <-(app_nil_r (dec _)), extract_u64_dec by done. by destruct f.
Qed.

(** A line that ends with a number ends with no carriage return. *)
Lemma chomp_dec pre n : 0 ≤ n → chomp (pre ++ dec n) = pre ++ dec n.
Proof.
  intros Hn. apply chomp_last. rewrite last_app.
  pose proof (dec_digits n Hn) as Hd. pose proof (dec_nonempty n) as Hne.
  destruct (last (dec n)) as [c|] eqn:E; [|by apply last_None in E].
  intros [= ->]. apply last_Some_elem_of in E. rewrite Forall_forall in Hd. by specialize (Hd _ E).
Qed.

Lemma row_text_line f : listable f →
  Forall (λ c, c ≠ LF) (row_text f) ∧ zlen (row_text f) < DEFAULT_MAX_LINE ∧ chomp (row_text f) = row_text f.
Proof.
  intros (Hne & Hns & Hsz & Hlen). unfold row_text. split_and!.
  - apply Forall_app. split; [by eapply Forall_impl; [exact Hns|]; intros c; apply nonspace_ne_lf|].
    apply Forall_app. split; [by repeat constructor|]. apply dec_not_lf. lia.
  - rewrite !zlen_app. pose proof (dec_length _ Hsz).
    assert (zlen (lit " ") = 1) by done. unfold DEFAULT_MAX_LINE. lia.
  - rewrite app_assoc. apply chomp_dec. lia.
Qed.

Lemma header_line n : 0 ≤ n < 2 ^ 64 →
  Forall (λ c, c ≠ LF) (lit "OK " ++ dec n) ∧ zlen (lit "OK " ++ dec n) < DEFAULT_MAX_LINE ∧
  chomp (lit "OK " ++ dec n) = lit "OK " ++ dec n.
Proof.
  intros Hn. split_and!.
  - apply Forall_app. split; [by repeat constructor|]. apply dec_not_lf. lia.
  - rewrite zlen_app. pose proof (dec_length n Hn). assert (zlen (lit "OK ") = 3) by done. unfold DEFAULT_MAX_LINE. lia.
  - apply chomp_dec. lia.
Qed.

(** The client's reading of the server's header line. *)
Lemma header_starts x : starts_with (lit "OK") (lit "OK " ++ x) = true.
Proof. apply (starts_with_app (lit "OK") (lit " " ++ x)). Qed.

Lemma header_payload x : substr 3 (lit "OK " ++ x) = Some x.
Proof.
  unfold substr. rewrite zlen_app. assert (zlen (lit "OK ") = 3) as -> by done.
  destruct (Z.ltb_spec (3 + zlen x) 3); [|done]. pose proof (zlen_nonneg x). lia.
Qed.

Lemma header_number n : 0 ≤ n < 2 ^ 64 → extract_u64 (dec n) = (n, true, []).
Proof. intros Hn. rewrite <-(app_nil_r (dec n)). by apply extract_u64_dec. Qed.

(** Receiving a line that is there. *)
Lemma wp_recv_text text rest sock (Q : bool * bytes → io → Prop) (X B : io → Prop) s :
  is_valid sock = true → stream (rx s) = text ++ LF :: rest →
  Forall (λ c, c ≠ LF) text → zlen text < DEFAULT_MAX_LINE → chomp text = text →
  (∀ s', rx_frame s s' → stream (rx s') = rest → stream_end (rx s') = stream_end (rx s) →
     (rx_size (rx s') < rx_size (rx s))%nat → Q (true, text) s') →
  wp (recv_line DEFAULT_MAX_LINE sock) Q X B s.
Proof.
  intros Hv Hst Hlf Hlen Hcr HQ.
  eapply wp_mono; [apply wp_and; [by apply recv_line_wp_spec|apply recv_line_size]|..]; simpl.
  - intros [ok line] s' [[Hline Hfr] Hsz]. rewrite Hst, line_spec_found, Hcr in Hline by done.
    simpl in *. simplify_eq. by apply HQ; auto.
  - by intros s' [[] _].
  - intros s' [[Hline _] _]. by rewrite Hst, line_spec_found in Hline.
Qed.

Lemma list_loop_wp sock fs rest s :
  is_valid sock = true → Forall listable fs → stream (rx s) = concat (map list_line fs) ++ rest →
  wp (loop (λ _ s, rx_size (rx s)) (list_body sock (zlen fs)) (0, []))
    (λ r s', r = (true, fs) ∧ rx_frame s s' ∧ stream (rx s') = rest) (λ _, False) (λ _, False) s.
Proof.
  intros Hv Hfs Hst.
  apply (wp_loop (λ v s', rx_frame s s' ∧ ∃ todo, fs = v.2 ++ todo ∧ v.1 = zlen v.2 ∧
           stream (rx s') = concat (map list_line todo) ++ rest)).
  2:{ split; [done|]. by exists fs. }
  intros [i rows] s' (Hfr & todo & Hsplit & Hi & Hst'). simpl in *. unfold list_body.
  subst i fs. rewrite zlen_app. destruct todo as [|f todo].
  - rewrite zlen_nil. destruct (Z.ltb_spec (zlen rows) (zlen rows + 0)); [lia|].
    apply wp_ret. by rewrite app_nil_r.
  - rewrite zlen_cons. pose proof (zlen_nonneg todo).
    destruct (Z.ltb_spec (zlen rows) (zlen rows + (1 + zlen todo))); [|lia].
    apply Forall_app in Hfs as [_ Hfs]. inversion Hfs as [|?? Hf _]; subst.
    destruct (row_text_line f Hf) as (Hlf & Hlen & Hcr).
    simpl in Hst'. rewrite list_line_row, <-!app_assoc in Hst'.
    apply wp_bind. eapply wp_recv_text; [done|exact Hst'|done|done|done|].
    intros s2 Hfr2 Hst2 _ Hsz. simpl. apply wp_ret. split; [|exact Hsz]. split; [by etrans|].
    exists todo. simpl. rewrite parse_row_text by done. rewrite <-app_assoc, zlen_app, zlen_cons, zlen_nil.
    split_and!; [done|lia|done].
Qed.

Lemma list_response_header fs rest :
  build_list_response fs ++ rest = (lit "OK " ++ dec (zlen fs)) ++ LF :: concat (map list_line fs) ++ rest.
Proof. unfold build_list_response. by rewrite <-!app_assoc. Qed.

Lemma do_list_wp sock fs rest s :
  is_valid sock = true → Forall listable fs → zlen fs < 2 ^ 64 → Forall send_ok (sq s) →
  stream (rx s) = build_list_response fs ++ rest →
  wp (do_list sock)
    (λ r s', r = (true, fs) ∧ tx s' = tx s ++ lit "LIST" ++ [LF] ++ lit "QUIT" ++ [LF] ∧ stream (rx s') = rest)
    (λ _, False) (λ _, False) s.
Proof.
  intros Hv Hfs Hlen Hok Hst. unfold do_list. pose proof (zlen_nonneg fs).
  apply wp_bind, wp_send_string; [done| |by intros s1 p _ _ _ []].
  intros s1 (Hrx & _) Ht1 Hsuf1. simpl. apply wp_bind.
  destruct (header_line (zlen fs)) as (Hlf & Hl & Hcr); [lia|].
  eapply (wp_recv_text (lit "OK " ++ dec (zlen fs)) (concat (map list_line fs) ++ rest)); [done| |done|done|done|].
  { by rewrite Hrx, Hst, list_response_header. }
  intros s2 Hfr2 Hst2 _ _. cbn [fst snd negb]. rewrite header_starts, header_payload, header_number by lia.
  cbn [fst snd negb].
  apply wp_bind. eapply wp_mono; [by apply list_loop_wp|..]; [|done|done].
  intros r s3 (-> & Hfr3 & Hst3). simpl. pose proof Hfr2 as (Eq2 & Et2 & _). pose proof Hfr3 as (Eq3 & Et3 & _).
  apply wp_bind, wp_send_string; [done|..].
  - intros s4 (Hrx4 & _) Ht4 _. apply wp_ret. split_and!; [done| |congruence].
    by rewrite Ht4, Et3, Et2, Ht1, <-!app_assoc.
  - intros s4 p _ _ _ Hn. destruct Hn. rewrite Eq3, Eq2. by eapply suffix_Forall.
Qed.

(** ** Lemmas on the command line *)
Lemma port_of_range v : 0 ≤ port_of v < 2 ^ 16.
Proof. unfold port_of, u16. apply Z.mod_pos_bound. lia. Qed.

Lemma list_args_port n args h p b :
  (length args ≤ n)%nat → 0 ≤ p < 2 ^ 16 → 0 ≤ (list_args h p b args).2 < 2 ^ 16.
Proof.
  revert args h p b. induction n as [|n IH]; intros [|arg args] h p b Hn Hp; simpl in Hn; try done; [lia|].
  cbn [list_args]. destruct (is_opt "-l" "--list" arg); [by apply IH; [lia|]|].
  destruct (is_opt "-s" "--server" arg).
  { destruct args as [|v args]; [done|]. simpl in Hn. by apply IH; [lia|]. }
  destruct (is_opt "-p" "--port" arg).
  { destruct args as [|v args]; [done|]. simpl in Hn. apply IH; [lia|apply port_of_range]. }
  destruct (positional arg); [|by apply IH; [lia|]].
  destruct b; [apply IH; [lia|apply port_of_range]|by apply IH; [lia|]].
Qed.

Lemma flag_args_ok n args o o' :
  (length args ≤ n)%nat → 0 ≤ o_port o < 2 ^ 16 → flag_args o args = Some o' →
  0 ≤ o_port o' < 2 ^ 16 ∧ o_list_mode o' = o_list_mode o.
Proof.
  revert args o. induction n as [|n IH]; intros [|arg args] o Hn Hp; simpl in Hn; try (by intros [= <-]); [lia|].
  cbn [flag_args].
  assert (∀ v args' o2, args = v :: args' → 0 ≤ o_port o2 < 2 ^ 16 → o_list_mode o2 = o_list_mode o →
            flag_args o2 args' = Some o' → 0 ≤ o_port o' < 2 ^ 16 ∧ o_list_mode o' = o_list_mode o) as Hrec.
  { intros v args' o2 -> Hp2 <- H. simpl in Hn. apply (IH args' o2); [lia|done|done]. }
  pose proof (port_of_range) as Hport.
  destruct (is_opt "-s" "--server" arg); [destruct args as [|v args']; [by intros [= <-]|by apply (Hrec v)]|].
  destruct (is_opt "-p" "--port" arg); [destruct args as [|v args']; [by intros [= <-]|by apply (Hrec v); simpl; auto]|].
  destruct (is_opt "-g" "--get" arg); [destruct args as [|v args']; [by intros [= <-]|by apply (Hrec v)]|].
  destruct (is_opt "-o" "--output-dir" arg); [destruct args as [|v args']; [by intros [= <-]|by apply (Hrec v)]|].
  done.
Qed.

(** ** Properties *)

(** C10: whatever the network does, a download that reports success has saved, up
    to what the disk takes, exactly the announced number of bytes that follow
    the header line in the server's stream; one that gives up has saved a
    beginning of them; it always terminates or waits; and when nothing stands in
    its way it succeeds. *)
Theorem download_saves_stream mkdir_ok can_create capacity canonical_ok sock f dir s :
  is_valid sock = true →
  wp (do_get mkdir_ok can_create capacity canonical_ok sock f dir)
    (λ r s', if r.1.1 then saved_all capacity f dir s s' r.1.2
             else gave_up s r.1.2 ∧ ¬ favourable mkdir_ok can_create canonical_ok f dir s)
    (λ _, get_throws canonical_ok f dir s ∧ ¬ favourable mkdir_ok can_create canonical_ok f dir s)
    (λ _, ¬ favourable mkdir_ok can_create canonical_ok f dir s) s.
Proof. apply do_get_wp. Qed.

(** A server's answer in three pieces. *)
Definition demo_answer : io :=
  set_rx [Seg (lit "OK"); Seg (lit " 5" ++ [LF] ++ lit "he"); RecvErr EINTR; Seg (lit "lloOK BYE" ++ [LF])] io0.
Definition demo_get (s : io) := do_get (λ _, true) (λ _, true) (λ _, 100) (λ _, true) (mkSocket 3) (lit "a") (lit "d") s.

Lemma download_saves_stream_witness :
  match demo_get demo_answer with Ret r _ => r | _ => (false, None, []) end = (true, Some (lit "hello"), [100]) ∧
  match demo_get demo_answer with
  | Ret r s' => if r.1.1 then saved_all (λ _, 100) (lit "a") (lit "d") demo_answer s' r.1.2
                else gave_up demo_answer r.1.2 ∧ ¬ favourable (λ _, true) (λ _, true) (λ _, true) (lit "a") (lit "d") demo_answer
  | _ => False
  end.
Proof.
  split; [by vm_compute|]. unfold demo_get.
  pose proof (download_saves_stream (λ _, true) (λ _, true) (λ _, 100) (λ _, true) (mkSocket 3) (lit "a") (lit "d")
                demo_answer eq_refl) as H.
  apply wp_returns in H as (r & s' & E & H); [|by vm_compute]. rewrite E. exact H.
Defined.

(** C11: a catalogue whose names are single words arrives as it was sent: for
    every segmentation of the server's LIST response the client shows exactly
    the server's entries, then asks to quit, and leaves what follows unread. *)
Theorem list_round_trip sock fs rest s :
  is_valid sock = true → Forall listable fs → zlen fs < 2 ^ 64 → Forall send_ok (sq s) →
  stream (rx s) = build_list_response fs ++ rest →
  wp (do_list sock)
    (λ r s', r = (true, fs) ∧ tx s' = tx s ++ lit "LIST" ++ [LF] ++ lit "QUIT" ++ [LF] ∧ stream (rx s') = rest)
    (λ _, False) (λ _, False) s.
Proof. apply do_list_wp. Qed.

Lemma list_round_trip_witness :
  let fs := [mkInfo (lit "a.mp4") 3; mkInfo (lit "b.mp4") 40] in
  let s := set_rx [Seg (lit "OK 2" ++ [LF] ++ lit "a.mp"); Seg (lit "4 3" ++ [LF] ++ lit "b.mp4 40" ++ [LF])] io0 in
  wp (do_list (mkSocket 3))
    (λ r s', r = (true, fs) ∧ tx s' = lit "LIST" ++ [LF] ++ lit "QUIT" ++ [LF] ∧ stream (rx s') = [])
    (λ _, False) (λ _, False) s.
Proof.
  intros fs s. apply (list_round_trip (mkSocket 3) fs [] s); [reflexivity| |reflexivity|constructor|by vm_compute].
  repeat constructor; simpl; try (by vm_compute); try discriminate; lia.
Defined.

(** C38: as long as the file is smaller than 2^64 / 100 bytes the progress display
    stays between 0 and 100, never goes back, and ends at 100. *)
Theorem percent_bounds t1 t2 size :
  0 < size → size * 100 < 2 ^ 64 → 0 ≤ t1 ≤ t2 → t2 ≤ size →
  0 ≤ percent t1 size ≤ percent t2 size ∧ percent t2 size ≤ 100 ∧ percent size size = 100.
Proof.
  intros Hs Hmax Ht Hle. unfold percent. destruct (Z.ltb_spec 0 size); [|lia].
  assert (∀ t, 0 ≤ t ≤ size → u64 (t * 100) = t * 100) as Hu by (intros t ?; unfold u64; rewrite Z.mod_small; lia).
  rewrite !Hu by lia.
  assert (∀ t, 0 ≤ t ≤ size → 0 ≤ t * 100 / size ≤ 100) as Hq.
  { intros t Hr. split; [apply Z.div_pos; lia|]. apply Z.div_le_upper_bound; lia. }
  assert (∀ z, 0 ≤ z ≤ 100 → i32 z = z) as Hi by (intros z ?; unfold i32; rewrite Z.mod_small; lia).
  rewrite !Hi by (apply Hq; lia). split_and!.
  - apply Hq. lia.
  - apply Z.div_le_mono; lia.
  - apply Hq. lia.
  - rewrite Z.mul_comm, Z.div_mul; lia.
Qed.

Lemma percent_bounds_witness : percent 1 3 = 33 ∧ 0 ≤ percent 1 3 ≤ percent 2 3 ∧ percent 3 3 = 100.
Proof.
  split; [by vm_compute|].
  destruct (percent_bounds 1 2 3) as (H1 & _ & H3); [lia|lia|lia|lia|]. split; [exact H1|exact H3].
Defined.

(** C37: every accepted command line of the client has a port of 1 to 65535, and
    asks for the listing or names a file, never both. *)
Theorem client_args_ok args o :
  client_args args = inr o →
  1 ≤ o_port o < 2 ^ 16 ∧ (o_list_mode o = true ↔ o_get_file o = []).
Proof.
  unfold client_args. destruct (match args with [] => false | _ => _ end); [done|].
  assert (∀ o', 0 ≤ o_port o' < 2 ^ 16 → (o_list_mode o' = true → o_get_file o' = []) →
    (if negb (o_list_mode o') && bool_decide (o_get_file o' = []) then inl 1
     else if o_port o' =? 0 then inl 1 else inr o') = (inr o : Z + options) →
    1 ≤ o_port o < 2 ^ 16 ∧ (o_list_mode o = true ↔ o_get_file o = [])) as Hfin.
  { intros o' Hp Hl. destruct (negb (o_list_mode o') && bool_decide (o_get_file o' = [])) eqn:E; [done|].
    destruct (Z.eqb_spec (o_port o') 0); [done|]. intros [= <-]. split; [lia|]. split; [done|]. intros Hg.
    rewrite bool_decide_eq_true_2, andb_true_r in E by done. by destruct (o_list_mode o'). }
  assert (0 ≤ o_port default_options < 2 ^ 16) as Hdef by (simpl; lia).
  assert (∀ r : option options, r = flag_args default_options args →
    match r with None => inl 1 | Some o' =>
      if negb (o_list_mode o') && bool_decide (o_get_file o' = []) then inl 1
      else if o_port o' =? 0 then inl 1 else inr o' end = (inr o : Z + options) →
    1 ≤ o_port o < 2 ^ 16 ∧ (o_list_mode o = true ↔ o_get_file o = [])) as Hflags.
  { intros [o'|] Hr; [|done]. destruct (flag_args_ok (length args) args default_options o') as [Hp Hl]; [done..|].
    apply Hfin; [done|]. rewrite Hl. done. }
  destruct (existsb _ args).
  - destruct (list_args _ _ _ args) as [h p] eqn:E. apply Hfin; [|done]. simpl.
    pose proof (list_args_port (length args) args (o_host default_options) (o_port default_options) false) as H.
    rewrite E in H. by apply H.
  - destruct args as [|a1 [|a2 [|a3 more]]]; try by apply Hflags.
    destruct (positional a1); [|by apply Hflags]. apply Hfin; [apply port_of_range|done].
Qed.

Lemma client_args_ok_witness :
  let args := [lit "-g"; lit "a.mp4"; lit "-p"; lit "9000"] in
  client_args args = inr (mkOptions (lit "127.0.0.1") 9000 (lit "a.mp4") (lit "downloads") false) ∧
  1 ≤ 9000 < 2 ^ 16.
Proof.
  intros args.
  assert (client_args args = inr (mkOptions (lit "127.0.0.1") 9000 (lit "a.mp4") (lit "downloads") false)) as H
    by by vm_compute.
  split; [exact H|]. exact (proj1 (client_args_ok args _ H)).
Defined.

(** C40: a server answer "OK" with nothing after it, which the server's own
    builder makes for an empty message, ends the client with an uncaught
    exception, in a listing and in a download alike. *)
Theorem bare_ok_throws mkdir_ok can_create capacity canonical_ok sock f dir rest s :
  is_valid sock = true → Forall send_ok (sq s) → mkdir_ok dir = true →
  stream (rx s) = build_ok_response [] ++ rest →
  wp (do_list sock) (λ _ _, False) (λ _, True) (λ _, False) s ∧
  wp (do_get mkdir_ok can_create capacity canonical_ok sock f dir) (λ _ _, False) (λ _, True) (λ _, False) s.
Proof.
  intros Hv Hok Hmk Hst. unfold do_list, do_get. rewrite Hmk. cbn [negb]. split.
  all: apply wp_bind, wp_send_string; [done| |by intros s1 p _ _ _ []].
  all: intros s1 (Hrx & _) _ _; cbn [negb]; apply wp_bind.
  all: eapply (wp_recv_text (lit "OK") rest); [done| |by repeat constructor|done|done|].
  all: try (by rewrite Hrx, Hst).
  all: intros s2 _ _ _ _; by apply wp_throw.
Qed.

Lemma bare_ok_throws_witness :
  let s := set_rx [Seg (lit "OK" ++ [LF])] io0 in
  wp (do_list (mkSocket 3)) (λ _ _, False) (λ _, True) (λ _, False) s.
Proof.
  intros s.
  exact (proj1 (bare_ok_throws (λ _, true) (λ _, true) (λ _, 100) (λ _, true) (mkSocket 3) (lit "a") (lit "d") [] s
                  eq_refl ltac:(constructor) eq_refl eq_refl)).
Defined.

(** C39: the result of writing the output file is not checked: when the disk takes
    fewer bytes than the file has, the client still reports success. *)
Theorem full_disk_reports_success mkdir_ok can_create capacity canonical_ok sock f dir size body en s :
  is_valid sock = true → favourable mkdir_ok can_create canonical_ok f dir s → downloaded s size body en →
  0 ≤ capacity (append (path_of dir) (path_of f)) < size →
  wp (do_get mkdir_ok can_create capacity canonical_ok sock f dir)
    (λ r _, r.1.1 = true ∧ ∃ saved, r.1.2 = Some saved ∧ zlen saved < size) (λ _, False) (λ _, False) s.
Proof.
  intros Hv Hfav Hd Hcap. eapply wp_mono; [by apply do_get_wp|..]; simpl; [|by intros s' []|done].
  intros [[ok saved] progress] s' H. simpl in *. destruct ok; [|by destruct H].
  split; [done|]. destruct H as (size' & body' & en' & q & Hd' & Hlen & -> & _).
  destruct (downloaded_unique _ _ _ _ _ _ _ Hd Hd') as [<- <-].
  eexists. split; [done|]. rewrite !zlen_ztake by lia. lia.
Qed.

Lemma full_disk_reports_success_witness :
  let s := set_rx [Seg (lit "OK 5" ++ [LF] ++ lit "hello")] io0 in
  let get := do_get (λ _, true) (λ _, true) (λ _, 2) (λ _, true) (mkSocket 3) (lit "a") (lit "d") in
  match get s with Ret r _ => r | _ => (false, None, []) end = (true, Some (lit "he"), [100]) ∧
  wp get (λ r _, r.1.1 = true ∧ ∃ saved, r.1.2 = Some saved ∧ zlen saved < 5) (λ _, False) (λ _, False) s.
Proof.
  intros s get. split; [by vm_compute|].
  assert (downloaded s 5 (lit "hello") []) as Hd.
  { exists (lit "OK 5"), (lit "5"), []. by split_and!. }
  apply (full_disk_reports_success (λ _, true) (λ _, true) (λ _, 2) (λ _, true) (mkSocket 3) (lit "a") (lit "d") 5
           (lit "hello") [] s); [reflexivity| |exact Hd|lia].
  split_and!; [done|done|done|constructor|]. exists 5, (lit "hello"), []. split; [exact Hd|by vm_compute].
Defined.

(** The text format of the catalogue does not delimit names: the client shows
    the part of a name before its first space. *)
Lemma spaced_name_misread a b n :
  a ≠ [] → Forall (λ c, nonspace c = true) a →
  filename (parse_row (row_text (mkInfo (a ++ lit " " ++ b) n))) = a.
Proof.
  intros Ha Hns. unfold parse_row, row_text. cbn [filename size_bytes]. rewrite <-app_assoc.
  rewrite extract_word_app; [done|done|done|]. by intros c [= <-].
Qed.

(** In list mode a file named with [-g] is not downloaded, and its name is taken
    for the host. *)
Lemma list_mode_takes_file_for_host :
  client_args [lit "-s"; lit "10.0.0.1"; lit "-l"; lit "-g"; lit "movie.mp4"] =
    inr (mkOptions (lit "movie.mp4") 8080 [] (lit "downloads") true).
Proof. by vm_compute. Qed.
