(* ===== verification/EndToEnd.v ===== *)
(** * A download from the server's session to the client's file

    The two programs composed: what [ClientSession::run] sends in answer to the
    client's request is what [do_get] reads, through a network that may cut the
    bytes anywhere. *)

From S2P Require Import Prelude Types CxxString Protocol Socket FilePath FileManager ClientSession ClientMain.

(** A file name that the request line can carry. *)
Definition requestable (f : bytes) : Prop :=
  f ≠ [] ∧ trimmed f ∧ Forall (λ c, c ≠ LF) f ∧ zlen f < 4000.

Definition get_request (f : bytes) : bytes := lit "GET " ++ f ++ [LF].
Definition quit_request : bytes := lit "QUIT" ++ [LF].

#[local] Arguments lit : simpl never.

(** The server reads the client's request as it was meant. *)
Lemma get_request_line f rest en :
  requestable f →
  line_spec DEFAULT_MAX_LINE (get_request f ++ rest) en = Some (true, lit "GET " ++ f, rest, en) ∧
  parse_request (lit "GET " ++ f) = mkRequest GET f.
Proof.
  intros (Hne & Htrim & Hlf & Hlen). split.
  - assert (get_request f ++ rest = (lit "GET " ++ f) ++ LF :: rest) as ->
      by (unfold get_request; by rewrite <-!app_assoc).
    rewrite line_spec_found.
    + do 4 f_equal. apply chomp_last. rewrite last_app.
      destruct (last f) as [c|] eqn:E; [|by apply last_None in E].
      intros [= ->]. destruct Htrim as [_ Hl]. by specialize (Hl _ E).
    + apply Forall_app. split; [by repeat constructor|done].
    + rewrite zlen_app. assert (zlen (lit "GET ") = 4) as -> by done. unfold DEFAULT_MAX_LINE. lia.
  - pose proof (parse_get [] (lit "GET") (lit " ") f []) as H. rewrite app_nil_r in H.
    apply H; try done; by repeat constructor.
Qed.

(** A calm session that reads [GET f] first answers it first. *)
Lemma conversation_get (ms : MediaStore) f rest en out e :
  requestable f → conversation (get_request f ++ rest) en out e → ∃ more, out = get_reply f ++ more ∧ conversation rest en more e.
Proof.
  intros Hf. destruct (get_request_line f rest en Hf) as [Hline Hparse].
  assert (∀ line st' en', line_spec DEFAULT_MAX_LINE (get_request f ++ rest) en = Some (true, line, st', en') →
            type (parse_request line) = GET ∧ reply (parse_request line) = Some (get_reply f) ∧ st' = rest ∧ en' = en) as Hget.
  { intros line st' en' H. rewrite Hline in H.
    assert (line = lit "GET " ++ f ∧ st' = rest ∧ en' = en) as (-> & -> & ->) by (split_and!; congruence).
    rewrite Hparse. done. }
  inversion 1; subst; try (match goal with H : line_spec _ _ _ = Some (true, _, _, _) |- _ =>
    destruct (Hget _ _ _ H) as (? & ? & -> & ->) end); simplify_eq; try congruence.
  eexists. split; [|done]. congruence.
Qed.

(** The client reads the header the server wrote. *)
Lemma downloaded_reply s n body :
  0 ≤ n < 2 ^ 64 → stream (rx s) = build_get_header n ++ body →
  downloaded s n body (stream_end (rx s)).
Proof.
  intros Hn Hst. destruct (header_line n Hn) as (Hlf & Hlen & Hcr).
  exists (lit "OK " ++ dec n), (dec n), []. split_and!.
  - assert (build_get_header n ++ body = (lit "OK " ++ dec n) ++ LF :: body) as E
      by (unfold build_get_header; by rewrite <-!app_assoc).
    by rewrite Hst, E, line_spec_found, Hcr.
  - apply header_starts.
  - apply header_payload.
  - by apply header_number.
Qed.

(** ** Properties *)

(** C1: when the media store knows a file and its content, a calm session whose
    client sends [GET f] sends an answer from which [do_get], through any
    segmentation and interruption of the stream in between, saves exactly the
    content and reports success, if its own file system lets it; and the request
    [do_get] sends is the one the session was given. *)
Theorem download_end_to_end (ms : MediaStore) (can_allocate : Z → bool) w f n content rest
    mkdir_ok can_create capacity canonical_ok sock dir :
  MediaStoreLaws ms → 0 < chunk_size_ (sess w) → calm w → vector_ok can_allocate (chunk_size_ (sess w)) = true →
  requestable f → size_view f = Some n → content_view f = Some content → zlen content = n →
  stream (rx (net w)) = get_request f ++ rest →
  let out_path := append (path_of dir) (path_of f) in
  let delivered sent := ∀ s, is_valid sock = true → Forall send_ok (sq s) → stream (rx s) = sent →
    mkdir_ok dir = true → can_create out_path = true → canonical_ok out_path = true → n ≤ capacity out_path →
    wp (do_get mkdir_ok can_create capacity canonical_ok sock f dir)
      (λ r s', r.1.1 = true ∧ r.1.2 = Some content ∧ tx s' = tx s ++ get_request f ++ quit_request)
      (λ _, False) (λ _, False) s in
  let answered w' := ∃ sent, tx (net w') = tx (net w) ++ sent ∧ delivered sent in
  wp (run can_allocate) (λ _, answered) answered answered w.
Proof.
  intros laws Hchunk Hcalm Hok Hf Hsize Hcont Hlen Hst out_path delivered answered.
  assert (0 ≤ n < 2 ^ 64) as Hn by (by apply (size_range f)).
  assert (∀ out e, conversation (stream (rx (net w))) (stream_end (rx (net w))) out e → delivered out) as Hdel.
  { intros out e Hconv s Hv Hsend Hrx Hmk Hcr Hcan Hcap. rewrite Hst in Hconv.
    apply conversation_get in Hconv as (more & -> & _); [|done].
    assert (get_reply f = build_get_header n ++ content) as Hreply.
    { unfold get_reply. rewrite bool_decide_eq_false_2, Hsize, Hcont by apply Hf. by rewrite ztake_all by lia. }
    rewrite Hreply, <-app_assoc in Hrx. pose proof (downloaded_reply s n _ Hn Hrx) as Hd.
    assert (n ≤ zlen (content ++ more)) as Hle by (rewrite zlen_app; pose proof (zlen_nonneg more); lia).
    assert (favourable mkdir_ok can_create canonical_ok f dir s) as Hfav.
    { split_and!; [done|done|done|done|]. by eexists _, _, _. }
    eapply wp_mono; [by apply do_get_wp|..]; simpl; [|by intros s' []|done].
    intros r s' H. destruct (r.1.1); [|by destruct H]. split; [done|].
    destruct H as (size & body & en & q & Hd' & _ & -> & Ht & _ & Hq).
    destruct (downloaded_unique _ _ _ _ _ _ _ Hd Hd') as [<- <-]. split.
    - rewrite ztake_app_ge, Hlen, Z.sub_diag, ztake_0, app_nil_r by lia. by rewrite ztake_all by (fold out_path; lia).
    - rewrite Ht, (Hq Hsend). done. }
  eapply wp_mono; [apply run_wp; [done|apply Hcalm]|..].
  - intros _ w' (_ & out & Ht & _ & Hconv). exists out. split; [done|]. by eapply Hdel, Hconv.
  - intros w' [(out & (_ & _ & Ht) & _ & Hconv) _]. exists out. split; [done|]. by eapply Hdel, Hconv.
  - intros w' (out & (_ & _ & Ht) & _ & Hconv). exists out. split; [done|]. by eapply Hdel, Hconv.
Qed.

(** A calm session on the demonstration store, and a client that gets its answer
    one byte at a time. *)
Lemma download_end_to_end_witness :
  let w := demo_world 2 [Seg (lit "GE"); Seg (lit "T a.mp4" ++ [LF]); Seg []] [Accept 1; SendErr EINTR] in
  requestable (lit "a.mp4") ∧
  ∃ sent, match @run demo_store (λ _, true) w with Ret _ w' => tx (net w') | _ => [] end = sent ∧
    wp (do_get (λ _, true) (λ _, true) (λ _, 100) (λ _, true) (mkSocket 5) (lit "a.mp4") (lit "d"))
      (λ r s', r.1.1 = true ∧ r.1.2 = Some (lit "AAA") ∧ tx s' = get_request (lit "a.mp4") ++ quit_request)
      (λ _, False) (λ _, False) (set_rx (map (λ c, Seg [c]) sent) io0).
Proof.
  intros w.
  assert (requestable (lit "a.mp4")) as Hf.
  { split_and!; [discriminate| |repeat constructor; discriminate|by vm_compute].
    split; intros c Hc; vm_compute in Hc; injection Hc as <-; reflexivity. }
  split; [exact Hf|].
  assert (calm w) as Hcalm by (apply demo_calm; repeat constructor; simpl; lia).
  pose proof (download_end_to_end demo_store (λ _, true) w (lit "a.mp4") 3 (lit "AAA") []
                (λ _, true) (λ _, true) (λ _, 100) (λ _, true) (mkSocket 5) (lit "d")
                demo_store_laws eq_refl Hcalm eq_refl Hf
                ltac:(by vm_compute) ltac:(by vm_compute) eq_refl ltac:(by vm_compute)) as H.
  apply wp_returns in H as (a & w' & E & sent & Ht & Hdel); [|by vm_compute].
  assert (match @run demo_store (λ _, true) w with Ret _ w' => tx (net w') | _ => [] end = lit "OK 3" ++ [LF] ++ lit "AAA")
    as Htx by by vm_compute.
  rewrite E in *. exists sent. split; [exact Ht|]. apply Hdel; try reflexivity; [constructor| |lia].
  assert (sent = lit "OK 3" ++ [LF] ++ lit "AAA") as -> by (rewrite <-Htx; symmetry; exact Ht). by vm_compute.
Defined.
